(** * 9router: a shallow embedding of the request pipeline's checked parts

    The development follows the JavaScript sources module by module:

    - [Js]: the JSON values the code manipulates and the handful of
      JavaScript primitives it applies to them (truthiness, property reads
      and writes, [String(v)], [Object.assign], [Array.prototype.includes]);
    - [Sanitizer]: [cleanJSONSchemaForAntigravity] and its helpers
      (open-sse/translator/helpers/geminiHelper.js);
    - [Kiro]: [parseEventFrame] and [KiroExecutor.transformEventStreamToSSE],
      with the stream as a sequence of reads and timer callbacks and the
      frames as bytes;
    - [ChatCore] and [ChatHandler]: [extractUsageFromResponse],
      [handleChatCore] and [handleSingleModelChat]
      (src/sse/handlers/chat.js);
    - [UsageDb]: [trackPendingRequest], [calculateCost], [appendRequestLog],
      [getRecentLogs], [getUsageStats] and [getUsageHistory]
      (src/lib/usageDb.js), the cost in binary64 as [SpecFloat] has it;
    - [Providers]: the [POST /api/providers] route;
    - [Content]: [convertOpenAIContentToParts] and [extractTextContent]
      (open-sse/translator/helpers/geminiHelper.js). *)

From Stdlib Require Import List String Ascii ZArith Lia Bool SpecFloat.
From Stdlib Require Import DecimalString DecimalNat DecimalFacts Finite.
From Stdlib.Strings Require Import Byte.
From stdpp Require Import gmap strings.

Set Warnings "-register-all".
Import ListNotations.

(* ===================================================================== *)
(** * JSON values and the JavaScript primitives used on them *)
(* ===================================================================== *)
Module Js.

(** A JSON value as [JSON.parse] yields it.  A number is held by its
    canonical decimal text, i.e. the text [String(n)] returns for it: the
    code never calculates with the numbers of a schema, it only prints them,
    tests them for truthiness and compares them.  A string is a sequence of
    code units.  An object keeps its properties in insertion order; a
    property read takes the first entry of a name.  Names that the engine
    orders or resolves specially (integer-like names, which it lists first,
    and [__proto__], which an assignment writes through the accessor of
    [Object.prototype]) are treated like any other name here; what is proved
    of a whole run of the sanitizer is stated for values without
    [__proto__]. *)
#[local] Unset Elimination Schemes.
Inductive json : Type :=
| JNull
| JBool (b : bool)
| JNum (repr : string)
| JStr (s : string)
| JArr (items : list json)
| JObj (fields : list (string * json)).
#[local] Set Elimination Schemes.

Abbreviation fields := (list (string * json)).

(** Induction over a value with the hypothesis for every element of an array
    and every property value of an object. *)
Fixpoint json_ind (P : json -> Prop)
  (HNull : P JNull) (HBool : forall b, P (JBool b))
  (HNum : forall r, P (JNum r)) (HStr : forall s, P (JStr s))
  (HArr : forall l, Forall P l -> P (JArr l))
  (HObj : forall fs, Forall (fun kv => P (snd kv)) fs -> P (JObj fs))
  (v : json) {struct v} : P v :=
  let rec := json_ind P HNull HBool HNum HStr HArr HObj in
  match v with
  | JNull => HNull
  | JBool b => HBool b
  | JNum r => HNum r
  | JStr s => HStr s
  | JArr l =>
      HArr l ((fix all (l : list json) : Forall P l :=
                 match l with
                 | [] => @List.Forall_nil _ P
                 | x :: r => @List.Forall_cons _ P x r (rec x) (all r)
                 end) l)
  | JObj fs =>
      HObj fs ((fix all (fs : list (string * json)) :
                  Forall (fun kv => P (snd kv)) fs :=
                  match fs with
                  | [] => @List.Forall_nil _ _
                  | kv :: r => @List.Forall_cons _ _ kv r (rec (snd kv)) (all r)
                  end) fs)
  end.

(** What a call yields: a value, a thrown [TypeError], or nothing because the
    recursion budget of the embedding ran out ([sanitizer_within_budget]
    shows it never does for the budget the sanitizer is run with). *)
Inductive outcome (A : Type) : Type :=
| Ok (a : A)
| TypeError
| NoFuel.
Arguments Ok {A} a.
Arguments TypeError {A}.
Arguments NoFuel {A}.

Definition bind {A B} (m : outcome A) (k : A -> outcome B) : outcome B :=
  match m with
  | Ok a => k a
  | TypeError => TypeError
  | NoFuel => NoFuel
  end.

Notation "'let!' x ':=' m 'in' k" := (bind m (fun x => k))
  (at level 10, x name, m at level 100, k at level 200).

Fixpoint mapM {A B} (f : A -> outcome B) (l : list A) : outcome (list B) :=
  match l with
  | [] => Ok []
  | x :: r => let! y := f x in let! r' := mapM f r in Ok (y :: r')
  end.

Fixpoint foldM {A B} (f : A -> B -> outcome A) (l : list B) (a : A) : outcome A :=
  match l with
  | [] => Ok a
  | x :: r => let! a' := f a x in foldM f r a'
  end.

(** [!!v]: the values JavaScript treats as true. *)
Definition truthy (v : json) : bool :=
  match v with
  | JNull => false
  | JBool b => b
  | JNum r => negb (String.eqb r "0")
  | JStr s => negb (String.eqb s "")
  | JArr _ | JObj _ => true
  end.

(** A property read that found nothing is [undefined], here [None]. *)
Definition truthy_opt (o : option json) : bool :=
  match o with Some v => truthy v | None => false end.

(** [v && typeof v === "object"] *)
Definition is_object_like (v : json) : bool :=
  match v with JArr _ | JObj _ => true | _ => false end.

Definition is_primitive (v : json) : bool := negb (is_object_like v).

Definition is_array (v : json) : bool :=
  match v with JArr _ => true | _ => false end.

(** [o === "lit"] for a property read [o]. *)
Definition is_str (lit : string) (o : option json) : bool :=
  match o with Some (JStr s) => String.eqb s lit | _ => false end.

(** First entry of the name [k], the way [obj[k]] reads an own property. *)
Fixpoint assoc {A} (k : string) (fs : list (string * A)) : option A :=
  match fs with
  | [] => None
  | (k', v) :: r => if String.eqb k' k then Some v else assoc k r
  end.

Definition has_key {A} (k : string) (fs : list (string * A)) : bool :=
  match assoc k fs with Some _ => true | None => false end.

(** [obj[k] = v]: an existing property keeps its place, a new one goes last. *)
Fixpoint obj_set (k : string) (v : json) (fs : fields) : fields :=
  match fs with
  | [] => [(k, v)]
  | (k', v') :: r =>
      if String.eqb k' k then (k', v) :: r else (k', v') :: obj_set k v r
  end.

(** [delete obj[k]] *)
Definition obj_delete (k : string) (fs : fields) : fields :=
  List.filter (fun kv => negb (String.eqb (fst kv) k)) fs.

(** The decimal text of an array index. *)
Definition index_name (i : nat) : string :=
  NilZero.string_of_uint (Nat.to_uint i).

Definition indexed (l : list json) : fields :=
  combine (map index_name (seq 0 (length l))) l.

(** The code units of a string, each as a string of its own. *)
Fixpoint chars (s : string) : list json :=
  match s with
  | EmptyString => []
  | String c r => JStr (String c EmptyString) :: chars r
  end.

(** The own enumerable properties [Object.assign], an object spread and
    [Object.keys] see: the entries of an object, the indexed elements of an
    array, the indexed code units of a string, nothing for the rest. *)
Definition own_entries (v : json) : fields :=
  match v with
  | JObj fs => fs
  | JArr l => indexed l
  | JStr s => indexed (chars s)
  | _ => []
  end.

Definition own_entries_opt (o : option json) : fields :=
  match o with Some v => own_entries v | None => [] end.

(** [Object.assign(target, source)] on the target's property list, for a
    source that has no property [__proto__]. *)
Definition assign (target : fields) (source : fields) : fields :=
  fold_left (fun acc kv => obj_set (fst kv) (snd kv) acc) source target.

(** A property read [v.name] for a name that is neither an index nor
    [length]: only a plain object can hold it. *)
Definition prop (v : json) (k : string) : option json :=
  match v with JObj fs => assoc k fs | _ => None end.

(** [Object.prototype.hasOwnProperty.call(v, k)] *)
Definition has_own (v : json) (k : string) : bool :=
  match v with
  | JObj fs => has_key k fs
  | JArr l => has_key k (indexed l) || String.eqb k "length"
  | JStr s => has_key k (indexed (chars s)) || String.eqb k "length"
  | _ => false
  end.

(** The text of [String(v)], which is also the property key a value turns
    into.  The conversion itself can throw: see [ToString] below. *)
Fixpoint toString (v : json) : string :=
  match v with
  | JNull => "null"
  | JBool true => "true"
  | JBool false => "false"
  | JNum r => r
  | JStr s => s
  | JArr l =>
      (fix join (l : list json) : string :=
         match l with
         | [] => ""
         | x :: r =>
             let sx := match x with JNull => "" | _ => toString x end in
             match r with
             | [] => sx
             | _ :: _ => sx +:+ "," +:+ join r
             end
         end) l
  | JObj _ => "[object Object]"
  end.

(** [String(v)] as the engine runs it, and what [Array.prototype.join] does
    to an element that is not [undefined] or [null].  An object is printed by
    its [toString]; one that JSON gave a property [toString] of its own has
    no function there, nor a [valueOf] that returns a primitive, and the
    conversion throws a [TypeError].  An array is printed by joining its
    elements, [null] as the empty text, each of the others converted in
    turn. *)
Fixpoint ToString (v : json) : outcome string :=
  match v with
  | JArr l =>
      (fix join (l : list json) : outcome string :=
         match l with
         | [] => Ok ""
         | x :: r =>
             match (match x with JNull => Ok "" | _ => ToString x end) with
             | Ok sx =>
                 match r with
                 | [] => Ok sx
                 | _ :: _ =>
                     match join r with
                     | Ok sr => Ok (sx +:+ "," +:+ sr)
                     | TypeError => TypeError
                     | NoFuel => NoFuel
                     end
                 end
             | TypeError => TypeError
             | NoFuel => NoFuel
             end
         end) l
  | JObj fs => if has_key "toString" fs then TypeError else Ok "[object Object]"
  | _ => Ok (toString v)
  end.

(** The values [String(v)] returns for. *)
Fixpoint printable (v : json) : bool :=
  match v with
  | JArr l => forallb printable l
  | JObj fs => negb (has_key "toString" fs)
  | _ => true
  end.

(** SameValueZero, the equality of [Array.prototype.includes] and of [Map]
    keys: primitives by value, objects and arrays by identity.  Two values
    read from different places of a parsed document are never the same
    object. *)
Definition same_value_zero (a b : json) : bool :=
  match a, b with
  | JNull, JNull => true
  | JBool x, JBool y => Bool.eqb x y
  | JNum x, JNum y => String.eqb x y
  | JStr x, JStr y => String.eqb x y
  | _, _ => false
  end.

Definition includes (l : list json) (v : json) : bool :=
  existsb (fun x => same_value_zero x v) l.

(** Nesting height; an object counts two levels, which leaves room for the
    one array some rewrites wrap around a property value. *)
Fixpoint height (v : json) : nat :=
  match v with
  | JArr l => S (fold_right (fun x m => Nat.max (height x) m) 0 l)
  | JObj fs => S (S (fold_right (fun kv m => Nat.max (height (snd kv)) m) 0 fs))
  | _ => 0
  end.

(** ** Facts about property lists *)

Lemma assoc_obj_set_eq k v fs : assoc k (obj_set k v fs) = Some v.
Proof.
  induction fs as [|[k' v'] fs IH]; simpl.
  - now rewrite String.eqb_refl.
  - destruct (String.eqb_spec k' k) as [->|Hne]; simpl.
    + now rewrite String.eqb_refl.
    + destruct (String.eqb_spec k' k); [contradiction | exact IH].
Qed.

Lemma assoc_obj_set_ne k k' v fs :
  k <> k' -> assoc k' (obj_set k v fs) = assoc k' fs.
Proof.
  intros Hne. induction fs as [|[k0 v0] fs IH]; simpl.
  - destruct (String.eqb_spec k k'); [contradiction | reflexivity].
  - destruct (String.eqb_spec k0 k) as [->|H0]; simpl.
    + destruct (String.eqb_spec k k'); [contradiction | reflexivity].
    + now rewrite IH.
Qed.

Lemma assoc_obj_delete_eq k fs : assoc k (obj_delete k fs) = None.
Proof.
  unfold obj_delete. induction fs as [|[k' v'] fs IH]; simpl; [reflexivity|].
  destruct (String.eqb_spec k' k) as [->|Hne]; simpl; [exact IH|].
  destruct (String.eqb_spec k' k); [contradiction | exact IH].
Qed.

Lemma assoc_obj_delete_ne k k' fs :
  k <> k' -> assoc k' (obj_delete k fs) = assoc k' fs.
Proof.
  intros Hne. unfold obj_delete. induction fs as [|[k0 v0] fs IH]; simpl; [reflexivity|].
  destruct (String.eqb_spec k0 k) as [->|H0]; simpl.
  - destruct (String.eqb_spec k k'); [contradiction | exact IH].
  - now rewrite IH.
Qed.

Lemma assoc_In {A} k (v : A) fs : assoc k fs = Some v -> In (k, v) fs.
Proof.
  induction fs as [|[k' v'] fs IH]; simpl; [discriminate|].
  destruct (String.eqb_spec k' k) as [->|Hne].
  - intros [= ->]. now left.
  - intros H. right. now apply IH.
Qed.

Lemma In_obj_set kv k v fs :
  In kv (obj_set k v fs) -> kv = (k, v) \/ In kv fs.
Proof.
  induction fs as [|[k' v'] fs IH]; simpl.
  - intros [<-|[]]. now left.
  - destruct (String.eqb_spec k' k) as [->|Hne]; simpl.
    + intros [<-|H]; [now left | right; now right].
    + intros [<-|H]; [right; now left|].
      destruct (IH H) as [->|H']; [now left | right; now right].
Qed.

Lemma In_obj_delete kv k fs : In kv (obj_delete k fs) -> In kv fs.
Proof. unfold obj_delete. intros H. now apply filter_In in H. Qed.

Lemma In_assign kv target source :
  In kv (assign target source) -> In kv target \/ In kv source.
Proof.
  unfold assign. revert target.
  induction source as [|[k v] source IH]; simpl; intros target H.
  - now left.
  - apply IH in H. destruct H as [H|H]; [|right; now right].
    apply In_obj_set in H. destruct H as [->|H]; [right; now left | now left].
Qed.

Lemma assoc_assign_cases k target source :
  assoc k (assign target source) = assoc k target
  \/ exists v, In (k, v) source /\ assoc k (assign target source) = Some v.
Proof.
  unfold assign. revert target.
  induction source as [|[k' v'] source IH]; simpl; intros target.
  - now left.
  - destruct (IH (obj_set k' v' target)) as [H|(v & Hin & H)].
    + destruct (String.eqb_spec k' k) as [->|Hne].
      * right. exists v'. split; [now left|]. cbn [fst snd] in *.
        rewrite H. apply assoc_obj_set_eq.
      * left. cbn [fst snd] in *. rewrite H. now apply assoc_obj_set_ne.
    + right. exists v. split; [now right | exact H].
Qed.

Lemma has_key_assign k target source :
  has_key k target = true -> has_key k (assign target source) = true.
Proof.
  unfold has_key. intros H.
  destruct (assoc_assign_cases k target source) as [->|(v & _ & ->)];
    [exact H | reflexivity].
Qed.

(** ** Property names

    An object of a parsed document has no name twice.  The property lists
    here can, so a statement that needs it asks for [List.NoDup (names fs)]. *)
Definition names (fs : fields) : list string := map fst fs.

Lemma assoc_None_names k fs : assoc k fs = None <-> ~ In k (names fs).
Proof.
  induction fs as [|[k' v'] fs IH]; simpl; [tauto|].
  destruct (String.eqb_spec k' k) as [->|Hne]; split.
  - discriminate.
  - intros H. exfalso. apply H. now left.
  - intros H [Hk|Hin]; [contradiction|]. now apply IH in H.
  - intros H. apply IH. intros Hin. apply H. now right.
Qed.

Lemma In_names k v fs : In (k, v) fs -> In k (names fs).
Proof. intros H. apply (in_map fst) in H. exact H. Qed.

Lemma names_obj_set k v fs :
  names (obj_set k v fs)
    = if has_key k fs then names fs else names fs ++ [k].
Proof.
  unfold has_key. induction fs as [|[k' v'] fs IH]; simpl; [reflexivity|].
  destruct (String.eqb_spec k' k) as [->|Hne]; simpl; [reflexivity|].
  rewrite IH. now destruct (assoc k fs).
Qed.

Lemma NoDup_obj_set k v fs :
  List.NoDup (names fs) -> List.NoDup (names (obj_set k v fs)).
Proof.
  intros H. rewrite names_obj_set. unfold has_key.
  destruct (assoc k fs) eqn:E; [exact H|].
  apply assoc_None_names in E.
  apply List.NoDup_app; [exact H | constructor; [intros []|constructor] |].
  intros x Hx [<-|[]]. contradiction.
Qed.

Lemma names_obj_delete k fs :
  names (obj_delete k fs) = List.filter (fun x => negb (String.eqb x k)) (names fs).
Proof.
  unfold obj_delete, names. induction fs as [|[k' v'] fs IH]; simpl; [reflexivity|].
  destruct (String.eqb k' k); simpl; now rewrite IH.
Qed.

Lemma NoDup_obj_delete k fs :
  List.NoDup (names fs) -> List.NoDup (names (obj_delete k fs)).
Proof. intros H. rewrite names_obj_delete. now apply List.NoDup_filter. Qed.

Lemma NoDup_assign target source :
  List.NoDup (names target) -> List.NoDup (names (assign target source)).
Proof.
  unfold assign. revert target.
  induction source as [|[k v] source IH]; simpl; intros target H; [exact H|].
  apply IH. now apply NoDup_obj_set.
Qed.

(** What [Object.assign] leaves under a name. *)
Lemma assoc_assign k target source :
  List.NoDup (names source) ->
  assoc k (assign target source)
    = match assoc k source with Some v => Some v | None => assoc k target end.
Proof.
  unfold assign. revert target.
  induction source as [|[k' v'] source IH]; simpl; intros target H; [reflexivity|].
  inversion H as [|? ? Hk Hr]; subst. rewrite (IH _ Hr).
  destruct (String.eqb_spec k' k) as [->|Hne].
  - apply assoc_None_names in Hk. rewrite Hk. apply assoc_obj_set_eq.
  - now rewrite assoc_obj_set_ne.
Qed.

(** The index names of an array are pairwise different. *)
Lemma index_name_inj i j : index_name i = index_name j -> i = j.
Proof.
  assert (Hnn : forall n, Nat.to_uint n <> Decimal.Nil).
  { intros n. rewrite <- (Unsigned.of_to n) at 1. rewrite Unsigned.to_of.
    apply DecimalFacts.unorm_nonnil. }
  unfold index_name. intros H.
  apply (f_equal NilZero.uint_of_string) in H.
  rewrite !NilZero.usu in H by apply Hnn. injection H as H.
  now apply Unsigned.to_uint_inj.
Qed.

Lemma names_combine {A} (ks : list string) (l : list A) :
  length ks = length l -> map fst (combine ks l) = ks.
Proof.
  revert l. induction ks as [|k ks IH]; intros [|x l]; simpl; try discriminate;
    [reflexivity|].
  intros [= H]. now rewrite IH.
Qed.

Lemma names_indexed l : names (indexed l) = map index_name (seq 0 (length l)).
Proof.
  unfold indexed, names. apply names_combine.
  now rewrite length_map, length_seq.
Qed.

Lemma NoDup_indexed l : List.NoDup (names (indexed l)).
Proof.
  rewrite names_indexed. apply Finite.Injective_map_NoDup.
  - intros i j. apply index_name_inj.
  - apply List.seq_NoDup.
Qed.

Lemma In_indexed k v l : In (k, v) (indexed l) -> In v l.
Proof. unfold indexed. apply in_combine_r. Qed.

Lemma NoDup_own_entries v :
  (forall fs, v = JObj fs -> List.NoDup (names fs)) ->
  List.NoDup (names (own_entries v)).
Proof.
  destruct v; simpl; intros H; try constructor; auto using NoDup_indexed.
Qed.

(** [String(v)] returns the text [toString v] for a printable value and
    throws for any other. *)
Lemma ToString_printable v :
  ToString v = if printable v then Ok (toString v) else TypeError.
Proof.
  induction v as [| b | r | s | l IH | fs IH] using json_ind;
    try reflexivity.
  - cbn [ToString printable toString].
    induction IH as [|x l Hx Hl IHl]; [reflexivity|].
    cbn [forallb].
    assert (Ex : match x with JNull => Ok ""%string | _ => ToString x end
                 = if printable x
                   then Ok (match x with JNull => ""%string | _ => toString x end)
                   else TypeError).
    { rewrite Hx. now destruct x. }
    rewrite Ex. destruct (printable x); cbn [andb]; [|reflexivity].
    destruct l as [|y l]; [reflexivity|].
    rewrite IHl. now destruct (forallb printable (y :: l)).
  - cbn [ToString printable toString]. now destruct (has_key "toString" fs).
Qed.

End Js.

(* ===================================================================== *)
(** * The schema sanitizer (open-sse/translator/helpers/geminiHelper.js) *)
(* ===================================================================== *)
Module Sanitizer.
Import Js.

Definition UNSUPPORTED_SCHEMA_CONSTRAINTS : list string :=
  [ "minLength"; "maxLength"; "exclusiveMinimum"; "exclusiveMaximum";
    "pattern"; "minItems"; "maxItems"; "format";
    "default"; "examples";
    "$schema"; "$defs"; "definitions"; "const"; "$ref";
    "additionalProperties"; "propertyNames"; "patternProperties";
    "anyOf"; "oneOf"; "allOf"; "not";
    "dependencies"; "dependentSchemas"; "dependentRequired";
    "title"; "if"; "then"; "else"; "contentMediaType"; "contentEncoding" ].

(** ** The recursion the helpers share

    [convertConstToEnum], [convertEnumValuesToStrings], [mergeAllOf],
    [flattenAnyOfOneOf], [flattenTypeArrays], [cleanupRequired] and
    [addPlaceholders] all have one shape:
<<
      function f(obj) {
        if (!obj || typeof obj !== "object") return;
        <rewrite obj in place>
        for (const value of Object.values(obj))
          if (value && typeof value === "object") f(value);
      }
>>
    [traverse step] is that shape, [step] being the in-place rewrite of one
    object.  The rewrite reads named properties only, which an array does not
    have, so on an array the rewrite does nothing and the loop visits the
    elements.  The loop runs over the values of the rewritten object. *)
Definition map_fields (f : json -> outcome json) (fs : fields) : outcome fields :=
  mapM (fun kv => let! v := f (snd kv) in Ok (fst kv, v)) fs.

Fixpoint traverse (step : fields -> outcome fields) (n : nat) (v : json)
  : outcome json :=
  match v with
  | JObj fs =>
      match n with
      | 0 => NoFuel
      | S n' =>
          let! fs' := step fs in
          let! fs'' := map_fields (traverse step n') fs' in
          Ok (JObj fs'')
      end
  | JArr l =>
      match n with
      | 0 => NoFuel
      | S n' => let! l' := mapM (traverse step n') l in Ok (JArr l')
      end
  | _ => Ok v
  end.

(** The budget a helper is run with. *)
Definition budget (v : json) : nat := height v + 2.

Definition everywhere (step : fields -> outcome fields) (v : json) : outcome json :=
  traverse step (budget v) v.

(** ** Paths (walkAndCollectPaths, deleteAtPath) *)

Definition nonempty (s : string) : bool := negb (String.eqb s "").

Fixpoint walkAndCollectPaths (obj : json) (currentPath targetKey : string)
  : list string :=
  match obj with
  | JArr l =>
      (fix each (l : list json) (index : nat) : list string :=
         match l with
         | [] => []
         | item :: r =>
             let newPath :=
               if nonempty currentPath
               then currentPath +:+ "[" +:+ index_name index +:+ "]"
               else "[" +:+ index_name index +:+ "]" in
             walkAndCollectPaths item newPath targetKey ++ each r (S index)
         end) l 0
  | JObj fs =>
      (fix each (fs : fields) : list string :=
         match fs with
         | [] => []
         | (key, value) :: r =>
             let newPath :=
               if nonempty currentPath then currentPath +:+ "." +:+ key else key in
             (if String.eqb key targetKey then [newPath] else [])
               ++ walkAndCollectPaths value newPath targetKey
               ++ each r
         end) fs
  | _ => []
  end.

(** [path.split(".")] *)
Fixpoint split_dot (s : string) : list string :=
  match s with
  | EmptyString => [EmptyString]
  | String c r =>
      if Ascii.eqb c "."%char then EmptyString :: split_dot r
      else match split_dot r with
           | h :: t => String c h :: t
           | [] => [String c EmptyString]
           end
  end.

(** [current[part]] while a path is followed.  An object answers with its
    own property and an array with the element of that index.  Whatever else
    JavaScript could answer with (a code unit of a string, [length], an
    inherited method) is a value no [delete] of a keyword changes, so the
    walk may as well stop there. *)
Definition get_member (v : json) (part : string) : option json :=
  match v with
  | JObj fs => assoc part fs
  | JArr l => assoc part (indexed l)
  | _ => None
  end.

Fixpoint replace_nth (l : list json) (i : nat) (c : json) : list json :=
  match l, i with
  | [], _ => []
  | _ :: r, 0 => c :: r
  | x :: r, S i' => x :: replace_nth r i' c
  end.

Fixpoint find_index (part : string) (names : list string) (i : nat) : option nat :=
  match names with
  | [] => None
  | nm :: r => if String.eqb nm part then Some i else find_index part r (S i)
  end.

(** The object [v] with the member [part], which it has, now being [c]. *)
Definition set_member (v : json) (part : string) (c : json) : json :=
  match v with
  | JObj fs => JObj (obj_set part c fs)
  | JArr l =>
      match find_index part (map index_name (seq 0 (length l))) 0 with
      | Some i => JArr (replace_nth l i c)
      | None => v
      end
  | _ => v
  end.

(** [delete current[lastKey]]; [lastKey] is one of the keywords, never an
    index, so there is nothing of that name to delete in an array. *)
Definition delete_member (v : json) (lastKey : string) : json :=
  match v with
  | JObj fs => JObj (obj_delete lastKey fs)
  | _ => v
  end.

Fixpoint deleteAtParts (parts : list string) (current : json) : json :=
  match parts with
  | [] => current
  | [lastKey] => delete_member current lastKey
  | part :: rest =>
      match get_member current part with
      | Some next =>
          if truthy next
          then set_member current part (deleteAtParts rest next)
          else current
      | None => current
      end
  end.

Definition deleteAtPath (obj : json) (path : string) : json :=
  deleteAtParts (split_dot path) obj.

(** ** Phase 1 *)

Definition convertConstToEnum_node (obj : fields) : outcome fields :=
  match assoc "const" obj with
  | Some c =>
      if truthy_opt (assoc "enum" obj) then Ok obj
      else Ok (obj_delete "const" (obj_set "enum" (JArr [c]) obj))
  | None => Ok obj
  end.

Definition convertConstToEnum : json -> outcome json :=
  everywhere convertConstToEnum_node.

Definition convertEnumValuesToStrings_node (obj : fields) : outcome fields :=
  match assoc "enum" obj with
  | Some (JArr l) => Ok (obj_set "enum" (JArr (map (fun v => JStr (toString v)) l)) obj)
  | _ => Ok obj
  end.

Definition convertEnumValuesToStrings : json -> outcome json :=
  everywhere convertEnumValuesToStrings_node.

(** ** Phase 2 *)

(** The local [merged] of [mergeAllOf]; a property it has not been given yet
    is [None]. *)
Record merged : Type := {
  m_properties : option fields;
  m_required : option (list json)
}.

(** One round of [for (const item of obj.allOf)].  Reading [item.properties]
    of a [null] member throws. *)
Definition merge_item (m : merged) (item : json) : outcome merged :=
  match item with
  | JNull => TypeError
  | _ =>
      let m1 :=
        match prop item "properties" with
        | Some p =>
            if truthy p
            then {| m_properties :=
                      Some (assign (default [] (m_properties m)) (own_entries p));
                    m_required := m_required m |}
            else m
        | None => m
        end in
      match prop item "required" with
      | Some (JArr reqs) =>
          Ok {| m_properties := m_properties m1;
                m_required :=
                  Some (fold_left
                          (fun acc req => if includes acc req then acc else acc ++ [req])
                          reqs (default [] (m_required m1))) |}
      | _ => Ok m1
      end
  end.

(** [[...(x || [])]]: the elements of an array, the code units of a string,
    nothing for a falsy value; spreading any other value throws. *)
Definition spread_or_empty (o : option json) : outcome (list json) :=
  match o with
  | None => Ok []
  | Some v =>
      if truthy v
      then match v with
           | JArr l => Ok l
           | JStr s => Ok (chars s)
           | _ => TypeError
           end
      else Ok []
  end.

Definition mergeAllOf_node (obj : fields) : outcome fields :=
  match assoc "allOf" obj with
  | Some (JArr items) =>
      let! m := foldM merge_item items
                  {| m_properties := None; m_required := None |} in
      let obj1 := obj_delete "allOf" obj in
      let obj2 :=
        match m_properties m with
        | Some mp =>
            obj_set "properties"
              (JObj (assign (assign [] (own_entries_opt (assoc "properties" obj1))) mp))
              obj1
        | None => obj1
        end in
      match m_required m with
      | Some mr =>
          let! base := spread_or_empty (assoc "required" obj2) in
          Ok (obj_set "required" (JArr (base ++ mr)) obj2)
      | None => Ok obj2
      end
  | _ => Ok obj
  end.

Definition mergeAllOf : json -> outcome json := everywhere mergeAllOf_node.

(** The score [selectBest] gives a branch. *)
Definition score (item : json) : Z :=
  let type := prop item "type" in
  if is_str "object" type || truthy_opt (prop item "properties") then 3
  else if is_str "array" type || truthy_opt (prop item "items") then 2
  else if truthy_opt type && negb (is_str "null" type) then 1
  else 0.

(** The loop of [selectBest] from index [i] on. *)
Fixpoint selectBest_from (items : list json) (i bestIdx : nat) (bestScore : Z) : nat :=
  match items with
  | [] => bestIdx
  | item :: r =>
      if (score item >? bestScore)%Z
      then selectBest_from r (S i) i (score item)
      else selectBest_from r (S i) bestIdx bestScore
  end.

Definition selectBest (items : list json) : nat :=
  selectBest_from items 0 0 (-1).

(** One of the two [if] statements of [flattenAnyOfOneOf], for [key] being
    [anyOf] or [oneOf].  [nonNullSchemas[bestIdx]] exists exactly when
    [nonNullSchemas] is not empty, which needs the array not to be empty. *)
Definition flatten_key (key : string) (obj : fields) : fields :=
  match assoc key obj with
  | Some (JArr branches) =>
      let nonNullSchemas :=
        List.filter (fun s => truthy s && negb (is_str "null" (prop s "type"))) branches in
      match nth_error nonNullSchemas (selectBest nonNullSchemas) with
      | Some selected => assign (obj_delete key obj) (own_entries selected)
      | None => obj
      end
  | _ => obj
  end.

Definition flattenAnyOfOneOf_node (obj : fields) : outcome fields :=
  Ok (flatten_key "oneOf" (flatten_key "anyOf" obj)).

Definition flattenAnyOfOneOf : json -> outcome json :=
  everywhere flattenAnyOfOneOf_node.

Definition flattenTypeArrays_node (obj : fields) : outcome fields :=
  match assoc "type" obj with
  | Some (JArr types) =>
      let nonNullTypes := List.filter (fun t => negb (is_str "null" (Some t))) types in
      Ok (obj_set "type"
            (match nonNullTypes with t :: _ => t | [] => JStr "string" end) obj)
  | _ => Ok obj
  end.

Definition flattenTypeArrays : json -> outcome json :=
  everywhere flattenTypeArrays_node.

(** ** Phase 3: remove the unsupported keywords *)

Definition path_depth (path : string) : nat := length (split_dot path).

(** [paths.sort((a, b) => b.split(".").length - a.split(".").length)]: the
    sort is stable, longest paths first. *)
Fixpoint insert_path (p : string) (sorted : list string) : list string :=
  match sorted with
  | [] => [p]
  | q :: r =>
      if path_depth p <=? path_depth q then q :: insert_path p r
      else p :: q :: r
  end.

Definition sort_paths (paths : list string) : list string :=
  fold_left (fun acc p => insert_path p acc) paths [].

(** One round of [for (const keyword of UNSUPPORTED_SCHEMA_CONSTRAINTS)]. *)
Definition removeKeyword (cleaned : json) (keyword : string) : json :=
  let paths := walkAndCollectPaths cleaned "" keyword in
  fold_left deleteAtPath (sort_paths paths) cleaned.

Definition removeUnsupported (cleaned : json) : json :=
  fold_left removeKeyword UNSUPPORTED_SCHEMA_CONSTRAINTS cleaned.

(** ** Phase 4 *)

Definition cleanupRequired_node (obj : fields) : outcome fields :=
  match assoc "required" obj, assoc "properties" obj with
  | Some (JArr required), Some properties =>
      if truthy properties
      then
        let validRequired :=
          List.filter (fun field => has_own properties (toString field)) required in
        match validRequired with
        | [] => Ok (obj_delete "required" obj)
        | _ :: _ => Ok (obj_set "required" (JArr validRequired) obj)
        end
      else Ok obj
  | _, _ => Ok obj
  end.

Definition cleanupRequired : json -> outcome json :=
  everywhere cleanupRequired_node.

(** ** Phase 5 *)

Definition placeholder_properties : json :=
  JObj [("reason",
         JObj [("type", JStr "string");
               ("description",
                JStr "Brief explanation of why you are calling this tool")])].

Definition addPlaceholders_node (obj : fields) : outcome fields :=
  if is_str "object" (assoc "type" obj)
  then
    if negb (truthy_opt (assoc "properties" obj))
       || (length (own_entries_opt (assoc "properties" obj)) =? 0)
    then Ok (obj_set "required" (JArr [JStr "reason"])
               (obj_set "properties" placeholder_properties obj))
    else Ok obj
  else Ok obj.

Definition addPlaceholders : json -> outcome json :=
  everywhere addPlaceholders_node.

(** ** cleanJSONSchemaForAntigravity

    [JSON.parse(JSON.stringify(schema))] copies a JSON value as it is; the
    phases then work on the copy only. *)
Definition deepClone (schema : json) : json := schema.

Definition cleanJSONSchemaForAntigravity (schema : json) : outcome json :=
  if negb (is_object_like schema) then Ok schema
  else
    let cleaned := deepClone schema in
    let! c1 := convertConstToEnum cleaned in
    let! c2 := convertEnumValuesToStrings c1 in
    let! c3 := mergeAllOf c2 in
    let! c4 := flattenAnyOfOneOf c3 in
    let! c5 := flattenTypeArrays c4 in
    let c6 := removeUnsupported c5 in
    let! c7 := cleanupRequired c6 in
    addPlaceholders c7.

(** * What the sanitizer guarantees *)

(** ** Every object of a value *)

(** [all_nodes P v]: [P] holds of the property list of every object in [v],
    [v] itself included. *)
Inductive all_nodes (P : fields -> Prop) : json -> Prop :=
| all_prim v : is_primitive v = true -> all_nodes P v
| all_arr l : Forall (all_nodes P) l -> all_nodes P (JArr l)
| all_obj fs :
    P fs -> Forall (fun kv => all_nodes P (snd kv)) fs -> all_nodes P (JObj fs).

(** [kin v v']: [v'] has the primitives of [v] where [v] has them, an array
    of as many elements, each kin to its counterpart, where [v] is an array,
    and some object where [v] is an object.  It is what a rewrite of the
    objects of [v] leaves in place. *)
Inductive kin : json -> json -> Prop :=
| kin_prim v : is_primitive v = true -> kin v v
| kin_arr l l' : Forall2 kin l l' -> kin (JArr l) (JArr l')
| kin_obj fs fs' : kin (JObj fs) (JObj fs').

(** Two property lists with the same names in the same places. *)
Definition same_names (R : json -> json -> Prop) (fs fs' : fields) : Prop :=
  Forall2 (fun kv kv' => fst kv = fst kv' /\ R (snd kv) (snd kv')) fs fs'.

Lemma kin_refl v : kin v v.
Proof.
  induction v using json_ind; try (now apply kin_prim).
  - apply kin_arr. induction H; constructor; auto.
  - apply kin_obj.
Qed.

Lemma kin_trans x y z : kin x y -> kin y z -> kin x z.
Proof.
  revert y z. induction x as [| | | |l IH|fs _] using json_ind; intros y z Hxy Hyz;
    try (inversion Hxy; subst; [exact Hyz | discriminate ..]).
  - inversion Hxy as [|? l1 H1|]; subst; [exact Hyz|].
    inversion Hyz as [? Hp|? l2 H2|]; subst; [discriminate Hp|].
    apply kin_arr. clear Hxy Hyz.
    revert l1 l2 H1 H2. induction IH as [|a l Ha _ IHl]; intros l1 l2 H1 H2.
    + inversion H1; subst. inversion H2; subst. constructor.
    + inversion H1; subst. inversion H2; subst. constructor; eauto.
  - inversion Hxy as [| |? fs1]; subst; [exact Hyz|].
    inversion Hyz as [? Hp| |]; subst; [discriminate Hp|]. apply kin_obj.
Qed.

Lemma same_names_assoc R fs fs' k :
  same_names R fs fs' ->
  match assoc k fs, assoc k fs' with
  | Some v, Some v' => R v v'
  | None, None => True
  | _, _ => False
  end.
Proof.
  induction 1 as [|[k1 v1] [k2 v2] fs fs' [Hk Hv] _ IH]; simpl; [exact I|].
  simpl in Hk, Hv. subst k2. destruct (String.eqb k1 k); [exact Hv | exact IH].
Qed.

Lemma same_names_refl (R : json -> json -> Prop) fs :
  (forall v, R v v) -> same_names R fs fs.
Proof. intros HR. induction fs; constructor; auto. Qed.

(** ** The recursion, once and for all *)

Lemma mapM_Forall2 {A B} (f : A -> outcome B) l l' :
  mapM f l = Ok l' -> Forall2 (fun x y => f x = Ok y) l l'.
Proof.
  revert l'. induction l as [|x l IH]; simpl; intros l' H.
  - injection H as <-. constructor.
  - destruct (f x) as [y| |] eqn:Hx; try discriminate. simpl in H.
    destruct (mapM f l) as [r| |]; try discriminate. simpl in H.
    injection H as <-. constructor; auto.
Qed.

Lemma map_fields_Forall2 f fs fs' :
  map_fields f fs = Ok fs' ->
  Forall2 (fun kv kv' => fst kv = fst kv' /\ f (snd kv) = Ok (snd kv')) fs fs'.
Proof.
  unfold map_fields. intros H. apply mapM_Forall2 in H.
  induction H as [|[k v] [k' v'] fs fs' H _ IH]; constructor; [|exact IH].
  simpl in *. destruct (f v); try discriminate. simpl in H. injection H as <- <-.
  now split.
Qed.

(** The shape of a run on an object and on an array. *)
Lemma traverse_obj step n fs r :
  traverse step n (JObj fs) = Ok r ->
  exists m fs' fs'',
    n = S m /\ step fs = Ok fs' /\ r = JObj fs''
    /\ same_names (fun v v' => traverse step m v = Ok v') fs' fs''.
Proof.
  destruct n as [|m]; simpl; [discriminate|].
  destruct (step fs) as [fs'| |] eqn:Hs; try discriminate. simpl.
  destruct (map_fields (traverse step m) fs') as [fs''| |] eqn:Hm; try discriminate.
  simpl. intros [= <-]. exists m, fs', fs''. repeat split.
  now apply map_fields_Forall2.
Qed.

Lemma traverse_arr step n l r :
  traverse step n (JArr l) = Ok r ->
  exists m l',
    n = S m /\ r = JArr l' /\ Forall2 (fun v v' => traverse step m v = Ok v') l l'.
Proof.
  destruct n as [|m]; simpl; [discriminate|].
  destruct (mapM (traverse step m) l) as [l'| |] eqn:Hm; try discriminate.
  simpl. intros [= <-]. exists m, l'. repeat split. now apply mapM_Forall2.
Qed.

Lemma traverse_prim step n v :
  is_primitive v = true -> traverse step n v = Ok v.
Proof. destruct v, n; simpl; try discriminate; reflexivity. Qed.

(** A relation that holds between every value and its rewritten form, given
    that it holds across one object's rewrite. *)
Lemma traverse_rel (step : fields -> outcome fields) (R : json -> json -> Prop) :
  (forall v, is_primitive v = true -> R v v) ->
  (forall l l', Forall2 R l l' -> R (JArr l) (JArr l')) ->
  (forall fs fs' fs'',
      step fs = Ok fs' -> same_names R fs' fs'' -> R (JObj fs) (JObj fs'')) ->
  forall n v r, traverse step n v = Ok r -> R v r.
Proof.
  intros Hprim Harr Hobj. induction n as [|n IH]; intros v r H.
  - destruct v; simpl in H; try discriminate; injection H as <-;
      now apply Hprim.
  - destruct v as [| | | |l|fs];
      try (simpl in H; injection H as <-; now apply Hprim).
    + apply traverse_arr in H. destruct H as (m & l' & [= <-] & -> & H).
      apply Harr. induction H; constructor; auto.
    + apply traverse_obj in H.
      destruct H as (m & fs' & fs'' & [= <-] & Hs & -> & H).
      apply (Hobj _ fs'); [exact Hs|]. clear Hs.
      induction H as [|kv kv' ? ? [Hk Hv]]; constructor; auto.
Qed.

Lemma traverse_kin step n v r : traverse step n v = Ok r -> kin v r.
Proof.
  apply traverse_rel.
  - apply kin_prim.
  - apply kin_arr.
  - intros. apply kin_obj.
Qed.

(** [P] at every object after the rewrite, from [Q] at every object before
    it.  One object's rewrite must establish [P]; the rewrite of its property
    values that follows relates each old value to the new one by [K], which
    [P] must not mind. *)
Lemma traverse_all_nodes (step : fields -> outcome fields)
    (K : json -> json -> Prop) (Q P : fields -> Prop) :
  (forall v, is_primitive v = true -> K v v) ->
  (forall l l', Forall2 K l l' -> K (JArr l) (JArr l')) ->
  (forall fs fs' fs'',
      step fs = Ok fs' -> same_names K fs' fs'' -> K (JObj fs) (JObj fs'')) ->
  (forall fs fs', same_names K fs fs' -> P fs -> P fs') ->
  (forall fs fs',
      step fs = Ok fs' -> all_nodes Q (JObj fs) ->
      P fs' /\ Forall (fun kv => all_nodes Q (snd kv)) fs') ->
  forall n v r, traverse step n v = Ok r -> all_nodes Q v -> all_nodes P r.
Proof.
  intros Kprim Karr Kobj Hstable Hstep n v r H.
  apply (traverse_rel step (fun v r => K v r /\ (all_nodes Q v -> all_nodes P r)))
    in H; [tauto | | |].
  - intros v0 Hp. split; [now apply Kprim | intros _; now apply all_prim].
  - intros l l' Hl. split.
    + apply Karr. induction Hl as [|x y l l' [Hxy _] _ IH]; constructor; auto.
    + intros Hq. inversion Hq as [? Hp|? Hall|]; subst; [discriminate Hp|].
      apply all_arr.
      induction Hl as [|x y l l' [_ Hxy] _ IH]; constructor.
      * apply Hxy. now inversion Hall.
      * apply IH; [|now inversion Hall]. apply all_arr. now inversion Hall.
  - intros fs fs' fs'' Hs Hn.
    assert (HK : same_names K fs' fs'').
    { clear Hs. induction Hn as [|x y l l' [Hk [HK _]] _ IH]; constructor; auto. }
    split; [now apply (Kobj fs fs')|].
    intros Hq. destruct (Hstep fs fs' Hs Hq) as [HP Hch].
    apply all_obj.
    + now apply (Hstable fs').
    + clear HP Hs HK. induction Hn as [|x y l l' [Hk [_ Hv]] _ IH]; constructor.
      * apply Hv. now inversion Hch.
      * apply IH. now inversion Hch.
Qed.

(** ** Property values that all satisfy an invariant *)

Definition all_in (P : fields -> Prop) (fs : fields) : Prop :=
  Forall (fun kv => all_nodes P (snd kv)) fs.

Lemma all_nodes_obj_inv P fs : all_nodes P (JObj fs) -> P fs /\ all_in P fs.
Proof. intros H. inversion H as [? Hp| |]; subst; [discriminate Hp | now split]. Qed.

Lemma all_nodes_arr_inv P l : all_nodes P (JArr l) -> Forall (all_nodes P) l.
Proof. intros H. inversion H as [? Hp| |]; subst; [discriminate Hp | assumption]. Qed.

Lemma all_in_In P fs k v : all_in P fs -> In (k, v) fs -> all_nodes P v.
Proof. intros H Hin. apply (proj1 (List.Forall_forall _ _) H (k, v) Hin). Qed.

Lemma all_in_assoc P fs k v : all_in P fs -> assoc k fs = Some v -> all_nodes P v.
Proof. intros H Ha. apply (all_in_In P fs k v H). now apply assoc_In. Qed.

Lemma all_in_obj_set P k v fs :
  all_nodes P v -> all_in P fs -> all_in P (obj_set k v fs).
Proof.
  intros Hv H. apply List.Forall_forall. intros [k' v'] Hin.
  apply In_obj_set in Hin. destruct Hin as [[= -> ->]|Hin]; [exact Hv|].
  now apply (all_in_In P fs k' v').
Qed.

Lemma all_in_obj_delete P k fs : all_in P fs -> all_in P (obj_delete k fs).
Proof.
  intros H. apply List.Forall_forall. intros [k' v'] Hin.
  apply In_obj_delete in Hin. now apply (all_in_In P fs k' v').
Qed.

Lemma all_in_assign P target source :
  all_in P target -> all_in P source -> all_in P (assign target source).
Proof.
  intros Ht Hs. apply List.Forall_forall. intros [k v] Hin.
  apply In_assign in Hin. destruct Hin as [Hin|Hin];
    [now apply (all_in_In P target k v) | now apply (all_in_In P source k v)].
Qed.

Lemma all_in_indexed P l : Forall (all_nodes P) l -> all_in P (indexed l).
Proof.
  intros H. apply List.Forall_forall. intros [k v] Hin.
  apply In_indexed in Hin. apply (proj1 (List.Forall_forall _ _) H v Hin).
Qed.

Lemma all_nodes_chars P s : Forall (all_nodes P) (chars s).
Proof. induction s; simpl; constructor; [now apply all_prim | assumption]. Qed.

Lemma all_in_own_entries P v : all_nodes P v -> all_in P (own_entries v).
Proof.
  destruct v; simpl; intros H; try (now constructor).
  - apply all_in_indexed, all_nodes_chars.
  - now apply all_in_indexed, all_nodes_arr_inv.
  - now apply all_nodes_obj_inv in H.
Qed.

(** Kin have the same truth value, and are equal where one is primitive. *)
Lemma kin_truthy v v' : kin v v' -> truthy v' = truthy v.
Proof. now destruct 1. Qed.

Lemma kin_prim_eq v v' : kin v v' -> is_primitive v = true -> v' = v.
Proof. destruct 1; intros; try discriminate; reflexivity. Qed.

Lemma same_names_names R fs fs' : same_names R fs fs' -> names fs' = names fs.
Proof.
  induction 1 as [|kv kv' fs fs' [Hk _] _ IH]; simpl; [reflexivity|].
  now rewrite IH, Hk.
Qed.

Lemma same_names_is_str R fs fs' k lit :
  (forall v v', R v v' -> kin v v') ->
  same_names R fs fs' -> is_str lit (assoc k fs') = is_str lit (assoc k fs).
Proof.
  intros HR H. pose proof (same_names_assoc R fs fs' k H) as Ha.
  destruct (assoc k fs) as [v|], (assoc k fs') as [v'|]; try contradiction;
    [|reflexivity].
  apply HR in Ha. destruct Ha; reflexivity.
Qed.

Lemma same_names_impl (R R' : json -> json -> Prop) fs fs' :
  (forall v v', R v v' -> R' v v') -> same_names R fs fs' -> same_names R' fs fs'.
Proof.
  intros HR. induction 1 as [|kv kv' fs fs' [Hk Hv] _ IH]; constructor; auto.
Qed.

(** ** What the phases keep and establish at every object

    [distinct]: no name twice.  [enum_of_strings]: an [enum] that is an array
    holds strings only. *)
Definition distinct (fs : fields) : Prop := List.NoDup (names fs).

Definition is_string (v : json) : bool :=
  match v with JStr _ => true | _ => false end.

Definition enum_of_strings (fs : fields) : Prop :=
  match assoc "enum" fs with
  | Some (JArr l) => forallb is_string l = true
  | _ => True
  end.

Definition tidy (fs : fields) : Prop := distinct fs /\ enum_of_strings fs.

Lemma distinct_kin fs fs' : same_names kin fs fs' -> distinct fs -> distinct fs'.
Proof. unfold distinct. intros H. now rewrite (same_names_names _ _ _ H). Qed.

Lemma strings_kin l l' :
  Forall2 kin l l' -> forallb is_string l = true -> l' = l.
Proof.
  induction 1 as [|x y l l' Hxy _ IH]; simpl; [reflexivity|].
  intros H. apply andb_true_iff in H. destruct H as [Hx Hl].
  rewrite (IH Hl). f_equal. apply (kin_prim_eq _ _ Hxy). now destruct x.
Qed.

Lemma enum_of_strings_kin fs fs' :
  same_names kin fs fs' -> enum_of_strings fs -> enum_of_strings fs'.
Proof.
  unfold enum_of_strings. intros H.
  pose proof (same_names_assoc kin fs fs' "enum" H) as Ha.
  destruct (assoc "enum" fs) as [v|], (assoc "enum" fs') as [v'|];
    try contradiction; [|trivial].
  destruct Ha as [v Hp|l l' Hl|]; [trivial| |trivial].
  intros Hs. now rewrite (strings_kin _ _ Hl Hs).
Qed.

Lemma tidy_kin fs fs' : same_names kin fs fs' -> tidy fs -> tidy fs'.
Proof.
  intros H [Hd He]. split;
    [now apply (distinct_kin fs) | now apply (enum_of_strings_kin fs)].
Qed.

Lemma all_nodes_impl (P Q : fields -> Prop) v :
  (forall fs, P fs -> Q fs) -> all_nodes P v -> all_nodes Q v.
Proof.
  intros HPQ. induction v as [| | | |l IH|fs IH] using json_ind; intros H;
    try (now apply all_prim).
  - apply all_arr. apply all_nodes_arr_inv in H. revert H.
    induction IH as [|x l Hx _ IHl]; intros H; [constructor|].
    inversion H; subst. constructor; auto.
  - apply all_nodes_obj_inv in H. destruct H as [HP Hall].
    apply all_obj; [now apply HPQ|]. clear HP. revert Hall.
    induction IH as [|x l Hx _ IHl]; intros Hall; [constructor|].
    inversion Hall; subst. constructor; auto.
Qed.

(** The relation [kin] as the one a rewrite leaves between old and new
    property values. *)
Lemma kin_step (step : fields -> outcome fields) fs fs' fs'' :
  step fs = Ok fs' -> same_names kin fs' fs'' -> kin (JObj fs) (JObj fs'').
Proof. intros _ _. apply kin_obj. Qed.

(** *** Phase 1 *)

Lemma convertConstToEnum_distinct v r :
  convertConstToEnum v = Ok r -> all_nodes distinct v -> all_nodes distinct r.
Proof.
  apply (traverse_all_nodes convertConstToEnum_node kin distinct distinct);
    [apply kin_prim | apply kin_arr | apply kin_step | apply distinct_kin |].
  intros fs fs' Hs H. apply all_nodes_obj_inv in H. destruct H as [Hd Hall].
  unfold convertConstToEnum_node in Hs.
  destruct (assoc "const" fs) as [c|] eqn:Hc; [|injection Hs as <-; now split].
  destruct (truthy_opt (assoc "enum" fs)); injection Hs as <-; [now split|].
  split.
  - now apply NoDup_obj_delete, NoDup_obj_set.
  - apply all_in_obj_delete, all_in_obj_set; [|exact Hall].
    apply all_arr. constructor; [|constructor].
    now apply (all_in_assoc distinct fs "const").
Qed.

Lemma all_nodes_strings P l : all_nodes P (JArr (map (fun v => JStr (toString v)) l)).
Proof. apply all_arr. induction l; simpl; constructor; [now apply all_prim | assumption]. Qed.

Lemma strings_of_toString l :
  forallb is_string (map (fun v => JStr (toString v)) l) = true.
Proof. induction l; simpl; auto. Qed.

Lemma convertEnumValuesToStrings_tidy v r :
  convertEnumValuesToStrings v = Ok r -> all_nodes distinct v -> all_nodes tidy r.
Proof.
  apply (traverse_all_nodes convertEnumValuesToStrings_node kin distinct tidy);
    [apply kin_prim | apply kin_arr | apply kin_step | apply tidy_kin |].
  intros fs fs' Hs H. apply all_nodes_obj_inv in H. destruct H as [Hd Hall].
  unfold convertEnumValuesToStrings_node in Hs. unfold tidy, enum_of_strings.
  destruct (assoc "enum" fs) as [[| | | |l|]|] eqn:He; injection Hs as <-;
    try (rewrite He; now repeat split).
  repeat split.
  - now apply NoDup_obj_set.
  - rewrite assoc_obj_set_eq. apply strings_of_toString.
  - apply all_in_obj_set; [apply all_nodes_strings | exact Hall].
Qed.

(** *** Phase 2 *)

(** An index is not a keyword. *)
Lemma index_name_digits i :
  NilZero.uint_of_string (index_name i) = Some (Nat.to_uint i).
Proof.
  unfold index_name. apply NilZero.usu.
  rewrite <- (Unsigned.of_to i) at 1. rewrite Unsigned.to_of.
  apply DecimalFacts.unorm_nonnil.
Qed.

Lemma assoc_indexed k l :
  NilZero.uint_of_string k = None -> assoc k (indexed l) = None.
Proof.
  intros Hk. apply assoc_None_names. rewrite names_indexed.
  intros Hin. apply in_map_iff in Hin. destruct Hin as (i & <- & _).
  now rewrite index_name_digits in Hk.
Qed.

Lemma assoc_own_entries k v :
  NilZero.uint_of_string k = None -> assoc k (own_entries v) = prop v k.
Proof. intros Hk. destruct v; simpl; auto using assoc_indexed. Qed.

Lemma enum_of_strings_assign target source :
  distinct source -> enum_of_strings target -> enum_of_strings source ->
  enum_of_strings (assign target source).
Proof.
  unfold enum_of_strings. intros Hd Ht Hs. rewrite (assoc_assign _ _ _ Hd).
  now destruct (assoc "enum" source).
Qed.

Lemma tidy_own_entries v : all_nodes tidy v -> tidy (own_entries v).
Proof.
  intros H. split.
  - apply NoDup_own_entries. intros fs ->. now apply all_nodes_obj_inv in H as [[? ?] _].
  - unfold enum_of_strings. rewrite assoc_own_entries by reflexivity.
    destruct v; simpl; trivial. now apply all_nodes_obj_inv in H as [[? ?] _].
Qed.

Lemma tidy_assign target source :
  tidy target -> tidy source -> tidy (assign target source).
Proof.
  intros [Hd He] [Hd' He']. split;
    [now apply NoDup_assign | now apply enum_of_strings_assign].
Qed.

Lemma tidy_nil : tidy [].
Proof. split; [constructor | exact I]. Qed.

Lemma enum_of_strings_other k v fs :
  k <> "enum" -> enum_of_strings fs -> enum_of_strings (obj_set k v fs).
Proof. unfold enum_of_strings. intros Hk. now rewrite assoc_obj_set_ne. Qed.

Lemma enum_of_strings_delete k fs :
  enum_of_strings fs -> enum_of_strings (obj_delete k fs).
Proof.
  unfold enum_of_strings. destruct (String.eqb_spec k "enum") as [->|Hk].
  - now rewrite assoc_obj_delete_eq.
  - now rewrite assoc_obj_delete_ne.
Qed.

Lemma tidy_set k v fs : k <> "enum" -> tidy fs -> tidy (obj_set k v fs).
Proof.
  intros Hk [Hd He]. split;
    [now apply NoDup_obj_set | now apply enum_of_strings_other].
Qed.

Lemma tidy_delete k fs : tidy fs -> tidy (obj_delete k fs).
Proof.
  intros [Hd He]. split;
    [now apply NoDup_obj_delete | now apply enum_of_strings_delete].
Qed.

Lemma all_nodes_prop P v k c : all_nodes P v -> prop v k = Some c -> all_nodes P c.
Proof.
  destruct v as [| | | | |fs]; simpl; try discriminate. intros H Hc.
  apply all_nodes_obj_inv in H as [_ H]. now apply (all_in_assoc P fs k).
Qed.

Lemma push_new_all (P : json -> Prop) reqs acc :
  Forall P reqs -> Forall P acc ->
  Forall P
    (fold_left (fun acc req => if includes acc req then acc else acc ++ [req])
       reqs acc).
Proof.
  revert acc. induction reqs as [|x reqs IH]; simpl; intros acc Hr Ha; [exact Ha|].
  inversion Hr; subst. apply IH; [assumption|].
  destruct (includes acc x); [exact Ha|].
  apply List.Forall_app. split; [exact Ha | now constructor].
Qed.

Lemma spread_or_empty_all P fs k base :
  all_in P fs -> spread_or_empty (assoc k fs) = Ok base ->
  Forall (all_nodes P) base.
Proof.
  intros Hall H. unfold spread_or_empty in H.
  destruct (assoc k fs) as [v|] eqn:E; [|injection H as <-; constructor].
  destruct (truthy v); [|injection H as <-; constructor].
  destruct v; try discriminate; injection H as <-.
  - apply all_nodes_chars.
  - apply all_nodes_arr_inv. now apply (all_in_assoc P fs k).
Qed.

(** The three rewrites of phase 2 keep an invariant [P] that does not mind
    what they do to a property list. *)
Section Merging.

Variable P : fields -> Prop.
Hypothesis P_kin : forall fs fs', same_names kin fs fs' -> P fs -> P fs'.
Hypothesis P_nil : P [].
Hypothesis P_assign : forall target source, P target -> P source -> P (assign target source).
Hypothesis P_own : forall v, all_nodes P v -> P (own_entries v).
Hypothesis P_delete : forall k fs, P fs -> P (obj_delete k fs).
Hypothesis P_properties : forall v fs, P fs -> P (obj_set "properties" v fs).
Hypothesis P_required : forall l fs, P fs -> P (obj_set "required" (JArr l) fs).
Hypothesis P_type : forall v fs, P fs -> P (obj_set "type" v fs).

Lemma assign_sound target v :
  P target -> all_in P target -> all_nodes P v ->
  P (assign target (own_entries v)) /\ all_in P (assign target (own_entries v)).
Proof.
  intros Ht Hall Hv. split.
  - apply P_assign; [exact Ht | now apply P_own].
  - apply all_in_assign; [exact Hall | now apply all_in_own_entries].
Qed.

(** What [mergeAllOf] has collected so far. *)
Definition sound_merged (m : merged) : Prop :=
  (forall mp, m_properties m = Some mp -> P mp /\ all_in P mp)
  /\ (forall mr, m_required m = Some mr -> Forall (all_nodes P) mr).

Lemma merge_item_sound m item m' :
  all_nodes P item -> sound_merged m -> merge_item m item = Ok m' ->
  sound_merged m'.
Proof.
  intros Hi [Hp Hr] H. unfold merge_item in H.
  destruct item as [| | | | |ifs] eqn:Hitem; try discriminate;
    try (simpl in H; injection H as <-; now split).
  rewrite <- Hitem in *. clear Hitem.
  set (m1 := match prop item "properties" with
             | Some p => if truthy p then _ else m
             | None => m
             end) in H.
  assert (H1 : sound_merged m1).
  { subst m1. destruct (prop item "properties") as [p|] eqn:Ep; [|now split].
    destruct (truthy p); [|now split]. split; simpl; [|exact Hr].
    intros mp [= <-]. apply assign_sound.
    - destruct (m_properties m) as [mp0|]; simpl; [now apply Hp | exact P_nil].
    - destruct (m_properties m) as [mp0|]; simpl; [now apply Hp | constructor].
    - now apply (all_nodes_prop P item "properties"). }
  destruct H1 as [Hp1 Hr1].
  destruct (prop item "required") as [[| | | |reqs|]|] eqn:Er;
    injection H as <-; try (now split).
  split; simpl; [exact Hp1|]. intros mr [= <-]. apply push_new_all.
  - apply all_nodes_arr_inv. now apply (all_nodes_prop P item "required").
  - destruct (m_required m1) as [mr0|]; simpl; [now apply Hr1 | constructor].
Qed.

Lemma foldM_merge_sound items m m' :
  Forall (all_nodes P) items -> sound_merged m ->
  foldM merge_item items m = Ok m' -> sound_merged m'.
Proof.
  revert m. induction items as [|item items IH]; simpl; intros m Hi Hm H.
  - now injection H as <-.
  - inversion Hi; subst.
    destruct (merge_item m item) as [m1| |] eqn:E1; try discriminate.
    simpl in H. apply (IH m1); [assumption| |exact H].
    now apply (merge_item_sound m item).
Qed.

Lemma mergeAllOf_node_sound fs fs' :
  mergeAllOf_node fs = Ok fs' -> all_nodes P (JObj fs) -> P fs' /\ all_in P fs'.
Proof.
  intros Hs H. apply all_nodes_obj_inv in H. destruct H as [Ht Hall].
  unfold mergeAllOf_node in Hs.
  destruct (assoc "allOf" fs) as [[| | | |items|]|] eqn:Ea;
    try (injection Hs as <-; now split).
  destruct (foldM merge_item items _) as [m| |] eqn:Em; try discriminate.
  simpl in Hs.
  apply foldM_merge_sound in Em;
    [| apply all_nodes_arr_inv; now apply (all_in_assoc P fs "allOf")
     | split; simpl; discriminate].
  destruct Em as [Hp Hr].
  set (obj1 := obj_delete "allOf" fs) in *.
  assert (H1 : P obj1 /\ all_in P obj1).
  { split; [now apply P_delete | now apply all_in_obj_delete]. }
  set (obj2 := match m_properties m with Some mp => _ | None => obj1 end) in *.
  assert (H2 : P obj2 /\ all_in P obj2).
  { subst obj2. destruct (m_properties m) as [mp|]; [|exact H1].
    destruct (Hp mp eq_refl) as [Hmp Hmpall]. destruct H1 as [H1 H1all].
    split; [now apply P_properties|]. apply all_in_obj_set; [|exact H1all].
    assert (Hbase : P (assign [] (own_entries_opt (assoc "properties" obj1)))
                    /\ all_in P (assign [] (own_entries_opt (assoc "properties" obj1)))).
    { destruct (assoc "properties" obj1) as [p|] eqn:Ep; simpl.
      - apply assign_sound; [exact P_nil | constructor|].
        now apply (all_in_assoc P obj1 "properties").
      - split; [exact P_nil | constructor]. }
    destruct Hbase as [Hb Hball].
    apply all_obj; [now apply P_assign | now apply all_in_assign]. }
  destruct H2 as [H2 H2all].
  destruct (m_required m) as [mr|]; [|injection Hs as <-; now split].
  destruct (spread_or_empty (assoc "required" obj2)) as [base| |] eqn:Eb;
    try discriminate.
  simpl in Hs. injection Hs as <-.
  split; [now apply P_required|]. apply all_in_obj_set; [|exact H2all].
  apply all_arr, List.Forall_app. split.
  - now apply (spread_or_empty_all P obj2 "required").
  - now apply Hr.
Qed.

Lemma mergeAllOf_sound v r :
  mergeAllOf v = Ok r -> all_nodes P v -> all_nodes P r.
Proof.
  apply (traverse_all_nodes mergeAllOf_node kin P P);
    [apply kin_prim | apply kin_arr | apply kin_step | apply P_kin
    | apply mergeAllOf_node_sound].
Qed.

Lemma flatten_key_sound key fs :
  P fs -> all_in P fs ->
  P (flatten_key key fs) /\ all_in P (flatten_key key fs).
Proof.
  intros Ht Hall. unfold flatten_key.
  destruct (assoc key fs) as [[| | | |branches|]|] eqn:Ek; try now split.
  destruct (nth_error _ _) as [selected|] eqn:En; [|now split].
  apply nth_error_In, filter_In in En. destruct En as [Hin _].
  apply assign_sound;
    [now apply P_delete | now apply all_in_obj_delete |].
  assert (Hb : all_nodes P (JArr branches)) by now apply (all_in_assoc P fs key).
  apply all_nodes_arr_inv in Hb.
  apply (proj1 (List.Forall_forall _ _) Hb selected Hin).
Qed.

Lemma flattenAnyOfOneOf_sound v r :
  flattenAnyOfOneOf v = Ok r -> all_nodes P v -> all_nodes P r.
Proof.
  apply (traverse_all_nodes flattenAnyOfOneOf_node kin P P);
    [apply kin_prim | apply kin_arr | apply kin_step | apply P_kin |].
  intros fs fs' Hs H. apply all_nodes_obj_inv in H. destruct H as [Ht Hall].
  injection Hs as <-.
  destruct (flatten_key_sound "anyOf" fs Ht Hall) as [Ht1 Hall1].
  now apply flatten_key_sound.
Qed.

Lemma flattenTypeArrays_sound v r :
  flattenTypeArrays v = Ok r -> all_nodes P v -> all_nodes P r.
Proof.
  apply (traverse_all_nodes flattenTypeArrays_node kin P P);
    [apply kin_prim | apply kin_arr | apply kin_step | apply P_kin |].
  intros fs fs' Hs H. apply all_nodes_obj_inv in H. destruct H as [Ht Hall].
  unfold flattenTypeArrays_node in Hs.
  destruct (assoc "type" fs) as [[| | | |types|]|] eqn:Et;
    injection Hs as <-; try now split.
  split; [now apply P_type|]. apply all_in_obj_set; [|exact Hall].
  assert (Hty : Forall (all_nodes P) types).
  { apply all_nodes_arr_inv. now apply (all_in_assoc P fs "type"). }
  destruct (List.filter _ types) as [|t rest] eqn:Ef; [now apply all_prim|].
  assert (Hin : In t (t :: rest)) by now left.
  rewrite <- Ef in Hin. apply filter_In in Hin. destruct Hin as [Hin _].
  apply (proj1 (List.Forall_forall _ _) Hty t Hin).
Qed.

End Merging.

Ltac tidy_closed :=
  first [ exact tidy_kin | exact tidy_nil | exact tidy_assign
        | exact tidy_own_entries | exact tidy_delete
        | intros; apply tidy_set; [discriminate | assumption] ].

Lemma mergeAllOf_tidy v r :
  mergeAllOf v = Ok r -> all_nodes tidy v -> all_nodes tidy r.
Proof. apply (mergeAllOf_sound tidy); tidy_closed. Qed.

Lemma flattenAnyOfOneOf_tidy v r :
  flattenAnyOfOneOf v = Ok r -> all_nodes tidy v -> all_nodes tidy r.
Proof. apply (flattenAnyOfOneOf_sound tidy); tidy_closed. Qed.

Lemma flattenTypeArrays_tidy v r :
  flattenTypeArrays v = Ok r -> all_nodes tidy v -> all_nodes tidy r.
Proof. apply (flattenTypeArrays_sound tidy); tidy_closed. Qed.

(** *** Phase 3 *)

Lemma same_names_obj_set (R : json -> json -> Prop) k c c' fs :
  (forall v, R v v) -> assoc k fs = Some c -> R c c' ->
  same_names R fs (obj_set k c' fs).
Proof.
  intros HR. induction fs as [|[k0 v0] fs IH]; simpl; [discriminate|].
  destruct (String.eqb_spec k0 k) as [->|Hne].
  - intros [= ->] Hc. constructor; [now split | now apply same_names_refl].
  - intros Ha Hc. constructor; [now split | now apply IH].
Qed.

(** The element [find_index] locates is the one the property read yields. *)
Lemma find_index_assoc part ks (l : list json) j i next :
  length ks = length l ->
  find_index part ks j = Some i -> assoc part (combine ks l) = Some next ->
  exists i', i = j + i' /\ nth_error l i' = Some next.
Proof.
  revert l j. induction ks as [|k ks IH]; intros [|x l] j; simpl; try discriminate.
  intros [= Hlen]. destruct (String.eqb k part).
  - intros [= <-] [= <-]. exists 0. split; [lia | reflexivity].
  - intros Hf Ha. destruct (IH l (S j) Hlen Hf Ha) as (i' & -> & Hn).
    exists (S i'). split; [lia | exact Hn].
Qed.

Lemma replace_nth_rel (R : json -> json -> Prop) l i c c' :
  (forall v, R v v) -> nth_error l i = Some c -> R c c' ->
  Forall2 R l (replace_nth l i c').
Proof.
  intros HR. revert i. induction l as [|x l IH]; intros [|i]; simpl; try discriminate.
  - intros [= ->] Hc. constructor; [exact Hc|].
    clear IH. induction l; constructor; auto.
  - intros Hn Hc. constructor; [apply HR | now apply IH].
Qed.

Lemma replace_nth_all (P : json -> Prop) l i c' :
  Forall P l -> P c' -> Forall P (replace_nth l i c').
Proof.
  intros Hl Hc. revert i. induction Hl as [|x l Hx Hl IH]; intros [|i]; simpl;
    constructor; auto.
Qed.

Lemma get_member_all P v part next :
  all_nodes P v -> get_member v part = Some next -> all_nodes P next.
Proof.
  destruct v as [| | | |l|fs]; simpl; try discriminate; intros H Hg.
  - apply all_nodes_arr_inv in H. apply assoc_In, In_indexed in Hg.
    apply (proj1 (List.Forall_forall _ _) H next Hg).
  - apply all_nodes_obj_inv in H as [_ H]. now apply (all_in_assoc P fs part).
Qed.

Lemma set_member_kin P v part next c' :
  (forall fs fs', same_names kin fs fs' -> P fs -> P fs') ->
  all_nodes P v -> get_member v part = Some next ->
  all_nodes P c' -> kin next c' ->
  all_nodes P (set_member v part c') /\ kin v (set_member v part c').
Proof.
  intros Hstable Hv Hg Hc Hk.
  destruct v as [| | | |l|fs]; simpl in *; try discriminate.
  - destruct (find_index part _ 0) as [i|] eqn:Ef; [|split; [exact Hv | apply kin_refl]].
    unfold indexed in Hg.
    destruct (find_index_assoc part _ l 0 i next
                ltac:(now rewrite length_map, length_seq) Ef Hg) as (i' & -> & Hn).
    simpl. split.
    + apply all_arr, replace_nth_all; [now apply all_nodes_arr_inv | exact Hc].
    + apply kin_arr. now apply (replace_nth_rel kin l i' next); [apply kin_refl| |].
  - apply all_nodes_obj_inv in Hv as [HP Hall]. split; [|apply kin_obj].
    apply all_obj; [|now apply all_in_obj_set].
    apply (Hstable fs); [|exact HP].
    now apply (same_names_obj_set kin part next); [apply kin_refl| |].
Qed.

(** A deletion leaves an invariant in place that deletions and the exchange
    of property values for kin do not disturb. *)
Lemma deleteAtParts_all_nodes (P : fields -> Prop) parts v :
  (forall fs fs', same_names kin fs fs' -> P fs -> P fs') ->
  (forall k fs, P fs -> P (obj_delete k fs)) ->
  all_nodes P v ->
  all_nodes P (deleteAtParts parts v) /\ kin v (deleteAtParts parts v).
Proof.
  intros Hstable Hdel. revert v.
  induction parts as [|part rest IH]; intros v Hv.
  - simpl. split; [exact Hv | apply kin_refl].
  - destruct rest as [|p2 rest].
    + simpl. destruct v as [| | | |l|fs]; simpl;
        try (split; [exact Hv | apply kin_refl]).
      apply all_nodes_obj_inv in Hv as [HP Hall]. split; [|apply kin_obj].
      apply all_obj; [now apply Hdel | now apply all_in_obj_delete].
    + change (deleteAtParts (part :: p2 :: rest) v)
        with (match get_member v part with
              | Some next =>
                  if truthy next
                  then set_member v part (deleteAtParts (p2 :: rest) next)
                  else v
              | None => v
              end).
      destruct (get_member v part) as [next|] eqn:Eg;
        [|split; [exact Hv | apply kin_refl]].
      destruct (truthy next); [|split; [exact Hv | apply kin_refl]].
      destruct (IH next (get_member_all P v part next Hv Eg)) as [Hn Hk].
      now apply (set_member_kin P v part next).
Qed.

Lemma removeUnsupported_all_nodes (P : fields -> Prop) v :
  (forall fs fs', same_names kin fs fs' -> P fs -> P fs') ->
  (forall k fs, P fs -> P (obj_delete k fs)) ->
  all_nodes P v -> all_nodes P (removeUnsupported v).
Proof.
  intros Hstable Hdel. unfold removeUnsupported.
  generalize UNSUPPORTED_SCHEMA_CONSTRAINTS. intros kws. revert v.
  induction kws as [|kw kws IH]; simpl; intros v Hv; [exact Hv|].
  apply IH. unfold removeKeyword.
  generalize (sort_paths (walkAndCollectPaths v "" kw)). intros paths.
  revert v Hv. induction paths as [|p paths IHp]; simpl; intros v Hv; [exact Hv|].
  apply IHp. unfold deleteAtPath. now apply deleteAtParts_all_nodes.
Qed.

Lemma removeUnsupported_tidy v :
  all_nodes tidy v -> all_nodes tidy (removeUnsupported v).
Proof.
  apply removeUnsupported_all_nodes; [apply tidy_kin | intros; now apply tidy_delete].
Qed.

(** *** Phases 4 and 5

    [keeps spare v v']: [v'] is kin to [v] and owns every property [v] owns,
    those named in [spare] apart. *)
Definition keeps (spare : string -> bool) (v v' : json) : Prop :=
  kin v v'
  /\ forall name, spare name = false -> has_own v name = true -> has_own v' name = true.

Lemma has_key_names {A B} k (fs : list (string * A)) (fs' : list (string * B)) :
  map fst fs = map fst fs' -> has_key k fs = has_key k fs'.
Proof.
  unfold has_key. revert fs'.
  induction fs as [|[k0 v0] fs IH]; intros [|[k1 v1] fs']; simpl; try discriminate;
    [reflexivity|].
  intros [= -> H]. destruct (String.eqb k1 k); [reflexivity | now apply IH].
Qed.

Lemma Forall2_length_kin (R : json -> json -> Prop) l l' :
  Forall2 R l l' -> length l = length l'.
Proof. induction 1; simpl; congruence. Qed.

Lemma keeps_prim spare v : is_primitive v = true -> keeps spare v v.
Proof. intros H. split; [now apply kin_prim | auto]. Qed.

Lemma keeps_arr spare l l' :
  Forall2 (keeps spare) l l' -> keeps spare (JArr l) (JArr l').
Proof.
  intros H. split.
  - apply kin_arr. induction H as [|x y l l' [Hk _] _ IH]; constructor; auto.
  - intros name _. simpl.
    rewrite (has_key_names name (indexed l) (indexed l')); [auto|].
    fold (names (indexed l)) (names (indexed l')). rewrite !names_indexed.
    now rewrite (Forall2_length_kin _ _ _ H).
Qed.

Lemma keeps_obj spare fs fs' fs'' :
  (forall name, spare name = false -> has_key name fs = true -> has_key name fs' = true) ->
  same_names (keeps spare) fs' fs'' -> keeps spare (JObj fs) (JObj fs'').
Proof.
  intros Hs Hn. split; [apply kin_obj|]. intros name Hsp Hk. simpl in *.
  rewrite <- (has_key_names name fs' fs''); [now apply Hs|].
  symmetry. apply (same_names_names _ _ _ Hn).
Qed.

Lemma same_names_keeps_kin spare fs fs' :
  same_names (keeps spare) fs fs' -> same_names kin fs fs'.
Proof. apply same_names_impl. now intros v v' [H _]. Qed.

(** Kin print the same. *)
Lemma toString_kin v v' : kin v v' -> toString v' = toString v.
Proof.
  revert v'. induction v as [| | | |l IH|fs _] using json_ind; intros v' H;
    inversion H as [? Hp|? l' Hl|]; subst; try reflexivity; try discriminate Hp.
  simpl. revert l' Hl H. induction IH as [|x l Hx _ IHl]; intros l' Hl _.
  - inversion Hl; subst. reflexivity.
  - inversion Hl as [|? y ? r Hxy Hr]; subst.
    assert (Hy : match y with JNull => ""%string | _ => toString y end
                 = match x with JNull => ""%string | _ => toString x end).
    { rewrite <- (Hx y Hxy). destruct Hxy as [? ?| |]; reflexivity. }
    rewrite Hy. specialize (IHl r Hr (kin_arr _ _ Hr)).
    destruct Hr as [|x2 y2 l2 r2]; [reflexivity|]. now rewrite IHl.
Qed.

(** [required_known]: where [required] is an array and [properties] is
    there, every required name is a property; the name [required] is the
    exception, see [required_may_dangle]. *)
Definition known (p : json) (x : json) : Prop :=
  toString x = "required"%string \/ has_own p (toString x) = true.

Definition required_known (fs : fields) : Prop :=
  forall l p,
    assoc "required" fs = Some (JArr l) -> assoc "properties" fs = Some p ->
    truthy p = true -> Forall (known p) l.

Lemma required_known_keeps spare fs fs' :
  (forall name, spare name = true -> name = "required"%string) ->
  same_names (keeps spare) fs fs' -> required_known fs -> required_known fs'.
Proof.
  intros Hsp Hn Hr l' p' Hl' Hp' Ht'.
  pose proof (same_names_assoc _ fs fs' "required" Hn) as Hreq.
  pose proof (same_names_assoc _ fs fs' "properties" Hn) as Hprop.
  rewrite Hl' in Hreq. rewrite Hp' in Hprop.
  destruct (assoc "required" fs) as [c|] eqn:Ec; [|contradiction].
  destruct (assoc "properties" fs) as [p|] eqn:Ep; [|contradiction].
  destruct Hreq as [Hkin _]. destruct Hprop as [Hpk Hown].
  inversion Hkin as [? Hprim|l ? Hl|]; subst; [discriminate Hprim|].
  rewrite (kin_truthy _ _ Hpk) in Ht'.
  specialize (Hr l p Ec Ep Ht').
  clear Hkin Hl' Ec. induction Hl as [|x y l l' Hxy _ IH]; [constructor|].
  inversion Hr as [|? ? Hx Hrest]; subst. constructor; [|now apply IH].
  unfold known in *. rewrite (toString_kin _ _ Hxy).
  destruct Hx as [Hx|Hx]; [now left|].
  destruct (spare (toString x)) eqn:Es; [left; now apply Hsp | right; now apply Hown].
Qed.

Lemma has_key_obj_set name k v fs :
  has_key name fs = true -> has_key name (obj_set k v fs) = true.
Proof.
  unfold has_key. destruct (String.eqb_spec k name) as [->|Hne].
  - now rewrite assoc_obj_set_eq.
  - now rewrite assoc_obj_set_ne.
Qed.

Lemma has_key_obj_delete name k fs :
  k <> name -> has_key name (obj_delete k fs) = has_key name fs.
Proof. unfold has_key. intros Hne. now rewrite assoc_obj_delete_ne. Qed.

Definition pruned (fs : fields) : Prop := tidy fs /\ required_known fs.

Definition but_required (name : string) : bool := String.eqb name "required".

Lemma pruned_keeps spare fs fs' :
  (forall name, spare name = true -> name = "required"%string) ->
  same_names (keeps spare) fs fs' -> pruned fs -> pruned fs'.
Proof.
  intros Hsp Hn [Ht Hr]. split.
  - apply (tidy_kin fs); [now apply (same_names_keeps_kin spare) | exact Ht].
  - now apply (required_known_keeps spare fs).
Qed.

Lemma cleanupRequired_node_cases fs fs' :
  cleanupRequired_node fs = Ok fs' ->
  (fs' = fs
   /\ forall l p, assoc "required" fs = Some (JArr l) ->
                  assoc "properties" fs = Some p -> truthy p = false)
  \/ (exists l p,
        assoc "required" fs = Some (JArr l) /\ assoc "properties" fs = Some p
        /\ truthy p = true
        /\ let valid := List.filter (fun field => has_own p (toString field)) l in
           (valid = [] /\ fs' = obj_delete "required" fs
            \/ valid <> [] /\ fs' = obj_set "required" (JArr valid) fs)).
Proof.
  unfold cleanupRequired_node.
  destruct (assoc "required" fs) as [[| | | |l|]|] eqn:Er;
    try (intros [= <-]; left; split; [reflexivity | discriminate]);
    try (destruct (assoc "properties" fs); intros [= <-]; left;
         split; [reflexivity | discriminate]).
  destruct (assoc "properties" fs) as [p|] eqn:Ep;
    [|intros [= <-]; left; split; [reflexivity | discriminate]].
  destruct (truthy p) eqn:Et;
    [|intros [= <-]; left; split; [reflexivity | now intros ? ? _ [= <-]]].
  intros H. right. exists l, p. repeat split; try assumption. cbv zeta.
  destruct (List.filter _ l) as [|x valid]; injection H as <-;
    [left; now split | right; now split].
Qed.

Lemma filter_known p l :
  Forall (known p) (List.filter (fun field => has_own p (toString field)) l).
Proof.
  apply List.Forall_forall. intros x Hx. apply filter_In in Hx. now right.
Qed.

Lemma cleanupRequired_pruned v r :
  cleanupRequired v = Ok r -> all_nodes tidy v -> all_nodes pruned r.
Proof.
  apply (traverse_all_nodes cleanupRequired_node (keeps but_required) tidy pruned).
  - apply keeps_prim.
  - apply keeps_arr.
  - intros fs fs' fs'' Hs. apply keeps_obj. intros name Hsp Hk.
    apply cleanupRequired_node_cases in Hs.
    destruct Hs as [[-> _]|(l & p & _ & _ & _ & [[_ ->]|[_ ->]])]; [exact Hk | |].
    + rewrite has_key_obj_delete; [exact Hk|].
      intros <-. unfold but_required in Hsp. now rewrite String.eqb_refl in Hsp.
    + now apply has_key_obj_set.
  - intros fs fs'. apply (pruned_keeps but_required). unfold but_required.
    intros name H. now apply String.eqb_eq in H.
  - intros fs fs' Hs H. apply all_nodes_obj_inv in H. destruct H as [Ht Hall].
    apply cleanupRequired_node_cases in Hs.
    destruct Hs as [[-> Hno]|(l & p & Hl & Hp & Htr & [[Hv ->]|[Hv ->]])].
    + repeat split; try apply Ht; try exact Hall.
      intros l p Hl Hp Htr. rewrite (Hno l p Hl Hp) in Htr. discriminate.
    + repeat split; try (now apply tidy_delete); try (now apply all_in_obj_delete).
      intros l0 p0 Hl0. now rewrite assoc_obj_delete_eq in Hl0.
    + repeat split; try (now apply tidy_set).
      * intros l0 p0 Hl0 Hp0 _. rewrite assoc_obj_set_eq in Hl0.
        rewrite assoc_obj_set_ne in Hp0 by discriminate.
        injection Hl0 as <-. rewrite Hp in Hp0. injection Hp0 as <-.
        apply filter_known.
      * apply all_in_obj_set; [|exact Hall]. apply all_arr.
        assert (Hall_l : Forall (all_nodes tidy) l).
        { apply all_nodes_arr_inv. now apply (all_in_assoc tidy fs "required"). }
        apply List.Forall_forall. intros x Hx. apply filter_In in Hx.
        apply (proj1 (List.Forall_forall _ _) Hall_l x (proj1 Hx)).
Qed.

(** [has_properties]: an object of type [object] has a property. *)
Definition has_properties (fs : fields) : Prop :=
  is_str "object" (assoc "type" fs) = true ->
  exists p, assoc "properties" fs = Some p /\ truthy p = true /\ own_entries p <> [].

Definition finished (fs : fields) : Prop := pruned fs /\ has_properties fs.

Definition nothing (name : string) : bool := false.

Lemma indexed_nil l : indexed l = [] -> l = [].
Proof. now destruct l. Qed.

Lemma own_entries_keeps v v' :
  keeps nothing v v' -> own_entries v <> [] -> own_entries v' <> [].
Proof.
  intros [Hk Hown] Hne. destruct Hk as [v Hp|l l' Hl|fs fs'].
  - exact Hne.
  - simpl in *. intros H. apply Hne. apply indexed_nil in H. subst l'.
    now inversion Hl.
  - simpl in *. destruct fs as [|[k c] fs]; [contradiction|].
    specialize (Hown k eq_refl). simpl in Hown. unfold has_key in Hown. simpl in Hown.
    rewrite String.eqb_refl in Hown. specialize (Hown eq_refl).
    intros ->. discriminate.
Qed.

Lemma has_properties_keeps fs fs' :
  same_names (keeps nothing) fs fs' -> has_properties fs -> has_properties fs'.
Proof.
  intros Hn H Ht.
  rewrite (same_names_is_str (keeps nothing) fs fs') in Ht;
    [|now intros v v' [? _] | exact Hn].
  destruct (H Ht) as (p & Hp & Htr & Hne).
  pose proof (same_names_assoc _ fs fs' "properties" Hn) as Ha. rewrite Hp in Ha.
  destruct (assoc "properties" fs') as [p'|]; [|contradiction].
  exists p'. repeat split.
  - now rewrite (kin_truthy p p') by apply Ha.
  - now apply (own_entries_keeps p p').
Qed.

Lemma finished_keeps fs fs' :
  same_names (keeps nothing) fs fs' -> finished fs -> finished fs'.
Proof.
  intros Hn [Hp Hh]. split.
  - apply (pruned_keeps nothing fs); [discriminate | exact Hn | exact Hp].
  - now apply (has_properties_keeps fs).
Qed.

Lemma placeholder_pruned : all_nodes pruned placeholder_properties.
Proof.
  assert (Hp : forall fs, assoc "required" fs = None -> assoc "enum" fs = None ->
                          List.NoDup (names fs) -> pruned fs).
  { intros fs Hr He Hd. repeat split; [exact Hd | |].
    - unfold enum_of_strings. now rewrite He.
    - intros l p Hl. now rewrite Hr in Hl. }
  apply all_obj; [apply Hp; try reflexivity; repeat constructor; simpl; tauto|].
  constructor; [|constructor]. simpl.
  apply all_obj;
    [apply Hp; try reflexivity; repeat constructor; simpl; intuition discriminate|].
  repeat constructor.
Qed.

Lemma addPlaceholders_node_cases fs fs' :
  addPlaceholders_node fs = Ok fs' ->
  (fs' = fs /\ has_properties fs)
  \/ (is_str "object" (assoc "type" fs) = true
      /\ fs' = obj_set "required" (JArr [JStr "reason"])
                 (obj_set "properties" placeholder_properties fs)).
Proof.
  unfold addPlaceholders_node, has_properties.
  destruct (is_str "object" (assoc "type" fs)) eqn:Et;
    [|intros [= <-]; left; split; [reflexivity | discriminate]].
  destruct (assoc "properties" fs) as [p|] eqn:Ep; simpl;
    [|intros [= <-]; right; now split].
  destruct (truthy p) eqn:Htr; simpl; [|intros [= <-]; right; now split].
  destruct (length (own_entries p) =? 0) eqn:El; intros [= <-];
    [right; now split|].
  left. split; [reflexivity|]. intros _. exists p. repeat split; try assumption.
  intros Hnil. rewrite Hnil in El. discriminate.
Qed.

Lemma addPlaceholders_finished v r :
  addPlaceholders v = Ok r -> all_nodes pruned v -> all_nodes finished r.
Proof.
  apply (traverse_all_nodes addPlaceholders_node (keeps nothing) pruned finished).
  - apply keeps_prim.
  - apply keeps_arr.
  - intros fs fs' fs'' Hs. apply keeps_obj. intros name _ Hk.
    apply addPlaceholders_node_cases in Hs. destruct Hs as [[-> _]|[_ ->]];
      [exact Hk | now apply has_key_obj_set, has_key_obj_set].
  - apply finished_keeps.
  - intros fs fs' Hs H. apply all_nodes_obj_inv in H. destruct H as [[Ht Hr] Hall].
    apply addPlaceholders_node_cases in Hs. destruct Hs as [[-> Hh]|[Hty ->]].
    + split; [split; [split|]|]; assumption.
    + split; [split; [split|]|].
      * apply tidy_set, tidy_set; [discriminate .. | exact Ht].
      * intros l p Hl Hp _. rewrite assoc_obj_set_eq in Hl. injection Hl as <-.
        rewrite assoc_obj_set_ne, assoc_obj_set_eq in Hp by discriminate.
        injection Hp as <-. constructor; [now right | constructor].
      * intros _. exists placeholder_properties.
        rewrite assoc_obj_set_ne, assoc_obj_set_eq by discriminate.
        repeat split; discriminate.
      * apply all_in_obj_set; [apply all_arr; repeat constructor|].
        apply all_in_obj_set; [apply placeholder_pruned | exact Hall].
Qed.

(** *** All phases *)

Lemma bind_Ok {A B} (m : outcome A) (k : A -> outcome B) b :
  bind m k = Ok b -> exists a, m = Ok a /\ k a = Ok b.
Proof. destruct m as [a| |]; simpl; try discriminate. intros H. now exists a. Qed.

(** The values the sanitizer holds between its phases. *)
Record stages : Type := {
  s_const : json;      (* after convertConstToEnum *)
  s_enum : json;       (* after convertEnumValuesToStrings *)
  s_allOf : json;      (* after mergeAllOf *)
  s_anyOf : json;      (* after flattenAnyOfOneOf *)
  s_type : json;       (* after flattenTypeArrays *)
  s_removed : json;    (* after phase 3 *)
  s_required : json    (* after cleanupRequired *)
}.

Definition runs (s : json) (st : stages) (r : json) : Prop :=
  convertConstToEnum s = Ok (s_const st)
  /\ convertEnumValuesToStrings (s_const st) = Ok (s_enum st)
  /\ mergeAllOf (s_enum st) = Ok (s_allOf st)
  /\ flattenAnyOfOneOf (s_allOf st) = Ok (s_anyOf st)
  /\ flattenTypeArrays (s_anyOf st) = Ok (s_type st)
  /\ s_removed st = removeUnsupported (s_type st)
  /\ cleanupRequired (s_removed st) = Ok (s_required st)
  /\ addPlaceholders (s_required st) = Ok r.

Lemma sanitizer_stages s r :
  is_object_like s = true ->
  cleanJSONSchemaForAntigravity s = Ok r <-> exists st, runs s st r.
Proof.
  intros Ho. unfold cleanJSONSchemaForAntigravity, deepClone. rewrite Ho.
  cbn [negb]. split.
  - intros H.
    apply bind_Ok in H as (c1 & H1 & H). apply bind_Ok in H as (c2 & H2 & H).
    apply bind_Ok in H as (c3 & H3 & H). apply bind_Ok in H as (c4 & H4 & H).
    apply bind_Ok in H as (c5 & H5 & H). apply bind_Ok in H as (c7 & H7 & H).
    exists {| s_const := c1; s_enum := c2; s_allOf := c3; s_anyOf := c4;
              s_type := c5; s_removed := removeUnsupported c5; s_required := c7 |}.
    now repeat split.
  - intros ([c1 c2 c3 c4 c5 c6 c7] & H1 & H2 & H3 & H4 & H5 & H6 & H7 & H8).
    cbn [s_const s_enum s_allOf s_anyOf s_type s_removed s_required] in *.
    subst c6. rewrite H1. cbn [bind]. rewrite H2. cbn [bind]. rewrite H3.
    cbn [bind]. rewrite H4. cbn [bind]. rewrite H5. cbn [bind]. rewrite H7.
    cbn [bind]. exact H8.
Qed.

Lemma sanitized_finished s r :
  cleanJSONSchemaForAntigravity s = Ok r -> all_nodes distinct s ->
  all_nodes finished r.
Proof.
  intros H Hd. destruct (is_object_like s) eqn:Ho.
  - apply (sanitizer_stages s r Ho) in H.
    destruct H as (st & H1 & H2 & H3 & H4 & H5 & H6 & H7 & H8).
    apply (addPlaceholders_finished _ _ H8).
    apply (cleanupRequired_pruned _ _ H7). rewrite H6.
    apply removeUnsupported_tidy.
    apply (flattenTypeArrays_tidy _ _ H5).
    apply (flattenAnyOfOneOf_tidy _ _ H4).
    apply (mergeAllOf_tidy _ _ H3).
    apply (convertEnumValuesToStrings_tidy _ _ H2).
    now apply (convertConstToEnum_distinct _ _ H1).
  - unfold cleanJSONSchemaForAntigravity in H. rewrite Ho in H. cbn [negb] in H.
    injection H as <-. apply all_prim. unfold is_primitive. now rewrite Ho.
Qed.

(** ** Phase 3 along plain names

    [deleteAtPath] finds its way where every name on the path is [plain]:
    not empty and free of dots. *)
Fixpoint dotless (s : string) : bool :=
  match s with
  | EmptyString => true
  | String c r => negb (Ascii.eqb c ".") && dotless r
  end.

Definition plain (name : string) : bool := nonempty name && dotless name.

(** [reach ks v]: the value the property names [ks] lead to from [v]. *)
Fixpoint reach (ks : list string) (v : json) : option json :=
  match ks with
  | [] => Some v
  | k :: r =>
      match v with
      | JObj fs => match assoc k fs with Some c => reach r c | None => None end
      | _ => None
      end
  end.

(** The path [walkAndCollectPaths] gives a property [key] below [cur]. *)
Definition extend (cur key : string) : string :=
  if nonempty cur then cur +:+ "." +:+ key else key.

Lemma split_dot_cons s : exists h t, split_dot s = h :: t.
Proof.
  induction s as [|c s (h & t & IH)]; simpl; [now eauto|].
  destruct (Ascii.eqb c "."); [now eauto|]. rewrite IH. now eauto.
Qed.

Lemma split_dot_dotless s : dotless s = true -> split_dot s = [s].
Proof.
  induction s as [|c s IH]; simpl; [reflexivity|].
  destruct (Ascii.eqb c "."); simpl; [discriminate|].
  intros H. now rewrite (IH H).
Qed.

Lemma split_dot_app a b :
  split_dot (a +:+ "." +:+ b) = split_dot a ++ split_dot b.
Proof.
  induction a as [|c a IH]; simpl; [reflexivity|].
  destruct (Ascii.eqb c "."); simpl; [now rewrite IH|].
  rewrite IH. destruct (split_dot_cons a) as (h & t & ->). reflexivity.
Qed.

(** The parts of a path that stands for a position: none at the root. *)
Definition parts_of (cur : string) : list string :=
  if nonempty cur then split_dot cur else [].

Lemma split_dot_extend cur key :
  dotless key = true -> split_dot (extend cur key) = parts_of cur ++ [key].
Proof.
  intros Hk. unfold extend, parts_of. destruct (nonempty cur).
  - now rewrite split_dot_app, (split_dot_dotless key Hk).
  - now apply split_dot_dotless.
Qed.

Lemma nonempty_extend cur key : nonempty key = true -> nonempty (extend cur key) = true.
Proof.
  unfold extend. intros Hk. destruct (nonempty cur) eqn:Hc; [|exact Hk].
  destruct cur; [discriminate | reflexivity].
Qed.

Lemma parts_of_extend cur key :
  plain key = true -> parts_of (extend cur key) = parts_of cur ++ [key].
Proof.
  unfold plain. intros H. apply andb_true_iff in H. destruct H as [Hn Hd].
  unfold parts_of at 1. rewrite (nonempty_extend cur key Hn).
  now apply split_dot_extend.
Qed.

Lemma parts_of_path cur ks :
  forallb plain ks = true ->
  parts_of (fold_left extend ks cur) = parts_of cur ++ ks.
Proof.
  revert cur. induction ks as [|k ks IH]; simpl; intros cur H.
  - now rewrite app_nil_r.
  - apply andb_true_iff in H. destruct H as [Hk Hks].
    rewrite (IH _ Hks), (parts_of_extend cur k Hk), <- app_assoc. reflexivity.
Qed.

(** The parts [deleteAtPath] gets for a keyword [kw] under plain names. *)
Lemma split_dot_path ks kw :
  forallb plain ks = true -> dotless kw = true ->
  split_dot (extend (fold_left extend ks "") kw) = ks ++ [kw].
Proof.
  intros Hks Hkw. rewrite (split_dot_extend _ kw Hkw).
  now rewrite (parts_of_path "" ks Hks).
Qed.

(** [walkAndCollectPaths] on an object, entry by entry. *)
Lemma walkAndCollectPaths_obj fs cur kw :
  walkAndCollectPaths (JObj fs) cur kw
    = flat_map (fun kv =>
                  (if String.eqb (fst kv) kw then [extend cur (fst kv)] else [])
                    ++ walkAndCollectPaths (snd kv) (extend cur (fst kv)) kw) fs.
Proof.
  simpl. induction fs as [|[key value] fs IH]; [reflexivity|].
  cbn [flat_map fst snd]. rewrite <- IH, <- app_assoc. reflexivity.
Qed.

(** It records every keyword that plain names lead to. *)
Lemma walkAndCollectPaths_complete ks v cur kw fs :
  reach ks v = Some (JObj fs) -> has_key kw fs = true ->
  In (extend (fold_left extend ks cur) kw) (walkAndCollectPaths v cur kw).
Proof.
  revert v cur. induction ks as [|k ks IH]; intros v cur Hr Hk.
  - simpl in Hr. injection Hr as ->. rewrite walkAndCollectPaths_obj.
    unfold has_key in Hk. destruct (assoc kw fs) as [c|] eqn:Ea; [|discriminate].
    apply assoc_In in Ea. apply in_flat_map. exists (kw, c). split; [exact Ea|].
    cbn [fst snd]. rewrite String.eqb_refl. now left.
  - simpl in Hr. destruct v as [| | | | |fs0]; try discriminate.
    destruct (assoc k fs0) as [c|] eqn:Ea; [|discriminate].
    rewrite walkAndCollectPaths_obj. apply assoc_In in Ea.
    apply in_flat_map. exists (k, c). split; [exact Ea|].
    cbn [fst snd]. apply in_or_app. right. now apply IH.
Qed.

Lemma In_insert_path x p sorted :
  In x (insert_path p sorted) <-> x = p \/ In x sorted.
Proof.
  induction sorted as [|q r IH]; simpl; [intuition|].
  destruct (path_depth p <=? path_depth q); simpl; rewrite ?IH; intuition.
Qed.

Lemma In_sort_paths x paths : In x (sort_paths paths) <-> In x paths.
Proof.
  unfold sort_paths.
  assert (H : forall acc, In x (fold_left (fun acc p => insert_path p acc) paths acc)
                          <-> In x paths \/ In x acc).
  { induction paths as [|p paths IH]; simpl; intros acc; [intuition|].
    rewrite IH, In_insert_path. intuition. }
  rewrite H. simpl. intuition.
Qed.

(** [free kw v]: no object that plain names lead to from [v] has the
    property [kw]. *)
Definition free (kw : string) (v : json) : Prop :=
  forall ks fs,
    forallb plain ks = true -> reach ks v = Some (JObj fs) -> assoc kw fs = None.

(** Whatever a deletion leaves at the end of a path was there before, with
    at least the same names missing. *)
Lemma reach_deleteAtParts parts v ks fs' :
  reach ks (deleteAtParts parts v) = Some (JObj fs') ->
  exists fs,
    reach ks v = Some (JObj fs) /\ forall k, assoc k fs = None -> assoc k fs' = None.
Proof.
  revert v ks fs'. induction parts as [|part rest IH]; intros v ks fs' H.
  - simpl in H. now exists fs'.
  - destruct rest as [|p2 rest].
    + simpl in H. destruct v as [| | | |l|fs0]; simpl in H;
        try (exists fs'; now split).
      destruct ks as [|k ks]; simpl in H |- *.
      * injection H as <-. exists fs0. split; [reflexivity|].
        intros k Hk. destruct (String.eqb_spec part k) as [->|Hne];
          [apply assoc_obj_delete_eq | now rewrite assoc_obj_delete_ne].
      * destruct (String.eqb_spec part k) as [->|Hne].
        -- now rewrite assoc_obj_delete_eq in H.
        -- rewrite assoc_obj_delete_ne in H by exact Hne.
           destruct (assoc k fs0); [|discriminate]. now exists fs'.
    + change (deleteAtParts (part :: p2 :: rest) v)
        with (match get_member v part with
              | Some next =>
                  if truthy next
                  then set_member v part (deleteAtParts (p2 :: rest) next)
                  else v
              | None => v
              end) in H.
      destruct (get_member v part) as [next|] eqn:Eg; [|now exists fs'].
      destruct (truthy next); [|now exists fs'].
      destruct v as [| | | |l|fs0]; simpl in Eg, H; try discriminate.
      * destruct (find_index part _ 0); destruct ks; simpl in H; discriminate.
      * destruct ks as [|k ks]; simpl in H |- *.
        -- injection H as <-. exists fs0. split; [reflexivity|].
           intros k Hk. rewrite assoc_obj_set_ne; [exact Hk|].
           intros <-. now rewrite Hk in Eg.
        -- destruct (String.eqb_spec part k) as [->|Hne].
           ++ rewrite assoc_obj_set_eq in H. rewrite Eg. now apply IH.
           ++ rewrite assoc_obj_set_ne in H by exact Hne.
              destruct (assoc k fs0); [|discriminate]. now exists fs'.
Qed.

Lemma free_deleteAtParts kw parts v : free kw v -> free kw (deleteAtParts parts v).
Proof.
  intros Hf ks fs' Hp Hr.
  destruct (reach_deleteAtParts parts v ks fs' Hr) as (fs & Hv & Hk).
  apply Hk. now apply (Hf ks fs).
Qed.

(** The deletion at the path of a keyword removes it there. *)
Lemma reach_deleteAtParts_hit ks kw v fs' :
  reach ks (deleteAtParts (ks ++ [kw]) v) = Some (JObj fs') -> assoc kw fs' = None.
Proof.
  revert v. induction ks as [|k ks IH]; intros v H.
  - simpl in H. destruct v as [| | | |l|fs0]; simpl in H; try discriminate.
    injection H as <-. apply assoc_obj_delete_eq.
  - cbn [app] in H.
    assert (Hd : deleteAtParts (k :: ks ++ [kw]) v
                 = match get_member v k with
                   | Some next =>
                       if truthy next
                       then set_member v k (deleteAtParts (ks ++ [kw]) next)
                       else v
                   | None => v
                   end) by (destruct ks; reflexivity).
    rewrite Hd in H. clear Hd.
    destruct v as [| | | |l|fs0]; simpl in H; try discriminate.
    + destruct (assoc k (indexed l)) as [next|]; [|discriminate].
      destruct (truthy next); [|discriminate].
      destruct (find_index k _ 0); simpl in H; discriminate.
    + destruct (assoc k fs0) as [next|] eqn:Ea; simpl in H;
        [|now rewrite Ea in H].
      destruct (truthy next) eqn:Et; simpl in H.
      * rewrite assoc_obj_set_eq in H. now apply (IH next).
      * rewrite Ea in H. destruct next; try discriminate;
          destruct ks; simpl in H; discriminate.
Qed.

(** One round of phase 3 frees the schema of its keyword. *)
Lemma fold_deleteAtPath_free kw paths v :
  dotless kw = true ->
  (forall ks fs,
      forallb plain ks = true -> reach ks v = Some (JObj fs) ->
      has_key kw fs = true -> In (extend (fold_left extend ks "") kw) paths) ->
  free kw (fold_left deleteAtPath paths v).
Proof.
  intros Hkw. revert v. induction paths as [|p paths IH]; simpl; intros v Hin.
  - intros ks fs Hp Hr. specialize (Hin ks fs Hp Hr). unfold has_key in Hin.
    destruct (assoc kw fs); [now destruct Hin | reflexivity].
  - apply IH. intros ks fs1 Hp Hr1 Hk1. unfold deleteAtPath in Hr1.
    destruct (reach_deleteAtParts _ v ks fs1 Hr1) as (fs & Hr & Hmono).
    assert (Hk : has_key kw fs = true).
    { unfold has_key in *. destruct (assoc kw fs) eqn:E; [reflexivity|].
      now rewrite (Hmono kw E) in Hk1. }
    destruct (Hin ks fs Hp Hr Hk) as [->|Hin']; [|exact Hin'].
    rewrite (split_dot_path ks kw Hp Hkw) in Hr1.
    apply reach_deleteAtParts_hit in Hr1. unfold has_key in Hk1.
    now rewrite Hr1 in Hk1.
Qed.

Lemma removeKeyword_free kw v : dotless kw = true -> free kw (removeKeyword v kw).
Proof.
  intros Hkw. unfold removeKeyword. apply fold_deleteAtPath_free; [exact Hkw|].
  intros ks fs Hp Hr Hk. apply In_sort_paths.
  now apply (walkAndCollectPaths_complete ks v "" kw fs).
Qed.

Lemma removeKeyword_keeps_free kw kw' v : free kw v -> free kw (removeKeyword v kw').
Proof.
  unfold removeKeyword. generalize (sort_paths (walkAndCollectPaths v "" kw')).
  intros paths. revert v. induction paths as [|p paths IH]; simpl; intros v Hf;
    [exact Hf|].
  apply IH. unfold deleteAtPath. now apply free_deleteAtParts.
Qed.

Lemma fold_removeKeyword_free kws kw v :
  forallb dotless kws = true ->
  In kw kws \/ free kw v -> free kw (fold_left removeKeyword kws v).
Proof.
  revert v. induction kws as [|k kws IH]; simpl; intros v Hd H.
  - now destruct H.
  - apply andb_true_iff in Hd. destruct Hd as [Hk Hd]. apply IH; [exact Hd|].
    destruct H as [[->|Hin]|Hf];
      [right; now apply removeKeyword_free | now left
      | right; now apply removeKeyword_keeps_free].
Qed.

Lemma removeUnsupported_free kw v :
  In kw UNSUPPORTED_SCHEMA_CONSTRAINTS -> free kw (removeUnsupported v).
Proof.
  intros Hin. apply fold_removeKeyword_free; [reflexivity | now left].
Qed.

(** Phases 4 and 5 bring no keyword back. *)
Lemma free_obj kw fs :
  free kw (JObj fs)
  <-> assoc kw fs = None
      /\ forall k c, plain k = true -> assoc k fs = Some c -> free kw c.
Proof.
  split.
  - intros Hf. split; [now apply (Hf [] fs)|].
    intros k c Hk Hc ks fs' Hp Hr. apply (Hf (k :: ks) fs').
    + simpl. now rewrite Hk, Hp.
    + simpl. now rewrite Hc.
  - intros [Hn Hc] [|k ks] fs' Hp Hr; simpl in *.
    + now injection Hr as <-.
    + apply andb_true_iff in Hp. destruct Hp as [Hk Hp].
      destruct (assoc k fs) as [c|] eqn:Ec; [|discriminate].
      now apply (Hc k c Hk Ec ks fs').
Qed.

Lemma free_flat kw v : (forall fs, v <> JObj fs) -> free kw v.
Proof.
  intros Hv [|k ks] fs Hp Hr; simpl in Hr.
  - injection Hr as ->. now destruct (Hv fs).
  - destruct v as [| | | | |fs0]; try discriminate. now destruct (Hv fs0).
Qed.

Lemma traverse_free (step : fields -> outcome fields) kw :
  (forall fs fs', step fs = Ok fs' -> assoc kw fs = None -> assoc kw fs' = None) ->
  (forall fs fs' k c',
      step fs = Ok fs' -> free kw (JObj fs) -> plain k = true ->
      assoc k fs' = Some c' -> free kw c') ->
  forall n v r, traverse step n v = Ok r -> free kw v -> free kw r.
Proof.
  intros Hkey Hchild.
  apply (traverse_rel step (fun v r => free kw v -> free kw r)).
  - auto.
  - intros l l' _ _. now apply free_flat.
  - intros fs fs' fs'' Hs Hn Hf. apply free_obj. split.
    + pose proof (same_names_assoc _ fs' fs'' kw Hn) as Ha.
      rewrite (Hkey fs fs' Hs (proj1 (proj1 (free_obj kw fs) Hf))) in Ha.
      now destruct (assoc kw fs'').
    + intros k c'' Hk Hc''.
      pose proof (same_names_assoc _ fs' fs'' k Hn) as Ha. rewrite Hc'' in Ha.
      destruct (assoc k fs') as [c'|] eqn:Ec'; [|contradiction].
      apply Ha. now apply (Hchild fs fs' k c' Hs Hf Hk).
Qed.

Definition not_rewritten (kw : string) : bool :=
  negb (String.eqb kw "required") && negb (String.eqb kw "properties")
  && negb (String.eqb kw "reason") && negb (String.eqb kw "type")
  && negb (String.eqb kw "description").

Lemma not_rewritten_ne kw :
  not_rewritten kw = true ->
  "required"%string <> kw /\ "properties"%string <> kw /\ "reason"%string <> kw
  /\ "type"%string <> kw /\ "description"%string <> kw.
Proof.
  unfold not_rewritten. rewrite !andb_true_iff, !negb_true_iff.
  intros [[[[H1 H2] H3] H4] H5].
  repeat split; intros <-; rewrite String.eqb_refl in *; discriminate.
Qed.

Lemma keywords_not_rewritten kw :
  In kw UNSUPPORTED_SCHEMA_CONSTRAINTS -> not_rewritten kw = true.
Proof.
  intros H.
  assert (Hall : forallb not_rewritten UNSUPPORTED_SCHEMA_CONSTRAINTS = true)
    by reflexivity.
  apply (proj1 (forallb_forall _ _) Hall kw H).
Qed.

Lemma cleanupRequired_free kw v r :
  not_rewritten kw = true ->
  cleanupRequired v = Ok r -> free kw v -> free kw r.
Proof.
  intros Hkw. apply not_rewritten_ne in Hkw. destruct Hkw as (Hreq & _).
  apply traverse_free.
  - intros fs fs' Hs Hn. apply cleanupRequired_node_cases in Hs.
    destruct Hs as [[-> _]|(l & p & _ & _ & _ & [[_ ->]|[_ ->]])]; [exact Hn | |].
    + now rewrite assoc_obj_delete_ne.
    + now rewrite assoc_obj_set_ne.
  - intros fs fs' k c' Hs Hf Hk Hc'. apply free_obj in Hf. destruct Hf as [_ Hf].
    apply cleanupRequired_node_cases in Hs.
    destruct Hs as [[-> _]|(l & p & _ & _ & _ & [[_ ->]|[_ ->]])].
    + now apply (Hf k c').
    + destruct (String.eqb_spec "required" k) as [<-|Hne].
      * now rewrite assoc_obj_delete_eq in Hc'.
      * rewrite assoc_obj_delete_ne in Hc' by exact Hne. now apply (Hf k c').
    + destruct (String.eqb_spec "required" k) as [<-|Hne].
      * rewrite assoc_obj_set_eq in Hc'. injection Hc' as <-.
        now apply free_flat.
      * rewrite assoc_obj_set_ne in Hc' by exact Hne. now apply (Hf k c').
Qed.

Lemma placeholder_free kw :
  not_rewritten kw = true -> free kw placeholder_properties.
Proof.
  intros Hkw. apply not_rewritten_ne in Hkw.
  destruct Hkw as (_ & _ & Hreason & Htype & Hdesc).
  unfold placeholder_properties. apply free_obj. split.
  - cbn [assoc]. now destruct (String.eqb_spec "reason" kw).
  - intros k c _. cbn [assoc]. destruct (String.eqb "reason" k); [|discriminate].
    intros [= <-]. apply free_obj. split.
    + cbn [assoc]. destruct (String.eqb_spec "type" kw); [contradiction|].
      now destruct (String.eqb_spec "description" kw).
    + intros k' c' _. cbn [assoc].
      destruct (String.eqb "type" k'); [intros [= <-]; now apply free_flat|].
      destruct (String.eqb "description" k'); [|discriminate].
      intros [= <-]. now apply free_flat.
Qed.

Lemma addPlaceholders_free kw v r :
  not_rewritten kw = true ->
  addPlaceholders v = Ok r -> free kw v -> free kw r.
Proof.
  intros Hkw. pose proof (placeholder_free kw Hkw) as Hph.
  apply not_rewritten_ne in Hkw. destruct Hkw as (Hreq & Hprop & _).
  apply traverse_free.
  - intros fs fs' Hs Hn. apply addPlaceholders_node_cases in Hs.
    destruct Hs as [[-> _]|[_ ->]]; [exact Hn|].
    now rewrite !assoc_obj_set_ne.
  - intros fs fs' k c' Hs Hf Hk Hc'. apply free_obj in Hf. destruct Hf as [_ Hf].
    apply addPlaceholders_node_cases in Hs. destruct Hs as [[-> _]|[_ ->]].
    + now apply (Hf k c').
    + destruct (String.eqb_spec "required" k) as [<-|Hne].
      * rewrite assoc_obj_set_eq in Hc'. injection Hc' as <-. now apply free_flat.
      * rewrite assoc_obj_set_ne in Hc' by exact Hne.
        destruct (String.eqb_spec "properties" k) as [<-|Hne'].
        -- rewrite assoc_obj_set_eq in Hc'. now injection Hc' as <-.
        -- rewrite assoc_obj_set_ne in Hc' by exact Hne'. now apply (Hf k c').
Qed.

Lemma sanitized_free s r kw :
  cleanJSONSchemaForAntigravity s = Ok r ->
  In kw UNSUPPORTED_SCHEMA_CONSTRAINTS -> free kw r.
Proof.
  intros H Hin. destruct (is_object_like s) eqn:Ho.
  - apply (sanitizer_stages s r Ho) in H.
    destruct H as (st & _ & _ & _ & _ & _ & H6 & H7 & H8).
    pose proof (keywords_not_rewritten kw Hin) as Hkw.
    apply (addPlaceholders_free kw _ _ Hkw H8).
    apply (cleanupRequired_free kw _ _ Hkw H7). rewrite H6.
    now apply removeUnsupported_free.
  - unfold cleanJSONSchemaForAntigravity in H. rewrite Ho in H. cbn [negb] in H.
    injection H as <-. apply free_flat. intros fs ->. discriminate.
Qed.

(** ** The phases return

    The budget a helper is run with is never used up: a rewrite leaves the
    property values of an object at most one level higher than it found
    them, and an object counts two levels. *)
Definition hl (l : list json) : nat :=
  fold_right (fun x m => Nat.max (height x) m) 0 l.

Definition hs (fs : fields) : nat :=
  fold_right (fun kv m => Nat.max (height (snd kv)) m) 0 fs.

Lemma hl_In x l : In x l -> height x <= hl l.
Proof.
  induction l as [|y l IH]; simpl; [intros []|].
  intros [->|H]; [lia | apply IH in H; lia].
Qed.

Lemma hs_In k c fs : In (k, c) fs -> height c <= hs fs.
Proof.
  induction fs as [|[k' c'] fs IH]; simpl; [intros []|].
  intros [[= -> ->]|H]; [lia | apply IH in H; lia].
Qed.

Lemma hl_le l b : (forall x, In x l -> height x <= b) -> hl l <= b.
Proof.
  induction l as [|y l IH]; simpl; intros H; [lia|].
  apply Nat.max_lub; [apply H; now left | apply IH; intros x Hx; apply H; now right].
Qed.

Lemma hs_le fs b : (forall k c, In (k, c) fs -> height c <= b) -> hs fs <= b.
Proof.
  induction fs as [|[k' c'] fs IH]; simpl; intros H; [lia|].
  apply Nat.max_lub; [apply (H k'); now left|].
  apply IH. intros k c Hin. apply (H k). now right.
Qed.

Lemma hs_obj_set k v fs b :
  height v <= b -> hs fs <= b -> hs (obj_set k v fs) <= b.
Proof.
  intros Hv Hfs. apply hs_le. intros k' c Hin. apply In_obj_set in Hin.
  destruct Hin as [[= -> ->]|Hin]; [exact Hv|]. apply hs_In in Hin. lia.
Qed.

Lemma hs_obj_delete k fs : hs (obj_delete k fs) <= hs fs.
Proof.
  apply hs_le. intros k' c Hin. apply In_obj_delete in Hin. now apply hs_In in Hin.
Qed.

Lemma hs_assign target source b :
  hs target <= b -> hs source <= b -> hs (assign target source) <= b.
Proof.
  intros Ht Hs. apply hs_le. intros k c Hin. apply In_assign in Hin.
  destruct Hin as [Hin|Hin]; apply hs_In in Hin; lia.
Qed.

Lemma hs_indexed l : hs (indexed l) <= hl l.
Proof.
  apply hs_le. intros k c Hin. apply In_indexed in Hin. now apply hl_In.
Qed.

Lemma hl_chars s : hl (chars s) = 0.
Proof. induction s; simpl; auto. Qed.

Lemma hs_own_entries v : hs (own_entries v) <= pred (height v).
Proof.
  destruct v as [| | |s|l|fs]; simpl; try lia.
  - pose proof (hs_indexed (chars s)). rewrite hl_chars in H. lia.
  - apply hs_indexed.
  - fold (hs fs). lia.
Qed.

Lemma mapM_ok {A B} (f : A -> outcome B) l :
  Forall (fun x => exists y, f x = Ok y) l -> exists l', mapM f l = Ok l'.
Proof.
  induction 1 as [|x l [y Hy] _ [l' IH]]; simpl; [now exists []|].
  rewrite Hy. simpl. rewrite IH. simpl. now eexists.
Qed.

Lemma map_fields_ok f fs :
  Forall (fun kv => exists y, f (snd kv) = Ok y) fs ->
  exists fs', map_fields f fs = Ok fs'.
Proof.
  intros H. unfold map_fields. apply mapM_ok.
  apply List.Forall_forall. intros kv Hin.
  destruct (proj1 (List.Forall_forall _ _) H kv Hin) as [y Hy].
  rewrite Hy. simpl. now eexists.
Qed.

(** [I n v]: [v] can be rewritten with the budget [n]. *)
Lemma traverse_ok (step : fields -> outcome fields) (I : nat -> json -> Prop) :
  (forall n l, I n (JArr l) -> exists m, n = S m /\ Forall (I m) l) ->
  (forall n fs,
      I n (JObj fs) ->
      exists m fs', n = S m /\ step fs = Ok fs' /\ Forall (fun kv => I m (snd kv)) fs') ->
  forall n v, I n v -> exists r, traverse step n v = Ok r.
Proof.
  intros Harr Hobj. induction n as [|n IH]; intros v Hv.
  - destruct v as [| | | |l|fs]; try (now eexists).
    + destruct (Harr 0 l Hv) as (m & Hm & _). discriminate.
    + destruct (Hobj 0 fs Hv) as (m & fs' & Hm & _). discriminate.
  - destruct v as [| | | |l|fs]; try (now eexists).
    + destruct (Harr (S n) l Hv) as (m & [= <-] & Hl). simpl.
      destruct (mapM_ok (traverse step n) l) as [l' ->]; [|now eexists].
      apply List.Forall_forall. intros x Hx. apply IH.
      apply (proj1 (List.Forall_forall _ _) Hl x Hx).
    + destruct (Hobj (S n) fs Hv) as (m & fs' & [= <-] & Hs & Hfs). simpl.
      rewrite Hs. simpl.
      destruct (map_fields_ok (traverse step n) fs') as [fs'' ->]; [|now eexists].
      apply List.Forall_forall. intros kv Hkv. apply IH.
      apply (proj1 (List.Forall_forall _ _) Hfs kv Hkv).
Qed.

(** A helper whose rewrite succeeds where [Q] holds, keeps [Q] for the
    property values and lifts them by one level at most, returns. *)
Lemma everywhere_ok (step : fields -> outcome fields) (Q : fields -> Prop) :
  (forall fs,
      all_nodes Q (JObj fs) ->
      exists fs', step fs = Ok fs' /\ all_in Q fs' /\ hs fs' <= S (hs fs)) ->
  forall v, all_nodes Q v -> exists r, everywhere step v = Ok r.
Proof.
  intros Hstep v Hv. unfold everywhere, budget.
  apply (traverse_ok step (fun n v => height v <= n /\ all_nodes Q v)).
  - intros n l [Hh Hq]. simpl in Hh. fold (hl l) in Hh.
    destruct n as [|m]; [lia|]. exists m. split; [reflexivity|].
    apply all_nodes_arr_inv in Hq.
    apply List.Forall_forall. intros x Hx. split.
    + apply hl_In in Hx. lia.
    + apply (proj1 (List.Forall_forall _ _) Hq x Hx).
  - intros n fs [Hh Hq]. simpl in Hh. fold (hs fs) in Hh.
    destruct n as [|m]; [lia|]. destruct (Hstep fs Hq) as (fs' & Hs & Hall & Hhs).
    exists m, fs'. repeat split; try assumption.
    apply List.Forall_forall. intros [k c] Hin. split.
    + apply hs_In in Hin. simpl. lia.
    + apply (all_in_In Q fs' k c Hall Hin).
  - split; [lia | exact Hv].
Qed.

Lemma all_nodes_True v : all_nodes (fun _ => True) v.
Proof.
  induction v as [| | | |l IH|fs IH] using json_ind; try (now apply all_prim).
  - now apply all_arr.
  - now apply all_obj.
Qed.

Lemma hl_strings l : hl (map (fun v => JStr (toString v)) l) = 0.
Proof. induction l; simpl; auto. Qed.

Lemma hl_filter f l : hl (List.filter f l) <= hl l.
Proof.
  apply hl_le. intros x Hx. apply filter_In in Hx. now apply hl_In.
Qed.

Lemma height_assoc k c fs : assoc k fs = Some c -> height c <= hs fs.
Proof. intros H. apply assoc_In in H. now apply hs_In in H. Qed.

Lemma all_in_True fs : all_in (fun _ => True) fs.
Proof. apply List.Forall_forall. intros kv _. apply all_nodes_True. Qed.

Lemma convertConstToEnum_ok v : exists r, convertConstToEnum v = Ok r.
Proof.
  apply (everywhere_ok _ (fun _ => True)); [|apply all_nodes_True].
  intros fs _. unfold convertConstToEnum_node.
  destruct (assoc "const" fs) as [c|] eqn:Ec;
    [|exists fs; repeat split; [apply all_in_True | lia]].
  destruct (truthy_opt (assoc "enum" fs));
    [exists fs; repeat split; [apply all_in_True | lia]|].
  eexists. repeat split; [apply all_in_True|].
  etransitivity; [apply hs_obj_delete|]. apply hs_obj_set; [|lia].
  apply height_assoc in Ec. simpl. lia.
Qed.

Lemma convertEnumValuesToStrings_ok v : exists r, convertEnumValuesToStrings v = Ok r.
Proof.
  apply (everywhere_ok _ (fun _ => True)); [|apply all_nodes_True].
  intros fs _. unfold convertEnumValuesToStrings_node.
  destruct (assoc "enum" fs) as [[| | | |l|]|] eqn:Ee;
    try (exists fs; repeat split; [apply all_in_True | lia]).
  eexists. repeat split; [apply all_in_True|].
  apply hs_obj_set; [|lia]. simpl. fold (hl (map (fun v => JStr (toString v)) l)).
  rewrite hl_strings. lia.
Qed.

Lemma hs_flatten_key key fs : hs (flatten_key key fs) <= hs fs.
Proof.
  unfold flatten_key.
  destruct (assoc key fs) as [[| | | |branches|]|] eqn:Ek; try lia.
  destruct (nth_error _ _) as [selected|] eqn:En; [|lia].
  apply nth_error_In, filter_In in En. destruct En as [Hin _].
  apply hs_assign; [apply hs_obj_delete|].
  etransitivity; [apply hs_own_entries|].
  apply height_assoc in Ek. simpl in Ek. fold (hl branches) in Ek.
  apply hl_In in Hin. lia.
Qed.

Lemma flattenAnyOfOneOf_ok v : exists r, flattenAnyOfOneOf v = Ok r.
Proof.
  apply (everywhere_ok _ (fun _ => True)); [|apply all_nodes_True].
  intros fs _. eexists. repeat split; [apply all_in_True|].
  etransitivity; [apply hs_flatten_key|].
  etransitivity; [apply hs_flatten_key|]. lia.
Qed.

Lemma flattenTypeArrays_ok v : exists r, flattenTypeArrays v = Ok r.
Proof.
  apply (everywhere_ok _ (fun _ => True)); [|apply all_nodes_True].
  intros fs _. unfold flattenTypeArrays_node.
  destruct (assoc "type" fs) as [[| | | |types|]|] eqn:Et;
    try (exists fs; repeat split; [apply all_in_True | lia]).
  eexists. repeat split; [apply all_in_True|].
  apply hs_obj_set; [|lia].
  apply height_assoc in Et. simpl in Et. fold (hl types) in Et.
  destruct (List.filter _ types) as [|t rest] eqn:Ef; [simpl; lia|].
  assert (Hin : In t (t :: rest)) by now left.
  rewrite <- Ef in Hin. apply filter_In in Hin. destruct Hin as [Hin _].
  apply hl_In in Hin. lia.
Qed.

Lemma cleanupRequired_ok v : exists r, cleanupRequired v = Ok r.
Proof.
  apply (everywhere_ok _ (fun _ => True)); [|apply all_nodes_True].
  intros fs _. destruct (cleanupRequired_node fs) as [fs'| |] eqn:Hs.
  - exists fs'. repeat split; [apply all_in_True|].
    apply cleanupRequired_node_cases in Hs.
    destruct Hs as [[-> _]|(l & p & Hl & _ & _ & [[_ ->]|[_ ->]])]; [lia | |].
    + etransitivity; [apply hs_obj_delete|]. lia.
    + apply hs_obj_set; [|lia]. apply height_assoc in Hl. simpl in *.
      fold (hl l) in Hl.
      fold (hl (List.filter (fun field => has_own p (toString field)) l)).
      pose proof (hl_filter (fun field => has_own p (toString field)) l). lia.
  - exfalso. unfold cleanupRequired_node in Hs.
    repeat match type of Hs with
           | match ?x with _ => _ end = _ => destruct x
           | (if ?x then _ else _) = _ => destruct x
           end; discriminate.
  - exfalso. unfold cleanupRequired_node in Hs.
    repeat match type of Hs with
           | match ?x with _ => _ end = _ => destruct x
           | (if ?x then _ else _) = _ => destruct x
           end; discriminate.
Qed.

(** ** Where [mergeAllOf] does not throw

    [mergeAllOf] reads [item.properties] of every member of an [allOf]
    array, which throws for [null], and spreads [obj.required], which throws
    for a true value that is neither an array nor a string.  [mergeable]
    excludes both at an object. *)
Definition spreadable (o : option json) : bool :=
  match o with
  | None => true
  | Some v =>
      negb (truthy v) || match v with JArr _ | JStr _ => true | _ => false end
  end.

Definition not_null (v : json) : bool :=
  match v with JNull => false | _ => true end.

Definition mergeable (fs : fields) : Prop :=
  match assoc "allOf" fs with
  | Some (JArr items) => forallb not_null items = true
  | _ => True
  end
  /\ spreadable (assoc "required" fs) = true.

Definition sane (fs : fields) : Prop := tidy fs /\ mergeable fs.

Lemma not_null_kin l l' :
  Forall2 kin l l' -> forallb not_null l = true -> forallb not_null l' = true.
Proof.
  induction 1 as [|x y l l' Hxy _ IH]; simpl; [auto|].
  rewrite !andb_true_iff. intros [Hx Hl]. split; [|auto].
  destruct Hxy; auto.
Qed.

Lemma mergeable_kin fs fs' :
  same_names kin fs fs' -> mergeable fs -> mergeable fs'.
Proof.
  intros Hn [Ha Hr].
  pose proof (same_names_assoc kin fs fs' "allOf" Hn) as Hall.
  pose proof (same_names_assoc kin fs fs' "required" Hn) as Hreq.
  split.
  - destruct (assoc "allOf" fs') as [v'|]; [|trivial].
    destruct (assoc "allOf" fs) as [v|]; [|contradiction].
    destruct Hall as [v Hp|l l' Hl|]; [exact Ha | | trivial].
    now apply (not_null_kin l l').
  - destruct (assoc "required" fs') as [v'|]; [|reflexivity].
    destruct (assoc "required" fs) as [v|]; [|contradiction].
    destruct Hreq as [v Hp|l l' Hl|]; [exact Hr | reflexivity | exact Hr].
Qed.

Lemma mergeable_set k v fs :
  k <> "allOf" -> spreadable (Some v) = true \/ k <> "required" ->
  mergeable fs -> mergeable (obj_set k v fs).
Proof.
  intros Ha Hv [H1 H2]. split.
  - now rewrite assoc_obj_set_ne.
  - destruct (String.eqb_spec k "required") as [->|Hne].
    + rewrite assoc_obj_set_eq. now destruct Hv.
    + now rewrite assoc_obj_set_ne.
Qed.

Lemma mergeable_delete k fs : mergeable fs -> mergeable (obj_delete k fs).
Proof.
  intros [H1 H2]. split.
  - destruct (String.eqb_spec k "allOf") as [->|Hne];
      [now rewrite assoc_obj_delete_eq | now rewrite assoc_obj_delete_ne].
  - destruct (String.eqb_spec k "required") as [->|Hne];
      [now rewrite assoc_obj_delete_eq | now rewrite assoc_obj_delete_ne].
Qed.

Lemma mergeable_assign target source :
  distinct source -> mergeable target -> mergeable source ->
  mergeable (assign target source).
Proof.
  intros Hd [Ht1 Ht2] [Hs1 Hs2]. split; rewrite (assoc_assign _ _ _ Hd).
  - now destruct (assoc "allOf" source).
  - now destruct (assoc "required" source).
Qed.

Lemma mergeable_own_entries v : all_nodes mergeable v -> mergeable (own_entries v).
Proof.
  intros H. destruct v as [| | |s|l|fs]; simpl;
    try (split; [exact I | reflexivity]).
  - split; now rewrite assoc_indexed.
  - split; now rewrite assoc_indexed.
  - now apply all_nodes_obj_inv in H as [? _].
Qed.

Lemma all_nodes_and (P Q : fields -> Prop) v :
  all_nodes P v -> all_nodes Q v -> all_nodes (fun fs => P fs /\ Q fs) v.
Proof.
  induction v as [| | | |l IH|fs IH] using json_ind; intros HP HQ;
    try (now apply all_prim).
  - apply all_nodes_arr_inv in HP. apply all_nodes_arr_inv in HQ.
    apply all_arr. revert HP HQ.
    induction IH as [|x l Hx _ IHl]; intros HP HQ; [constructor|].
    inversion HP; subst. inversion HQ; subst. constructor; auto.
  - apply all_nodes_obj_inv in HP as [HP HPall].
    apply all_nodes_obj_inv in HQ as [HQ HQall].
    apply all_obj; [now split|]. clear HP HQ. revert HPall HQall.
    induction IH as [|x l Hx _ IHl]; intros HP HQ; [constructor|].
    inversion HP; subst. inversion HQ; subst. constructor; auto.
Qed.

Lemma sane_kin fs fs' : same_names kin fs fs' -> sane fs -> sane fs'.
Proof.
  intros Hn [Ht Hm]. split; [now apply (tidy_kin fs) | now apply (mergeable_kin fs)].
Qed.

Lemma sane_nil : sane [].
Proof. split; [apply tidy_nil | split; [exact I | reflexivity]]. Qed.

Lemma sane_assign target source : sane target -> sane source -> sane (assign target source).
Proof.
  intros [Ht Hm] [Ht' Hm']. split; [now apply tidy_assign|].
  apply mergeable_assign; try assumption. apply Ht'.
Qed.

Lemma sane_own_entries v : all_nodes sane v -> sane (own_entries v).
Proof.
  intros H. split.
  - apply tidy_own_entries. apply (all_nodes_impl sane); [now intros fs [? _] | exact H].
  - apply mergeable_own_entries.
    apply (all_nodes_impl sane); [now intros fs [_ ?] | exact H].
Qed.

Lemma sane_delete k fs : sane fs -> sane (obj_delete k fs).
Proof.
  intros [Ht Hm]. split; [now apply tidy_delete | now apply mergeable_delete].
Qed.

Lemma sane_set k v fs :
  k <> "enum" -> k <> "allOf" -> spreadable (Some v) = true \/ k <> "required" ->
  sane fs -> sane (obj_set k v fs).
Proof.
  intros He Ha Hv [Ht Hm]. split; [now apply tidy_set | now apply mergeable_set].
Qed.

Ltac sane_closed :=
  first [ exact sane_kin | exact sane_nil | exact sane_assign
        | exact sane_own_entries | exact sane_delete
        | intros; apply sane_set;
          [discriminate | discriminate
          | first [left; reflexivity | right; discriminate] | assumption] ].

(** Phase 1 leaves a mergeable schema mergeable. *)
Lemma convertConstToEnum_mergeable v r :
  convertConstToEnum v = Ok r -> all_nodes mergeable v -> all_nodes mergeable r.
Proof.
  apply (traverse_all_nodes convertConstToEnum_node kin mergeable mergeable);
    [apply kin_prim | apply kin_arr | apply kin_step | apply mergeable_kin |].
  intros fs fs' Hs H. apply all_nodes_obj_inv in H. destruct H as [Hm Hall].
  unfold convertConstToEnum_node in Hs.
  destruct (assoc "const" fs) as [c|] eqn:Hc; [|injection Hs as <-; now split].
  destruct (truthy_opt (assoc "enum" fs)); injection Hs as <-; [now split|].
  split.
  - apply mergeable_delete, mergeable_set; [discriminate | right; discriminate | exact Hm].
  - apply all_in_obj_delete, all_in_obj_set; [|exact Hall].
    apply all_arr. constructor; [|constructor].
    now apply (all_in_assoc mergeable fs "const").
Qed.

Lemma convertEnumValuesToStrings_mergeable v r :
  convertEnumValuesToStrings v = Ok r -> all_nodes mergeable v ->
  all_nodes mergeable r.
Proof.
  apply (traverse_all_nodes convertEnumValuesToStrings_node kin mergeable mergeable);
    [apply kin_prim | apply kin_arr | apply kin_step | apply mergeable_kin |].
  intros fs fs' Hs H. apply all_nodes_obj_inv in H. destruct H as [Hm Hall].
  unfold convertEnumValuesToStrings_node in Hs.
  destruct (assoc "enum" fs) as [[| | | |l|]|] eqn:He; injection Hs as <-;
    try now split.
  split.
  - apply mergeable_set; [discriminate | right; discriminate | exact Hm].
  - apply all_in_obj_set; [apply all_nodes_strings | exact Hall].
Qed.

Lemma hl_app a b : hl (a ++ b) = Nat.max (hl a) (hl b).
Proof. induction a as [|x a IH]; simpl; [reflexivity|]. rewrite IH. lia. Qed.

Lemma hl_push reqs acc b :
  hl reqs <= b -> hl acc <= b ->
  hl (fold_left (fun acc req => if includes acc req then acc else acc ++ [req])
        reqs acc) <= b.
Proof.
  intros Hr Ha. apply hl_le. intros x Hx.
  assert (H : Forall (fun x => height x <= b)
                (fold_left (fun acc req => if includes acc req then acc else acc ++ [req])
                   reqs acc)).
  { apply push_new_all; apply List.Forall_forall; intros y Hy;
      apply hl_In in Hy; lia. }
  apply (proj1 (List.Forall_forall _ _) H x Hx).
Qed.

(** What [mergeAllOf] has collected lies [b] levels high at most. *)
Definition low (b : nat) (m : merged) : Prop :=
  (forall mp, m_properties m = Some mp -> hs mp <= b)
  /\ (forall mr, m_required m = Some mr -> hl mr <= b).

(** One round of the loop of [mergeAllOf]: it throws for [null] only, and
    what it adds comes from two levels below the member. *)
Lemma merge_item_cases m item b :
  height item <= S (S b) -> low b m ->
  (item = JNull /\ merge_item m item = TypeError)
  \/ (item <> JNull /\ exists m', merge_item m item = Ok m' /\ low b m').
Proof.
  intros Hh [Hp Hr].
  destruct item as [| | | | |ifs] eqn:Hitem;
    try (right; split; [discriminate | exists m; now repeat split]);
    [left; now split|].
  right. split; [discriminate|].
  rewrite <- Hitem in *. unfold merge_item.
  assert (Hifs : hs ifs <= b) by (subst item; simpl in Hh; fold (hs ifs) in Hh; lia).
  set (m1 := match prop item "properties" with
             | Some p => if truthy p then _ else m
             | None => m
             end).
  assert (H1 : low b m1).
  { subst m1. destruct (prop item "properties") as [p|] eqn:Ep; [|now split].
    destruct (truthy p); [|now split]. split; simpl; [|exact Hr].
    intros mp [= <-]. apply hs_assign.
    - destruct (m_properties m) as [mp0|]; simpl; [now apply Hp | lia].
    - etransitivity; [apply hs_own_entries|].
      subst item. simpl in Ep. apply height_assoc in Ep. lia. }
  destruct H1 as [Hp1 Hr1].
  assert (Hgoal : exists m',
             match prop item "required" with
             | Some (JArr reqs) =>
                 Ok {| m_properties := m_properties m1;
                       m_required :=
                         Some (fold_left
                                 (fun acc req => if includes acc req then acc else acc ++ [req])
                                 reqs (default [] (m_required m1))) |}
             | _ => Ok m1
             end = Ok m' /\ low b m').
  { destruct (prop item "required") as [[| | | |reqs|]|] eqn:Er;
      try (exists m1; now repeat split).
    eexists. split; [reflexivity|]. split; simpl; [exact Hp1|].
    intros mr [= <-]. apply hl_push.
    - subst item. simpl in Er. apply height_assoc in Er. simpl in Er.
      fold (hl reqs) in Er. lia.
    - destruct (m_required m1) as [mr0|]; simpl; [now apply Hr1 | lia]. }
  subst item. exact Hgoal.
Qed.

Lemma foldM_merge_cases items m b :
  hl items <= S (S b) -> low b m ->
  (forallb not_null items = false /\ foldM merge_item items m = TypeError)
  \/ (forallb not_null items = true
      /\ exists m', foldM merge_item items m = Ok m' /\ low b m').
Proof.
  revert m. induction items as [|item items IH]; simpl; intros m Hh Hm.
  - right. split; [reflexivity | now exists m].
  - destruct (merge_item_cases m item b ltac:(lia) Hm)
      as [[-> ->]|[Hnn (m1 & -> & Hm1)]]; [left; now split|].
    simpl. replace (not_null item) with true by (now destruct item).
    apply IH; [lia | exact Hm1].
Qed.

Lemma spread_or_empty_cases o :
  (spreadable o = true /\ exists base, spread_or_empty o = Ok base)
  \/ (spreadable o = false /\ spread_or_empty o = TypeError).
Proof.
  unfold spreadable, spread_or_empty. destruct o as [v|]; [|left; now eauto].
  destruct (truthy v); simpl; [|left; now eauto].
  destruct v; try (right; now split); left; now eauto.
Qed.

Lemma hl_spread o base b :
  (forall v, o = Some v -> height v <= S b) ->
  spread_or_empty o = Ok base -> hl base <= b.
Proof.
  unfold spread_or_empty. intros Hb H. destruct o as [v|]; [|injection H as <-; simpl; lia].
  destruct (truthy v); [|injection H as <-; simpl; lia].
  specialize (Hb v eq_refl).
  destruct v; try discriminate; injection H as <-.
  - rewrite hl_chars. lia.
  - simpl in Hb. fold (hl items) in Hb. lia.
Qed.

(** The rewrite of an object by [mergeAllOf] does not run out of budget, and
    what it returns is one level higher at most. *)
Lemma mergeAllOf_node_height fs :
  mergeAllOf_node fs <> NoFuel
  /\ forall fs', mergeAllOf_node fs = Ok fs' -> hs fs' <= S (hs fs).
Proof.
  unfold mergeAllOf_node.
  destruct (assoc "allOf" fs) as [[| | | |items|]|] eqn:Ea;
    try (split; [discriminate | intros fs' [= <-]; lia]).
  apply height_assoc in Ea. simpl in Ea. fold (hl items) in Ea.
  destruct (foldM_merge_cases items {| m_properties := None; m_required := None |}
              (hs fs - 3) ltac:(lia) ltac:(split; simpl; discriminate))
    as [[_ ->]|[_ (m & -> & [Hp Hr])]]; [split; [discriminate | discriminate]|].
  cbn [bind].
  set (obj1 := obj_delete "allOf" fs) in *.
  assert (H1 : hs obj1 <= hs fs) by apply hs_obj_delete.
  set (obj2 := match m_properties m with Some mp => _ | None => obj1 end) in *.
  assert (H2 : hs obj2 <= S (hs fs)).
  { subst obj2. destruct (m_properties m) as [mp|]; [|lia].
    apply hs_obj_set; [|lia]. simpl.
    assert (Hbound : hs (assign (assign [] (own_entries_opt (assoc "properties" obj1))) mp)
                     <= pred (hs fs)).
    { apply hs_assign; [apply hs_assign; [simpl; lia|] | specialize (Hp mp eq_refl); lia].
      destruct (assoc "properties" obj1) as [p|] eqn:Ep; simpl; [|lia].
      etransitivity; [apply hs_own_entries|]. apply height_assoc in Ep. lia. }
    fold (hs (assign (assign [] (own_entries_opt (assoc "properties" obj1))) mp)). lia. }
  destruct (m_required m) as [mr|]; [|split; [discriminate | intros fs' [= <-]; exact H2]].
  destruct (spread_or_empty_cases (assoc "required" obj2))
    as [[_ (base & Hb)]|[_ Hb]]; rewrite Hb; cbn [bind];
    [|split; discriminate].
  split; [discriminate|]. intros fs' [= <-]. apply hs_obj_set; [|exact H2].
  simpl. fold (hl (base ++ mr)). rewrite hl_app.
  specialize (Hr mr eq_refl).
  assert (Hbase : hl base <= pred (hs fs)); [|lia].
  apply (hl_spread (assoc "required" obj2)); [|exact Hb].
  intros v Hv. subst obj2.
  destruct (m_properties m) as [mp|];
    [rewrite assoc_obj_set_ne in Hv by discriminate|];
    apply height_assoc in Hv; lia.
Qed.

(** It returns where the object is mergeable. *)
Lemma mergeAllOf_node_returns fs :
  mergeable fs -> exists fs', mergeAllOf_node fs = Ok fs'.
Proof.
  intros [Hm1 Hm2]. unfold mergeAllOf_node.
  destruct (assoc "allOf" fs) as [[| | | |items|]|] eqn:Ea; try (now eexists).
  destruct (foldM_merge_cases items {| m_properties := None; m_required := None |}
              (hl items) ltac:(lia) ltac:(split; simpl; discriminate))
    as [[Hn _]|[_ (m & -> & _)]]; [congruence|].
  cbn [bind]. destruct (m_required m) as [mr|]; [|now eexists].
  set (obj2 := match m_properties m with Some mp => _ | None => _ end).
  assert (Hsp : spreadable (assoc "required" obj2) = true).
  { subst obj2. destruct (m_properties m) as [mp|];
      [rewrite assoc_obj_set_ne by discriminate|];
      now rewrite assoc_obj_delete_ne by discriminate. }
  destruct (spread_or_empty_cases (assoc "required" obj2))
    as [[_ (base & Hb)]|[Hf _]];
    [rewrite Hb; cbn [bind]; now eexists|].
  rewrite Hsp in Hf. discriminate.
Qed.

Lemma mergeAllOf_node_ok fs :
  all_nodes sane (JObj fs) ->
  exists fs', mergeAllOf_node fs = Ok fs' /\ all_in sane fs' /\ hs fs' <= S (hs fs).
Proof.
  intros H.
  assert (Hm : mergeable fs) by now apply all_nodes_obj_inv in H as [[_ ?] _].
  destruct (mergeAllOf_node_returns fs Hm) as [fs' Hs]. exists fs'.
  split; [exact Hs|]. split.
  - apply (mergeAllOf_node_sound sane) in Hs; try sane_closed; [apply Hs | exact H].
  - now apply (proj2 (mergeAllOf_node_height fs)).
Qed.

Lemma mergeAllOf_ok v : all_nodes sane v -> exists r, mergeAllOf v = Ok r.
Proof. apply (everywhere_ok mergeAllOf_node sane). apply mergeAllOf_node_ok. Qed.

(** [mergeAllOf] returns or throws for every value. *)
Lemma mapM_fueled {A B} (f : A -> outcome B) l :
  Forall (fun x => f x <> NoFuel) l -> mapM f l <> NoFuel.
Proof.
  induction 1 as [|x l Hx _ IH]; simpl; [discriminate|].
  destruct (f x); [|discriminate | contradiction]. simpl.
  destruct (mapM f l); [discriminate | discriminate | contradiction].
Qed.

Lemma mergeAllOf_fueled v : mergeAllOf v <> NoFuel.
Proof.
  unfold mergeAllOf, everywhere, budget.
  assert (H : forall n v, height v <= n -> traverse mergeAllOf_node n v <> NoFuel);
    [|apply H; lia].
  clear v. induction n as [|n IH]; intros v Hh.
  - destruct v as [| | | |l|fs]; simpl in *; try discriminate; lia.
  - destruct v as [| | | |l|fs]; try discriminate.
    + simpl in Hh |- *. fold (hl l) in Hh.
      assert (Hl : mapM (traverse mergeAllOf_node n) l <> NoFuel).
      { apply mapM_fueled, List.Forall_forall. intros x Hx. apply IH.
        apply hl_In in Hx. lia. }
      destruct (mapM _ l); [discriminate | discriminate | contradiction].
    + simpl in Hh |- *. fold (hs fs) in Hh.
      destruct (mergeAllOf_node_height fs) as [Hnf Hhs].
      destruct (mergeAllOf_node fs) as [fs'| |]; [|discriminate | contradiction].
      specialize (Hhs fs' eq_refl). cbn [bind].
      assert (Hl : map_fields (traverse mergeAllOf_node n) fs' <> NoFuel).
      { unfold map_fields. apply mapM_fueled, List.Forall_forall. intros [k c] Hin.
        simpl. specialize (IH c). apply hs_In in Hin.
        destruct (traverse mergeAllOf_node n c); [discriminate | discriminate|].
        exfalso. apply IH; [lia | reflexivity]. }
      destruct (map_fields _ fs'); [discriminate | discriminate | contradiction].
Qed.

(** The placeholder of phase 5 is two objects deep, which is what the two
    extra levels of the budget are for. *)
Definition placeable (n : nat) (v : json) : Prop :=
  is_primitive v = true
  \/ height v + 2 <= n
  \/ (2 <= n /\ v = placeholder_properties)
  \/ (1 <= n /\ Some v = prop placeholder_properties "reason").

Lemma addPlaceholders_ok v : exists r, addPlaceholders v = Ok r.
Proof.
  unfold addPlaceholders, everywhere, budget.
  apply (traverse_ok addPlaceholders_node placeable).
  - intros n l [Hp|[Hh|[[_ Hv]|[_ Hv]]]]; try discriminate.
    simpl in Hh. fold (hl l) in Hh. destruct n as [|m]; [lia|].
    exists m. split; [reflexivity|].
    apply List.Forall_forall. intros x Hx. right. left. apply hl_In in Hx. lia.
  - intros n fs [Hp|[Hh|[[Hn Hv]|[Hn Hv]]]]; try discriminate.
    + simpl in Hh. fold (hs fs) in Hh. destruct n as [|m]; [lia|].
      destruct (addPlaceholders_node fs) as [fs'| |] eqn:Hs.
      * exists m, fs'. repeat split.
        apply addPlaceholders_node_cases in Hs. destruct Hs as [[-> _]|[_ ->]].
        -- apply List.Forall_forall. intros [k c] Hin. right. left.
           apply hs_In in Hin. simpl. lia.
        -- apply List.Forall_forall. intros [k c] Hin.
           apply In_obj_set in Hin. destruct Hin as [[= -> ->]|Hin];
             [right; left; simpl; lia|].
           apply In_obj_set in Hin. destruct Hin as [[= -> ->]|Hin];
             [right; right; left; split; [lia | reflexivity]|].
           right. left. apply hs_In in Hin. simpl. lia.
      * unfold addPlaceholders_node in Hs.
        repeat match type of Hs with
               | (if ?x then _ else _) = _ => destruct x
               end; discriminate.
      * unfold addPlaceholders_node in Hs.
        repeat match type of Hs with
               | (if ?x then _ else _) = _ => destruct x
               end; discriminate.
    + injection Hv as ->. destruct n as [|m]; [lia|].
      exists m. eexists. split; [reflexivity|]. split; [reflexivity|].
      constructor; [|constructor]. right. right. right. split; [lia | reflexivity].
    + injection Hv as ->. destruct n as [|m]; [lia|].
      exists m. eexists. split; [reflexivity|]. split; [reflexivity|].
      repeat constructor.
  - right. left. lia.
Qed.

(** ** The root of the schema through the phases

    [root_kin k fs fs']: the property [k] is in both lists or in neither,
    and its two values are kin. *)
Definition root_kin (k : string) (fs fs' : fields) : Prop :=
  match assoc k fs, assoc k fs' with
  | Some c, Some c' => kin c c'
  | None, None => True
  | _, _ => False
  end.

(** A value without objects: a primitive, or an array of such values. *)
Fixpoint objectless (v : json) : bool :=
  match v with
  | JObj _ => false
  | JArr l => forallb objectless l
  | _ => true
  end.

Definition is_array_opt (o : option json) : bool :=
  match o with Some (JArr _) => true | _ => false end.

Lemma kin_objectless v v' : kin v v' -> objectless v = true -> v' = v.
Proof.
  revert v'. induction v as [| | | |l IH|fs _] using json_ind; intros v' H Ho;
    try (apply (kin_prim_eq _ _ H); reflexivity); [|discriminate].
  inversion H as [? Hp|? l' Hl|]; subst; [discriminate Hp|]. f_equal.
  simpl in Ho. clear H. revert l' Hl Ho.
  induction IH as [|x l Hx _ IHl]; intros l' Hl Ho.
  - now inversion Hl.
  - inversion Hl as [|? y ? r Hxy Hr]; subst. simpl in Ho.
    apply andb_true_iff in Ho. destruct Ho as [Hox Hol].
    now rewrite (Hx y Hxy Hox), (IHl r Hr Hol).
Qed.

Lemma root_kin_trans k fs1 fs2 fs3 :
  root_kin k fs1 fs2 -> root_kin k fs2 fs3 -> root_kin k fs1 fs3.
Proof.
  unfold root_kin.
  destruct (assoc k fs1), (assoc k fs2), (assoc k fs3); try tauto.
  apply kin_trans.
Qed.

Lemma root_kin_objectless k fs fs' c :
  root_kin k fs fs' -> assoc k fs = Some c -> objectless c = true ->
  assoc k fs' = Some c.
Proof.
  unfold root_kin. intros H Hc Ho. rewrite Hc in H.
  destruct (assoc k fs') as [c'|]; [|contradiction].
  now rewrite (kin_objectless c c' H Ho).
Qed.

Lemma root_kin_none k fs fs' :
  root_kin k fs fs' -> assoc k fs = None -> assoc k fs' = None.
Proof.
  unfold root_kin. intros H Hc. rewrite Hc in H. now destruct (assoc k fs').
Qed.

Lemma root_kin_array k fs fs' :
  root_kin k fs fs' -> is_array_opt (assoc k fs') = is_array_opt (assoc k fs).
Proof.
  unfold root_kin. destruct (assoc k fs) as [c|], (assoc k fs') as [c'|];
    try tauto. intros H. simpl. now destruct H.
Qed.

Lemma convertConstToEnum_node_leaves fs fs' k :
  convertConstToEnum_node fs = Ok fs' -> k <> "const"%string -> k <> "enum"%string ->
  assoc k fs' = assoc k fs.
Proof.
  unfold convertConstToEnum_node. intros H Hc He.
  destruct (assoc "const" fs); [|now injection H as <-].
  destruct (truthy_opt (assoc "enum" fs)); injection H as <-; [reflexivity|].
  rewrite assoc_obj_delete_ne, assoc_obj_set_ne; auto.
Qed.

Lemma convertEnumValuesToStrings_node_leaves fs fs' k :
  convertEnumValuesToStrings_node fs = Ok fs' -> k <> "enum"%string ->
  assoc k fs' = assoc k fs.
Proof.
  unfold convertEnumValuesToStrings_node. intros H He.
  destruct (assoc "enum" fs) as [[| | | |l|]|]; injection H as <-; try reflexivity.
  rewrite assoc_obj_set_ne; auto.
Qed.

Lemma mergeAllOf_node_leaves fs fs' k :
  mergeAllOf_node fs = Ok fs' ->
  k <> "allOf"%string -> k <> "properties"%string -> k <> "required"%string ->
  assoc k fs' = assoc k fs.
Proof.
  unfold mergeAllOf_node. intros H Ha Hp Hr.
  destruct (assoc "allOf" fs) as [[| | | |items|]|]; try (now injection H as <-).
  destruct (foldM merge_item items _) as [m| |]; try discriminate. simpl in H.
  assert (H2 : assoc k (match m_properties m with
                        | Some mp =>
                            obj_set "properties"
                              (JObj (assign (assign []
                                 (own_entries_opt
                                    (assoc "properties" (obj_delete "allOf" fs)))) mp))
                              (obj_delete "allOf" fs)
                        | None => obj_delete "allOf" fs
                        end) = assoc k fs).
  { destruct (m_properties m); [rewrite assoc_obj_set_ne by auto|];
      now rewrite assoc_obj_delete_ne by auto. }
  destruct (m_required m); [|injection H as <-; exact H2].
  destruct (spread_or_empty _) as [base| |]; try discriminate.
  simpl in H. injection H as <-. now rewrite assoc_obj_set_ne by auto.
Qed.

Lemma mergeAllOf_node_idle fs :
  is_array_opt (assoc "allOf" fs) = false -> mergeAllOf_node fs = Ok fs.
Proof.
  unfold mergeAllOf_node. now destruct (assoc "allOf" fs) as [[| | | |items|]|].
Qed.

Lemma flatten_key_idle key fs :
  is_array_opt (assoc key fs) = false -> flatten_key key fs = fs.
Proof.
  unfold flatten_key. now destruct (assoc key fs) as [[| | | |items|]|].
Qed.

Lemma flattenAnyOfOneOf_node_idle fs :
  is_array_opt (assoc "anyOf" fs) = false ->
  is_array_opt (assoc "oneOf" fs) = false ->
  flattenAnyOfOneOf_node fs = Ok fs.
Proof.
  intros Ha Ho. unfold flattenAnyOfOneOf_node.
  now rewrite (flatten_key_idle "anyOf" fs Ha), (flatten_key_idle "oneOf" fs Ho).
Qed.

Lemma flattenTypeArrays_node_leaves fs fs' k :
  flattenTypeArrays_node fs = Ok fs' -> k <> "type"%string ->
  assoc k fs' = assoc k fs.
Proof.
  unfold flattenTypeArrays_node. intros H Ht.
  destruct (assoc "type" fs) as [[| | | |l|]|]; injection H as <-; try reflexivity.
  rewrite assoc_obj_set_ne; auto.
Qed.

Lemma cleanupRequired_node_leaves fs fs' k :
  cleanupRequired_node fs = Ok fs' -> k <> "required"%string ->
  assoc k fs' = assoc k fs.
Proof.
  intros H Hr. apply cleanupRequired_node_cases in H.
  destruct H as [[-> _]|(l & p & _ & _ & _ & [[_ ->]|[_ ->]])]; [reflexivity | |].
  - rewrite assoc_obj_delete_ne; auto.
  - rewrite assoc_obj_set_ne; auto.
Qed.

Lemma addPlaceholders_node_leaves fs fs' k :
  addPlaceholders_node fs = Ok fs' ->
  k <> "properties"%string -> k <> "required"%string ->
  assoc k fs' = assoc k fs.
Proof.
  intros H Hp Hr. apply addPlaceholders_node_cases in H.
  destruct H as [[-> _]|[_ ->]]; [reflexivity|].
  rewrite !assoc_obj_set_ne; auto.
Qed.

(** Every path [walkAndCollectPaths] records ends with the keyword. *)
Lemma walkAndCollectPaths_shape v cur kw p :
  In p (walkAndCollectPaths v cur kw) -> exists cur', p = extend cur' kw.
Proof.
  revert cur. induction v as [| | | |l IH|fs IH] using json_ind; intros cur H;
    try (now destruct H).
  - simpl in H. revert H. generalize 0.
    induction IH as [|x l Hx _ IHl]; intros i H; [now destruct H|].
    apply in_app_or in H. destruct H as [H|H]; [now apply Hx in H | now apply IHl in H].
  - rewrite walkAndCollectPaths_obj in H. apply in_flat_map in H.
    destruct H as ([key value] & Hin & H). cbn [fst snd] in H.
    apply in_app_or in H. destruct H as [H|H].
    + destruct (String.eqb_spec key kw) as [->|Hne]; [|now destruct H].
      destruct H as [<-|[]]. now exists cur.
    + apply (proj1 (List.Forall_forall _ _) IH (key, value) Hin) in H. exact H.
Qed.

Lemma walkAndCollectPaths_parts v kw p :
  dotless kw = true -> In p (sort_paths (walkAndCollectPaths v "" kw)) ->
  exists pre, split_dot p = pre ++ [kw].
Proof.
  intros Hkw H. apply In_sort_paths, walkAndCollectPaths_shape in H.
  destruct H as [cur' ->]. exists (parts_of cur'). now apply split_dot_extend.
Qed.

Lemma deleteAtParts_kin parts v : kin v (deleteAtParts parts v).
Proof.
  apply (deleteAtParts_all_nodes (fun _ => True)); auto using all_nodes_True.
Qed.

(** ** The names a schema keeps

    [vanishing name]: a keyword, or [required]; the sanitizer deletes no
    property of another name anywhere. *)
Definition vanishing (name : string) : bool :=
  existsb (String.eqb name) UNSUPPORTED_SCHEMA_CONSTRAINTS
  || String.eqb name "required".

Lemma vanishing_keyword kw :
  In kw UNSUPPORTED_SCHEMA_CONSTRAINTS -> vanishing kw = true.
Proof.
  intros H. unfold vanishing. apply orb_true_iff. left.
  apply existsb_exists. exists kw. split; [exact H | apply String.eqb_refl].
Qed.

Lemma vanishing_ne name kw :
  vanishing name = false -> vanishing kw = true -> kw <> name.
Proof. intros Hn Hk ->. congruence. Qed.

Lemma keeps_refl spare v : keeps spare v v.
Proof. split; [apply kin_refl | auto]. Qed.

Lemma keeps_trans spare a b c : keeps spare a b -> keeps spare b c -> keeps spare a c.
Proof.
  intros [Hk1 Hn1] [Hk2 Hn2]. split; [now apply (kin_trans a b c) | auto].
Qed.

Lemma traverse_keeps (step : fields -> outcome fields) spare :
  (forall fs fs' name,
      step fs = Ok fs' -> spare name = false -> has_key name fs = true ->
      has_key name fs' = true) ->
  forall n v r, traverse step n v = Ok r -> keeps spare v r.
Proof.
  intros Hstep. apply traverse_rel.
  - apply keeps_prim.
  - apply keeps_arr.
  - intros fs fs' fs'' Hs. apply keeps_obj. intros name. now apply Hstep.
Qed.

Lemma convertConstToEnum_node_names fs fs' name :
  convertConstToEnum_node fs = Ok fs' -> vanishing name = false ->
  has_key name fs = true -> has_key name fs' = true.
Proof.
  unfold convertConstToEnum_node. intros H Hv Hk.
  destruct (assoc "const" fs); [|now injection H as <-].
  destruct (truthy_opt (assoc "enum" fs)); injection H as <-; [exact Hk|].
  rewrite has_key_obj_delete; [now apply has_key_obj_set|].
  now apply (vanishing_ne name "const" Hv).
Qed.

Lemma convertEnumValuesToStrings_node_names fs fs' name :
  convertEnumValuesToStrings_node fs = Ok fs' ->
  has_key name fs = true -> has_key name fs' = true.
Proof.
  unfold convertEnumValuesToStrings_node. intros H Hk.
  destruct (assoc "enum" fs) as [[| | | |l|]|]; injection H as <-; try exact Hk.
  now apply has_key_obj_set.
Qed.

Lemma mergeAllOf_node_names fs fs' name :
  mergeAllOf_node fs = Ok fs' -> vanishing name = false ->
  has_key name fs = true -> has_key name fs' = true.
Proof.
  unfold mergeAllOf_node. intros H Hv Hk.
  destruct (assoc "allOf" fs) as [[| | | |items|]|]; try (now injection H as <-).
  destruct (foldM merge_item items _) as [m| |]; try discriminate. simpl in H.
  assert (H1 : has_key name (obj_delete "allOf" fs) = true).
  { rewrite has_key_obj_delete; [exact Hk|].
    now apply (vanishing_ne name "allOf" Hv). }
  assert (H2 : has_key name
                 (match m_properties m with
                  | Some mp =>
                      obj_set "properties"
                        (JObj (assign (assign []
                           (own_entries_opt
                              (assoc "properties" (obj_delete "allOf" fs)))) mp))
                        (obj_delete "allOf" fs)
                  | None => obj_delete "allOf" fs
                  end) = true).
  { destruct (m_properties m); [now apply has_key_obj_set | exact H1]. }
  destruct (m_required m); [|injection H as <-; exact H2].
  destruct (spread_or_empty _) as [base| |]; try discriminate.
  simpl in H. injection H as <-. now apply has_key_obj_set.
Qed.

Lemma flatten_key_names key fs name :
  key <> name -> has_key name fs = true -> has_key name (flatten_key key fs) = true.
Proof.
  intros Hne Hk. unfold flatten_key.
  destruct (assoc key fs) as [[| | | |branches|]|]; try exact Hk.
  destruct (nth_error _ _); [|exact Hk].
  apply has_key_assign. now rewrite has_key_obj_delete.
Qed.

Lemma flattenAnyOfOneOf_node_names fs fs' name :
  flattenAnyOfOneOf_node fs = Ok fs' -> vanishing name = false ->
  has_key name fs = true -> has_key name fs' = true.
Proof.
  intros H Hv Hk. injection H as <-.
  apply flatten_key_names; [now apply (vanishing_ne name "oneOf" Hv)|].
  apply flatten_key_names; [now apply (vanishing_ne name "anyOf" Hv) | exact Hk].
Qed.

Lemma flattenTypeArrays_node_names fs fs' name :
  flattenTypeArrays_node fs = Ok fs' ->
  has_key name fs = true -> has_key name fs' = true.
Proof.
  unfold flattenTypeArrays_node. intros H Hk.
  destruct (assoc "type" fs) as [[| | | |l|]|]; injection H as <-; try exact Hk.
  now apply has_key_obj_set.
Qed.

Lemma cleanupRequired_node_names fs fs' name :
  cleanupRequired_node fs = Ok fs' -> vanishing name = false ->
  has_key name fs = true -> has_key name fs' = true.
Proof.
  intros H Hv Hk. apply cleanupRequired_node_cases in H.
  destruct H as [[-> _]|(l & p & _ & _ & _ & [[_ ->]|[_ ->]])]; [exact Hk | |].
  - rewrite has_key_obj_delete; [exact Hk|].
    now apply (vanishing_ne name "required" Hv).
  - now apply has_key_obj_set.
Qed.

Lemma addPlaceholders_node_names fs fs' name :
  addPlaceholders_node fs = Ok fs' ->
  has_key name fs = true -> has_key name fs' = true.
Proof.
  intros H Hk. apply addPlaceholders_node_cases in H.
  destruct H as [[-> _]|[_ ->]]; [exact Hk|].
  now apply has_key_obj_set, has_key_obj_set.
Qed.

(** A deletion at the path of a keyword keeps the other names. *)
Lemma deleteAtParts_keeps pre kw v :
  vanishing kw = true -> keeps vanishing v (deleteAtParts (pre ++ [kw]) v).
Proof.
  intros Hkw. split; [apply deleteAtParts_kin|]. intros name Hv Hown.
  pose proof (deleteAtParts_kin (pre ++ [kw]) v) as Hkin.
  destruct v as [| | |s|l|fs]; try discriminate.
  - apply kin_prim_eq in Hkin; [|reflexivity]. now rewrite Hkin.
  - inversion Hkin as [? Hp|? l' Hl|]; subst; [discriminate Hp|]. simpl in *.
    rewrite <- (has_key_names name (indexed l) (indexed l')); [exact Hown|].
    fold (names (indexed l)) (names (indexed l')). rewrite !names_indexed.
    now rewrite (Forall2_length_kin _ _ _ Hl).
  - simpl in Hown. destruct pre as [|p rest].
    + simpl. rewrite has_key_obj_delete; [exact Hown|].
      now apply (vanishing_ne name kw).
    + cbn [app].
      assert (Hd : deleteAtParts (p :: rest ++ [kw]) (JObj fs)
                   = match assoc p fs with
                     | Some next =>
                         if truthy next
                         then JObj (obj_set p (deleteAtParts (rest ++ [kw]) next) fs)
                         else JObj fs
                     | None => JObj fs
                     end) by (destruct rest; reflexivity).
      rewrite Hd. destruct (assoc p fs) as [next|]; [|exact Hown].
      destruct (truthy next); [|exact Hown]. simpl. now apply has_key_obj_set.
Qed.

(** [root_keeps k fs fs']: the property [k] is in both lists or in
    neither, and the second value keeps the names of the first. *)
Definition root_keeps (k : string) (fs fs' : fields) : Prop :=
  match assoc k fs, assoc k fs' with
  | Some c, Some c' => keeps vanishing c c'
  | None, None => True
  | _, _ => False
  end.

Lemma root_keeps_refl k fs : root_keeps k fs fs.
Proof. unfold root_keeps. destruct (assoc k fs); [apply keeps_refl | exact I]. Qed.

Lemma root_keeps_trans k fs1 fs2 fs3 :
  root_keeps k fs1 fs2 -> root_keeps k fs2 fs3 -> root_keeps k fs1 fs3.
Proof.
  unfold root_keeps.
  destruct (assoc k fs1), (assoc k fs2), (assoc k fs3); try tauto.
  apply keeps_trans.
Qed.

Lemma root_keeps_kin k fs fs' : root_keeps k fs fs' -> root_kin k fs fs'.
Proof.
  unfold root_keeps, root_kin.
  destruct (assoc k fs), (assoc k fs'); try tauto. now intros [H _].
Qed.

(** A deletion at the path of [kw] leaves the other properties of the root
    in place; their values keep their names. *)
Lemma deleteAtParts_root pre kw fs :
  vanishing kw = true ->
  exists fs',
    deleteAtParts (pre ++ [kw]) (JObj fs) = JObj fs'
    /\ forall k, k <> kw -> root_keeps k fs fs'.
Proof.
  intros Hkw. destruct pre as [|p rest].
  - exists (obj_delete kw fs). split; [reflexivity|]. intros k Hk.
    unfold root_keeps. rewrite assoc_obj_delete_ne by auto. apply root_keeps_refl.
  - cbn [app].
    assert (Hd : deleteAtParts (p :: rest ++ [kw]) (JObj fs)
                 = match assoc p fs with
                   | Some next =>
                       if truthy next
                       then JObj (obj_set p (deleteAtParts (rest ++ [kw]) next) fs)
                       else JObj fs
                   | None => JObj fs
                   end) by (destruct rest; reflexivity).
    rewrite Hd. clear Hd.
    destruct (assoc p fs) as [next|] eqn:Ep;
      [|exists fs; split; [reflexivity | intros; apply root_keeps_refl]].
    destruct (truthy next);
      [|exists fs; split; [reflexivity | intros; apply root_keeps_refl]].
    eexists. split; [reflexivity|]. intros k _. unfold root_keeps.
    destruct (String.eqb_spec p k) as [<-|Hne].
    + rewrite Ep, assoc_obj_set_eq. now apply deleteAtParts_keeps.
    + rewrite assoc_obj_set_ne by exact Hne. apply root_keeps_refl.
Qed.

Lemma removeKeyword_root kw fs :
  dotless kw = true -> vanishing kw = true ->
  exists fs',
    removeKeyword (JObj fs) kw = JObj fs' /\ forall k, k <> kw -> root_keeps k fs fs'.
Proof.
  intros Hkw Hv. unfold removeKeyword.
  pose proof (fun p => walkAndCollectPaths_parts (JObj fs) kw p Hkw) as Hshape.
  revert Hshape. generalize (sort_paths (walkAndCollectPaths (JObj fs) "" kw)).
  intros paths. revert fs. induction paths as [|p paths IH]; intros fs Hshape.
  - exists fs. split; [reflexivity | intros; apply root_keeps_refl].
  - simpl. unfold deleteAtPath at 2.
    destruct (Hshape p ltac:(now left)) as [pre ->].
    destruct (deleteAtParts_root pre kw fs Hv) as (fs1 & -> & H1).
    destruct (IH fs1 ltac:(intros q Hq; apply Hshape; now right)) as (fs' & -> & H2).
    exists fs'. split; [reflexivity|]. intros k Hk.
    apply (root_keeps_trans k fs fs1 fs'); auto.
Qed.

Lemma removeUnsupported_root fs :
  exists fs',
    removeUnsupported (JObj fs) = JObj fs'
    /\ forall k, ~ In k UNSUPPORTED_SCHEMA_CONSTRAINTS -> root_keeps k fs fs'.
Proof.
  unfold removeUnsupported.
  assert (Hd : forallb (fun kw => dotless kw && vanishing kw)
                 UNSUPPORTED_SCHEMA_CONSTRAINTS = true) by reflexivity.
  revert Hd. generalize UNSUPPORTED_SCHEMA_CONSTRAINTS at 1 2 3. intros kws. revert fs.
  induction kws as [|kw kws IH]; intros fs Hd.
  - exists fs. split; [reflexivity | intros; apply root_keeps_refl].
  - simpl in Hd |- *. apply andb_true_iff in Hd. destruct Hd as [Hkw Hd].
    apply andb_true_iff in Hkw. destruct Hkw as [Hkw Hv].
    destruct (removeKeyword_root kw fs Hkw Hv) as (fs1 & -> & H1).
    destruct (IH fs1 Hd) as (fs' & -> & H2).
    exists fs'. split; [reflexivity|]. intros k Hk.
    apply (root_keeps_trans k fs fs1 fs').
    + apply H1. intros ->. apply Hk. now left.
    + apply H2. intros Hin. apply Hk. now right.
Qed.

(** [rewritten step a b]: [b] has the names of [a], each with the value the
    helper of [step] returns for the value in [a]. *)
Definition rewritten (step : fields -> outcome fields) (a b : fields) : Prop :=
  same_names (fun c c' => exists m, traverse step m c = Ok c') a b.

Lemma rewritten_kin step a b k : rewritten step a b -> root_kin k a b.
Proof.
  intros H. pose proof (same_names_assoc _ a b k H) as Ha. unfold root_kin.
  destruct (assoc k a), (assoc k b); try tauto.
  destruct Ha as [m Ha]. now apply traverse_kin in Ha.
Qed.

Lemma rewritten_assoc step a b k c :
  rewritten step a b -> assoc k a = Some c ->
  exists c' m, assoc k b = Some c' /\ traverse step m c = Ok c'.
Proof.
  intros H Hc. pose proof (same_names_assoc _ a b k H) as Ha. rewrite Hc in Ha.
  destruct (assoc k b) as [c'|]; [|contradiction]. destruct Ha as [m Ha].
  now exists c', m.
Qed.

Lemma everywhere_rewritten step fs r :
  everywhere step (JObj fs) = Ok r ->
  exists fs' fs'', step fs = Ok fs' /\ r = JObj fs'' /\ rewritten step fs' fs''.
Proof.
  unfold everywhere. intros H. apply traverse_obj in H.
  destruct H as (m & fs' & fs'' & _ & Hs & -> & Hn).
  exists fs', fs''. repeat split; [exact Hs|].
  apply (same_names_impl _ _ _ _ (fun c c' Hc => ex_intro _ m Hc) Hn).
Qed.

(** The property lists of the root between the phases: [t_x] after the
    rewrite of the root by phase [x], [r_x] after the phase. *)
Record root_trace : Type := {
  t_const : fields;    r_const : fields;
  t_enum : fields;     r_enum : fields;
  t_allOf : fields;    r_allOf : fields;
  t_anyOf : fields;    r_anyOf : fields;
  t_type : fields;     r_type : fields;
  r_removed : fields;
  t_required : fields; r_required : fields;
  t_placed : fields;   r_placed : fields
}.

Definition traced (fs : fields) (t : root_trace) (r : json) : Prop :=
  convertConstToEnum_node fs = Ok (t_const t)
  /\ rewritten convertConstToEnum_node (t_const t) (r_const t)
  /\ convertEnumValuesToStrings_node (r_const t) = Ok (t_enum t)
  /\ rewritten convertEnumValuesToStrings_node (t_enum t) (r_enum t)
  /\ mergeAllOf_node (r_enum t) = Ok (t_allOf t)
  /\ rewritten mergeAllOf_node (t_allOf t) (r_allOf t)
  /\ flattenAnyOfOneOf_node (r_allOf t) = Ok (t_anyOf t)
  /\ rewritten flattenAnyOfOneOf_node (t_anyOf t) (r_anyOf t)
  /\ flattenTypeArrays_node (r_anyOf t) = Ok (t_type t)
  /\ rewritten flattenTypeArrays_node (t_type t) (r_type t)
  /\ (forall k, ~ In k UNSUPPORTED_SCHEMA_CONSTRAINTS ->
                root_keeps k (r_type t) (r_removed t))
  /\ cleanupRequired_node (r_removed t) = Ok (t_required t)
  /\ rewritten cleanupRequired_node (t_required t) (r_required t)
  /\ addPlaceholders_node (r_required t) = Ok (t_placed t)
  /\ rewritten addPlaceholders_node (t_placed t) (r_placed t)
  /\ r = JObj (r_placed t).

Lemma sanitizer_traced fs r :
  cleanJSONSchemaForAntigravity (JObj fs) = Ok r -> exists t, traced fs t r.
Proof.
  intros H. apply (sanitizer_stages (JObj fs) r eq_refl) in H.
  destruct H as (st & H1 & H2 & H3 & H4 & H5 & H6 & H7 & H8).
  apply everywhere_rewritten in H1. destruct H1 as (a1 & b1 & S1 & E1 & K1).
  rewrite E1 in H2.
  apply everywhere_rewritten in H2. destruct H2 as (a2 & b2 & S2 & E2 & K2).
  rewrite E2 in H3.
  apply everywhere_rewritten in H3. destruct H3 as (a3 & b3 & S3 & E3 & K3).
  rewrite E3 in H4.
  apply everywhere_rewritten in H4. destruct H4 as (a4 & b4 & S4 & E4 & K4).
  rewrite E4 in H5.
  apply everywhere_rewritten in H5. destruct H5 as (a5 & b5 & S5 & E5 & K5).
  rewrite E5 in H6. destruct (removeUnsupported_root b5) as (b6 & E6 & K6).
  rewrite E6 in H6. rewrite H6 in H7.
  apply everywhere_rewritten in H7. destruct H7 as (a7 & b7 & S7 & E7 & K7).
  rewrite E7 in H8.
  apply everywhere_rewritten in H8. destruct H8 as (a8 & b8 & S8 & E8 & K8).
  exists {| t_const := a1; r_const := b1; t_enum := a2; r_enum := b2;
            t_allOf := a3; r_allOf := b3; t_anyOf := a4; r_anyOf := b4;
            t_type := a5; r_type := b5; r_removed := b6;
            t_required := a7; r_required := b7; t_placed := a8; r_placed := b8 |}.
  unfold traced. cbn -[UNSUPPORTED_SCHEMA_CONSTRAINTS].
  repeat (split; [assumption|]). exact E8.
Qed.

(** A property the rewrite of the root leaves alone has kin before and
    after the phase. *)
Lemma phase_kin step a b fs k :
  step fs = Ok a -> rewritten step a b -> assoc k a = assoc k fs ->
  root_kin k fs b.
Proof.
  intros _ Hr Hl. pose proof (rewritten_kin step a b k Hr) as H.
  unfold root_kin in *. now rewrite Hl in H.
Qed.

(** From the input to the end of [mergeAllOf]. *)
Lemma early_kin fs t r k :
  traced fs t r ->
  k <> "const"%string -> k <> "enum"%string ->
  (is_array_opt (assoc "allOf" fs) = false
   \/ (k <> "allOf"%string /\ k <> "properties"%string /\ k <> "required"%string)) ->
  root_kin k fs (r_allOf t).
Proof.
  intros (S1 & K1 & S2 & K2 & S3 & K3 & _) Hc He Hm.
  assert (H1 : forall k, k <> "const"%string -> k <> "enum"%string ->
                         root_kin k fs (r_const t)).
  { intros k0 Hc0 He0. apply (phase_kin _ _ _ _ _ S1 K1).
    now apply (convertConstToEnum_node_leaves fs). }
  assert (H2 : forall k, k <> "const"%string -> k <> "enum"%string ->
                         root_kin k fs (r_enum t)).
  { intros k0 Hc0 He0. apply (root_kin_trans k0 fs (r_const t)); [now apply H1|].
    apply (phase_kin _ _ _ _ _ S2 K2).
    now apply (convertEnumValuesToStrings_node_leaves (r_const t)). }
  apply (root_kin_trans k fs (r_enum t)); [now apply H2|].
  apply (phase_kin _ _ _ _ _ S3 K3).
  destruct Hm as [Hm|(Ha & Hp & Hr)].
  - rewrite mergeAllOf_node_idle in S3; [now injection S3 as <-|].
    rewrite (root_kin_array "allOf" fs (r_enum t)); [exact Hm|].
    apply H2; discriminate.
  - now apply (mergeAllOf_node_leaves (r_enum t)).
Qed.

(** Through [flattenAnyOfOneOf] where the root has no choice to flatten. *)
Lemma choice_kin fs t r k :
  traced fs t r ->
  is_array_opt (assoc "anyOf" fs) = false ->
  is_array_opt (assoc "oneOf" fs) = false ->
  root_kin k (r_allOf t) (r_anyOf t).
Proof.
  intros Ht Ha Ho. pose proof Ht as (_ & _ & _ & _ & _ & _ & S4 & K4 & _).
  apply (phase_kin _ _ _ _ _ S4 K4).
  rewrite flattenAnyOfOneOf_node_idle in S4; [now injection S4 as <-| |].
  - rewrite (root_kin_array "anyOf" fs (r_allOf t)); [exact Ha|].
    apply (early_kin fs t r); [exact Ht | discriminate ..|right; repeat split; discriminate].
  - rewrite (root_kin_array "oneOf" fs (r_allOf t)); [exact Ho|].
    apply (early_kin fs t r); [exact Ht | discriminate ..|right; repeat split; discriminate].
Qed.

(** From the end of [flattenTypeArrays] to the result. *)
Lemma late_kin fs t r k :
  traced fs t r ->
  ~ In k UNSUPPORTED_SCHEMA_CONSTRAINTS ->
  k <> "required"%string -> k <> "properties"%string ->
  root_kin k (r_type t) (r_placed t).
Proof.
  intros (_ & _ & _ & _ & _ & _ & _ & _ & _ & _ & K6 & S7 & K7 & S8 & K8 & _)
    Hkw Hr Hp.
  apply (root_kin_trans k _ (r_removed t)); [now apply root_keeps_kin, K6|].
  apply (root_kin_trans k _ (r_required t)).
  - apply (phase_kin _ _ _ _ _ S7 K7).
    now apply (cleanupRequired_node_leaves (r_removed t)).
  - apply (phase_kin _ _ _ _ _ S8 K8).
    now apply (addPlaceholders_node_leaves (r_required t)).
Qed.

Lemma not_keyword k :
  existsb (String.eqb k) UNSUPPORTED_SCHEMA_CONSTRAINTS = false ->
  ~ In k UNSUPPORTED_SCHEMA_CONSTRAINTS.
Proof.
  intros H Hin. assert (Ht : existsb (String.eqb k) UNSUPPORTED_SCHEMA_CONSTRAINTS = true).
  { apply existsb_exists. exists k. split; [exact Hin | apply String.eqb_refl]. }
  rewrite Ht in H. discriminate.
Qed.

Lemma map_toString_kin l l' :
  Forall2 kin l l' ->
  map (fun v => JStr (toString v)) l' = map (fun v => JStr (toString v)) l.
Proof.
  induction 1 as [|x y l l' Hxy _ IH]; simpl; [reflexivity|].
  now rewrite IH, (toString_kin x y Hxy).
Qed.

Lemma objectless_strings l :
  objectless (JArr (map (fun v => JStr (toString v)) l)) = true.
Proof. simpl. induction l; simpl; auto. Qed.

(** An [enum] of strings at the root after phase 1 is the [enum] of the
    result, where the root has no choice to flatten. *)
Lemma enum_settles fs t r e :
  traced fs t r ->
  is_array_opt (assoc "anyOf" fs) = false ->
  is_array_opt (assoc "oneOf" fs) = false ->
  assoc "enum" (r_enum t) = Some e -> objectless e = true ->
  prop r "enum" = Some e.
Proof.
  intros Ht Ha Ho He Hobj.
  pose proof Ht as (_ & _ & _ & _ & S3 & K3 & _ & _ & S5 & K5 & _).
  assert (Hr : r = JObj (r_placed t)) by apply Ht. rewrite Hr. simpl.
  apply (root_kin_objectless "enum" (r_enum t)); [|exact He | exact Hobj].
  apply (root_kin_trans _ _ (r_allOf t)).
  { apply (phase_kin _ _ _ _ _ S3 K3).
    apply (mergeAllOf_node_leaves (r_enum t)); [exact S3 | discriminate ..]. }
  apply (root_kin_trans _ _ (r_anyOf t)); [now apply (choice_kin fs t r)|].
  apply (root_kin_trans _ _ (r_type t)).
  { apply (phase_kin _ _ _ _ _ S5 K5).
    apply (flattenTypeArrays_node_leaves (r_anyOf t)); [exact S5 | discriminate]. }
  apply (late_kin fs t r); [exact Ht | now apply not_keyword | discriminate ..].
Qed.

(** A [const] with no true [enum] beside it becomes the [enum] of its text. *)
Lemma const_becomes_enum fs c r :
  cleanJSONSchemaForAntigravity (JObj fs) = Ok r ->
  assoc "const" fs = Some c -> truthy_opt (assoc "enum" fs) = false ->
  is_array_opt (assoc "anyOf" fs) = false ->
  is_array_opt (assoc "oneOf" fs) = false ->
  prop r "enum" = Some (JArr [JStr (toString c)]).
Proof.
  intros H Hc He Ha Ho. destruct (sanitizer_traced fs r H) as [t Ht].
  pose proof Ht as (S1 & K1 & S2 & K2 & _).
  apply (enum_settles fs t r); try assumption; [|reflexivity].
  unfold convertConstToEnum_node in S1. rewrite Hc, He in S1. injection S1 as S1.
  pose proof (rewritten_kin _ _ _ "enum" K1) as Hk. unfold root_kin in Hk.
  rewrite <- S1, assoc_obj_delete_ne, assoc_obj_set_eq in Hk by discriminate.
  destruct (assoc "enum" (r_const t)) as [e1|] eqn:E1; [|contradiction].
  inversion Hk as [? Hp|? l' Hl|]; subst e1; [discriminate Hp|].
  inversion Hl as [|? c' ? ? Hcc Hnil]; subst. inversion Hnil; subst.
  unfold convertEnumValuesToStrings_node in S2. rewrite E1 in S2.
  injection S2 as S2.
  apply (root_kin_objectless "enum" (t_enum t));
    [now apply (rewritten_kin convertEnumValuesToStrings_node) | | reflexivity].
  rewrite <- S2, assoc_obj_set_eq. simpl. now rewrite (toString_kin c c' Hcc).
Qed.

(** The values of an [enum] array become their texts. *)
Lemma enum_becomes_strings fs l r :
  cleanJSONSchemaForAntigravity (JObj fs) = Ok r ->
  assoc "enum" fs = Some (JArr l) ->
  is_array_opt (assoc "anyOf" fs) = false ->
  is_array_opt (assoc "oneOf" fs) = false ->
  prop r "enum" = Some (JArr (map (fun v => JStr (toString v)) l)).
Proof.
  intros H He Ha Ho. destruct (sanitizer_traced fs r H) as [t Ht].
  pose proof Ht as (S1 & K1 & S2 & K2 & _).
  apply (enum_settles fs t r); try assumption; [|apply objectless_strings].
  assert (S1' : t_const t = fs).
  { unfold convertConstToEnum_node in S1. rewrite He in S1. simpl in S1.
    destruct (assoc "const" fs); now injection S1 as <-. }
  pose proof (rewritten_kin _ _ _ "enum" K1) as Hk. unfold root_kin in Hk.
  rewrite S1', He in Hk.
  destruct (assoc "enum" (r_const t)) as [e1|] eqn:E1; [|contradiction].
  inversion Hk as [? Hp|? l' Hl|]; subst e1; [discriminate Hp|].
  unfold convertEnumValuesToStrings_node in S2. rewrite E1 in S2.
  injection S2 as S2.
  apply (root_kin_objectless "enum" (t_enum t));
    [now apply (rewritten_kin convertEnumValuesToStrings_node) | | apply objectless_strings].
  rewrite <- S2, assoc_obj_set_eq. now rewrite (map_toString_kin l l' Hl).
Qed.

Lemma objectless_primitives l :
  forallb is_primitive l = true -> objectless (JArr l) = true.
Proof.
  simpl. induction l as [|x l IH]; simpl; [reflexivity|].
  rewrite !andb_true_iff. intros [Hx Hl]. split; [now destruct x | auto].
Qed.

Lemma objectless_primitive v : is_primitive v = true -> objectless v = true.
Proof. now destruct v. Qed.

Lemma flattenTypeArrays_node_idle fs :
  is_array_opt (assoc "type" fs) = false -> flattenTypeArrays_node fs = Ok fs.
Proof.
  unfold flattenTypeArrays_node. now destruct (assoc "type" fs) as [[| | | |l|]|].
Qed.

(** A [type] array of primitives becomes its first member that is not
    ["null"], or ["string"]. *)
Lemma type_array_becomes_first fs types r :
  cleanJSONSchemaForAntigravity (JObj fs) = Ok r ->
  assoc "type" fs = Some (JArr types) -> forallb is_primitive types = true ->
  is_array_opt (assoc "anyOf" fs) = false ->
  is_array_opt (assoc "oneOf" fs) = false ->
  prop r "type"
    = Some (match List.filter (fun t => negb (is_str "null" (Some t))) types with
            | t :: _ => t
            | [] => JStr "string"
            end).
Proof.
  intros H Hty Hprim Ha Ho. destruct (sanitizer_traced fs r H) as [t Ht].
  pose proof Ht as (_ & _ & _ & _ & _ & _ & _ & _ & S5 & K5 & _).
  assert (Hr : r = JObj (r_placed t)) by apply Ht. rewrite Hr. simpl.
  assert (H4 : assoc "type" (r_anyOf t) = Some (JArr types)).
  { apply (root_kin_objectless "type" fs);
      [|exact Hty | now apply objectless_primitives].
    apply (root_kin_trans _ _ (r_allOf t)); [|now apply (choice_kin fs t r)].
    apply (early_kin fs t r); [exact Ht | discriminate ..|].
    right. repeat split; discriminate. }
  unfold flattenTypeArrays_node in S5. rewrite H4 in S5. injection S5 as S5.
  set (first := match List.filter _ types with t0 :: _ => t0 | [] => JStr "string" end) in *.
  assert (Hfirst : is_primitive first = true).
  { subst first. destruct (List.filter _ types) as [|t0 rest] eqn:Ef; [reflexivity|].
    assert (Hin : In t0 (t0 :: rest)) by now left.
    rewrite <- Ef in Hin. apply filter_In in Hin. destruct Hin as [Hin _].
    apply (proj1 (forallb_forall _ _) Hprim t0 Hin). }
  apply (root_kin_objectless "type" (t_type t));
    [| rewrite <- S5; apply assoc_obj_set_eq | now apply objectless_primitive].
  apply (root_kin_trans _ _ (r_type t));
    [now apply (rewritten_kin flattenTypeArrays_node)|].
  apply (late_kin fs t r); [exact Ht | now apply not_keyword | discriminate ..].
Qed.

Lemma traverse_placeholder m c' :
  traverse addPlaceholders_node m placeholder_properties = Ok c' ->
  c' = placeholder_properties.
Proof.
  destruct m as [|[|m]]; try discriminate.
  unfold placeholder_properties. cbn -[traverse_prim].
  assert (Hp : forall s, traverse addPlaceholders_node m (JStr s) = Ok (JStr s))
    by (intros s; now apply traverse_prim).
  rewrite !Hp. cbn. now intros [= <-].
Qed.

(** An object schema without [properties] gets the placeholder. *)
Lemma empty_object_gets_reason fs r :
  cleanJSONSchemaForAntigravity (JObj fs) = Ok r ->
  is_str "object" (assoc "type" fs) = true -> assoc "properties" fs = None ->
  is_array_opt (assoc "allOf" fs) = false ->
  is_array_opt (assoc "anyOf" fs) = false ->
  is_array_opt (assoc "oneOf" fs) = false ->
  prop r "properties" = Some placeholder_properties
  /\ prop r "required" = Some (JArr [JStr "reason"]).
Proof.
  intros H Hty Hp Hall Ha Ho. destruct (sanitizer_traced fs r H) as [t Ht].
  pose proof Ht as (_ & _ & _ & _ & _ & _ & _ & _ & S5 & K5 & K6 & S7 & K7 & S8 & K8 & Hr).
  rewrite Hr. simpl.
  assert (H4 : forall k, k <> "const"%string -> k <> "enum"%string ->
                         root_kin k fs (r_anyOf t)).
  { intros k Hc He. apply (root_kin_trans _ _ (r_allOf t));
      [apply (early_kin fs t r); auto | now apply (choice_kin fs t r)]. }
  assert (Htype4 : assoc "type" (r_anyOf t) = assoc "type" fs).
  { destruct (assoc "type" fs) as [[| | |s| |]|] eqn:E; try discriminate.
    apply (root_kin_objectless "type" fs); [apply H4; discriminate | exact E | reflexivity]. }
  rewrite flattenTypeArrays_node_idle in S5
    by (rewrite Htype4; now destruct (assoc "type" fs) as [[| | |s| |]|]).
  injection S5 as S5.
  assert (H7 : forall k, ~ In k UNSUPPORTED_SCHEMA_CONSTRAINTS ->
                         k <> "const"%string -> k <> "enum"%string ->
                         k <> "required"%string -> root_kin k fs (r_required t)).
  { intros k Hkw Hc He Hq. apply (root_kin_trans _ _ (r_anyOf t)); [now apply H4|].
    apply (root_kin_trans _ _ (r_type t)).
    { rewrite S5. now apply (rewritten_kin flattenTypeArrays_node). }
    apply (root_kin_trans _ _ (r_removed t)); [now apply root_keeps_kin, K6|].
    apply (phase_kin _ _ _ _ _ S7 K7).
    now apply (cleanupRequired_node_leaves (r_removed t)). }
  assert (Htype7 : is_str "object" (assoc "type" (r_required t)) = true).
  { destruct (assoc "type" fs) as [[| | |s| |]|] eqn:E; try discriminate.
    rewrite (root_kin_objectless "type" fs (r_required t) (JStr s));
      [exact Hty | | exact E | reflexivity].
    apply H7; [now apply not_keyword | discriminate ..]. }
  assert (Hprop7 : assoc "properties" (r_required t) = None).
  { apply (root_kin_none "properties" fs); [|exact Hp].
    apply H7; [now apply not_keyword | discriminate ..]. }
  unfold addPlaceholders_node in S8. rewrite Htype7, Hprop7 in S8. simpl in S8.
  injection S8 as S8. split.
  - destruct (rewritten_assoc _ _ _ "properties" placeholder_properties K8)
      as (c' & m & Hc' & Hm).
    { rewrite <- S8, assoc_obj_set_ne, assoc_obj_set_eq by discriminate. reflexivity. }
    rewrite Hc'. f_equal. now apply (traverse_placeholder m).
  - apply (root_kin_objectless "required" (t_placed t));
      [now apply (rewritten_kin addPlaceholders_node) | | reflexivity].
    rewrite <- S8. apply assoc_obj_set_eq.
Qed.

(** [flat v]: a primitive, or an object of primitives without [const]; the
    first three helpers return it as it is. *)
Definition flat (v : json) : bool :=
  match v with
  | JObj bs =>
      forallb (fun kv => is_primitive (snd kv)) bs && negb (has_key "const" bs)
  | JArr _ => false
  | _ => true
  end.

Lemma flat_assoc bs k c :
  flat (JObj bs) = true -> assoc k bs = Some c -> is_primitive c = true.
Proof.
  simpl. intros H Hc. apply andb_true_iff in H. destruct H as [H _].
  apply assoc_In in Hc. apply (proj1 (forallb_forall _ _) H (k, c) Hc).
Qed.

Lemma same_names_primitives (R : json -> json -> Prop) bs bs' :
  (forall c c', is_primitive c = true -> R c c' -> c' = c) ->
  forallb (fun kv => is_primitive (snd kv)) bs = true ->
  same_names R bs bs' -> bs' = bs.
Proof.
  intros HR Hp H. induction H as [|[k c] [k' c'] bs bs' [Hk Hc] _ IH]; [reflexivity|].
  simpl in *. apply andb_true_iff in Hp. destruct Hp as [Hpc Hp].
  subst k'. now rewrite (HR c c' Hpc Hc), (IH Hp).
Qed.

Lemma traverse_flat step m v v' :
  (forall bs, flat (JObj bs) = true -> step bs = Ok bs) ->
  flat v = true -> traverse step m v = Ok v' -> v' = v.
Proof.
  intros Hidle Hf H. destruct v as [| | | |l|bs]; try discriminate;
    try (rewrite traverse_prim in H by reflexivity; now injection H as <-).
  apply traverse_obj in H. destruct H as (m' & fs' & fs'' & _ & Hs & -> & Hn).
  rewrite (Hidle bs Hf) in Hs. injection Hs as <-. f_equal.
  apply (same_names_primitives (fun v v' => traverse step m' v = Ok v') bs fs'');
    [| |exact Hn].
  - intros c c' Hc Hcc. rewrite traverse_prim in Hcc by exact Hc. now injection Hcc as <-.
  - simpl in Hf. now apply andb_true_iff in Hf as [? _].
Qed.

Lemma traverse_flat_list step m l x :
  (forall bs, flat (JObj bs) = true -> step bs = Ok bs) ->
  forallb flat l = true -> traverse step m (JArr l) = Ok x -> x = JArr l.
Proof.
  intros Hidle Hf H. apply traverse_arr in H. destruct H as (m' & l' & _ & -> & Hl).
  f_equal. induction Hl as [|v v' l l' Hv _ IH]; [reflexivity|].
  simpl in Hf. apply andb_true_iff in Hf. destruct Hf as [Hfv Hfl].
  now rewrite (traverse_flat step m' v v' Hidle Hfv Hv), (IH Hfl).
Qed.

Lemma convertConstToEnum_node_flat bs :
  flat (JObj bs) = true -> convertConstToEnum_node bs = Ok bs.
Proof.
  simpl. intros H. apply andb_true_iff in H. destruct H as [_ H].
  unfold convertConstToEnum_node, has_key in *. now destruct (assoc "const" bs).
Qed.

Lemma convertEnumValuesToStrings_node_flat bs :
  flat (JObj bs) = true -> convertEnumValuesToStrings_node bs = Ok bs.
Proof.
  intros H. unfold convertEnumValuesToStrings_node.
  destruct (assoc "enum" bs) as [e|] eqn:E; [|reflexivity].
  apply (flat_assoc bs "enum" e H) in E. now destruct e.
Qed.

Lemma mergeAllOf_node_flat bs :
  flat (JObj bs) = true -> mergeAllOf_node bs = Ok bs.
Proof.
  intros H. apply mergeAllOf_node_idle.
  destruct (assoc "allOf" bs) as [e|] eqn:E; [|reflexivity].
  apply (flat_assoc bs "allOf" e H) in E. now destruct e.
Qed.

(** The branches of a choice of flat schemas reach [flattenAnyOfOneOf] as
    they are. *)
Lemma flat_branches_wait fs t r key branches :
  traced fs t r -> key <> "const"%string -> key <> "enum"%string ->
  key <> "allOf"%string -> key <> "properties"%string -> key <> "required"%string ->
  assoc key fs = Some (JArr branches) -> forallb flat branches = true ->
  assoc key (r_allOf t) = Some (JArr branches).
Proof.
  intros (S1 & K1 & S2 & K2 & S3 & K3 & _) Hc He Ha Hp Hr Hk Hf.
  assert (H1 : assoc key (r_const t) = Some (JArr branches)).
  { destruct (rewritten_assoc _ _ _ key (JArr branches) K1) as (c' & m & Hc' & Hm).
    - now rewrite (convertConstToEnum_node_leaves fs _ key S1).
    - rewrite Hc'. f_equal.
      now apply (traverse_flat_list _ m _ _ convertConstToEnum_node_flat). }
  assert (H2 : assoc key (r_enum t) = Some (JArr branches)).
  { destruct (rewritten_assoc _ _ _ key (JArr branches) K2) as (c' & m & Hc' & Hm).
    - now rewrite (convertEnumValuesToStrings_node_leaves _ _ key S2).
    - rewrite Hc'. f_equal.
      now apply (traverse_flat_list _ m _ _ convertEnumValuesToStrings_node_flat). }
  destruct (rewritten_assoc _ _ _ key (JArr branches) K3) as (c' & m & Hc' & Hm).
  - now rewrite (mergeAllOf_node_leaves _ _ key S3).
  - rewrite Hc'. f_equal.
    now apply (traverse_flat_list _ m _ _ mergeAllOf_node_flat).
Qed.

(** The non-null branches [flattenAnyOfOneOf] chooses from, and its choice. *)
Definition nonNullSchemas (branches : list json) : list json :=
  List.filter (fun s => truthy s && negb (is_str "null" (prop s "type"))) branches.

Definition chosen (branches : list json) : option json :=
  nth_error (nonNullSchemas branches) (selectBest (nonNullSchemas branches)).

(** An [anyOf] of flat schemas at the root: the root takes the properties
    of the chosen branch. *)
Lemma anyOf_becomes_branch fs branches bs k c r :
  cleanJSONSchemaForAntigravity (JObj fs) = Ok r ->
  assoc "anyOf" fs = Some (JArr branches) -> forallb flat branches = true ->
  is_array_opt (assoc "oneOf" fs) = false ->
  chosen branches = Some (JObj bs) -> List.NoDup (names bs) ->
  assoc k bs = Some c ->
  ~ In k UNSUPPORTED_SCHEMA_CONSTRAINTS ->
  k <> "required"%string -> k <> "properties"%string ->
  prop r k = Some c.
Proof.
  intros H Hany Hflat Hone Hch Hnd Hc Hkw Hreq Hprop.
  destruct (sanitizer_traced fs r H) as [t Ht].
  pose proof Ht as (_ & _ & _ & _ & _ & _ & S4 & K4 & S5 & K5 & _).
  assert (Hr : r = JObj (r_placed t)) by apply Ht. rewrite Hr. simpl.
  assert (Hflat_sel : flat (JObj bs) = true).
  { unfold chosen in Hch. apply nth_error_In, filter_In in Hch.
    apply (proj1 (forallb_forall _ _) Hflat _ (proj1 Hch)). }
  assert (Hcp : is_primitive c = true) by now apply (flat_assoc bs k c).
  assert (Hany3 : assoc "anyOf" (r_allOf t) = Some (JArr branches)).
  { apply (flat_branches_wait fs t r); auto; discriminate. }
  assert (Hone3 : is_array_opt (assoc "oneOf" (r_allOf t)) = false).
  { rewrite (root_kin_array "oneOf" fs (r_allOf t)); [exact Hone|].
    apply (early_kin fs t r); [exact Ht | discriminate ..|].
    right. repeat split; discriminate. }
  assert (S4' : t_anyOf t
                = assign (obj_delete "anyOf" (r_allOf t)) bs).
  { unfold flattenAnyOfOneOf_node in S4. injection S4 as S4. rewrite <- S4.
    unfold flatten_key at 2. rewrite Hany3. fold (nonNullSchemas branches).
    unfold chosen in Hch. rewrite Hch. cbn [own_entries].
    apply flatten_key_idle. rewrite (assoc_assign _ _ _ Hnd).
    destruct (assoc "oneOf" bs) as [o|] eqn:Eo.
    - apply (flat_assoc bs "oneOf" o Hflat_sel) in Eo. now destruct o.
    - now rewrite assoc_obj_delete_ne by discriminate. }
  assert (H4 : assoc k (r_anyOf t) = Some c).
  { apply (root_kin_objectless k (t_anyOf t));
      [now apply (rewritten_kin flattenAnyOfOneOf_node) | | now apply objectless_primitive].
    rewrite S4', (assoc_assign _ _ _ Hnd). now rewrite Hc. }
  assert (H5 : assoc k (r_type t) = Some c).
  { apply (root_kin_objectless k (t_type t));
      [now apply (rewritten_kin flattenTypeArrays_node) | | now apply objectless_primitive].
    unfold flattenTypeArrays_node in S5.
    destruct (String.eqb_spec k "type") as [->|Hne].
    - rewrite H4 in S5. destruct c; try discriminate; now injection S5 as <-.
    - rewrite <- H4. apply (flattenTypeArrays_node_leaves _ _ k); [|exact Hne].
      exact S5. }
  apply (root_kin_objectless k (r_type t));
    [now apply (late_kin fs t r) | exact H5 | now apply objectless_primitive].
Qed.

(** [selectBest] picks the first of the items that score highest:
    [richest items b] says so of [b]. *)
Definition richest (items : list json) (b : json) : Prop :=
  exists i,
    nth_error items i = Some b
    /\ (forall x, In x items -> (score x <= score b)%Z)
    /\ (forall j x, j < i -> nth_error items j = Some x -> (score x < score b)%Z).

Lemma score_nonneg item : (0 <= score item)%Z.
Proof.
  unfold score.
  repeat match goal with |- context [if ?b then _ else _] => destruct b end; lia.
Qed.

Lemma selectBest_from_spec items : forall pre bestIdx bestScore,
  (pre = [] /\ bestScore = (-1)%Z /\ items <> [])
  \/ (exists b,
        nth_error pre bestIdx = Some b /\ score b = bestScore
        /\ (forall x, In x pre -> (score x <= bestScore)%Z)
        /\ (forall j x, j < bestIdx -> nth_error pre j = Some x ->
                        (score x < bestScore)%Z)) ->
  exists best,
    nth_error (pre ++ items) (selectBest_from items (length pre) bestIdx bestScore)
      = Some best
    /\ (forall x, In x (pre ++ items) -> (score x <= score best)%Z)
    /\ (forall j x,
          j < selectBest_from items (length pre) bestIdx bestScore ->
          nth_error (pre ++ items) j = Some x -> (score x < score best)%Z).
Proof.
  induction items as [|item items IH]; intros pre bestIdx bestScore H.
  - destruct H as [(_ & _ & Hne)|(b & Hb & Hs & Hle & Hlt)]; [contradiction|].
    simpl. rewrite app_nil_r. exists b. subst bestScore. now repeat split.
  - simpl.
    assert (Hstep : forall idx sc,
               (exists b,
                   nth_error (pre ++ [item]) idx = Some b /\ score b = sc
                   /\ (forall x, In x (pre ++ [item]) -> (score x <= sc)%Z)
                   /\ (forall j x, j < idx -> nth_error (pre ++ [item]) j = Some x ->
                                   (score x < sc)%Z)) ->
               exists best,
                 nth_error (pre ++ item :: items)
                   (selectBest_from items (S (length pre)) idx sc) = Some best
                 /\ (forall x, In x (pre ++ item :: items) -> (score x <= score best)%Z)
                 /\ (forall j x,
                       j < selectBest_from items (S (length pre)) idx sc ->
                       nth_error (pre ++ item :: items) j = Some x ->
                       (score x < score best)%Z)).
    { intros idx sc Hinv.
      specialize (IH (pre ++ [item]) idx sc (or_intror Hinv)).
      rewrite length_app, Nat.add_1_r, <- app_assoc in IH. exact IH. }
    pose proof (score_nonneg item) as Hnn.
    destruct H as [(-> & -> & _)|(b & Hb & Hs & Hle & Hlt)].
    + replace (score item >? -1)%Z with true by (symmetry; apply Z.gtb_lt; lia).
      apply Hstep. exists item. simpl. repeat split.
      * intros x [<-|[]]. lia.
      * intros j x Hj. lia.
    + destruct (score item >? bestScore)%Z eqn:Hgt.
      * apply Z.gtb_lt in Hgt. apply Hstep. exists item. repeat split.
        -- rewrite nth_error_app2, Nat.sub_diag by lia. reflexivity.
        -- intros x Hx. apply in_app_or in Hx. destruct Hx as [Hx|[<-|[]]];
             [apply Hle in Hx; lia | lia].
        -- intros j x Hj Hx. rewrite nth_error_app1 in Hx by exact Hj.
           apply nth_error_In, Hle in Hx. lia.
      * assert (Hle' : (score item <= bestScore)%Z).
        { destruct (Z.gtb_spec (score item) bestScore); [discriminate | lia]. }
        apply Hstep. exists b.
        assert (Hidx : bestIdx < length pre) by (apply nth_error_Some; congruence).
        repeat split.
        -- rewrite nth_error_app1 by exact Hidx. exact Hb.
        -- exact Hs.
        -- intros x Hx. apply in_app_or in Hx. destruct Hx as [Hx|[<-|[]]];
             [now apply Hle | exact Hle'].
        -- intros j x Hj Hx. rewrite nth_error_app1 in Hx by lia. now apply (Hlt j).
Qed.

Lemma selectBest_richest items :
  items <> [] -> exists best, nth_error items (selectBest items) = Some best
                              /\ richest items best.
Proof.
  intros Hne. unfold selectBest.
  destruct (selectBest_from_spec items [] 0 (-1)%Z) as (best & Hb & Hle & Hlt);
    [left; now repeat split|].
  simpl in *. exists best. split; [exact Hb|].
  exists (selectBest_from items 0 0 (-1)). now repeat split.
Qed.

(** The richest branch is the one [flattenAnyOfOneOf] chooses. *)
Lemma richest_chosen branches b :
  richest (nonNullSchemas branches) b -> chosen branches = Some b.
Proof.
  intros (i & Hi & Hle & Hlt). unfold chosen.
  destruct (selectBest_richest (nonNullSchemas branches)) as (best & Hb & (k & Hk & Hle' & Hlt')).
  { intros Hnil. rewrite Hnil in Hi. now destruct i. }
  rewrite Hb. f_equal.
  destruct (Nat.lt_trichotomy i k) as [Hlt0|[->|Hgt0]].
  - pose proof (Hlt' i b Hlt0 Hi). apply nth_error_In in Hk. apply Hle in Hk. lia.
  - congruence.
  - pose proof (Hlt k best Hgt0 Hk). apply nth_error_In in Hi. apply Hle' in Hi. lia.
Qed.

(** *** [allOf] at the root

    [offers name v]: the schema [v] has [properties] with a property [name];
    [demands name v]: its [required] list names [name]. *)
Definition offers (name : string) (v : json) : Prop :=
  exists pfs, prop v "properties" = Some (JObj pfs) /\ has_key name pfs = true.

Definition demands (name : string) (v : json) : Prop :=
  exists reqs, prop v "required" = Some (JArr reqs) /\ In (JStr name) reqs.

Lemma In_kin l l' name : Forall2 kin l l' -> In (JStr name) l -> In (JStr name) l'.
Proof.
  induction 1 as [|x y l l' Hxy _ IH]; simpl; [auto|].
  intros [->|H]; [left | right; auto].
  apply (kin_prim_eq _ _ Hxy). reflexivity.
Qed.

Lemma keeps_has_key pfs p' name :
  keeps vanishing (JObj pfs) p' -> vanishing name = false ->
  has_key name pfs = true -> exists pfs', p' = JObj pfs' /\ has_key name pfs' = true.
Proof.
  intros [Hk Hn] Hv Hh. specialize (Hn name Hv Hh).
  inversion Hk as [? Hp| |? pfs']; subst; [discriminate Hp|].
  now exists pfs'.
Qed.

Lemma kin_demands v v' name :
  (exists c c', prop v "required" = Some c /\ prop v' "required" = Some c' /\ kin c c') ->
  demands name v -> demands name v'.
Proof.
  intros (c & c' & Hc & Hc' & Hk) (reqs & Hr & Hin). rewrite Hr in Hc.
  injection Hc as <-. inversion Hk as [? Hp|? reqs' Hl|]; subst; [discriminate Hp|].
  exists reqs'. split; [exact Hc' | now apply (In_kin reqs)].
Qed.

Lemma root_kin_demands a b name :
  root_kin "required" a b -> demands name (JObj a) -> demands name (JObj b).
Proof.
  intros Hk Hd. apply (kin_demands (JObj a)); [|exact Hd].
  destruct Hd as (reqs & Hr & _). simpl in *. unfold root_kin in Hk.
  rewrite Hr in Hk. destruct (assoc "required" b) as [c'|]; [|contradiction].
  now exists (JArr reqs), c'.
Qed.

Lemma root_keeps_offers a b name :
  root_keeps "properties" a b -> vanishing name = false ->
  offers name (JObj a) -> offers name (JObj b).
Proof.
  intros Hk Hv (pfs & Hp & Hh). unfold offers. simpl in *. unfold root_keeps in Hk.
  rewrite Hp in Hk. destruct (assoc "properties" b) as [p'|]; [|contradiction].
  destruct (keeps_has_key pfs p' name Hk Hv Hh) as (pfs' & -> & Hh').
  now exists pfs'.
Qed.

(** The helpers whose rewrite leaves [properties] alone and keeps names. *)
Lemma rewritten_keeps step a b k :
  (forall fs fs' name,
      step fs = Ok fs' -> vanishing name = false -> has_key name fs = true ->
      has_key name fs' = true) ->
  rewritten step a b -> root_keeps k a b.
Proof.
  intros Hn H. pose proof (same_names_assoc _ a b k H) as Ha. unfold root_keeps.
  destruct (assoc k a), (assoc k b); try tauto.
  destruct Ha as [m Ha]. now apply (traverse_keeps step vanishing Hn) in Ha.
Qed.

Lemma traverse_offers step m item item' name :
  (forall fs fs', step fs = Ok fs' -> assoc "properties" fs' = assoc "properties" fs) ->
  (forall fs fs' name,
      step fs = Ok fs' -> vanishing name = false -> has_key name fs = true ->
      has_key name fs' = true) ->
  vanishing name = false ->
  traverse step m item = Ok item' -> offers name item -> offers name item'.
Proof.
  intros Hl Hn Hv H (pfs & Hp & Hh).
  destruct item as [| | | | |ifs]; try discriminate. simpl in Hp.
  apply traverse_obj in H. destruct H as (m' & ifs1 & ifs2 & _ & Hs & -> & Hr).
  rewrite <- (Hl ifs ifs1 Hs) in Hp.
  apply (root_keeps_offers ifs1 ifs2 name); [|exact Hv | now exists pfs].
  apply (rewritten_keeps step _ _ _ Hn).
  apply (same_names_impl _ _ _ _ (fun c c' Hc => ex_intro _ m' Hc) Hr).
Qed.

Lemma traverse_demands step m item item' name :
  (forall fs fs', step fs = Ok fs' -> assoc "required" fs' = assoc "required" fs) ->
  traverse step m item = Ok item' -> demands name item -> demands name item'.
Proof.
  intros Hl H Hd. pose proof Hd as (reqs & Hp & Hin).
  destruct item as [| | | | |ifs]; try discriminate. simpl in Hp.
  apply traverse_obj in H. destruct H as (m' & ifs1 & ifs2 & _ & Hs & -> & Hr).
  apply (root_kin_demands ifs ifs2 name); [|exact Hd].
  pose proof (same_names_assoc _ ifs1 ifs2 "required" Hr) as Ha.
  unfold root_kin. rewrite <- (Hl ifs ifs1 Hs).
  destruct (assoc "required" ifs1), (assoc "required" ifs2); try tauto.
  now apply traverse_kin in Ha.
Qed.

Lemma Forall2_In {A B} (R : A -> B -> Prop) l l' x :
  Forall2 R l l' -> In x l -> exists y, In y l' /\ R x y.
Proof.
  induction 1 as [|a b l l' Hab _ IH]; simpl; [intros []|].
  intros [->|H]; [exists b; auto|].
  destruct (IH H) as (y & Hy & Hxy). exists y. auto.
Qed.

(** A member of the root's [allOf] with a property that phase 1 keeps has
    a counterpart with it when [mergeAllOf] starts. *)
Lemma allOf_waits (P : json -> Prop) fs t r items item :
  (forall m x x', traverse convertConstToEnum_node m x = Ok x' -> P x -> P x') ->
  (forall m x x', traverse convertEnumValuesToStrings_node m x = Ok x' -> P x -> P x') ->
  traced fs t r -> assoc "allOf" fs = Some (JArr items) -> In item items -> P item ->
  exists items2 item2,
    assoc "allOf" (r_enum t) = Some (JArr items2) /\ In item2 items2 /\ P item2.
Proof.
  intros HP1 HP2 (S1 & K1 & S2 & K2 & _) Ha Hin HP.
  destruct (rewritten_assoc _ _ _ "allOf" (JArr items) K1) as (c1 & m1 & Hc1 & Hm1).
  { rewrite (convertConstToEnum_node_leaves fs _ "allOf" S1); auto; discriminate. }
  apply traverse_arr in Hm1. destruct Hm1 as (m1' & items1 & _ & -> & Hl1).
  destruct (Forall2_In _ _ _ item Hl1 Hin) as (item1 & Hin1 & Ht1).
  destruct (rewritten_assoc _ _ _ "allOf" (JArr items1) K2) as (c2 & m2 & Hc2 & Hm2).
  { rewrite (convertEnumValuesToStrings_node_leaves _ _ "allOf" S2); auto; discriminate. }
  apply traverse_arr in Hm2. destruct Hm2 as (m2' & items2 & _ & -> & Hl2).
  destruct (Forall2_In _ _ _ item1 Hl2 Hin1) as (item2 & Hin2 & Ht2).
  exists items2, item2. repeat split; try assumption.
  apply (HP2 _ _ _ Ht2). now apply (HP1 _ _ _ Ht1).
Qed.

Lemma has_key_assign_source k target source :
  has_key k source = true -> has_key k (assign target source) = true.
Proof.
  unfold assign, has_key. revert target.
  induction source as [|[k' v'] source IH]; simpl; intros target H; [discriminate|].
  destruct (String.eqb_spec k' k) as [->|Hne]; [|now apply IH].
  apply (has_key_assign k (obj_set k v' target) source).
  unfold has_key. now rewrite assoc_obj_set_eq.
Qed.

Lemma push_keeps reqs acc x :
  In x acc ->
  In x (fold_left (fun acc req => if includes acc req then acc else acc ++ [req])
          reqs acc).
Proof.
  revert acc. induction reqs as [|req reqs IH]; simpl; intros acc H; [exact H|].
  apply IH. destruct (includes acc req); [exact H | apply in_or_app; now left].
Qed.

Lemma includes_string acc name : includes acc (JStr name) = true -> In (JStr name) acc.
Proof.
  unfold includes. intros H. apply existsb_exists in H. destruct H as (x & Hx & Hs).
  destruct x; try discriminate. simpl in Hs. apply String.eqb_eq in Hs. now subst.
Qed.

Lemma push_adds reqs acc name :
  In (JStr name) reqs ->
  In (JStr name)
    (fold_left (fun acc req => if includes acc req then acc else acc ++ [req])
       reqs acc).
Proof.
  revert acc. induction reqs as [|req reqs IH]; simpl; intros acc H; [destruct H|].
  destruct H as [->|H]; [|now apply IH].
  apply push_keeps. destruct (includes acc (JStr name)) eqn:E.
  - now apply includes_string.
  - apply in_or_app. right. now left.
Qed.

(** What [mergeAllOf] has collected has the property, names the name. *)
Definition collected (name : string) (m : merged) : Prop :=
  exists mp, m_properties m = Some mp /\ has_key name mp = true.

Definition noted (name : string) (m : merged) : Prop :=
  exists mr, m_required m = Some mr /\ In (JStr name) mr.

Lemma merge_item_collects name m item m' :
  merge_item m item = Ok m' ->
  (offers name item \/ collected name m -> collected name m')
  /\ (demands name item \/ noted name m -> noted name m').
Proof.
  unfold merge_item. intros H.
  destruct item as [| | | | |ifs] eqn:Hitem; try discriminate;
    try (simpl in H; injection H as <-; split;
         (intros [(x & Hx & _)|Hm]; [discriminate Hx | exact Hm])).
  rewrite <- Hitem in *.
  set (m1 := match prop item "properties" with
             | Some p => if truthy p then _ else m
             | None => m
             end) in H.
  assert (H1 : (offers name item \/ collected name m -> collected name m1)
               /\ m_required m1 = m_required m).
  { subst m1. split.
    - intros [(pfs & Hp & Hh)|(mp & Hmp & Hh)].
      + rewrite Hp. simpl. eexists. split; [reflexivity|].
        now apply has_key_assign_source.
      + destruct (prop item "properties") as [p|]; [|now exists mp].
        destruct (truthy p); [|now exists mp].
        simpl. eexists. split; [reflexivity|]. rewrite Hmp. simpl.
        now apply has_key_assign.
    - destruct (prop item "properties") as [p|]; [|reflexivity].
      now destruct (truthy p). }
  destruct H1 as [Hc1 Hr1].
  destruct (prop item "required") as [[| | | |reqs|]|] eqn:Er; injection H as <-;
    try (split; [exact Hc1|];
         intros [(x & Hx & _)|Hm]; [congruence | unfold noted; now rewrite Hr1]).
  split.
  - intros Hc. destruct (Hc1 Hc) as (mp & Hmp & Hh). now exists mp.
  - intros [(x & Hx & Hin)|(mr & Hmr & Hin)]; (eexists; split; [reflexivity|]).
    + rewrite Er in Hx. injection Hx as <-. now apply push_adds.
    + rewrite Hr1, Hmr. simpl. now apply push_keeps.
Qed.

Lemma foldM_merge_collects name items m m' :
  foldM merge_item items m = Ok m' ->
  ((exists item, In item items /\ offers name item) \/ collected name m ->
   collected name m')
  /\ ((exists item, In item items /\ demands name item) \/ noted name m ->
      noted name m').
Proof.
  revert m. induction items as [|item items IH]; simpl; intros m H.
  - injection H as <-. split; (intros [(x & [] & _)|Hm]; exact Hm).
  - destruct (merge_item m item) as [m1| |] eqn:E1; try discriminate. simpl in H.
    destruct (merge_item_collects name m item m1 E1) as [Hc1 Hn1].
    destruct (IH m1 H) as [Hc Hn]. split.
    + intros [(x & [->|Hin] & Hx)|Hm]; apply Hc;
        [right; apply Hc1; now left | left; now exists x | right; apply Hc1; now right].
    + intros [(x & [->|Hin] & Hx)|Hm]; apply Hn;
        [right; apply Hn1; now left | left; now exists x | right; apply Hn1; now right].
Qed.

(** The rewrite of an object by [mergeAllOf]. *)
Lemma mergeAllOf_node_collects name fs fs' items :
  mergeAllOf_node fs = Ok fs' -> assoc "allOf" fs = Some (JArr items) ->
  ((exists item, In item items /\ offers name item) -> offers name (JObj fs'))
  /\ ((exists item, In item items /\ demands name item) -> demands name (JObj fs')).
Proof.
  unfold mergeAllOf_node. intros H Ha. rewrite Ha in H.
  destruct (foldM merge_item items _) as [m| |] eqn:Em; try discriminate.
  simpl in H. destruct (foldM_merge_collects name items _ m Em) as [Hc Hn].
  set (obj2 := match m_properties m with Some mp => _ | None => _ end) in H.
  assert (H2 : (exists item, In item items /\ offers name item) ->
               offers name (JObj obj2)).
  { intros Hex. destruct (Hc (or_introl Hex)) as (mp & Hmp & Hh).
    subst obj2. rewrite Hmp. eexists. simpl. rewrite assoc_obj_set_eq.
    split; [reflexivity|]. now apply has_key_assign_source. }
  split.
  - intros Hex. destruct (H2 Hex) as (pfs & Hp & Hh).
    destruct (m_required m); [|injection H as <-; now exists pfs].
    destruct (spread_or_empty _) as [base| |]; try discriminate.
    simpl in H. injection H as <-. exists pfs. simpl in *.
    now rewrite assoc_obj_set_ne by discriminate.
  - intros Hex. destruct (Hn (or_introl Hex)) as (mr & Hmr & Hin).
    rewrite Hmr in H.
    destruct (spread_or_empty _) as [base| |]; try discriminate.
    simpl in H. injection H as <-. eexists. simpl. rewrite assoc_obj_set_eq.
    split; [reflexivity|]. apply in_or_app. now right.
Qed.

Lemma offers_same name a b :
  assoc "properties" b = assoc "properties" a ->
  offers name (JObj a) -> offers name (JObj b).
Proof. unfold offers. simpl. now intros ->. Qed.

Lemma demands_same name a b :
  assoc "required" b = assoc "required" a ->
  demands name (JObj a) -> demands name (JObj b).
Proof. unfold demands. simpl. now intros ->. Qed.

Lemma phase_offers step a b fs name :
  (forall fs fs' name,
      step fs = Ok fs' -> vanishing name = false -> has_key name fs = true ->
      has_key name fs' = true) ->
  rewritten step a b -> assoc "properties" a = assoc "properties" fs ->
  vanishing name = false -> offers name (JObj fs) -> offers name (JObj b).
Proof.
  intros Hn Hr Hl Hv Ho. apply (root_keeps_offers a b name); [|exact Hv|].
  - now apply (rewritten_keeps step).
  - now apply (offers_same name fs a).
Qed.

Lemma phase_demands step a b fs name :
  rewritten step a b -> assoc "required" a = assoc "required" fs ->
  demands name (JObj fs) -> demands name (JObj b).
Proof.
  intros Hr Hl Hd. apply (root_kin_demands a b name).
  - now apply (rewritten_kin step).
  - now apply (demands_same name fs a).
Qed.

Lemma cleanupRequired_node_demands fs fs' name :
  cleanupRequired_node fs = Ok fs' ->
  offers name (JObj fs) -> demands name (JObj fs) -> demands name (JObj fs').
Proof.
  intros H (pfs & Hp & Hh) (reqs & Hr & Hin). simpl in Hp, Hr.
  apply cleanupRequired_node_cases in H.
  destruct H as [[-> Hno]|(l & p & Hl & Hp' & _ & Hcase)].
  - now specialize (Hno reqs (JObj pfs) Hr Hp).
  - rewrite Hr in Hl. injection Hl as <-. rewrite Hp in Hp'. injection Hp' as <-.
    cbv zeta in Hcase.
    assert (Hv : In (JStr name)
                   (List.filter (fun field => has_own (JObj pfs) (toString field)) reqs)).
    { apply filter_In. split; [exact Hin | exact Hh]. }
    destruct Hcase as [[Hnil _]|[_ ->]]; [now rewrite Hnil in Hv|].
    eexists. simpl. rewrite assoc_obj_set_eq. split; [reflexivity | exact Hv].
Qed.

Lemma addPlaceholders_node_offers fs fs' name :
  addPlaceholders_node fs = Ok fs' -> offers name (JObj fs) -> fs' = fs.
Proof.
  unfold addPlaceholders_node. intros H (pfs & Hp & Hh). simpl in Hp.
  rewrite Hp in H. simpl in H.
  destruct pfs as [|kv pfs]; [discriminate|]. simpl in H.
  destruct (is_str "object" (assoc "type" fs)); now injection H as <-.
Qed.

(** The properties and the required names of the members of an [allOf] at
    the root are those of the result, where the root has no choice to
    flatten and the name is not one the sanitizer deletes. *)
Lemma allOf_merges fs items name r :
  cleanJSONSchemaForAntigravity (JObj fs) = Ok r ->
  assoc "allOf" fs = Some (JArr items) ->
  is_array_opt (assoc "anyOf" fs) = false ->
  is_array_opt (assoc "oneOf" fs) = false ->
  vanishing name = false ->
  (exists item, In item items /\ offers name item) ->
  offers name r
  /\ ((exists item, In item items /\ demands name item) -> demands name r).
Proof.
  intros H Hall Ha Ho Hv (item & Hin & Hoff).
  destruct (sanitizer_traced fs r H) as [t Ht].
  pose proof Ht as (S1 & K1 & S2 & K2 & S3 & K3 & S4 & K4 & S5 & K5 & K6 & S7 & K7
                    & S8 & K8 & Hr).
  destruct (allOf_waits (offers name) fs t r items item) as (items2 & item2 & Ha2 & Hin2 & Hoff2);
    try assumption.
  { intros m x x'. apply traverse_offers; [| |exact Hv].
    - intros a b Hs. apply (convertConstToEnum_node_leaves a b); [exact Hs | discriminate ..].
    - apply convertConstToEnum_node_names. }
  { intros m x x'. apply traverse_offers; [| |exact Hv].
    - intros a b Hs. apply (convertEnumValuesToStrings_node_leaves a b); [exact Hs | discriminate].
    - intros a b n Hs _. now apply convertEnumValuesToStrings_node_names. }
  destruct (mergeAllOf_node_collects name _ _ items2 S3 Ha2) as [Hc3 Hd3].
  assert (Hidle : t_anyOf t = r_allOf t).
  { rewrite flattenAnyOfOneOf_node_idle in S4; [now injection S4 as <-| |].
    - rewrite (root_kin_array "anyOf" fs (r_allOf t)); [exact Ha|].
      apply (early_kin fs t r); [exact Ht | discriminate ..|right; repeat split; discriminate].
    - rewrite (root_kin_array "oneOf" fs (r_allOf t)); [exact Ho|].
      apply (early_kin fs t r); [exact Ht | discriminate ..|right; repeat split; discriminate]. }
  assert (O3 : offers name (JObj (r_allOf t))).
  { apply (phase_offers mergeAllOf_node (t_allOf t) _ (t_allOf t));
      [apply mergeAllOf_node_names | exact K3 | reflexivity | exact Hv|].
    apply Hc3. now exists item2. }
  assert (O4 : offers name (JObj (r_anyOf t))).
  { apply (phase_offers flattenAnyOfOneOf_node (t_anyOf t) _ (r_allOf t));
      [apply flattenAnyOfOneOf_node_names | exact K4 | now rewrite Hidle | exact Hv | exact O3]. }
  assert (O5 : offers name (JObj (r_type t))).
  { apply (phase_offers flattenTypeArrays_node (t_type t) _ (r_anyOf t));
      [intros a b n Hs _; now apply (flattenTypeArrays_node_names a)
      | exact K5 | | exact Hv | exact O4].
    apply (flattenTypeArrays_node_leaves _ _ _ S5). discriminate. }
  assert (O6 : offers name (JObj (r_removed t))).
  { apply (root_keeps_offers (r_type t)); [|exact Hv | exact O5].
    apply K6. now apply not_keyword. }
  assert (O7 : offers name (JObj (r_required t))).
  { apply (phase_offers cleanupRequired_node (t_required t) _ (r_removed t));
      [apply cleanupRequired_node_names | exact K7 | | exact Hv | exact O6].
    apply (cleanupRequired_node_leaves _ _ _ S7). discriminate. }
  pose proof (addPlaceholders_node_offers _ _ name S8 O7) as S8'.
  assert (O8 : offers name (JObj (r_placed t))).
  { apply (phase_offers addPlaceholders_node (t_placed t) _ (r_required t));
      [intros a b n Hs _; now apply (addPlaceholders_node_names a)
      | exact K8 | now rewrite S8' | exact Hv | exact O7]. }
  rewrite Hr. split; [exact O8|].
  intros (item' & Hin' & Hdem).
  destruct (allOf_waits (demands name) fs t r items item') as (items3 & item3 & Ha3 & Hin3 & Hdem3);
    try assumption.
  { intros m x x'. apply traverse_demands.
    intros a b Hs. apply (convertConstToEnum_node_leaves a b); [exact Hs | discriminate ..]. }
  { intros m x x'. apply traverse_demands.
    intros a b Hs. apply (convertEnumValuesToStrings_node_leaves a b); [exact Hs | discriminate]. }
  rewrite Ha2 in Ha3. injection Ha3 as <-.
  assert (D3 : demands name (JObj (r_allOf t))).
  { apply (phase_demands mergeAllOf_node (t_allOf t) _ (t_allOf t)); [exact K3 | reflexivity|].
    apply Hd3. now exists item3. }
  assert (D4 : demands name (JObj (r_anyOf t))).
  { apply (phase_demands flattenAnyOfOneOf_node (t_anyOf t) _ (r_allOf t));
      [exact K4 | now rewrite Hidle | exact D3]. }
  assert (D5 : demands name (JObj (r_type t))).
  { apply (phase_demands flattenTypeArrays_node (t_type t) _ (r_anyOf t));
      [exact K5 | | exact D4].
    apply (flattenTypeArrays_node_leaves _ _ _ S5). discriminate. }
  assert (D6 : demands name (JObj (r_removed t))).
  { apply (root_kin_demands (r_type t)); [|exact D5].
    apply root_keeps_kin, K6. now apply not_keyword. }
  assert (D7 : demands name (JObj (r_required t))).
  { apply (root_kin_demands (t_required t));
      [now apply (rewritten_kin cleanupRequired_node)|].
    now apply (cleanupRequired_node_demands (r_removed t)). }
  apply (phase_demands addPlaceholders_node (t_placed t) _ (r_required t));
    [exact K8 | now rewrite S8' | exact D7].
Qed.

(** Without an [allOf] array anywhere there is nothing to merge. *)
Definition no_allOf (fs : fields) : bool := negb (is_array_opt (assoc "allOf" fs)).

Definition unmerged (fs : fields) : Prop := no_allOf fs = true.

Lemma unmerged_kin fs fs' : same_names kin fs fs' -> unmerged fs -> unmerged fs'.
Proof.
  unfold unmerged, no_allOf. intros Hn.
  pose proof (same_names_assoc kin fs fs' "allOf" Hn) as Ha.
  destruct (assoc "allOf" fs) as [v|], (assoc "allOf" fs') as [v'|];
    try contradiction; [|trivial].
  now destruct Ha.
Qed.

Lemma convertConstToEnum_unmerged v r :
  convertConstToEnum v = Ok r -> all_nodes unmerged v -> all_nodes unmerged r.
Proof.
  apply (traverse_all_nodes convertConstToEnum_node kin unmerged unmerged);
    [apply kin_prim | apply kin_arr | apply kin_step | apply unmerged_kin |].
  intros fs fs' Hs H. apply all_nodes_obj_inv in H. destruct H as [Hm Hall].
  unfold unmerged, no_allOf in *.
  rewrite (convertConstToEnum_node_leaves fs fs' "allOf" Hs) by discriminate.
  split; [exact Hm|].
  unfold convertConstToEnum_node in Hs.
  destruct (assoc "const" fs) as [c|] eqn:Hc; [|now injection Hs as <-].
  destruct (truthy_opt (assoc "enum" fs)); injection Hs as <-; [exact Hall|].
  apply all_in_obj_delete, all_in_obj_set; [|exact Hall].
  apply all_arr. constructor; [|constructor].
  now apply (all_in_assoc _ fs "const").
Qed.

Lemma convertEnumValuesToStrings_unmerged v r :
  convertEnumValuesToStrings v = Ok r -> all_nodes unmerged v ->
  all_nodes unmerged r.
Proof.
  apply (traverse_all_nodes convertEnumValuesToStrings_node kin unmerged unmerged);
    [apply kin_prim | apply kin_arr | apply kin_step | apply unmerged_kin |].
  intros fs fs' Hs H. apply all_nodes_obj_inv in H. destruct H as [Hm Hall].
  unfold unmerged, no_allOf in *.
  rewrite (convertEnumValuesToStrings_node_leaves fs fs' "allOf" Hs) by discriminate.
  split; [exact Hm|].
  unfold convertEnumValuesToStrings_node in Hs.
  destruct (assoc "enum" fs) as [[| | | |l|]|] eqn:He; injection Hs as <-;
    try exact Hall.
  apply all_in_obj_set; [apply all_nodes_strings | exact Hall].
Qed.

Lemma mergeAllOf_unmerged v : all_nodes unmerged v -> exists r, mergeAllOf v = Ok r.
Proof.
  apply (everywhere_ok mergeAllOf_node unmerged).
  intros fs H. apply all_nodes_obj_inv in H. destruct H as [Hm Hall].
  exists fs. repeat split; [|exact Hall | lia].
  apply mergeAllOf_node_idle. unfold unmerged, no_allOf in Hm.
  now apply negb_true_iff in Hm.
Qed.

(** The sanitizer returns for a schema of distinct names that is mergeable
    everywhere, or has no [allOf] array. *)
Lemma sanitizer_returns s :
  all_nodes distinct s -> all_nodes mergeable s \/ all_nodes unmerged s ->
  exists r, cleanJSONSchemaForAntigravity s = Ok r.
Proof.
  intros Hd Hm. destruct (is_object_like s) eqn:Ho.
  - destruct (convertConstToEnum_ok s) as [c1 H1].
    destruct (convertEnumValuesToStrings_ok c1) as [c2 H2].
    assert (H3 : exists c3, mergeAllOf c2 = Ok c3).
    { destruct Hm as [Hm|Hm].
      - apply mergeAllOf_ok, all_nodes_and.
        + apply (convertEnumValuesToStrings_tidy _ _ H2).
          now apply (convertConstToEnum_distinct _ _ H1).
        + apply (convertEnumValuesToStrings_mergeable _ _ H2).
          now apply (convertConstToEnum_mergeable _ _ H1).
      - apply mergeAllOf_unmerged.
        apply (convertEnumValuesToStrings_unmerged _ _ H2).
        now apply (convertConstToEnum_unmerged _ _ H1). }
    destruct H3 as [c3 H3].
    destruct (flattenAnyOfOneOf_ok c3) as [c4 H4].
    destruct (flattenTypeArrays_ok c4) as [c5 H5].
    destruct (cleanupRequired_ok (removeUnsupported c5)) as [c7 H7].
    destruct (addPlaceholders_ok c7) as [r H8].
    exists r. apply (sanitizer_stages s r Ho).
    exists {| s_const := c1; s_enum := c2; s_allOf := c3; s_anyOf := c4;
              s_type := c5; s_removed := removeUnsupported c5; s_required := c7 |}.
    now repeat split.
  - exists s. unfold cleanJSONSchemaForAntigravity. now rewrite Ho.
Qed.

(** It never runs out of budget: it returns or it throws. *)
Lemma sanitizer_within_budget s : cleanJSONSchemaForAntigravity s <> NoFuel.
Proof.
  unfold cleanJSONSchemaForAntigravity, deepClone.
  destruct (negb (is_object_like s)); [discriminate|].
  destruct (convertConstToEnum_ok s) as [c1 ->]. cbn [bind].
  destruct (convertEnumValuesToStrings_ok c1) as [c2 ->]. cbn [bind].
  pose proof (mergeAllOf_fueled c2) as H3.
  destruct (mergeAllOf c2) as [c3| |]; [|discriminate | contradiction]. cbn [bind].
  destruct (flattenAnyOfOneOf_ok c3) as [c4 ->]. cbn [bind].
  destruct (flattenTypeArrays_ok c4) as [c5 ->]. cbn [bind].
  destruct (cleanupRequired_ok (removeUnsupported c5)) as [c7 ->]. cbn [bind].
  destruct (addPlaceholders_ok c7) as [r ->]. discriminate.
Qed.

(** ** The sanitizer's guarantees *)

(** [every p v]: [p] holds of the property list of every object in [v]. *)
Fixpoint every (p : fields -> bool) (v : json) : bool :=
  match v with
  | JObj fs => p fs && forallb (fun kv => every p (snd kv)) fs
  | JArr l => forallb (every p) l
  | _ => true
  end.

Lemma every_all_nodes (p : fields -> bool) (P : fields -> Prop) v :
  (forall fs, p fs = true -> P fs) -> every p v = true -> all_nodes P v.
Proof.
  intros HP. induction v as [| | | |l IH|fs IH] using json_ind; intros H;
    try (now apply all_prim).
  - apply all_arr. simpl in H. revert H.
    induction IH as [|x l Hx _ IHl]; simpl; intros H; [constructor|].
    apply andb_true_iff in H. destruct H as [H1 H2]. constructor; auto.
  - simpl in H. apply andb_true_iff in H. destruct H as [Hp H].
    apply all_obj; [now apply HP|]. clear Hp. revert H.
    induction IH as [|x l Hx _ IHl]; simpl; intros H; [constructor|].
    apply andb_true_iff in H. destruct H as [H1 H2]. constructor; auto.
Qed.

(** No name twice, as in every object [JSON.parse] yields. *)
Fixpoint distinct_names (l : list string) : bool :=
  match l with
  | [] => true
  | x :: r => negb (existsb (String.eqb x) r) && distinct_names r
  end.

Definition well_named (fs : fields) : bool := distinct_names (names fs).

(** No property is called [__proto__] or [toString].  [Object.assign] and
    an assignment write [__proto__] through the accessor of
    [Object.prototype] instead of making a property, and [String(v)] throws
    for an object [v] with a [toString] of its own that is no function; the
    property lists of the embedding do neither, so what is proved of the
    whole run is proved of schemas without these two names. *)
Definition ordinary (fs : fields) : bool :=
  forallb (fun kv => negb (String.eqb (fst kv) "__proto__")
                     && negb (String.eqb (fst kv) "toString")) fs.

Lemma well_named_distinct fs : well_named fs = true -> distinct fs.
Proof.
  unfold well_named, distinct. induction (names fs) as [|x l IH]; simpl; intros H;
    [constructor|].
  apply andb_true_iff in H. destruct H as [Hx Hl]. constructor; [|auto].
  intros Hin. apply negb_true_iff in Hx.
  assert (Ht : existsb (String.eqb x) l = true).
  { apply existsb_exists. exists x. split; [exact Hin | apply String.eqb_refl]. }
  congruence.
Qed.

(** [mergeAllOf] does not throw at the object. *)
Definition merges (fs : fields) : bool :=
  match assoc "allOf" fs with
  | Some (JArr items) => forallb not_null items
  | _ => true
  end
  && spreadable (assoc "required" fs).

Lemma merges_mergeable fs : merges fs = true -> mergeable fs.
Proof.
  unfold merges, mergeable. intros H. apply andb_true_iff in H.
  destruct H as [H1 H2]. split; [|exact H2].
  now destruct (assoc "allOf" fs) as [[| | | |items|]|].
Qed.

(** The type [flattenTypeArrays] puts for an array of types. *)
Definition first_type (types : list json) : json :=
  match List.filter (fun t => negb (is_str "null" (Some t))) types with
  | t :: _ => t
  | [] => JStr "string"
  end.

(** The required name [required] can name a property that is gone: phase 4
    prunes the list of an object before it visits [properties], and there
    deletes a [required] that is an array naming no property. *)
Definition dangling : json :=
  JObj [("type", JStr "object");
        ("required", JArr [JStr "required"]);
        ("properties",
         JObj [("required", JArr [JStr "zz"]);
               ("properties", JObj [("a", JObj [("type", JStr "string")])])])].

Example required_may_dangle :
  cleanJSONSchemaForAntigravity dangling
    = Ok (JObj [("type", JStr "object");
                ("required", JArr [JStr "required"]);
                ("properties",
                 JObj [("properties",
                        JObj [("a", JObj [("type", JStr "string")])])])]).
Proof. vm_compute. reflexivity. Qed.

(** What the sanitizer does guarantee.  For every JSON value [s] whose
    objects have no name twice and no property called [__proto__] or
    [toString], and at which [mergeAllOf] does not throw (every [allOf] array
    without [null] and every [required] an array, a string or false; or no
    [allOf] array at all), [cleanJSONSchemaForAntigravity] returns a value
    [r], and

    - everywhere in [r]: an [enum] array holds strings only; where
      [required] is an array and [properties] is there, every required name
      other than [required] is a property; an object of type [object] has a
      property;
    - no unsupported keyword is left in an object of [r] that property names
      without a dot, none empty, lead to from the root;
    - at the root of [s], if it has no [anyOf] or [oneOf] array: a [const]
      with no true [enum] beside it yields the [enum] of its text alone; an
      [enum] array yields the array of its texts; a [type] array of
      primitives yields its first member other than ["null"], or
      ["string"]; a property of a member of [allOf], and a required name of
      a member if a member has that property, is a property, and a required
      name, of [r], unless it is called like a keyword or [required]; an
      object type without [properties] and without an [allOf] array yields
      the placeholder [reason], required;
    - at the root of [s], if it has an [anyOf] array of flat schemas and no
      [oneOf] array: every property of the first best-scoring branch that is
      not null is a property of [r], unless it is called like a keyword,
      [required] or [properties]. *)
Theorem sanitizer_guarantees (s : json) :
  every ordinary s = true ->
  every well_named s = true ->
  every merges s || every no_allOf s = true ->
  exists r,
    cleanJSONSchemaForAntigravity s = Ok r
    /\ all_nodes enum_of_strings r
    /\ all_nodes required_known r
    /\ all_nodes has_properties r
    /\ (forall kw, In kw UNSUPPORTED_SCHEMA_CONSTRAINTS -> free kw r)
    /\ (forall fs,
          s = JObj fs ->
          is_array_opt (assoc "anyOf" fs) = false ->
          is_array_opt (assoc "oneOf" fs) = false ->
          (forall c,
              assoc "const" fs = Some c -> truthy_opt (assoc "enum" fs) = false ->
              prop r "enum" = Some (JArr [JStr (toString c)]))
          /\ (forall l,
                assoc "enum" fs = Some (JArr l) ->
                prop r "enum" = Some (JArr (map (fun v => JStr (toString v)) l)))
          /\ (forall types,
                assoc "type" fs = Some (JArr types) ->
                forallb is_primitive types = true ->
                prop r "type" = Some (first_type types))
          /\ (forall items name,
                assoc "allOf" fs = Some (JArr items) -> vanishing name = false ->
                (exists item, In item items /\ offers name item) ->
                offers name r
                /\ ((exists item, In item items /\ demands name item) ->
                    demands name r))
          /\ (is_str "object" (assoc "type" fs) = true ->
              assoc "properties" fs = None ->
              is_array_opt (assoc "allOf" fs) = false ->
              prop r "properties" = Some placeholder_properties
              /\ prop r "required" = Some (JArr [JStr "reason"])))
    /\ (forall fs branches bs k c,
          s = JObj fs ->
          assoc "anyOf" fs = Some (JArr branches) ->
          forallb flat branches = true ->
          is_array_opt (assoc "oneOf" fs) = false ->
          richest (nonNullSchemas branches) (JObj bs) ->
          assoc k bs = Some c ->
          vanishing k = false -> k <> "properties"%string ->
          prop r k = Some c).
Proof.
  intros _ Hn Hm.
  assert (Hd : all_nodes distinct s)
    by (apply (every_all_nodes well_named); [apply well_named_distinct | exact Hn]).
  assert (Hmg : all_nodes mergeable s \/ all_nodes unmerged s).
  { apply orb_true_iff in Hm. destruct Hm as [Hm|Hm]; [left | right].
    - apply (every_all_nodes merges); [apply merges_mergeable | exact Hm].
    - apply (every_all_nodes no_allOf); [now intros fs | exact Hm]. }
  destruct (sanitizer_returns s Hd Hmg) as [r H]. exists r.
  pose proof (sanitized_finished s r H Hd) as Hfin.
  split; [exact H|].
  split; [apply (all_nodes_impl finished); [now intros fs [[[_ ?] _] _] | exact Hfin]|].
  split; [apply (all_nodes_impl finished); [now intros fs [[_ ?] _] | exact Hfin]|].
  split; [apply (all_nodes_impl finished); [now intros fs [_ ?] | exact Hfin]|].
  split; [intros kw Hkw; now apply (sanitized_free s r kw)|].
  split.
  - intros fs -> Ha Ho. split; [|split; [|split; [|split]]].
    + intros c Hc He. now apply (const_becomes_enum fs c r).
    + intros l Hl. now apply (enum_becomes_strings fs l r).
    + intros types Ht Hp. now apply (type_array_becomes_first fs types r).
    + intros items name Hall Hv Hex. now apply (allOf_merges fs items name r).
    + intros Hty Hp Hall. now apply (empty_object_gets_reason fs r).
  - intros fs branches bs k c -> Hany Hflat Ho Hrich Hc Hv Hp.
    apply (anyOf_becomes_branch fs branches bs k c r); try assumption.
    + now apply richest_chosen.
    + destruct Hrich as (i & Hi & _). apply nth_error_In, filter_In in Hi.
      destruct Hi as [Hin _].
      apply all_nodes_obj_inv in Hd as [_ Hd].
      pose proof (all_in_assoc distinct fs "anyOf" _ Hd Hany) as Hb.
      apply all_nodes_arr_inv in Hb.
      pose proof (proj1 (List.Forall_forall _ _) Hb _ Hin) as Hbs.
      now apply all_nodes_obj_inv in Hbs as [? _].
    + intros Hin. apply vanishing_keyword in Hin. congruence.
    + intros ->. discriminate.
Qed.

(** A tool schema with each of the constructs the sanitizer rewrites. *)
Definition sample_schema : json :=
  JObj [("type", JStr "object");
        ("title", JStr "Lookup");
        ("allOf",
         JArr [JObj [("properties",
                      JObj [("id", JObj [("type", JArr [JStr "null"; JStr "integer"]);
                                         ("const", JNum "7")])]);
                     ("required", JArr [JStr "id"; JStr "gone"])]]);
        ("properties",
         JObj [("mode", JObj [("enum", JArr [JNum "1"; JBool true]);
                              ("default", JNum "1")]);
               ("when", JObj [("anyOf",
                               JArr [JObj [("type", JStr "null")];
                                     JObj [("type", JStr "string");
                                           ("format", JStr "date")]])]);
               ("extra", JObj [("type", JStr "object")])])].

Lemma sanitizer_guarantees_witness :
  exists r,
    cleanJSONSchemaForAntigravity sample_schema = Ok r
    /\ offers "id" r /\ demands "id" r
    /\ free "title" r /\ all_nodes has_properties r.
Proof.
  destruct (sanitizer_guarantees sample_schema eq_refl eq_refl eq_refl)
    as (r & H & _ & _ & Hp & Hfree & Hroot & _).
  destruct (Hroot _ eq_refl eq_refl eq_refl) as (_ & _ & _ & Hall & _).
  destruct (Hall _ "id"%string eq_refl eq_refl) as [Hoff Hdem].
  { eexists. split; [now left|]. eexists. split; reflexivity. }
  exists r. repeat split; try assumption.
  - apply Hdem. eexists. split; [now left|]. eexists. split; [reflexivity | now left].
  - apply Hfree. vm_compute. tauto.
Defined.

(** ** Where a second run changes nothing

    [settled fs]: the object has nothing the sanitizer rewrites: no
    unsupported keyword, an [enum] of strings if it is an array, no [type]
    array, a [required] list beside [properties] that is not empty and names
    properties only, and a property if its type is [object]. *)
Definition settled (fs : fields) : bool :=
  forallb (fun kw => negb (has_key kw fs)) UNSUPPORTED_SCHEMA_CONSTRAINTS
  && match assoc "enum" fs with
     | Some (JArr l) => forallb is_string l
     | _ => true
     end
  && negb (is_array_opt (assoc "type" fs))
  && match assoc "required" fs, assoc "properties" fs with
     | Some (JArr l), Some p =>
         negb (truthy p)
         || (negb (length l =? 0)
             && forallb (fun field => has_own p (toString field)) l)
     | _, _ => true
     end
  && (negb (is_str "object" (assoc "type" fs))
      || (truthy_opt (assoc "properties" fs)
          && negb (length (own_entries_opt (assoc "properties" fs)) =? 0))).

Lemma obj_set_same k v fs : assoc k fs = Some v -> obj_set k v fs = fs.
Proof.
  induction fs as [|[k' v'] fs IH]; simpl; [discriminate|].
  destruct (String.eqb_spec k' k) as [->|Hne]; [now intros [= ->]|].
  intros H. now rewrite (IH H).
Qed.

Lemma mapM_idle {A} (f : A -> outcome A) l :
  Forall (fun x => f x = Ok x) l -> mapM f l = Ok l.
Proof.
  induction 1 as [|x l Hx _ IH]; simpl; [reflexivity|]. now rewrite Hx, IH.
Qed.

(** A helper whose rewrite changes no object of a value returns the value. *)
Lemma traverse_idle (step : fields -> outcome fields) (Q : fields -> Prop) :
  (forall fs, Q fs -> step fs = Ok fs) ->
  forall n v, height v <= n -> all_nodes Q v -> traverse step n v = Ok v.
Proof.
  intros Hidle. induction n as [|n IH]; intros v Hh Hq.
  - destruct v as [| | | |l|fs]; simpl in *; try reflexivity; lia.
  - destruct v as [| | | |l|fs]; try reflexivity.
    + simpl in Hh |- *. fold (hl l) in Hh. apply all_nodes_arr_inv in Hq.
      rewrite mapM_idle; [reflexivity|].
      apply List.Forall_forall. intros x Hx. apply IH.
      * apply hl_In in Hx. lia.
      * apply (proj1 (List.Forall_forall _ _) Hq x Hx).
    + simpl in Hh |- *. fold (hs fs) in Hh.
      apply all_nodes_obj_inv in Hq as [Hq Hall].
      rewrite (Hidle fs Hq). cbn [bind]. unfold map_fields.
      rewrite mapM_idle; [reflexivity|].
      apply List.Forall_forall. intros [k c] Hin. simpl.
      rewrite IH; [reflexivity | apply hs_In in Hin; lia|].
      apply (all_in_In Q fs k c Hall Hin).
Qed.

Lemma everywhere_idle (step : fields -> outcome fields) (Q : fields -> Prop) v :
  (forall fs, Q fs -> step fs = Ok fs) -> all_nodes Q v -> everywhere step v = Ok v.
Proof.
  intros Hidle Hq. unfold everywhere, budget.
  apply (traverse_idle step Q Hidle); [lia | exact Hq].
Qed.

(** No keyword anywhere: [walkAndCollectPaths] finds none. *)
Lemma walkAndCollectPaths_none v cur kw :
  all_nodes (fun fs => has_key kw fs = false) v ->
  walkAndCollectPaths v cur kw = [].
Proof.
  revert cur. induction v as [| | | |l IH|fs IH] using json_ind; intros cur H;
    try reflexivity.
  - apply all_nodes_arr_inv in H. simpl. generalize 0. revert H.
    induction IH as [|x l Hx _ IHl]; intros H i; [reflexivity|].
    inversion H as [|? ? H1 H2]; subst. now rewrite (Hx _ H1), (IHl H2).
  - apply all_nodes_obj_inv in H as [Hk Hall]. rewrite walkAndCollectPaths_obj.
    unfold has_key in Hk. revert Hk Hall.
    induction IH as [|[k c] fs Hc _ IHfs]; intros Hk Hall; [reflexivity|].
    inversion Hall as [|? ? H1 H2]; subst. simpl in Hk, H1 |- *.
    destruct (String.eqb k kw); [discriminate|].
    rewrite (Hc _ H1). simpl. now apply IHfs.
Qed.

Lemma strings_fixed l :
  forallb is_string l = true -> map (fun v => JStr (toString v)) l = l.
Proof.
  induction l as [|x l IH]; simpl; [reflexivity|].
  intros H. apply andb_true_iff in H. destruct H as [Hx Hl].
  rewrite (IH Hl). now destruct x.
Qed.

Lemma filter_all {A} (f : A -> bool) l : forallb f l = true -> List.filter f l = l.
Proof.
  induction l as [|x l IH]; simpl; [reflexivity|].
  intros H. apply andb_true_iff in H. destruct H as [Hx Hl].
  now rewrite Hx, (IH Hl).
Qed.

Lemma is_keyword kw :
  existsb (String.eqb kw) UNSUPPORTED_SCHEMA_CONSTRAINTS = true ->
  In kw UNSUPPORTED_SCHEMA_CONSTRAINTS.
Proof.
  intros H. apply existsb_exists in H. destruct H as (x & Hin & Hx).
  apply String.eqb_eq in Hx. now subst.
Qed.

Lemma settled_keyword fs kw :
  settled fs = true -> In kw UNSUPPORTED_SCHEMA_CONSTRAINTS -> assoc kw fs = None.
Proof.
  unfold settled. rewrite !andb_true_iff. intros [[[[H _] _] _] _] Hin.
  pose proof (proj1 (forallb_forall _ _) H kw Hin) as Hk. unfold has_key in Hk.
  now destruct (assoc kw fs).
Qed.

(** The sanitizer returns a settled value as it is. *)
Lemma sanitizer_fixed_point r :
  every settled r = true -> cleanJSONSchemaForAntigravity r = Ok r.
Proof.
  intros H. pose proof (every_all_nodes settled _ r (fun fs Hs => Hs) H) as Hall.
  unfold cleanJSONSchemaForAntigravity, deepClone.
  destruct (negb (is_object_like r)); [reflexivity|].
  unfold convertConstToEnum, convertEnumValuesToStrings, mergeAllOf,
    flattenAnyOfOneOf, flattenTypeArrays, cleanupRequired, addPlaceholders.
  rewrite (everywhere_idle convertConstToEnum_node _ r) with (2 := Hall).
  2:{ intros fs Hs. unfold convertConstToEnum_node.
      rewrite (settled_keyword fs "const" Hs); [reflexivity|].
      now apply is_keyword. }
  cbn [bind].
  rewrite (everywhere_idle convertEnumValuesToStrings_node _ r) with (2 := Hall).
  2:{ intros fs Hs. unfold convertEnumValuesToStrings_node.
      destruct (assoc "enum" fs) as [[| | | |l|]|] eqn:Ee; try reflexivity.
      unfold settled in Hs. rewrite Ee, !andb_true_iff in Hs.
      destruct Hs as [[[[_ Hs] _] _] _].
      now rewrite (strings_fixed l Hs), (obj_set_same _ _ _ Ee). }
  cbn [bind].
  rewrite (everywhere_idle mergeAllOf_node _ r) with (2 := Hall).
  2:{ intros fs Hs. apply mergeAllOf_node_idle.
      rewrite (settled_keyword fs "allOf" Hs); [reflexivity|].
      now apply is_keyword. }
  cbn [bind].
  rewrite (everywhere_idle flattenAnyOfOneOf_node _ r) with (2 := Hall).
  2:{ intros fs Hs. apply flattenAnyOfOneOf_node_idle.
      - rewrite (settled_keyword fs "anyOf" Hs); [reflexivity|].
        now apply is_keyword.
      - rewrite (settled_keyword fs "oneOf" Hs); [reflexivity|].
        now apply is_keyword. }
  cbn [bind].
  rewrite (everywhere_idle flattenTypeArrays_node _ r) with (2 := Hall).
  2:{ intros fs Hs. apply flattenTypeArrays_node_idle.
      unfold settled in Hs. rewrite !andb_true_iff in Hs.
      destruct Hs as [[[_ Hs] _] _]. now apply negb_true_iff in Hs. }
  cbn [bind].
  assert (H3 : removeUnsupported r = r).
  { unfold removeUnsupported.
    assert (Hkw : forall kw, In kw UNSUPPORTED_SCHEMA_CONSTRAINTS ->
                             removeKeyword r kw = r).
    { intros kw Hin. unfold removeKeyword.
      rewrite walkAndCollectPaths_none; [reflexivity|].
      apply (all_nodes_impl (fun fs => settled fs = true)); [|exact Hall].
      intros fs Hs. unfold has_key. now rewrite (settled_keyword fs kw Hs Hin). }
    revert Hkw. generalize UNSUPPORTED_SCHEMA_CONSTRAINTS.
    induction l as [|kw kws IH]; intros Hkw; [reflexivity|].
    simpl. rewrite (Hkw kw) by now left. apply IH. intros k Hk. apply Hkw. now right. }
  rewrite H3.
  rewrite (everywhere_idle cleanupRequired_node _ r) with (2 := Hall).
  2:{ intros fs Hs. unfold cleanupRequired_node.
      destruct (assoc "required" fs) as [[| | | |l|]|] eqn:Er; try reflexivity;
        try (now destruct (assoc "properties" fs)).
      destruct (assoc "properties" fs) as [p|] eqn:Ep; [|reflexivity].
      destruct (truthy p) eqn:Et; [|reflexivity].
      unfold settled in Hs. rewrite Er, Ep, Et, !andb_true_iff in Hs.
      destruct Hs as [[_ Hs] _]. simpl in Hs. apply andb_true_iff in Hs.
      destruct Hs as [Hne Hk]. rewrite (filter_all _ l Hk).
      destruct l as [|x l]; [discriminate|].
      now rewrite (obj_set_same _ _ _ Er). }
  cbn [bind].
  apply (everywhere_idle addPlaceholders_node _ r) with (2 := Hall).
  intros fs Hs. unfold addPlaceholders_node.
  unfold settled in Hs. rewrite !andb_true_iff in Hs. destruct Hs as [_ Hs].
  destruct (is_str "object" (assoc "type" fs)); [|reflexivity].
  simpl in Hs. apply andb_true_iff in Hs. destruct Hs as [Ht Hn].
  rewrite Ht. apply negb_true_iff in Hn. now rewrite Hn.
Qed.

(** So the sanitizer is idempotent wherever its first run leaves a settled
    value. *)
Lemma idempotent_where_settled s r :
  cleanJSONSchemaForAntigravity s = Ok r -> every settled r = true ->
  cleanJSONSchemaForAntigravity r = Ok r.
Proof. intros _. apply sanitizer_fixed_point. Qed.

Example sample_is_settled :
  exists r,
    cleanJSONSchemaForAntigravity sample_schema = Ok r
    /\ every settled r = true
    /\ cleanJSONSchemaForAntigravity r = Ok r.
Proof.
  eexists. split; [vm_compute; reflexivity|]. split; [reflexivity|].
  now apply sanitizer_fixed_point.
Qed.

(** ** A constant beside an enumeration, a requirement without properties *)

Definition const_beside_enum : json :=
  JObj [("type", JStr "string");
        ("const", JStr "a");
        ("enum", JArr [JStr "a"; JStr "b"])].

Definition required_without_properties : json :=
  JObj [("type", JStr "string"); ("required", JArr [JStr "a"])].

(** [convertConstToEnum] guards its rewrite with [!obj.enum], so a [const]
    that stands beside an [enum] is not turned into a singleton [enum]: the
    keyword is removed in phase 3 and the wider [enum] stays.
    [cleanupRequired] guards its rewrite with [obj.properties], so a
    [required] list of a schema without [properties] is not pruned. *)
Lemma const_beside_enum_is_dropped :
  cleanJSONSchemaForAntigravity const_beside_enum
    = Ok (JObj [("type", JStr "string"); ("enum", JArr [JStr "a"; JStr "b"])])
  /\ cleanJSONSchemaForAntigravity required_without_properties
    = Ok required_without_properties.
Proof. split; vm_compute; reflexivity. Qed.

(** ** Keywords that phase 3 does not reach *)

(** A tuple whose one item schema has a [format] and a [minLength]; an
    object with a property [user.email] that has a [format]; and the same
    object with the property called [email]. *)
Definition tuple_with_format : json :=
  JObj [("type", JStr "array");
        ("items", JArr [JObj [("type", JStr "string"); ("format", JStr "date");
                              ("minLength", JNum "1")]])].

Definition dotted_with_format : json :=
  JObj [("type", JStr "object");
        ("properties",
         JObj [("user.email",
                JObj [("type", JStr "string"); ("format", JStr "email")])]);
        ("required", JArr [JStr "user.email"])].

Definition plain_with_format : json :=
  JObj [("type", JStr "object");
        ("properties",
         JObj [("email", JObj [("type", JStr "string"); ("format", JStr "email")])]);
        ("required", JArr [JStr "email"])].

(** C2: unsupported keywords are not removed at every nesting depth.
    [format] and [minLength] are on the list of unsupported keywords, and
    phase 3 is to remove them at all levels.  [walkAndCollectPaths] finds
    them, at the paths [items[0].format], [items[0].minLength] and
    [properties.user.email.format]; [deleteAtPath] splits a path at every
    dot, looks for a property called [items[0]], and for a property [user],
    finds none and deletes nothing.  The sanitizer returns both schemas as
    they are, keywords included, while the same keyword under a property
    name without a dot is removed. *)
Theorem keywords_survive_in_tuples_and_dotted_names :
  In "format"%string UNSUPPORTED_SCHEMA_CONSTRAINTS
  /\ In "minLength"%string UNSUPPORTED_SCHEMA_CONSTRAINTS
  /\ walkAndCollectPaths tuple_with_format "" "format" = ["items[0].format"%string]
  /\ deleteAtPath tuple_with_format "items[0].format" = tuple_with_format
  /\ cleanJSONSchemaForAntigravity tuple_with_format = Ok tuple_with_format
  /\ cleanJSONSchemaForAntigravity dotted_with_format = Ok dotted_with_format
  /\ cleanJSONSchemaForAntigravity plain_with_format
     = Ok (JObj [("type", JStr "object");
                 ("properties", JObj [("email", JObj [("type", JStr "string")])]);
                 ("required", JArr [JStr "email"])]).
Proof. repeat split; vm_compute; tauto. Qed.

(** ** Sanitizing twice *)

(** A property whose name has a dot, holding a choice within a choice. *)
Definition nested_choice : json :=
  JObj [("anyOf",
         JArr [JObj [("anyOf", JArr [JObj [("type", JStr "string")];
                                     JObj [("type", JStr "integer")]])];
               JObj [("type", JStr "null")]])].

Definition dotted_name : json :=
  JObj [("type", JStr "object");
        ("properties", JObj [("user.name", nested_choice)])].

(** The same choice as the one item schema of a tuple. *)
Definition tuple_items : json :=
  JObj [("type", JStr "array"); ("items", JArr [nested_choice])].

Definition inner_choice : json :=
  JObj [("anyOf", JArr [JObj [("type", JStr "string")];
                        JObj [("type", JStr "integer")]])].

(** C3: the sanitizer is not idempotent on these two schemas.  The first run
    flattens the outer [anyOf]; [Object.assign] brings the inner [anyOf] in,
    which phase 3 is to remove.  [walkAndCollectPaths] records the keyword at
    [properties.user.name.anyOf] and at [items[0].anyOf]; [deleteAtPath]
    splits these at every dot and looks for a property [user], and for a
    property [items[0]], finds none and deletes nothing.  The second run
    flattens what the first has left. *)
Theorem sanitizing_twice_differs :
  cleanJSONSchemaForAntigravity dotted_name
    = Ok (JObj [("type", JStr "object");
                ("properties", JObj [("user.name", inner_choice)])])
  /\ cleanJSONSchemaForAntigravity
       (JObj [("type", JStr "object");
              ("properties", JObj [("user.name", inner_choice)])])
    = Ok (JObj [("type", JStr "object");
                ("properties",
                 JObj [("user.name", JObj [("type", JStr "string")])])])
  /\ cleanJSONSchemaForAntigravity tuple_items
    = Ok (JObj [("type", JStr "array"); ("items", JArr [inner_choice])])
  /\ cleanJSONSchemaForAntigravity
       (JObj [("type", JStr "array"); ("items", JArr [inner_choice])])
    = Ok (JObj [("type", JStr "array");
                ("items", JArr [JObj [("type", JStr "string")]])]).
Proof. repeat split; vm_compute; reflexivity. Qed.

End Sanitizer.

(* ===================================================================== *)
(** * The Kiro executor: AWS EventStream frames to OpenAI SSE chunks *)
(* ===================================================================== *)
Module Kiro.
Import Js.

Section Executor.

(** Built-ins of the platform, taken as they come: [new TextDecoder().decode],
    [String.prototype.trim], [JSON.parse] ([None] when it throws) and
    [JSON.stringify]. *)
Variable TextDecoder_decode : list byte -> string.
Variable String_trim : string -> string.
Variable JSON_parse : string -> option json.
Variable JSON_stringify : json -> string.

(** The values [transformEventStreamToSSE] fixes when it is called:
    [responseId], [created] (as printed) and [model]. *)
Variable responseId : string.
Variable created : string.
Variable model : string.

(** ** parseEventFrame *)

Definition len (data : list byte) : Z := Z.of_nat (length data).

(** [data[i]]: [undefined] outside the array. *)
Definition at_index (data : list byte) (i : Z) : option Z :=
  if (i <? 0)%Z then None
  else option_map (fun b => Z.of_N (Byte.to_N b)) (nth_error data (Z.to_nat i)).

(** A byte in a bitwise expression: [undefined] counts as 0. *)
Definition bits (o : option Z) : Z := default 0%Z o.

(** [data.slice(from, to)] for [0 <= from]. *)
Definition slice (data : list byte) (from to : Z) : list byte :=
  firstn (Z.to_nat (to - from)) (skipn (Z.to_nat from) data).

(** [view.getUint32(at, false)]: big-endian; a [RangeError] ([None]) when the
    four bytes are not all there. *)
Definition getUint32 (data : list byte) (at_ : Z) : option Z :=
  match at_index data at_, at_index data (at_ + 1),
        at_index data (at_ + 2), at_index data (at_ + 3) with
  | Some b0, Some b1, Some b2, Some b3 =>
      Some (Z.lor (Z.shiftl b0 24)
              (Z.lor (Z.shiftl b1 16) (Z.lor (Z.shiftl b2 8) b3)))
  | _, _, _, _ => None
  end.

Record event : Type := {
  headers : gmap string string;
  payload : json
}.

(** [headers[name] = value] on the object literal [{}].  Every name becomes
    an own property but [__proto__]: that name is the accessor of
    [Object.prototype], whose setter ignores a string, so a header of that
    name is not kept. *)
Definition set_header (name value : string) (hs : gmap string string)
  : gmap string string :=
  if String.eqb name "__proto__" then hs else <[name := value]> hs.

(** The [while (offset < headerEnd && offset < data.length)] loop.  [None]
    only when the budget of rounds is used up. *)
Fixpoint parseHeaders (rounds : nat) (data : list byte) (headerEnd offset : Z)
  (hs : gmap string string) : option (gmap string string) :=
  if ((offset <? headerEnd) && (offset <? len data))%Z
  then
    match rounds with
    | 0 => None
    | S rounds' =>
        let nameLen := bits (at_index data offset) in
        let offset1 := (offset + 1)%Z in
        if (offset1 + nameLen >? len data)%Z then Some hs
        else
          let name := TextDecoder_decode (slice data offset1 (offset1 + nameLen)) in
          let offset2 := (offset1 + nameLen)%Z in
          let headerType := at_index data offset2 in
          let offset3 := (offset2 + 1)%Z in
          if bool_decide (headerType = Some 7%Z)
          then
            let valueLen :=
              Z.lor (Z.shiftl (bits (at_index data offset3)) 8)
                    (bits (at_index data (offset3 + 1))) in
            let offset4 := (offset3 + 2)%Z in
            if (offset4 + valueLen >? len data)%Z then Some hs
            else
              let value :=
                TextDecoder_decode (slice data offset4 (offset4 + valueLen)) in
              parseHeaders rounds' data headerEnd (offset4 + valueLen)
                (set_header name value hs)
          else Some hs
    end
  else Some hs.

(** The payload part of [parseEventFrame]. *)
Definition parsePayload (data : list byte) (headersLength : Z) : json :=
  let payloadStart := (12 + headersLength)%Z in
  let payloadEnd := (len data - 4)%Z in
  if (payloadEnd >? payloadStart)%Z
  then
    let payloadStr := TextDecoder_decode (slice data payloadStart payloadEnd) in
    if String.eqb payloadStr "" || String.eqb (String_trim payloadStr) ""
    then JNull
    else match JSON_parse payloadStr with
         | Some v => v
         | None => JObj [("raw", JStr payloadStr)]
         end
  else JNull.

(** [None] is the [null] of the [catch]: only [getUint32] can throw. *)
Definition parseEventFrame (data : list byte) : option event :=
  match getUint32 data 4 with
  | None => None
  | Some headersLength =>
      let hs :=
        default ∅ (parseHeaders (length data) data (12 + headersLength) 12 ∅) in
      Some {| headers := hs; payload := parsePayload data headersLength |}
  end.

(** ** transformEventStreamToSSE *)

(** What [controller.enqueue] is given: [data: <chunk as JSON>] followed by
    an empty line, or the line [data: [DONE]]. *)
Inductive emitted : Type :=
| Data (chunk : json)
| Done.

Record state : Type := {
  buffer : list byte;
  chunkIndex : nat;
  endDetected : bool;
  finishEmitted : bool;
  hasToolCalls : bool;
  toolCallIndex : nat;
  seenToolIds : list (json * nat);   (* the Map toolUseId -> index *)
  timers : nat;                      (* finish timers set and not yet run *)
  closed : bool;                     (* controller.close() was called *)
  errored : bool                     (* controller.error(e) was called *)
}.

Definition initial : state :=
  {| buffer := []; chunkIndex := 0; endDetected := false;
     finishEmitted := false; hasToolCalls := false; toolCallIndex := 0;
     seenToolIds := []; timers := 0; closed := false; errored := false |}.

(** [Map.prototype.has] and [get] compare keys by SameValueZero. *)
Fixpoint Map_get (m : list (json * nat)) (k : json) : option nat :=
  match m with
  | [] => None
  | (k', i) :: r => if same_value_zero k' k then Some i else Map_get r k
  end.

Definition Map_has (m : list (json * nat)) (k : json) : bool :=
  match Map_get m k with Some _ => true | None => false end.

(** [Map.prototype.set] for a key the map does not have. *)
Definition Map_set (m : list (json * nat)) (k : json) (i : nat) : list (json * nat) :=
  m ++ [(k, i)].

(** The chunk literal all emissions share. *)
Definition chunk (delta finish_reason : json) : json :=
  JObj [("id", JStr responseId);
        ("object", JStr "chat.completion.chunk");
        ("created", JNum created);
        ("model", JStr model);
        ("choices",
         JArr [JObj [("index", JNum "0");
                     ("delta", delta);
                     ("finish_reason", finish_reason)]])].

Definition finishChunk (st : state) : json :=
  chunk (JObj []) (JStr (if hasToolCalls st then "tool_calls" else "stop")).

Definition contentChunk (withRole : bool) (content : json) : json :=
  chunk (JObj ((if withRole then [("role", JStr "assistant")] else [])
                 ++ [("content", content)]))
        JNull.

Definition startChunk (withRole : bool) (toolIndex : nat) (toolCallId toolName : json)
  : json :=
  chunk (JObj ((if withRole then [("role", JStr "assistant")] else [])
                 ++ [("tool_calls",
                      JArr [JObj [("index", JNum (index_name toolIndex));
                                  ("id", toolCallId);
                                  ("type", JStr "function");
                                  ("function",
                                   JObj [("name", toolName);
                                         ("arguments", JStr "")])]])]))
        JNull.

Definition argsChunk (toolIndex : nat) (argumentsStr : string) : json :=
  chunk (JObj [("tool_calls",
                JArr [JObj [("index", JNum (index_name toolIndex));
                            ("function",
                             JObj [("arguments", JStr argumentsStr)])]])])
        JNull.

(** A run of the code of [pull] so far: the state, what was enqueued, and
    whether an exception ended it. *)
Record run : Type := {
  st : state;
  out : list emitted;
  threw : bool
}.

Definition emit (st : state) (c : json) : state * list emitted :=
  ({| buffer := buffer st; chunkIndex := S (chunkIndex st);
      endDetected := endDetected st; finishEmitted := finishEmitted st;
      hasToolCalls := hasToolCalls st; toolCallIndex := toolCallIndex st;
      seenToolIds := seenToolIds st; timers := timers st;
      closed := closed st; errored := errored st |},
   [Data c]).

(** [a || b] *)
Definition or_else (o : option json) (b : json) : json :=
  match o with
  | Some v => if truthy v then v else b
  | None => b
  end.

(** One round of [for (const singleToolUse of toolUses)]; [now] is the text
    of [Date.now()]. *)
Definition handleToolUse (now : string) (s : state) (singleToolUse : json) : run :=
  match singleToolUse with
  | JNull => {| st := s; out := []; threw := true |}
  | _ =>
      let toolCallId := or_else (prop singleToolUse "toolUseId") (JStr ("call_" +:+ now)) in
      let toolName := or_else (prop singleToolUse "name") (JStr "") in
      let toolInput := prop singleToolUse "input" in
      let isNewTool := negb (Map_has (seenToolIds s) toolCallId) in
      let '(s1, out1, toolIndex) :=
        if isNewTool
        then
          let toolIndex := toolCallIndex s in
          let s' :=
            {| buffer := buffer s; chunkIndex := chunkIndex s;
               endDetected := endDetected s; finishEmitted := finishEmitted s;
               hasToolCalls := hasToolCalls s;
               toolCallIndex := S (toolCallIndex s);
               seenToolIds := Map_set (seenToolIds s) toolCallId toolIndex;
               timers := timers s; closed := closed s; errored := errored s |} in
          let '(s'', o) :=
            emit s' (startChunk (chunkIndex s =? 0) toolIndex toolCallId toolName) in
          (s'', o, toolIndex)
        else (s, [], default 0 (Map_get (seenToolIds s) toolCallId)) in
      match toolInput with
      | None => {| st := s1; out := out1; threw := false |}
      | Some input =>
          let argumentsStr :=
            match input with
            | JStr str => Some str
            | JNull | JArr _ | JObj _ => Some (JSON_stringify input)
            | _ => None
            end in
          match argumentsStr with
          | None => {| st := s1; out := out1; threw := false |}
          | Some a =>
              let '(s2, o) := emit s1 (argsChunk toolIndex a) in
              {| st := s2; out := out1 ++ o; threw := false |}
          end
      end
  end.

Fixpoint handleToolUses (now : string) (s : state) (toolUses : list json) : run :=
  match toolUses with
  | [] => {| st := s; out := []; threw := false |}
  | t :: r =>
      let r1 := handleToolUse now s t in
      if threw r1 then r1
      else
        let r2 := handleToolUses now (st r1) r in
        {| st := st r2; out := out r1 ++ out r2; threw := threw r2 |}
  end.

Definition with_hasToolCalls (s : state) : state :=
  {| buffer := buffer s; chunkIndex := chunkIndex s;
     endDetected := endDetected s; finishEmitted := finishEmitted s;
     hasToolCalls := true; toolCallIndex := toolCallIndex s;
     seenToolIds := seenToolIds s; timers := timers s;
     closed := closed s; errored := errored s |}.

Definition with_finishEmitted (s : state) : state :=
  {| buffer := buffer s; chunkIndex := chunkIndex s;
     endDetected := endDetected s; finishEmitted := true;
     hasToolCalls := hasToolCalls s; toolCallIndex := toolCallIndex s;
     seenToolIds := seenToolIds s; timers := timers s;
     closed := closed s; errored := errored s |}.

Definition eventType (e : event) : string :=
  match headers e !! ":event-type" with
  | Some t => if String.eqb t "" then "" else t
  | None => ""
  end.

(** [event.payload?.content], kept when truthy. *)
Definition payloadContent (e : event) : option json :=
  match prop (payload e) "content" with
  | Some c => if truthy c then Some c else None
  | None => None
  end.

(** [Array.isArray(toolUse) ? toolUse : [toolUse]] *)
Definition toolUses_of (toolUse : json) : list json :=
  match toolUse with
  | JArr l => l
  | _ => [toolUse]
  end.

(** The body of the frame loop after [parseEventFrame] gave an event. *)
Definition handleEvent (now : string) (s : state) (e : event) : run :=
  let ty := eventType e in
  (* assistantResponseEvent *)
  let '(s1, o1) :=
    match String.eqb ty "assistantResponseEvent", payloadContent e with
    | true, Some c => emit s (contentChunk (chunkIndex s =? 0) c)
    | _, _ => (s, [])
    end in
  (* codeEvent *)
  let '(s2, o2) :=
    match String.eqb ty "codeEvent", payloadContent e with
    | true, Some c => emit s1 (contentChunk false c)
    | _, _ => (s1, [])
    end in
  (* toolUseEvent *)
  let r3 :=
    if String.eqb ty "toolUseEvent" && truthy (payload e)
    then
      handleToolUses now (with_hasToolCalls s2) (toolUses_of (payload e))
    else {| st := s2; out := []; threw := false |} in
  if threw r3 then {| st := st r3; out := o1 ++ o2 ++ out r3; threw := true |}
  else
    let s3 := st r3 in
    (* messageStopEvent *)
    let '(s4, o4) :=
      if String.eqb ty "messageStopEvent"
      then (with_finishEmitted s3, [Data (finishChunk s3)])
      else (s3, []) in
    (* meteringEvent, contextUsageEvent: set the 100 ms timer once *)
    let s5 :=
      if (String.eqb ty "meteringEvent" || String.eqb ty "contextUsageEvent")
         && negb (endDetected s4)
      then {| buffer := buffer s4; chunkIndex := chunkIndex s4;
              endDetected := true; finishEmitted := finishEmitted s4;
              hasToolCalls := hasToolCalls s4; toolCallIndex := toolCallIndex s4;
              seenToolIds := seenToolIds s4; timers := S (timers s4);
              closed := closed s4; errored := errored s4 |}
      else s4 in
    {| st := s5; out := o1 ++ o2 ++ out r3 ++ o4; threw := false |}.

Definition with_buffer (s : state) (b : list byte) : state :=
  {| buffer := b; chunkIndex := chunkIndex s;
     endDetected := endDetected s; finishEmitted := finishEmitted s;
     hasToolCalls := hasToolCalls s; toolCallIndex := toolCallIndex s;
     seenToolIds := seenToolIds s; timers := timers s;
     closed := closed s; errored := errored s |}.

(** One frame cut from the buffer: skipped when [parseEventFrame] gives
    [null] ([continue]), handled otherwise. *)
Definition handleFrame (now : string) (s : state) (eventData : list byte) : run :=
  match parseEventFrame eventData with
  | None => {| st := s; out := []; threw := false |}
  | Some e => handleEvent now s e
  end.

(** The [while (buffer.length >= 16)] loop; a round takes at least 16 bytes
    off the buffer, so [rounds] need not exceed its length. *)
Fixpoint frames (rounds : nat) (now : string) (s : state) : run :=
  match rounds with
  | 0 => {| st := s; out := []; threw := false |}
  | S rounds' =>
      if (len (buffer s) >=? 16)%Z
      then
        match getUint32 (buffer s) 0 with
        | Some totalLength =>
            if ((totalLength <? 16) || (len (buffer s) <? totalLength))%Z
            then {| st := s; out := []; threw := false |}
            else
              let eventData := slice (buffer s) 0 totalLength in
              let s1 := with_buffer s (skipn (Z.to_nat totalLength) (buffer s)) in
              let r1 := handleFrame now s1 eventData in
              if threw r1 then r1
              else
                let r2 := frames rounds' now (st r1) in
                {| st := st r2; out := out r1 ++ out r2; threw := threw r2 |}
        | None => {| st := s; out := []; threw := false |}
        end
      else {| st := s; out := []; threw := false |}
  end.

Definition with_closed (s : state) : state :=
  {| buffer := buffer s; chunkIndex := chunkIndex s;
     endDetected := endDetected s; finishEmitted := finishEmitted s;
     hasToolCalls := hasToolCalls s; toolCallIndex := toolCallIndex s;
     seenToolIds := seenToolIds s; timers := timers s;
     closed := true; errored := errored s |}.

Definition with_errored (s : state) : state :=
  {| buffer := buffer s; chunkIndex := chunkIndex s;
     endDetected := endDetected s; finishEmitted := finishEmitted s;
     hasToolCalls := hasToolCalls s; toolCallIndex := toolCallIndex s;
     seenToolIds := seenToolIds s; timers := timers s;
     closed := closed s; errored := true |}.

(** What [reader.read()] resolved to. *)
Inductive read : Type :=
| ReadDone
| ReadValue (value : list byte).

(** One call of [pull(controller)]: the new state and what it enqueued. *)
Definition pull (now : string) (s : state) (r : read) : state * list emitted :=
  match r with
  | ReadDone =>
      let '(s1, o1) :=
        if finishEmitted s then (s, [])
        else (with_finishEmitted s, [Data (finishChunk s)]) in
      (with_closed s1, o1 ++ [Done])
  | ReadValue value =>
      let s1 := with_buffer s (buffer s ++ value) in
      let r1 := frames (length (buffer s1)) now s1 in
      if threw r1 then (with_errored (st r1), out r1)
      else (st r1, out r1)
  end.

(** The callback of the 100 ms timer, whenever it runs. *)
Definition timerFires (s : state) : state * list emitted :=
  let s0 :=
    {| buffer := buffer s; chunkIndex := chunkIndex s;
       endDetected := endDetected s; finishEmitted := finishEmitted s;
       hasToolCalls := hasToolCalls s; toolCallIndex := toolCallIndex s;
       seenToolIds := seenToolIds s; timers := pred (timers s);
       closed := closed s; errored := errored s |} in
  if finishEmitted s0 then (s0, [])
  else (with_finishEmitted s0, [Data (finishChunk s0)]).

(** ** parseEventFrame always returns *)

Lemma at_index_nonneg data i b : at_index data i = Some b -> (0 <= b)%Z.
Proof.
  unfold at_index. destruct (i <? 0)%Z; [discriminate|].
  destruct (nth_error data (Z.to_nat i)); [|discriminate].
  intros [= <-]. apply N2Z.is_nonneg.
Qed.

Lemma bits_nonneg data i : (0 <= bits (at_index data i))%Z.
Proof.
  unfold bits. destruct (at_index data i) as [b|] eqn:E; simpl; [|lia].
  eapply at_index_nonneg; eassumption.
Qed.

Lemma at_index_some data i :
  (0 <= i < len data)%Z -> exists b, at_index data i = Some b.
Proof.
  intros [H0 H1]. unfold at_index, len in *.
  destruct (Z.ltb_spec i 0); [lia|].
  destruct (nth_error data (Z.to_nat i)) eqn:E; [eauto|].
  apply nth_error_None in E. lia.
Qed.

Lemma at_index_none data i : (len data <= i)%Z -> at_index data i = None.
Proof.
  intros H. unfold at_index, len in *.
  destruct (Z.ltb_spec i 0); [reflexivity|].
  destruct (nth_error data (Z.to_nat i)) eqn:E; [|reflexivity].
  assert (nth_error data (Z.to_nat i) <> None) as Hn by congruence.
  apply nth_error_Some in Hn. lia.
Qed.

(** A round moves the offset forward, so as many rounds as there are bytes
    left are enough. *)
Lemma parseHeaders_returns rounds data headerEnd offset hs :
  (len data - offset <= Z.of_nat rounds)%Z ->
  exists hs', parseHeaders rounds data headerEnd offset hs = Some hs'.
Proof.
  revert offset hs. induction rounds as [|rounds IH]; intros offset hs Hr.
  - simpl. destruct (Z.ltb_spec offset (len data)); [lia|].
    rewrite andb_false_r. eauto.
  - simpl.
    destruct ((offset <? headerEnd)%Z && (offset <? len data)%Z); [|eauto].
    pose proof (bits_nonneg data offset) as Hn.
    destruct (offset + 1 + bits (at_index data offset) >? len data)%Z; [eauto|].
    destruct (bool_decide _); [|eauto].
    set (valueLen := Z.lor _ _).
    destruct (_ >? len data)%Z; [eauto|].
    apply IH.
    assert (0 <= valueLen)%Z.
    { subst valueLen. apply Z.lor_nonneg. split.
      - apply Z.shiftl_nonneg, bits_nonneg.
      - apply bits_nonneg. }
    lia.
Qed.

Lemma getUint32_none data at_ :
  (0 <= at_)%Z ->
  (getUint32 data at_ = None <-> (len data < at_ + 4)%Z).
Proof.
  intros H0. unfold getUint32. split.
  - intros H. destruct (Z.ltb_spec (len data) (at_ + 4)); [assumption|]. exfalso.
    destruct (at_index_some data at_) as [b0 E0]; [lia|].
    destruct (at_index_some data (at_ + 1)) as [b1 E1]; [lia|].
    destruct (at_index_some data (at_ + 2)) as [b2 E2]; [lia|].
    destruct (at_index_some data (at_ + 3)) as [b3 E3]; [lia|].
    rewrite E0, E1, E2, E3 in H. discriminate.
  - intros H. rewrite (at_index_none data (at_ + 3)) by lia.
    destruct (at_index data at_), (at_index data (at_ + 1)),
      (at_index data (at_ + 2)); reflexivity.
Qed.

(** The three shapes of a payload. *)
Inductive payload_of (data : list byte) (headersLength : Z) : json -> Prop :=
| payload_null_empty :
    (len data - 4 <= 12 + headersLength)%Z ->
    payload_of data headersLength JNull
| payload_null_blank payloadStr :
    (len data - 4 > 12 + headersLength)%Z ->
    payloadStr = TextDecoder_decode (slice data (12 + headersLength) (len data - 4)) ->
    payloadStr = "" \/ String_trim payloadStr = "" ->
    payload_of data headersLength JNull
| payload_parsed payloadStr v :
    (len data - 4 > 12 + headersLength)%Z ->
    payloadStr = TextDecoder_decode (slice data (12 + headersLength) (len data - 4)) ->
    payloadStr <> "" -> String_trim payloadStr <> "" ->
    JSON_parse payloadStr = Some v ->
    payload_of data headersLength v
| payload_raw payloadStr :
    (len data - 4 > 12 + headersLength)%Z ->
    payloadStr = TextDecoder_decode (slice data (12 + headersLength) (len data - 4)) ->
    payloadStr <> "" -> String_trim payloadStr <> "" ->
    JSON_parse payloadStr = None ->
    payload_of data headersLength (JObj [("raw", JStr payloadStr)]).

Lemma parsePayload_cases data headersLength :
  payload_of data headersLength (parsePayload data headersLength).
Proof.
  unfold parsePayload.
  destruct (Z.gtb_spec (len data - 4) (12 + headersLength)) as [Hgt|Hle].
  - set (payloadStr := TextDecoder_decode _).
    destruct (String.eqb_spec payloadStr "") as [He|Hne]; simpl.
    + eapply payload_null_blank; [lia | reflexivity | now left].
    + destruct (String.eqb_spec (String_trim payloadStr) "") as [Ht|Hnt].
      * eapply payload_null_blank; [lia | reflexivity | now right].
      * destruct (JSON_parse payloadStr) as [v|] eqn:Hp.
        -- eapply payload_parsed; eauto; lia.
        -- eapply payload_raw; eauto; lia.
  - apply payload_null_empty. lia.
Qed.

Lemma slice_length data n :
  (0 <= n <= len data)%Z -> length (slice data 0 n) = Z.to_nat n.
Proof.
  intros [H0 Hn]. unfold slice, len in *. rewrite Z.sub_0_r.
  change (Z.to_nat 0) with 0. rewrite skipn_O, length_firstn. lia.
Qed.

(** C10, as amended.  [parseEventFrame] returns for every byte array.  It
    returns [null] exactly when the array has fewer than the 8 bytes the
    header length is read from; otherwise it returns string headers with a
    payload that is [null] when the payload region is empty or blank, the
    parsed JSON value when [JSON.parse] accepts the text, and [{raw: text}]
    when it does not.  The frame loop of the transform only cuts frames of
    at least 16 bytes, so there [parseEventFrame] never returns [null]: no
    frame is skipped, every frame that is cut is handled as an event,
    whatever it holds.  A total length below 16 is not skipped either: the
    loop leaves with the buffer as it is. *)
Theorem parseEventFrame_total :
  (forall data : list byte, parseEventFrame data = None <-> length data < 8)
  /\ (forall data : list byte,
        8 <= length data ->
        exists headersLength hs,
          getUint32 data 4 = Some headersLength
          /\ parseHeaders (length data) data (12 + headersLength) 12 ∅ = Some hs
          /\ parseEventFrame data
             = Some {| headers := hs; payload := parsePayload data headersLength |}
          /\ payload_of data headersLength (parsePayload data headersLength))
  /\ (forall now s rounds totalLength,
        getUint32 (buffer s) 0 = Some totalLength ->
        (16 <= totalLength <= len (buffer s))%Z ->
        exists e,
          parseEventFrame (slice (buffer s) 0 totalLength) = Some e
          /\ frames (S rounds) now s
             = let r1 :=
                 handleEvent now
                   (with_buffer s (skipn (Z.to_nat totalLength) (buffer s))) e in
               if threw r1 then r1
               else
                 let r2 := frames rounds now (st r1) in
                 {| st := st r2; out := out r1 ++ out r2; threw := threw r2 |})
  /\ (forall now s rounds totalLength,
        getUint32 (buffer s) 0 = Some totalLength ->
        (totalLength < 16)%Z ->
        frames rounds now s = {| st := s; out := []; threw := false |}).
Proof.
  assert (Hnone : forall data, getUint32 data 4 = None <-> length data < 8).
  { intros data. rewrite (getUint32_none data 4) by lia. unfold len. lia. }
  assert (H1 : forall data, parseEventFrame data = None <-> length data < 8).
  { intros data. unfold parseEventFrame. rewrite <- Hnone.
    destruct (getUint32 data 4); split; congruence. }
  split; [exact H1|]. split; [|split].
  - intros data Hlen.
    destruct (getUint32 data 4) as [headersLength|] eqn:E;
      [| apply Hnone in E; lia].
    destruct (parseHeaders_returns (length data) data (12 + headersLength) 12 ∅)
      as [hs Hhs]; [unfold len; lia|].
    exists headersLength, hs. repeat split; try assumption.
    + unfold parseEventFrame. rewrite E, Hhs. reflexivity.
    + apply parsePayload_cases.
  - intros now s rounds totalLength Hg [H16 Hle].
    destruct (parseEventFrame (slice (buffer s) 0 totalLength)) as [e|] eqn:Ep.
    + exists e. split; [reflexivity|]. cbn [frames].
      destruct (Z.geb_spec (len (buffer s)) 16); [|lia].
      rewrite Hg.
      destruct (Z.ltb_spec totalLength 16); [lia|].
      destruct (Z.ltb_spec (len (buffer s)) totalLength); [lia|].
      cbn [orb]. unfold handleFrame. rewrite Ep. reflexivity.
    + apply H1 in Ep. rewrite slice_length in Ep by lia. lia.
  - intros now s rounds totalLength Hg Hlt.
    destruct rounds as [|rounds]; [reflexivity|]. cbn [frames].
    destruct (len (buffer s) >=? 16)%Z; [|reflexivity].
    rewrite Hg. destruct (Z.ltb_spec totalLength 16); [reflexivity | lia].
Qed.

(** ** Finish chunks *)


(** ** Tool calls *)





(** ** The stream as a whole

    The frame loop is the only code that reads or writes [buffer]; what
    handles a frame passes it on as it is. *)
Definition rebuffer (b : list byte) (r : run) : run :=
  {| st := with_buffer (st r) b; out := out r; threw := threw r |}.

Lemma handleToolUse_buffer now s b t :
  handleToolUse now (with_buffer s b) t = rebuffer b (handleToolUse now s t).
Proof.
  unfold handleToolUse, rebuffer.
  destruct t; try reflexivity;
    cbn [with_buffer seenToolIds toolCallIndex chunkIndex];
    match goal with
    | |- context [Map_has ?m ?k] => destruct (Map_has m k)
    end; cbn [negb emit];
    match goal with
    | |- context [prop ?v "input"] => destruct (prop v "input") as [[]|]
    end; reflexivity.
Qed.

Lemma handleToolUses_buffer now s b l :
  handleToolUses now (with_buffer s b) l = rebuffer b (handleToolUses now s l).
Proof.
  revert s. induction l as [|t l IH]; intros s; [reflexivity|].
  cbn [handleToolUses]. rewrite handleToolUse_buffer.
  cbn [rebuffer threw st out].
  destruct (threw (handleToolUse now s t)); [reflexivity|].
  rewrite IH. reflexivity.
Qed.

Ltac fields :=
  cbv beta iota delta
      [with_buffer with_hasToolCalls with_finishEmitted with_closed with_errored
       emit rebuffer st out threw
       buffer chunkIndex endDetected finishEmitted hasToolCalls toolCallIndex
       seenToolIds timers closed errored].

Lemma handleEvent_buffer now s b e :
  handleEvent now (with_buffer s b) e = rebuffer b (handleEvent now s e).
Proof.
  destruct s as [bf ci ed fe ht tci seen tm cl er].
  unfold handleEvent.
  generalize (eventType e) (payloadContent e) (toolUses_of (payload e))
    (truthy (payload e)).
  intros ty pc tus tp. fields.
  assert (Htu : forall s0,
             handleToolUses now (with_buffer s0 b) tus
             = rebuffer b (handleToolUses now s0 tus))
    by (intros; apply handleToolUses_buffer).
  destruct (String.eqb ty "assistantResponseEvent"), pc as [c|],
    (String.eqb ty "codeEvent"); fields;
    (destruct (String.eqb ty "toolUseEvent" && tp);
     [ match goal with
       | |- context [handleToolUses now ?X tus] =>
           change X with (with_buffer (with_buffer X bf) b); rewrite Htu
       end; clear Htu; fields;
       match goal with
       | |- context [handleToolUses now ?X tus] =>
           destruct (handleToolUses now X tus) as [[] o3 []]
       end
     | ]); fields;
    destruct (String.eqb ty "messageStopEvent"); fields;
    destruct ((String.eqb ty "meteringEvent" || String.eqb ty "contextUsageEvent"));
    fields; try reflexivity;
    match goal with
    | |- context [negb ?x] => destruct x
    end; reflexivity.
Qed.

Lemma handleFrame_buffer now s b d :
  handleFrame now (with_buffer s b) d = rebuffer b (handleFrame now s d).
Proof.
  unfold handleFrame. destruct (parseEventFrame d); [apply handleEvent_buffer|].
  reflexivity.
Qed.

Lemma with_buffer_same s : with_buffer s (buffer s) = s.
Proof. now destruct s. Qed.

Lemma with_buffer_twice s b b' : with_buffer (with_buffer s b) b' = with_buffer s b'.
Proof. reflexivity. Qed.

Lemma handleFrame_keeps_buffer now s d : buffer (st (handleFrame now s d)) = buffer s.
Proof.
  rewrite <- (with_buffer_same s) at 1. rewrite handleFrame_buffer. reflexivity.
Qed.

Lemma run_eta (r : run) : {| st := st r; out := out r; threw := threw r |} = r.
Proof. now destruct r. Qed.

Lemma at_index_app x b i :
  (i < len x)%Z -> at_index (x ++ b) i = at_index x i.
Proof.
  intros Hi. unfold at_index. destruct (i <? 0)%Z eqn:E; [reflexivity|].
  apply Z.ltb_ge in E. f_equal. apply nth_error_app1. unfold len in Hi. lia.
Qed.

Lemma getUint32_app x b i :
  (i + 3 < len x)%Z -> getUint32 (x ++ b) i = getUint32 x i.
Proof.
  intros Hi. unfold getUint32. now rewrite !at_index_app by lia.
Qed.

Lemma len_app x b : len (x ++ b) = (len x + len b)%Z.
Proof. unfold len. rewrite length_app. lia. Qed.

Lemma len_nonneg x : (0 <= len x)%Z.
Proof. unfold len. lia. Qed.

(** The frame loop does not run out of rounds: a round takes at least 16
    bytes off the buffer. *)
Lemma frames_fuel now n m s :
  length (buffer s) <= n -> length (buffer s) <= m ->
  frames n now s = frames m now s.
Proof.
  revert m s. induction n as [|n IH]; intros m s Hn Hm.
  - assert (Hb : len (buffer s) = 0%Z) by (unfold len; lia).
    destruct m; cbn [frames]; [reflexivity|]. now rewrite Hb.
  - destruct m as [|m].
    + assert (Hb : len (buffer s) = 0%Z) by (unfold len; lia).
      cbn [frames]. now rewrite Hb.
    + cbn [frames].
      destruct (len (buffer s) >=? 16)%Z eqn:E16; [|reflexivity].
      destruct (getUint32 (buffer s) 0) as [totalLength|]; [|reflexivity].
      destruct ((totalLength <? 16) || (len (buffer s) <? totalLength))%Z eqn:Ec;
        [reflexivity|].
      apply orb_false_iff in Ec. destruct Ec as [Ec1 Ec2].
      apply Z.ltb_ge in Ec1, Ec2.
      set (r1 := handleFrame now _ _).
      destruct (threw r1) eqn:Et; [reflexivity|].
      assert (Hlen : length (buffer (st r1)) + 16 <= length (buffer s)).
      { subst r1. rewrite handleFrame_keeps_buffer. cbn [with_buffer buffer].
        rewrite length_skipn. unfold len in Ec2. lia. }
      rewrite (IH m (st r1)) by lia. reflexivity.
Qed.

(** ** A stream of reads

    What happens to the stream after [transformEventStreamToSSE] returned it:
    the consumer makes [pull] run, each time with what [reader.read()] then
    resolves to and with the clock of that moment, and the 100 ms timers run
    their callback in between. *)
Inductive step : Type :=
| Pulled (now : string) (r : read)
| TimerFired.

Definition perform (s : state) (x : step) : state * list emitted :=
  match x with
  | Pulled now r => pull now s r
  | TimerFired => timerFires s
  end.

(** The state after the steps and what each of them enqueued. *)
Fixpoint perform_all (s : state) (xs : list step) : state * list (list emitted) :=
  match xs with
  | [] => (s, [])
  | x :: r =>
      let '(s1, o1) := perform s x in
      let '(s2, os) := perform_all s1 r in
      (s2, o1 :: os)
  end.

Definition enqueued (xs : list step) : list emitted :=
  concat (snd (perform_all initial xs)).

(** X2.  A length field below 16 at the head of the buffer stops the frame
    loop for good: the loop leaves at once, nothing is taken off the
    buffer, and every later read is appended behind the same head, so no
    read enqueues anything any more, however well-formed the bytes that
    follow. *)
Theorem short_length_stalls (s : state) (totalLength : Z) (reads : list (string * list byte)) :
  (16 <= len (buffer s))%Z ->
  getUint32 (buffer s) 0 = Some totalLength ->
  (totalLength < 16)%Z ->
  perform_all s (map (fun r => Pulled (fst r) (ReadValue (snd r))) reads)
  = (with_buffer s (buffer s ++ concat (map snd reads)), map (fun _ => []) reads).
Proof.
  revert s. induction reads as [|[now value] reads IH]; intros s H16 Hg Ht.
  - cbn [map concat perform_all]. now rewrite app_nil_r, with_buffer_same.
  - cbn [map perform_all perform fst snd concat].
    assert (Hp : pull now s (ReadValue value)
                 = (with_buffer s (buffer s ++ value), [])).
    { cbn [pull]. set (s1 := with_buffer s (buffer s ++ value)).
      assert (Hf : forall n, frames n now s1 = {| st := s1; out := []; threw := false |}).
      { intros [|n]; [reflexivity|]. cbn [frames].
        subst s1. cbn [with_buffer buffer]. rewrite len_app.
        destruct (Z.geb_spec (len (buffer s) + len value) 16); [|reflexivity].
        rewrite getUint32_app, Hg by lia.
        destruct (Z.ltb_spec totalLength 16); [reflexivity | lia]. }
      rewrite Hf. reflexivity. }
    rewrite Hp.
    rewrite (IH (with_buffer s (buffer s ++ value))); cbn [with_buffer buffer].
    + now rewrite <- app_assoc.
    + rewrite len_app. pose proof (len_nonneg value). lia.
    + rewrite getUint32_app by lia. exact Hg.
    + exact Ht.
Qed.
(** ** Invariants of a stream

    Everything the transform enqueues and every change of the state it makes
    is one of a few kinds.  A relation [P s o s'] between a state, what is
    enqueued and the state after it that holds of each kind, and that can be
    chained, holds of whole streams. *)

(** The fields other than the buffer, the timer count and the flags
    [endDetected], [closed] and [errored]. *)
Definition same_core (s s' : state) : Prop :=
  chunkIndex s = chunkIndex s' /\ finishEmitted s = finishEmitted s'
  /\ hasToolCalls s = hasToolCalls s' /\ toolCallIndex s = toolCallIndex s'
  /\ seenToolIds s = seenToolIds s'.

(** The state after [toolIndex = state.toolCallIndex++] and
    [state.seenToolIds.set(toolCallId, toolIndex)]. *)
Definition registered (s : state) (toolCallId : json) : state :=
  {| buffer := buffer s; chunkIndex := chunkIndex s;
     endDetected := endDetected s; finishEmitted := finishEmitted s;
     hasToolCalls := hasToolCalls s;
     toolCallIndex := S (toolCallIndex s);
     seenToolIds := Map_set (seenToolIds s) toolCallId (toolCallIndex s);
     timers := timers s; closed := closed s; errored := errored s |}.

Section Along.

Variable P : state -> list emitted -> state -> Prop.

Hypothesis P_refl : forall s, P s [] s.
Hypothesis P_trans :
  forall s o1 s1 o2 s2, P s o1 s1 -> P s1 o2 s2 -> P s (o1 ++ o2) s2.
Hypothesis P_quiet : forall s s', same_core s s' -> P s [] s'.
Hypothesis P_tools : forall s, P s [] (with_hasToolCalls s).
Hypothesis P_content :
  forall s c, P s [Data (contentChunk (chunkIndex s =? 0) c)]
                (fst (emit s (contentChunk (chunkIndex s =? 0) c))).
Hypothesis P_code :
  forall s c, P s [Data (contentChunk false c)] (fst (emit s (contentChunk false c))).
Hypothesis P_start :
  forall s toolCallId toolName,
    hasToolCalls s = true -> Map_has (seenToolIds s) toolCallId = false ->
    P s [Data (startChunk (chunkIndex s =? 0) (toolCallIndex s) toolCallId toolName)]
      (fst (emit (registered s toolCallId)
              (startChunk (chunkIndex s =? 0) (toolCallIndex s) toolCallId toolName))).
Hypothesis P_args :
  forall s toolIndex a,
    hasToolCalls s = true ->
    (exists k, In (k, toolIndex) (seenToolIds s)) ->
    P s [Data (argsChunk toolIndex a)] (fst (emit s (argsChunk toolIndex a))).
Hypothesis P_finish :
  forall s, P s [Data (finishChunk s)] (with_finishEmitted s).
Hypothesis P_done : forall s, P s [Done] s.

Lemma P_before s s1 o s2 : same_core s s1 -> P s1 o s2 -> P s o s2.
Proof.
  intros H0 H1. change o with ([] ++ o). eapply P_trans; [|exact H1].
  now apply P_quiet.
Qed.

Lemma P_after s o s1 s2 : P s o s1 -> same_core s1 s2 -> P s o s2.
Proof.
  intros H0 H1. rewrite <- (app_nil_r o). eapply P_trans; [exact H0|].
  now apply P_quiet.
Qed.

Lemma Map_get_In m k i : Map_get m k = Some i -> exists k', In (k', i) m.
Proof.
  induction m as [|[k' i'] m IH]; cbn [Map_get]; [discriminate|].
  destruct (same_value_zero k' k).
  - intros [= ->]. exists k'. now left.
  - intros H. destruct (IH H) as [k0 H0]. exists k0. now right.
Qed.

Lemma handleToolUse_flag now s t :
  hasToolCalls (st (handleToolUse now s t)) = hasToolCalls s.
Proof.
  unfold handleToolUse.
  destruct t; try reflexivity;
    match goal with
    | |- context [Map_has ?m ?k] => destruct (Map_has m k)
    end; cbn [negb];
    match goal with
    | |- context [prop ?v "input"] => destruct (prop v "input") as [[]|]
    end; reflexivity.
Qed.

Lemma along_handleToolUse now s t :
  hasToolCalls s = true ->
  P s (out (handleToolUse now s t)) (st (handleToolUse now s t)).
Proof.
  intros Hflag. unfold handleToolUse.
  destruct t as [| b | r | str | l | fs]; [apply P_refl | ..];
    set (toolCallId := or_else _ (JStr ("call_" +:+ now)));
    set (toolName := or_else _ (JStr ""));
    (assert (Hhas : Map_get (seenToolIds s) toolCallId = None ->
                    Map_has (seenToolIds s) toolCallId = false)
       by (unfold Map_has; now intros ->);
     unfold Map_has;
     destruct (Map_get (seenToolIds s) toolCallId) as [i|] eqn:Hget; cbn [negb];
     [ cbn [default];
       match goal with
       | |- context [prop ?v "input"] => destruct (prop v "input") as [[]|]
       end; cbn [st out];
       first [ apply P_refl
             | change (@nil emitted ++ ?o) with o; apply P_args;
               [exact Hflag | now apply (Map_get_In _ toolCallId)] ]
     | pose proof (P_start s toolCallId toolName Hflag (Hhas eq_refl)) as Hs;
       assert (Hin : exists k, In (k, toolCallIndex s)
                                 (seenToolIds
                                    (fst (emit (registered s toolCallId)
                                            (startChunk (chunkIndex s =? 0)
                                               (toolCallIndex s) toolCallId toolName)))))
         by (exists toolCallId; cbn; unfold Map_set; apply in_or_app; right; now left);
       match goal with
       | |- context [prop ?v "input"] => destruct (prop v "input") as [[]|]
       end; cbn [st out];
       first [ exact Hs
             | eapply (P_trans _ [_] _ [_]);
               [exact Hs | apply P_args; [exact Hflag | exact Hin]] ] ]).
Qed.

Lemma along_handleToolUses now s l :
  hasToolCalls s = true ->
  P s (out (handleToolUses now s l)) (st (handleToolUses now s l)).
Proof.
  revert s. induction l as [|t l IH]; intros s Hflag; [apply P_refl|].
  cbn [handleToolUses].
  pose proof (along_handleToolUse now s t Hflag) as H1.
  destruct (threw (handleToolUse now s t)); [exact H1|].
  cbn [st out]. eapply P_trans; [exact H1 | apply IH].
  now rewrite handleToolUse_flag.
Qed.

Lemma along_handleEvent now s e :
  P s (out (handleEvent now s e)) (st (handleEvent now s e)).
Proof.
  unfold handleEvent.
  generalize (eventType e) (payloadContent e) (toolUses_of (payload e))
    (truthy (payload e)).
  intros ty pc tus tp.
  (* the chunk of an assistantResponseEvent *)
  set (a1 := match String.eqb ty "assistantResponseEvent", pc with
             | true, Some c => emit s (contentChunk (chunkIndex s =? 0) c)
             | _, _ => (s, [])
             end).
  assert (H1 : P s (snd a1) (fst a1)).
  { subst a1. destruct (String.eqb ty "assistantResponseEvent"), pc as [c|];
      try apply P_refl. apply P_content. }
  destruct a1 as [s1 o1]. cbn [fst snd] in H1.
  (* the chunk of a codeEvent *)
  set (a2 := match String.eqb ty "codeEvent", pc with
             | true, Some c => emit s1 (contentChunk false c)
             | _, _ => (s1, [])
             end).
  assert (H2 : P s1 (snd a2) (fst a2)).
  { subst a2. destruct (String.eqb ty "codeEvent"), pc as [c|];
      try apply P_refl. apply P_code. }
  destruct a2 as [s2 o2]. cbn [fst snd] in H2.
  (* the chunks of a toolUseEvent *)
  set (r3 := if String.eqb ty "toolUseEvent" && tp
             then handleToolUses now (with_hasToolCalls s2) tus
             else {| st := s2; out := []; threw := false |}).
  assert (H3 : P s2 (out r3) (st r3)).
  { subst r3. destruct (String.eqb ty "toolUseEvent" && tp); [|apply P_refl].
    change (out (handleToolUses now (with_hasToolCalls s2) tus))
      with ([] ++ out (handleToolUses now (with_hasToolCalls s2) tus)).
    eapply P_trans; [apply P_tools | now apply along_handleToolUses]. }
  clearbody r3.
  assert (H123 : P s (o1 ++ o2 ++ out r3) (st r3)).
  { eapply P_trans; [exact H1|]. eapply P_trans; [exact H2 | exact H3]. }
  destruct (threw r3); cbn [st out]; [exact H123|].
  set (a4 := if String.eqb ty "messageStopEvent"
             then (with_finishEmitted (st r3), [Data (finishChunk (st r3))])
             else (st r3, [])).
  assert (H4 : P (st r3) (snd a4) (fst a4)).
  { subst a4. destruct (String.eqb ty "messageStopEvent"); [apply P_finish | apply P_refl]. }
  destruct a4 as [s4 o4]. cbn [fst snd] in H4. cbn [st out].
  assert (H5 : P s4 []
                 (if (String.eqb ty "meteringEvent" || String.eqb ty "contextUsageEvent")
                     && negb (endDetected s4)
                  then {| buffer := buffer s4; chunkIndex := chunkIndex s4;
                          endDetected := true; finishEmitted := finishEmitted s4;
                          hasToolCalls := hasToolCalls s4;
                          toolCallIndex := toolCallIndex s4;
                          seenToolIds := seenToolIds s4; timers := S (timers s4);
                          closed := closed s4; errored := errored s4 |}
                  else s4)).
  { destruct (_ && _); [|apply P_refl]. apply P_quiet. repeat split. }
  replace (o1 ++ o2 ++ out r3 ++ o4) with ((o1 ++ o2 ++ out r3) ++ o4 ++ [])
    by (now rewrite app_nil_r, <- !app_assoc).
  eapply P_trans; [exact H123|]. eapply P_trans; [exact H4 | exact H5].
Qed.

Lemma along_handleFrame now s d :
  P s (out (handleFrame now s d)) (st (handleFrame now s d)).
Proof.
  unfold handleFrame. destruct (parseEventFrame d); [apply along_handleEvent|].
  apply P_refl.
Qed.

Lemma along_frames now n s :
  P s (out (frames n now s)) (st (frames n now s)).
Proof.
  revert s. induction n as [|n IH]; intros s; [apply P_refl|].
  cbn [frames].
  destruct (len (buffer s) >=? 16)%Z; [|apply P_refl].
  destruct (getUint32 (buffer s) 0) as [totalLength|]; [|apply P_refl].
  destruct ((totalLength <? 16) || (len (buffer s) <? totalLength))%Z; [apply P_refl|].
  set (s1 := with_buffer s _). set (d := slice _ _ _).
  assert (H1 : P s (out (handleFrame now s1 d)) (st (handleFrame now s1 d))).
  { eapply P_before; [|apply along_handleFrame]. repeat split. }
  destruct (threw (handleFrame now s1 d)); [exact H1|].
  cbn [st out]. eapply P_trans; [exact H1 | apply IH].
Qed.

Lemma along_pull now s r : P s (snd (pull now s r)) (fst (pull now s r)).
Proof.
  destruct r as [|value]; cbn [pull].
  - destruct (finishEmitted s); cbn [fst snd].
    + cbn [app]. eapply P_after; [apply P_done|]. repeat split.
    + eapply P_trans; [apply P_finish|].
      eapply P_after; [apply P_done|]. repeat split.
  - set (s1 := with_buffer s (buffer s ++ value)).
    pose proof (along_frames now (length (buffer s1)) s1) as H1.
    assert (H0 : same_core s s1) by repeat split.
    destruct (threw (frames (length (buffer s1)) now s1)); cbn [fst snd].
    + eapply P_before; [exact H0|]. eapply P_after; [exact H1|]. repeat split.
    + eapply P_before; [exact H0 | exact H1].
Qed.

Lemma along_timerFires s : P s (snd (timerFires s)) (fst (timerFires s)).
Proof.
  unfold timerFires.
  set (s0 := {| buffer := buffer s; chunkIndex := chunkIndex s;
                endDetected := endDetected s; finishEmitted := finishEmitted s;
                hasToolCalls := hasToolCalls s; toolCallIndex := toolCallIndex s;
                seenToolIds := seenToolIds s; timers := pred (timers s);
                closed := closed s; errored := errored s |}).
  assert (H0 : same_core s s0) by repeat split.
  change (finishEmitted s0) with (finishEmitted s).
  destruct (finishEmitted s) eqn:E; cbn [fst snd].
  - now apply P_quiet.
  - eapply P_before; [exact H0 | apply P_finish].
Qed.

Lemma along_perform s x : P s (snd (perform s x)) (fst (perform s x)).
Proof. destruct x; [apply along_pull | apply along_timerFires]. Qed.

Lemma along_perform_all s xs :
  P s (concat (snd (perform_all s xs))) (fst (perform_all s xs)).
Proof.
  revert s. induction xs as [|x xs IH]; intros s; [apply P_refl|].
  cbn [perform_all].
  pose proof (along_perform s x) as H1.
  destruct (perform s x) as [s1 o1]. cbn [fst snd] in H1.
  specialize (IH s1). destruct (perform_all s1 xs) as [s2 os].
  cbn [fst snd concat] in *. eapply P_trans; eassumption.
Qed.

End Along.
(** ** What the enqueued chunks look like *)

(** [chunk.choices[0].delta] of what was enqueued. *)
Definition delta_of (e : emitted) : option json :=
  match e with
  | Data c =>
      match prop c "choices" with
      | Some (JArr (choice :: _)) => prop choice "delta"
      | _ => None
      end
  | Done => None
  end.

(** The delta names the role. *)
Definition has_role (e : emitted) : bool :=
  match delta_of e with
  | Some (JObj fs) => has_key "role" fs
  | _ => false
  end.

(** The delta is not empty: the chunk carries content or a tool call. *)
Definition carries (e : emitted) : bool :=
  match delta_of e with
  | Some (JObj (_ :: _)) => true
  | _ => false
  end.

(** The delta is empty: a finish chunk. *)
Definition is_finish (e : emitted) : bool :=
  match delta_of e with
  | Some (JObj []) => true
  | _ => false
  end.

(** [delta.tool_calls[0]] *)
Definition tool_call_of (e : emitted) : option json :=
  match delta_of e with
  | Some d =>
      match prop d "tool_calls" with
      | Some (JArr (tc :: _)) => Some tc
      | _ => None
      end
  | None => None
  end.

(** The index of a start chunk (a tool call with an [id]) and the index of
    an arguments chunk (a tool call without). *)
Definition start_index (e : emitted) : option json :=
  match tool_call_of e with
  | Some tc => if has_own tc "id" then prop tc "index" else None
  | None => None
  end.

Definition args_index (e : emitted) : option json :=
  match tool_call_of e with
  | Some tc => if has_own tc "id" then None else prop tc "index"
  | None => None
  end.

Lemma delta_of_chunk delta finish_reason :
  delta_of (Data (chunk delta finish_reason)) = Some delta.
Proof. reflexivity. Qed.

Lemma has_role_content withRole c :
  has_role (Data (contentChunk withRole c)) = withRole.
Proof. unfold has_role, contentChunk. rewrite delta_of_chunk. now destruct withRole. Qed.

Lemma has_role_start withRole i id nm :
  has_role (Data (startChunk withRole i id nm)) = withRole.
Proof. unfold has_role, startChunk. rewrite delta_of_chunk. now destruct withRole. Qed.

Lemma has_role_args i a : has_role (Data (argsChunk i a)) = false.
Proof. reflexivity. Qed.

Lemma has_role_finish s : has_role (Data (finishChunk s)) = false.
Proof. reflexivity. Qed.

Lemma carries_content withRole c : carries (Data (contentChunk withRole c)) = true.
Proof. unfold carries, contentChunk. rewrite delta_of_chunk. now destruct withRole. Qed.

Lemma carries_start withRole i id nm : carries (Data (startChunk withRole i id nm)) = true.
Proof. unfold carries, startChunk. rewrite delta_of_chunk. now destruct withRole. Qed.

Lemma carries_args i a : carries (Data (argsChunk i a)) = true.
Proof. reflexivity. Qed.

Lemma carries_finish s : carries (Data (finishChunk s)) = false.
Proof. reflexivity. Qed.

(** ** The role

    [role_from n o]: reading [o] after [n] chunks that carry something, a
    chunk names the role only if no chunk before it carries anything. *)
Fixpoint role_from (n : nat) (o : list emitted) : Prop :=
  match o with
  | [] => True
  | e :: r =>
      (has_role e = true -> n = 0)
      /\ role_from (n + (if carries e then 1 else 0)) r
  end.

Definition carrying (o : list emitted) : nat := length (List.filter carries o).

Lemma role_from_app n o1 o2 :
  role_from n o1 -> role_from (n + carrying o1) o2 -> role_from n (o1 ++ o2).
Proof.
  revert n. induction o1 as [|e o1 IH]; intros n H1 H2.
  - unfold carrying in H2. cbn in H2. now rewrite Nat.add_0_r in H2.
  - cbn [app role_from] in *. destruct H1 as [He H1]. split; [exact He|].
    apply IH; [exact H1|].
    unfold carrying in *. cbn [List.filter] in H2.
    destruct (carries e); cbn [length] in H2.
    + now replace (n + 1 + length (List.filter carries o1))
        with (n + S (length (List.filter carries o1))) by lia.
    + now rewrite Nat.add_0_r.
Qed.

Lemma carrying_app o1 o2 : carrying (o1 ++ o2) = carrying o1 + carrying o2.
Proof. unfold carrying. now rewrite List.filter_app, length_app. Qed.

Definition role_kept (s : state) (o : list emitted) (s' : state) : Prop :=
  role_from (chunkIndex s) o /\ chunkIndex s' = chunkIndex s + carrying o.

Lemma role_kept_all s xs :
  role_kept s (concat (snd (perform_all s xs))) (fst (perform_all s xs)).
Proof.
  apply along_perform_all; unfold role_kept.
  - intros s0. split; [exact I | cbn; lia].
  - intros s0 o1 s1 o2 s2 [H1 E1] [H2 E2]. split.
    + apply role_from_app; [exact H1 | now rewrite <- E1].
    + rewrite carrying_app. lia.
  - intros s0 s' (E & _). split; [exact I | cbn; lia].
  - intros s0. split; [exact I | cbn; lia].
  - intros s0 c. cbn [role_from emit fst chunkIndex]. unfold carrying.
    cbn [List.filter]. rewrite has_role_content, carries_content. cbn [length].
    split; [split; [|exact I] | lia].
    intros H. now apply Nat.eqb_eq.
  - intros s0 c. cbn [role_from emit fst chunkIndex]. unfold carrying.
    cbn [List.filter]. rewrite has_role_content, carries_content. cbn [length].
    split; [split; [discriminate | exact I] | lia].
  - intros s0 id nm _ _. cbn [role_from emit fst chunkIndex registered]. unfold carrying.
    cbn [List.filter]. rewrite has_role_start, carries_start. cbn [length].
    split; [split; [|exact I] | lia].
    intros H. now apply Nat.eqb_eq.
  - intros s0 i a _ _. cbn [role_from emit fst chunkIndex]. unfold carrying.
    cbn [List.filter]. rewrite has_role_args, carries_args. cbn [length].
    split; [split; [discriminate | exact I] | lia].
  - intros s0. cbn [role_from with_finishEmitted chunkIndex]. unfold carrying.
    cbn [List.filter]. rewrite has_role_finish, carries_finish. cbn [length].
    split; [split; [discriminate | exact I] | lia].
  - intros s0. cbn. split; [split; [discriminate | exact I] | lia].
Qed.

Lemma role_from_split n o pre e post :
  role_from n o -> o = pre ++ e :: post -> has_role e = true ->
  n = 0 /\ carrying pre = 0.
Proof.
  revert n o. induction pre as [|x pre IH]; intros n o H -> He.
  - cbn [app role_from] in H. split; [now apply H | reflexivity].
  - cbn [app role_from] in H. destruct H as [_ H].
    destruct (IH _ _ H eq_refl He) as [H0 Hc].
    unfold carrying in *. cbn [List.filter].
    destruct (carries x); cbn [length]; lia.
Qed.

(** X3.  In the chunks of a stream, whatever is read and whenever the timers
    run, the role is named at most once, and only by the first chunk that
    carries content or a tool call: no chunk before a chunk with the role
    has a delta that is not empty, and no chunk after it names the role. *)
Theorem role_only_in_first_carrying_chunk (xs : list step) (pre post : list emitted)
        (e : emitted) :
  enqueued xs = pre ++ e :: post ->
  has_role e = true ->
  Forall (fun x => carries x = false) pre
  /\ Forall (fun x => has_role x = false) post.
Proof.
  intros Hsplit He.
  destruct (role_kept_all initial xs) as [Hr _].
  fold (enqueued xs) in Hr. cbn [initial chunkIndex] in Hr.
  split.
  - destruct (role_from_split 0 _ pre e post Hr Hsplit He) as [_ Hc].
    unfold carrying in Hc. apply length_zero_iff_nil in Hc.
    apply List.Forall_forall. intros x Hx.
    destruct (carries x) eqn:Ex; [|reflexivity].
    assert (Hin : In x (List.filter carries pre)) by (apply List.filter_In; now split).
    rewrite Hc in Hin. destruct Hin.
  - apply List.Forall_forall. intros x Hx.
    destruct (has_role x) eqn:Ex; [|reflexivity]. exfalso.
    apply in_split in Hx. destruct Hx as (p1 & p2 & ->).
    assert (Hs2 : enqueued xs = (pre ++ e :: p1) ++ x :: p2)
      by (rewrite Hsplit, <- app_assoc; reflexivity).
    destruct (role_from_split 0 _ _ x p2 Hr Hs2 Ex) as [_ Hc].
    rewrite carrying_app in Hc. unfold carrying in Hc. cbn [List.filter] in Hc.
    assert (Hce : carries e = true).
    { unfold has_role in He. unfold carries.
      destruct (delta_of e) as [[| | | | |[|kv fs]]|]; try discriminate He.
      reflexivity. }
    rewrite Hce in Hc. cbn [length] in Hc. lia.
Qed.
(** ** Tool-call indexes *)

Definition index_value (i : nat) : json := JNum (index_name i).

Lemma start_index_start withRole i id nm :
  start_index (Data (startChunk withRole i id nm)) = Some (index_value i).
Proof.
  unfold start_index, tool_call_of, startChunk. rewrite delta_of_chunk.
  now destruct withRole.
Qed.

Lemma args_index_start withRole i id nm :
  args_index (Data (startChunk withRole i id nm)) = None.
Proof.
  unfold args_index, tool_call_of, startChunk. rewrite delta_of_chunk.
  now destruct withRole.
Qed.

Lemma tool_call_of_content withRole c :
  tool_call_of (Data (contentChunk withRole c)) = None.
Proof.
  unfold tool_call_of, contentChunk. rewrite delta_of_chunk. now destruct withRole.
Qed.

(** The indexes of the start chunks among [o], in order. *)
Definition start_indexes (o : list emitted) : list json :=
  flat_map (fun e => match start_index e with Some j => [j] | None => [] end) o.

(** [tools_from n o n']: reading [o] after [n] start chunks, each start chunk
    carries the number of start chunks before it, each arguments chunk the
    index of a start chunk before it, and [n'] start chunks are there in the
    end. *)
Fixpoint tools_from (n : nat) (o : list emitted) (n' : nat) : Prop :=
  match o with
  | [] => n' = n
  | e :: r =>
      match start_index e with
      | Some j => j = index_value n /\ tools_from (S n) r n'
      | None =>
          (forall j, args_index e = Some j -> exists i, i < n /\ j = index_value i)
          /\ tools_from n r n'
      end
  end.

Lemma tools_from_app n o1 m o2 k :
  tools_from n o1 m -> tools_from m o2 k -> tools_from n (o1 ++ o2) k.
Proof.
  revert n. induction o1 as [|e o1 IH]; intros n H1 H2.
  - cbn [tools_from] in H1. subst m. exact H2.
  - cbn [app tools_from] in *.
    destruct (start_index e); destruct H1 as [He H1]; (split; [exact He|]);
      now apply IH.
Qed.

Lemma tools_from_spec o : forall n n',
  tools_from n o n' ->
  n <= n'
  /\ start_indexes o = map index_value (seq n (n' - n))
  /\ forall pre e post j,
       o = pre ++ e :: post -> args_index e = Some j ->
       exists i, i < n + length (start_indexes pre) /\ j = index_value i.
Proof.
  induction o as [|x o IH]; intros n n' H.
  - cbn [tools_from] in H. subst n'. split; [lia|]. split.
    + now rewrite Nat.sub_diag.
    + intros [|? ?] ? ? ? ?; discriminate.
  - cbn [tools_from] in H. unfold start_indexes in *. cbn [flat_map].
    destruct (start_index x) as [jx|] eqn:Ex.
    + destruct H as [-> H]. destruct (IH _ _ H) as (Hle & Hs & Ha).
      split; [lia|]. split.
      * rewrite Hs. replace (n' - n) with (S (n' - S n)) by lia. reflexivity.
      * intros [|y pre] e post j Hsplit Hj; injection Hsplit as -> ->.
        -- unfold args_index in Hj. unfold start_index in Ex.
           destruct (tool_call_of e); [|discriminate].
           destruct (has_own j0 "id"); discriminate.
        -- destruct (Ha pre e post j eq_refl Hj) as (i & Hi & ->).
           exists i. split; [|reflexivity].
           cbn [flat_map app length]. rewrite Ex. cbn [app length]. lia.
    + destruct H as [Hx H]. destruct (IH _ _ H) as (Hle & Hs & Ha).
      split; [lia|]. split; [exact Hs|].
      intros [|y pre] e post j Hsplit Hj; injection Hsplit as -> ->.
      * destruct (Hx j Hj) as (i & Hi & ->). exists i. cbn. split; [lia | reflexivity].
      * destruct (Ha pre e post j eq_refl Hj) as (i & Hi & ->).
        exists i. split; [|reflexivity].
        cbn [flat_map app length]. rewrite Ex. exact Hi.
Qed.

(** Every index the map holds was given out. *)
Definition known (s : state) : Prop :=
  forall k i, In (k, i) (seenToolIds s) -> i < toolCallIndex s.

Definition tools_kept (s : state) (o : list emitted) (s' : state) : Prop :=
  known s -> known s' /\ tools_from (toolCallIndex s) o (toolCallIndex s').

Lemma tools_kept_all s xs :
  tools_kept s (concat (snd (perform_all s xs))) (fst (perform_all s xs)).
Proof.
  apply along_perform_all; unfold tools_kept.
  - intros s0 H. split; [exact H | reflexivity].
  - intros s0 o1 s1 o2 s2 H1 H2 H0.
    destruct (H1 H0) as [K1 T1]. destruct (H2 K1) as [K2 T2].
    split; [exact K2 | eapply tools_from_app; eassumption].
  - intros s0 s' (_ & _ & _ & E1 & E2) H. unfold known in *.
    rewrite <- E1, <- E2. split; [exact H | reflexivity].
  - intros s0 H. split; [exact H | reflexivity].
  - intros s0 c H. split; [exact H|]. cbn [tools_from emit fst toolCallIndex].
    unfold start_index, args_index. rewrite tool_call_of_content.
    split; [discriminate | reflexivity].
  - intros s0 c H. split; [exact H|]. cbn [tools_from emit fst toolCallIndex].
    unfold start_index, args_index. rewrite tool_call_of_content.
    split; [discriminate | reflexivity].
  - intros s0 id nm _ _ H. split.
    + intros k i. cbn [emit fst registered seenToolIds toolCallIndex].
      unfold Map_set. intros Hin. apply in_app_or in Hin.
      destruct Hin as [Hin | [[= <- <-] | []]]; [apply H in Hin|]; lia.
    + cbn [tools_from emit fst registered toolCallIndex].
      rewrite start_index_start. split; reflexivity.
  - intros s0 i a _ (k & Hin) H. split; [exact H|].
    cbn [tools_from emit fst toolCallIndex].
    change (start_index (Data (argsChunk i a))) with (@None json).
    change (args_index (Data (argsChunk i a))) with (Some (index_value i)).
    split; [|reflexivity].
    intros j [= <-]. exists i. split; [now apply (H k) | reflexivity].
  - intros s0 H. split; [exact H|]. cbn [tools_from with_finishEmitted toolCallIndex].
    change (start_index (Data (finishChunk s0))) with (@None json).
    change (args_index (Data (finishChunk s0))) with (@None json).
    split; [discriminate | reflexivity].
  - intros s0 H. split; [exact H|]. cbn. split; [discriminate | reflexivity].
Qed.

(** X4.  Reading the chunks of a stream in order, whatever is read and
    whenever the timers run: the start chunks carry the indexes 0, 1, 2, ...
    one after the other, as many as the state counts, and every arguments
    chunk carries the index of a start chunk enqueued before it. *)
Theorem tool_indexes_count_up (xs : list step) :
  start_indexes (enqueued xs)
  = map index_value (seq 0 (toolCallIndex (fst (perform_all initial xs))))
  /\ forall pre e post j,
       enqueued xs = pre ++ e :: post ->
       args_index e = Some j ->
       exists i, i < length (start_indexes pre) /\ j = index_value i.
Proof.
  destruct (tools_kept_all initial xs) as [_ Ht].
  { intros k i []. }
  fold (enqueued xs) in Ht. cbn [initial toolCallIndex] in Ht.
  destruct (tools_from_spec _ _ _ Ht) as (_ & Hs & Ha).
  rewrite Nat.sub_0_r in Hs. split; [exact Hs | exact Ha].
Qed.

(** ** Finish chunks *)

Lemma is_finish_content withRole c : is_finish (Data (contentChunk withRole c)) = false.
Proof. unfold is_finish, contentChunk. rewrite delta_of_chunk. now destruct withRole. Qed.

Lemma is_finish_start withRole i id nm :
  is_finish (Data (startChunk withRole i id nm)) = false.
Proof. unfold is_finish, startChunk. rewrite delta_of_chunk. now destruct withRole. Qed.

Definition finish_kept (s : state) (o : list emitted) (s' : state) : Prop :=
  (finishEmitted s = true -> finishEmitted s' = true)
  /\ (finishEmitted s' = false -> Forall (fun e => is_finish e = false) o).

Lemma finish_kept_all s xs :
  finish_kept s (concat (snd (perform_all s xs))) (fst (perform_all s xs)).
Proof.
  apply along_perform_all; unfold finish_kept.
  - intros s0. split; [auto | constructor].
  - intros s0 o1 s1 o2 s2 [M1 F1] [M2 F2]. split; [auto|].
    intros H. apply Forall_app. split; [|auto].
    apply F1. destruct (finishEmitted s1); [|reflexivity].
    rewrite M2 in H; [discriminate | reflexivity].
  - intros s0 s' (_ & E & _). rewrite E. split; [auto | constructor].
  - intros s0. split; [auto | constructor].
  - intros s0 c. split; [auto|]. intros _. constructor; [apply is_finish_content | constructor].
  - intros s0 c. split; [auto|]. intros _. constructor; [apply is_finish_content | constructor].
  - intros s0 id nm _ _. split; [auto|]. intros _. constructor; [apply is_finish_start | constructor].
  - intros s0 i a _ _. split; [auto|]. intros _. repeat constructor.
  - intros s0. split; [auto|]. cbn. discriminate.
  - intros s0. split; [auto|]. intros _. repeat constructor.
Qed.

(** X5.  A finish chunk that the callback of the timer or the pull on the
    end of the upstream enqueues is the first finish chunk of the stream: if
    one of the two enqueues a finish chunk after the steps [xs], no step of
    [xs] enqueued one. *)
Theorem late_finish_is_first (xs : list step) (x : step) :
  (x = TimerFired \/ exists now, x = Pulled now ReadDone) ->
  Exists (fun e => is_finish e = true)
         (snd (perform (fst (perform_all initial xs)) x)) ->
  Forall (fun e => is_finish e = false) (enqueued xs).
Proof.
  intros Hx Hfin.
  destruct (finish_kept_all initial xs) as [_ Hf].
  apply Hf. clear Hf.
  set (s := fst (perform_all initial xs)) in *. clearbody s.
  destruct (finishEmitted s) eqn:E; [exfalso | reflexivity].
  destruct Hx as [-> | [now ->]]; cbn [perform] in Hfin.
  - unfold timerFires in Hfin. cbn [finishEmitted] in Hfin. rewrite E in Hfin.
    cbn [snd] in Hfin. inversion Hfin.
  - cbn [pull] in Hfin. rewrite E in Hfin. cbn [snd app] in Hfin.
    inversion Hfin as [? ? H|? ? H]; [discriminate H | inversion H].
Qed.

(** ** Tool calls and finish chunks, read from what was enqueued *)














(** An entry of the map, with the index as a chunk prints it. *)
Definition entry (ki : json * nat) : json * json := (fst ki, index_value (snd ki)).


















End Executor.
(** ** The platform's part, for running the transform on examples

    Text is read Latin-1 ([string_of_list_byte]); blank is made of spaces,
    tabs and line ends.  The stand-in for [JSON.parse] knows no document at
    all, so every text is [{raw: text}] to it. *)
Definition decode_bytes (bs : list byte) : string := string_of_list_byte bs.

Definition is_space (c : ascii) : bool :=
  match c with
  | " "%char | "009"%char | "010"%char | "013"%char => true
  | _ => false
  end.

Fixpoint trim_left (s : string) : string :=
  match s with
  | String c r => if is_space c then trim_left r else s
  | EmptyString => EmptyString
  end.

Definition parse_nothing (s : string) : option json := None.
Definition stringify_opaque (v : json) : string := toString v.

(** ** Scenario 5 of the specification, from bytes

    Frames are written with [frame_of]: the 12 bytes before the headers
    (total length, headers length, and a checksum nobody reads), one string
    header [:event-type], the payload, and four bytes of checksum. *)
Definition byte_of (n : N) : byte := default x00 (Byte.of_N (n mod 256)).

Definition u32 (n : N) : list byte :=
  [byte_of (n / 16777216); byte_of (n / 65536); byte_of (n / 256); byte_of n].

Definition u16 (n : N) : list byte := [byte_of (n / 256); byte_of n].

Definition str_bytes (s : string) : list byte := list_byte_of_string s.

Definition event_type_header (eventType : string) : list byte :=
  byte_of (N.of_nat (String.length ":event-type")) :: str_bytes ":event-type"
    ++ [x07] ++ u16 (N.of_nat (String.length eventType)) ++ str_bytes eventType.

Definition frame_of (eventType payloadText : string) : list byte :=
  let hs := event_type_header eventType in
  let total := 12 + length hs + String.length payloadText + 4 in
  u32 (N.of_nat total) ++ u32 (N.of_nat (length hs)) ++ [x00; x00; x00; x00]
    ++ hs ++ str_bytes payloadText ++ [x00; x00; x00; x00].

(** A double quote, and a text between double quotes. *)
Definition dq : string := String (ascii_of_nat 34) EmptyString.
Definition quoted (s : string) : string := dq +:+ s +:+ dq.

(** The two payloads of the scenario as the upstream writes them, and the
    values [JSON.parse] reads from them. *)
Definition first_payload_text : string :=
  "{" +:+ quoted "toolUseId" +:+ ":" +:+ quoted "tooluse_1" +:+ ","
      +:+ quoted "name" +:+ ":" +:+ quoted "get_weather" +:+ "}".

Definition second_payload_text : string :=
  "{" +:+ quoted "toolUseId" +:+ ":" +:+ quoted "tooluse_1" +:+ ","
      +:+ quoted "name" +:+ ":" +:+ quoted "get_weather" +:+ ","
      +:+ quoted "input" +:+ ":"
      +:+ quoted ("{\" +:+ dq +:+ "a\" +:+ dq +:+ ":1}") +:+ "}".

Definition arguments_text : string := "{" +:+ quoted "a" +:+ ":1}".

Definition first_payload : json :=
  JObj [("toolUseId", JStr "tooluse_1"); ("name", JStr "get_weather")].

Definition second_payload : json :=
  JObj [("toolUseId", JStr "tooluse_1"); ("name", JStr "get_weather");
        ("input", JStr arguments_text)].

(** [JSON.parse] on the two documents of the scenario; any other text is
    refused. *)
Definition parse_scenario (s : string) : option json :=
  if String.eqb s first_payload_text then Some first_payload
  else if String.eqb s second_payload_text then Some second_payload
  else None.

Definition scenario_pull (s : state) (r : read) : state * list emitted :=
  pull decode_bytes trim_left parse_scenario stringify_opaque
    "chatcmpl-1" "1700000000" "claude-sonnet-4" "1700000000000" s r.

Definition scenario_output : list emitted :=
  let '(s1, o1) :=
    scenario_pull initial (ReadValue (frame_of "toolUseEvent" first_payload_text)) in
  let '(s2, o2) :=
    scenario_pull s1 (ReadValue (frame_of "toolUseEvent" second_payload_text)) in
  let '(s3, o3) := scenario_pull s2 ReadDone in
  o1 ++ o2 ++ o3.

Example scenario_two_frames_one_tool :
  scenario_output
  = [Data (startChunk "chatcmpl-1" "1700000000" "claude-sonnet-4"
             true 0 (JStr "tooluse_1") (JStr "get_weather"));
     Data (argsChunk "chatcmpl-1" "1700000000" "claude-sonnet-4"
             0 arguments_text);
     Data (chunk "chatcmpl-1" "1700000000" "claude-sonnet-4"
             (JObj []) (JStr "tool_calls"));
     Done].
Proof. vm_compute. reflexivity. Qed.

(** ** Frames as the upstream lays them out

    An event-stream frame: four bytes of total length, four bytes of headers
    length, four bytes of checksum, the headers, the payload, four bytes of
    checksum.  A string header: one byte of name length, the name, the type 7,
    two bytes of value length, the value. *)
Definition header_bytes (h : list byte * list byte) : list byte :=
  byte_of (N.of_nat (length (fst h))) :: fst h
    ++ [x07] ++ u16 (N.of_nat (length (snd h))) ++ snd h.

Definition headers_bytes (hs : list (list byte * list byte)) : list byte :=
  concat (map header_bytes hs).

Definition frame_bytes (hs : list (list byte * list byte))
  (payload prelude_crc message_crc : list byte) : list byte :=
  u32 (N.of_nat (12 + length (headers_bytes hs) + length payload + 4))
    ++ u32 (N.of_nat (length (headers_bytes hs)))
    ++ prelude_crc ++ headers_bytes hs ++ payload ++ message_crc.

Lemma lor_shiftl a b k :
  (0 <= k)%Z -> (0 <= b < 2 ^ k)%Z -> Z.lor (Z.shiftl a k) b = (a * 2 ^ k + b)%Z.
Proof.
  intros Hk Hb.
  assert (Hl : Z.land (Z.shiftl a k) b = 0%Z).
  { apply Z.bits_inj'. intros n Hn. rewrite Z.land_spec, Z.bits_0.
    destruct (Z.lt_ge_cases n k) as [Hlt|Hge].
    - rewrite Z.shiftl_spec_low by assumption. reflexivity.
    - destruct (Z.eq_dec b 0%Z) as [->|Hb0].
      + rewrite Z.bits_0. apply andb_false_r.
      + rewrite (Z.bits_above_log2 b n); [apply andb_false_r | lia |].
        apply Z.lt_le_trans with k; [|assumption].
        apply Z.log2_lt_pow2; lia. }
  pose proof (Z.add_lor_land (Z.shiftl a k) b) as H.
  rewrite Hl, Z.add_0_r in H. rewrite H. now rewrite Z.shiftl_mul_pow2.
Qed.

Lemma byte_of_value n : Z.of_N (Byte.to_N (byte_of n)) = (Z.of_N n mod 256)%Z.
Proof.
  unfold byte_of.
  destruct (Byte.of_N (n mod 256)) as [b|] eqn:E.
  - change (default x00 (Some b)) with b.
    apply Byte.to_of_N in E. rewrite E. now rewrite N2Z.inj_mod.
  - apply Byte.of_N_None_iff in E.
    pose proof (N.mod_upper_bound n 256 ltac:(discriminate)). lia.
Qed.

Lemma at_index_here pre x post :
  at_index (pre ++ x :: post) (len pre) = Some (Z.of_N (Byte.to_N x)).
Proof.
  unfold at_index, len.
  destruct (Z.ltb_spec (Z.of_nat (length pre)) 0); [lia|].
  rewrite Nat2Z.id, nth_error_app2 by lia. now rewrite Nat.sub_diag.
Qed.

Lemma at_index_shift pre l i :
  (0 <= i)%Z -> at_index (pre ++ l) (len pre + i) = at_index l i.
Proof.
  intros Hi. unfold at_index, len.
  destruct (Z.ltb_spec (Z.of_nat (length pre) + i) 0); [lia|].
  destruct (Z.ltb_spec i 0); [lia|]. f_equal.
  rewrite nth_error_app2 by lia. f_equal. lia.
Qed.

Lemma slice_here pre mid post :
  slice (pre ++ mid ++ post) (len pre) (len pre + len mid) = mid.
Proof.
  unfold slice, len.
  replace (Z.to_nat (Z.of_nat (length pre) + Z.of_nat (length mid)
                     - Z.of_nat (length pre))) with (length mid) by lia.
  rewrite Nat2Z.id, skipn_app, skipn_all, Nat.sub_diag, skipn_O.
  change ([] ++ mid ++ post) with (mid ++ post).
  rewrite firstn_app, firstn_all, Nat.sub_diag. apply app_nil_r.
Qed.

Lemma getUint32_u32 pre n post :
  (n < 4294967296)%N ->
  getUint32 (pre ++ u32 n ++ post) (len pre) = Some (Z.of_N n).
Proof.
  intros Hn. unfold getUint32, u32.
  rewrite <- (Z.add_0_r (len pre)) at 1.
  rewrite !at_index_shift by lia. cbn [app].
  unfold at_index. cbn [Z.ltb Z.to_nat Pos.to_nat Pos.iter_op Nat.add nth_error
                        option_map Z.compare].
  change (Z.to_nat 0) with 0. change (Z.to_nat 1) with 1.
  change (Z.to_nat 2) with 2. change (Z.to_nat 3) with 3.
  cbn [nth_error option_map].
  rewrite !byte_of_value, !N2Z.inj_div. f_equal.
  change (Z.of_N 16777216) with 16777216%Z. change (Z.of_N 65536) with 65536%Z.
  change (Z.of_N 256) with 256%Z.
  assert (H0 : (0 <= Z.of_N n < 4294967296)%Z) by lia.
  generalize dependent (Z.of_N n). clear n Hn. intros z Hz.
  change (2 ^ 8)%Z with 256%Z in *.
  assert (B3 : (0 <= z mod 256 < 256)%Z) by (apply Z.mod_pos_bound; lia).
  assert (B2 : (0 <= (z / 256) mod 256 < 256)%Z) by (apply Z.mod_pos_bound; lia).
  assert (B1 : (0 <= (z / 65536) mod 256 < 256)%Z) by (apply Z.mod_pos_bound; lia).
  rewrite (lor_shiftl _ _ 8); [|lia|change (2 ^ 8)%Z with 256%Z; lia].
  change (2 ^ 8)%Z with 256%Z.
  rewrite (lor_shiftl _ _ 16); [|lia|change (2 ^ 16)%Z with 65536%Z; lia].
  change (2 ^ 16)%Z with 65536%Z.
  rewrite (lor_shiftl _ _ 24); [|lia|change (2 ^ 24)%Z with 16777216%Z; lia].
  change (2 ^ 24)%Z with 16777216%Z.
  clear B1 B2 B3. Z.div_mod_to_equations. lia.
Qed.

Lemma bits_some x : bits (Some x) = x.
Proof. reflexivity. Qed.

Lemma at_index_mid data a x b i :
  data = a ++ x :: b -> i = len a ->
  at_index data i = Some (Z.of_N (Byte.to_N x)).
Proof. intros -> ->. apply at_index_here. Qed.

Lemma slice_mid data a m b i j :
  data = a ++ m ++ b -> i = len a -> j = (len a + len m)%Z ->
  slice data i j = m.
Proof. intros -> -> ->. apply slice_here. Qed.

Lemma header_bytes_length h :
  length (header_bytes h) = 4 + length (fst h) + length (snd h).
Proof.
  unfold header_bytes, u16. cbn [length app].
  repeat (rewrite length_app; cbn [length app]). lia.
Qed.

Lemma headers_bytes_length hs : length hs <= length (headers_bytes hs).
Proof.
  unfold headers_bytes. induction hs as [|h hs IH]; cbn [map concat length]; [lia|].
  rewrite length_app, header_bytes_length. lia.
Qed.

Section Frames.

Variable TextDecoder_decode : list byte -> string.
Variable String_trim : string -> string.
Variable JSON_parse : string -> option json.

(** The headers object the loop builds: each name and value decoded, a later
    header of a name replacing an earlier one, a header named [__proto__]
    left out. *)
Definition headers_of (hs : list (list byte * list byte)) (m : gmap string string)
  : gmap string string :=
  fold_left (fun m h => set_header (TextDecoder_decode (fst h)) (TextDecoder_decode (snd h)) m)
            hs m.

(** What the payload bytes are read as. *)
Definition payload_read (payload : list byte) : json :=
  match payload with
  | [] => JNull
  | _ :: _ =>
      let payloadStr := TextDecoder_decode payload in
      if String.eqb payloadStr "" || String.eqb (String_trim payloadStr) ""
      then JNull
      else match JSON_parse payloadStr with
           | Some v => v
           | None => JObj [("raw", JStr payloadStr)]
           end
  end.

Definition fits (h : list byte * list byte) : Prop :=
  (len (fst h) < 256)%Z /\ (len (snd h) < 65536)%Z.

Lemma parseHeaders_reads hs : forall pre post m rounds,
  Forall fits hs -> length hs <= rounds ->
  parseHeaders TextDecoder_decode rounds (pre ++ headers_bytes hs ++ post)
    (len pre + len (headers_bytes hs)) (len pre) m
  = Some (headers_of hs m).
Proof.
  induction hs as [|[name value] hs IH]; intros pre post m rounds Hfit Hr.
  - cbn [headers_bytes map concat headers_of fold_left].
    change (len []) with 0%Z. rewrite Z.add_0_r.
    destruct rounds; cbn [parseHeaders]; now rewrite Z.ltb_irrefl.
  - inversion Hfit as [|? ? [Hn Hv] Hfit']; subst. cbn [fst snd] in Hn, Hv.
    destruct rounds as [|rounds]; [cbn [length] in Hr; lia|].
    cbn [length] in Hr.
    unfold headers_bytes. cbn [map concat]. fold (headers_bytes hs).
    set (tail := headers_bytes hs ++ post).
    set (nl := byte_of (N.of_nat (length name))).
    set (hi := byte_of (N.of_nat (length value) / 256)).
    set (lo := byte_of (N.of_nat (length value))).
    assert (Hhb : header_bytes (name, value) = nl :: name ++ [x07] ++ [hi; lo] ++ value)
      by reflexivity.
    set (data := pre ++ (header_bytes (name, value) ++ headers_bytes hs) ++ post).
    assert (Hdata : data = pre ++ nl :: name ++ x07 :: hi :: lo :: value ++ tail).
    { subst data tail. rewrite Hhb. cbn [app]. rewrite <- !app_assoc. reflexivity. }
    assert (Hlen : len data = (len pre + 4 + len name + len value + len tail)%Z).
    { rewrite Hdata. unfold len.
      repeat (rewrite length_app; cbn [length app]). lia. }
    assert (Hend : (len pre + len (header_bytes (name, value) ++ headers_bytes hs)
                    = len pre + 4 + len name + len value + len (headers_bytes hs))%Z).
    { unfold len. rewrite length_app, header_bytes_length. cbn [fst snd]. lia. }
    assert (Vnl : Z.of_N (Byte.to_N nl) = len name).
    { subst nl. rewrite byte_of_value. unfold len in *.
      rewrite Z.mod_small by lia. lia. }
    assert (Vhi : Z.of_N (Byte.to_N hi) = (len value / 256)%Z).
    { subst hi. rewrite byte_of_value, N2Z.inj_div. unfold len.
      rewrite nat_N_Z. change (Z.of_N 256) with 256%Z.
      apply Z.mod_small. split; [apply Z.div_pos; lia|].
      apply Z.div_lt_upper_bound; unfold len in Hv; lia. }
    assert (Vlo : Z.of_N (Byte.to_N lo) = (len value mod 256)%Z).
    { subst lo. rewrite byte_of_value. unfold len. now rewrite nat_N_Z. }
    pose proof (len_nonneg pre). pose proof (len_nonneg name).
    pose proof (len_nonneg value). pose proof (len_nonneg tail).
    pose proof (len_nonneg (headers_bytes hs)).
    cbn [parseHeaders]. rewrite Hend, Hlen.
    destruct (Z.ltb_spec (len pre) (len pre + 4 + len name + len value
                                    + len (headers_bytes hs))); [|lia].
    destruct (Z.ltb_spec (len pre) (len pre + 4 + len name + len value + len tail));
      [|lia].
    cbn [andb].
    rewrite (at_index_mid data pre nl _ (len pre) Hdata eq_refl).
    rewrite bits_some, Vnl.
    destruct (Z.gtb_spec (len pre + 1 + len name)
                (len pre + 4 + len name + len value + len tail)); [lia|].
    rewrite (slice_mid data (pre ++ [nl]) name (x07 :: hi :: lo :: value ++ tail));
      [ | rewrite Hdata, <- app_assoc; reflexivity
        | rewrite len_app; reflexivity
        | rewrite len_app; reflexivity ].
    rewrite (at_index_mid data (pre ++ nl :: name) x07 (hi :: lo :: value ++ tail)
               (len pre + 1 + len name));
      [ | rewrite Hdata, <- app_assoc; reflexivity
        | rewrite len_app; unfold len; cbn [length]; lia ].
    change (Z.of_N (Byte.to_N x07)) with 7%Z.
    rewrite bool_decide_eq_true_2 by reflexivity.
    rewrite (at_index_mid data (pre ++ nl :: name ++ [x07]) hi (lo :: value ++ tail)
               (len pre + 1 + len name + 1));
      [ | rewrite Hdata, <- !app_assoc; cbn [app]; rewrite <- !app_assoc; reflexivity
        | rewrite len_app; unfold len; cbn [length]; rewrite length_app;
          cbn [length]; lia ].
    rewrite (at_index_mid data (pre ++ nl :: name ++ [x07; hi]) lo (value ++ tail)
               (len pre + 1 + len name + 1 + 1));
      [ | rewrite Hdata, <- !app_assoc; cbn [app]; rewrite <- !app_assoc; reflexivity
        | rewrite len_app; unfold len; cbn [length]; rewrite length_app;
          cbn [length]; lia ].
    rewrite !bits_some, Vhi, Vlo.
    assert (Hvl : Z.lor (Z.shiftl (len value / 256) 8) (len value mod 256) = len value).
    { rewrite lor_shiftl; [|lia|change (2 ^ 8)%Z with 256%Z; apply Z.mod_pos_bound; lia].
      change (2 ^ 8)%Z with 256%Z. symmetry. rewrite Z.mul_comm.
      apply Z.div_mod. lia. }
    rewrite Hvl.
    destruct (Z.gtb_spec (len pre + 1 + len name + 1 + 2 + len value)
                (len pre + 4 + len name + len value + len tail)); [lia|].
    rewrite (slice_mid data (pre ++ nl :: name ++ [x07; hi; lo]) value tail);
      [ | rewrite Hdata, <- !app_assoc; cbn [app]; rewrite <- !app_assoc; reflexivity
        | rewrite len_app; unfold len; cbn [length]; rewrite length_app;
          cbn [length]; lia
        | rewrite len_app; unfold len; cbn [length]; rewrite length_app;
          cbn [length]; lia ].
    cbn [headers_of fold_left fst snd]. fold (headers_of hs).
    specialize (IH (pre ++ header_bytes (name, value)) post
                  (set_header (TextDecoder_decode name) (TextDecoder_decode value) m)
                  rounds Hfit' ltac:(lia)).
    replace ((pre ++ header_bytes (name, value)) ++ headers_bytes hs ++ post)
      with data in IH by (subst data; now rewrite <- !app_assoc).
    replace (len (pre ++ header_bytes (name, value)) + len (headers_bytes hs))%Z
      with (len pre + 4 + len name + len value + len (headers_bytes hs))%Z in IH
      by (rewrite len_app; unfold len; rewrite header_bytes_length; cbn [fst snd]; lia).
    replace (len (pre ++ header_bytes (name, value)))
      with (len pre + 1 + len name + 1 + 2 + len value)%Z in IH
      by (rewrite len_app; unfold len; rewrite header_bytes_length; cbn [fst snd]; lia).
    exact IH.
Qed.

(** A frame laid out as the format has it is read back. *)
Lemma parseEventFrame_on_frame
        (hs : list (list byte * list byte))
        (payload total prelude_crc message_crc : list byte) :
  Forall fits hs ->
  (len (headers_bytes hs) < 4294967296)%Z ->
  length total = 4 -> length prelude_crc = 4 -> length message_crc = 4 ->
  parseEventFrame TextDecoder_decode String_trim JSON_parse
    (total ++ u32 (N.of_nat (length (headers_bytes hs)))
       ++ prelude_crc ++ headers_bytes hs ++ payload ++ message_crc)
  = Some {| headers := headers_of hs ∅; payload := payload_read payload |}.
Proof.
  intros Hfit Hlen Ht Hc1 Hc2.
  set (hb := headers_bytes hs) in *.
  set (data := total ++ u32 (N.of_nat (length hb)) ++ prelude_crc
                 ++ hb ++ payload ++ message_crc).
  assert (Hl4 : len total = 4%Z) by (unfold len; lia).
  assert (Hg : getUint32 data 4 = Some (len hb)).
  { subst data. rewrite <- Hl4, getUint32_u32 by (unfold len in Hlen; lia).
    unfold len. now rewrite nat_N_Z. }
  assert (Hd : data = (total ++ u32 (N.of_nat (length hb)) ++ prelude_crc)
                        ++ hb ++ payload ++ message_crc)
    by (subst data; now rewrite <- !app_assoc).
  assert (Hp12 : len (total ++ u32 (N.of_nat (length hb)) ++ prelude_crc) = 12%Z).
  { unfold len, u32. rewrite !length_app. cbn [length]. lia. }
  assert (Hdl : len data = (12 + len hb + len payload + 4)%Z).
  { rewrite Hd, len_app, Hp12, !len_app. unfold len. lia. }
  unfold parseEventFrame. rewrite Hg.
  assert (Hh : parseHeaders TextDecoder_decode (length data) data (12 + len hb) 12 ∅
               = Some (headers_of hs ∅)).
  { rewrite Hd at 2. rewrite <- Hp12.
    apply parseHeaders_reads; [exact Hfit|].
    pose proof (headers_bytes_length hs). fold hb in H.
    unfold len in Hdl. lia. }
  rewrite Hh. cbn [default]. f_equal. f_equal.
  unfold parsePayload, payload_read. rewrite Hdl.
  destruct payload as [|p0 payload].
  - change (len []) with 0%Z.
    destruct (Z.gtb_spec (12 + len hb + 0 + 4 - 4) (12 + len hb)); [lia | reflexivity].
  - pose proof (len_nonneg payload).
    assert (Hlp : len (p0 :: payload) = (1 + len payload)%Z) by (unfold len; cbn [length]; lia).
    destruct (Z.gtb_spec (12 + len hb + len (p0 :: payload) + 4 - 4) (12 + len hb));
      [|lia].
    rewrite (slice_mid data
               ((total ++ u32 (N.of_nat (length hb)) ++ prelude_crc) ++ hb)
               (p0 :: payload) message_crc);
      [ reflexivity
      | rewrite Hd, <- !app_assoc; reflexivity
      | rewrite len_app, Hp12; reflexivity
      | rewrite len_app, Hp12; lia ].
Qed.

(** X6.  [parseEventFrame] reads back a frame that is laid out as the format
    has it: it returns the string headers, each name and value decoded, a
    later header of a name replacing an earlier one and a header named
    [__proto__] not kept, and the payload, read as JSON where it is JSON.
    The two checksums and the total length are not looked at: any bytes
    do. *)
Theorem parseEventFrame_reads_frame
        (hs : list (list byte * list byte))
        (payload total prelude_crc message_crc : list byte) :
  Forall fits hs ->
  (len (headers_bytes hs) < 4294967296)%Z ->
  length total = 4 -> length prelude_crc = 4 -> length message_crc = 4 ->
  parseEventFrame TextDecoder_decode String_trim JSON_parse
    (total ++ u32 (N.of_nat (length (headers_bytes hs)))
       ++ prelude_crc ++ headers_bytes hs ++ payload ++ message_crc)
  = Some {| headers := headers_of hs ∅; payload := payload_read payload |}.
Proof. apply parseEventFrame_on_frame. Qed.

(** ** A buffer of whole frames *)

Variable JSON_stringify : json -> string.
Variables responseId created model : string.

Record framed : Type := {
  fr_headers : list (list byte * list byte);
  fr_payload : list byte;
  fr_prelude_crc : list byte;
  fr_message_crc : list byte
}.

Definition bytes_of (f : framed) : list byte :=
  frame_bytes (fr_headers f) (fr_payload f) (fr_prelude_crc f) (fr_message_crc f).

Definition well_formed (f : framed) : Prop :=
  Forall fits (fr_headers f)
  /\ (len (bytes_of f) < 4294967296)%Z
  /\ length (fr_prelude_crc f) = 4 /\ length (fr_message_crc f) = 4.

Definition event_of (f : framed) : event :=
  {| headers := headers_of (fr_headers f) ∅; payload := payload_read (fr_payload f) |}.

(** The events of the frames handled one after the other, the buffer
    holding the frames still to come, until one of them throws. *)
Fixpoint handle_frames (now : string) (s : state) (fs : list framed) : run :=
  match fs with
  | [] => {| st := with_buffer s []; out := []; threw := false |}
  | f :: r =>
      let r1 :=
        handleEvent JSON_stringify responseId created model now
          (with_buffer s (concat (map bytes_of r))) (event_of f) in
      if threw r1 then r1
      else
        let r2 := handle_frames now (st r1) r in
        {| st := st r2; out := out r1 ++ out r2; threw := threw r2 |}
  end.

Lemma bytes_of_length f :
  length (fr_prelude_crc f) = 4 -> length (fr_message_crc f) = 4 ->
  length (bytes_of f)
  = 12 + length (headers_bytes (fr_headers f)) + length (fr_payload f) + 4.
Proof.
  intros H1 H2. unfold bytes_of, frame_bytes, u32.
  repeat (rewrite length_app; cbn [length app]). lia.
Qed.

Lemma frames_whole now fs : forall s n,
  Forall well_formed fs ->
  length (concat (map bytes_of fs)) <= n ->
  frames TextDecoder_decode String_trim JSON_parse JSON_stringify
    responseId created model n now (with_buffer s (concat (map bytes_of fs)))
  = handle_frames now s fs.
Proof.
  induction fs as [|f fs IH]; intros s n Hwf Hn.
  - cbn [map concat handle_frames]. destruct n; reflexivity.
  - inversion Hwf as [|? ? (Hfit & Htot & Hc1 & Hc2) Hwf']; subst.
    cbn [map concat handle_frames] in *.
    set (rest := concat (map bytes_of fs)) in *.
    pose proof (bytes_of_length f Hc1 Hc2) as Hbl.
    rewrite length_app in Hn.
    destruct n as [|n]; [lia|].
    cbn [frames with_buffer buffer].
    assert (H16 : (len (bytes_of f ++ rest) >=? 16)%Z = true).
    { apply Z.geb_le. rewrite len_app. pose proof (len_nonneg rest).
      unfold len. lia. }
    rewrite H16.
    assert (Hg : getUint32 (bytes_of f ++ rest) 0 = Some (len (bytes_of f))).
    { unfold bytes_of at 1, frame_bytes. rewrite <- !app_assoc.
      change 0%Z with (len []).
      change (u32 ?n ++ ?x) with ([] ++ u32 n ++ x).
      rewrite getUint32_u32.
      - rewrite <- Hbl. unfold len. now rewrite nat_N_Z.
      - rewrite <- Hbl. unfold len in Htot. lia. }
    rewrite Hg.
    assert (Hc : ((len (bytes_of f) <? 16) || (len (bytes_of f ++ rest) <? len (bytes_of f)))%Z
                 = false).
    { apply orb_false_iff. split; apply Z.ltb_ge.
      - unfold len. lia.
      - rewrite len_app. pose proof (len_nonneg rest). lia. }
    rewrite Hc.
    assert (Hd : slice (bytes_of f ++ rest) 0 (len (bytes_of f)) = bytes_of f).
    { apply (slice_mid _ [] (bytes_of f) rest); reflexivity. }
    assert (Hr : skipn (Z.to_nat (len (bytes_of f))) (bytes_of f ++ rest) = rest).
    { unfold len. rewrite Nat2Z.id, skipn_app, skipn_all, Nat.sub_diag. reflexivity. }
    rewrite Hd, Hr.
    unfold handleFrame.
    assert (Hp : parseEventFrame TextDecoder_decode String_trim JSON_parse (bytes_of f)
                 = Some (event_of f)).
    { unfold bytes_of, frame_bytes.
      apply parseEventFrame_on_frame; try assumption.
      - unfold len in *. lia.
      - reflexivity. }
    rewrite Hp.
    rewrite !with_buffer_twice.
    set (r1 := handleEvent _ _ _ _ now (with_buffer s rest) (event_of f)).
    destruct (threw r1) eqn:Et; [reflexivity|].
    assert (Hb : buffer (st r1) = rest).
    { subst r1.
      rewrite (handleEvent_buffer JSON_stringify responseId created model).
      reflexivity. }
    assert (Hf : frames TextDecoder_decode String_trim JSON_parse JSON_stringify
                   responseId created model n now (st r1)
                 = handle_frames now (st r1) fs).
    { rewrite <- (with_buffer_same (st r1)) at 1. rewrite Hb.
      apply IH; [exact Hwf' | lia]. }
    rewrite Hf. reflexivity.
Qed.

(** X7.  A read that brings whole frames into an empty buffer has the event
    of each frame handled, in the order of the frames, and leaves the buffer
    empty; a frame that makes the handling throw ends the read there and
    errors the stream. *)
Theorem whole_frames_are_handled_in_order
        (now : string) (s : state) (fs : list framed) :
  Forall well_formed fs ->
  buffer s = [] ->
  pull TextDecoder_decode String_trim JSON_parse JSON_stringify
    responseId created model now s (ReadValue (concat (map bytes_of fs)))
  = (if threw (handle_frames now s fs)
     then with_errored (st (handle_frames now s fs))
     else st (handle_frames now s fs),
     out (handle_frames now s fs)).
Proof.
  intros Hwf Hb. cbn [pull]. rewrite Hb. cbn [app with_buffer buffer].
  change {| buffer := concat (map bytes_of fs); chunkIndex := chunkIndex s;
            endDetected := endDetected s; finishEmitted := finishEmitted s;
            hasToolCalls := hasToolCalls s; toolCallIndex := toolCallIndex s;
            seenToolIds := seenToolIds s; timers := timers s;
            closed := closed s; errored := errored s |}
    with (with_buffer s (concat (map bytes_of fs))).
  rewrite (frames_whole now fs s _ Hwf) by reflexivity.
  destruct (threw (handle_frames now s fs)); reflexivity.
Qed.

End Frames.
(** ** The theorems about streams and frames, on the scenario *)

Definition first_frame : list byte := frame_of "toolUseEvent" first_payload_text.
Definition second_frame : list byte := frame_of "toolUseEvent" second_payload_text.

Definition scenario_steps (s : state) (xs : list step) : state * list (list emitted) :=
  perform_all decode_bytes trim_left parse_scenario stringify_opaque
    "chatcmpl-1" "1700000000" "claude-sonnet-4" s xs.

Lemma short_length_stalls_witness :
  scenario_steps (with_buffer initial (repeat x00 16))
    [Pulled "1700000000000" (ReadValue first_frame)]
  = (with_buffer initial (repeat x00 16 ++ first_frame ++ []), [[]]).
Proof.
  unfold scenario_steps.
  apply (short_length_stalls decode_bytes trim_left parse_scenario stringify_opaque
           "chatcmpl-1" "1700000000" "claude-sonnet-4"
           (with_buffer initial (repeat x00 16)) 0
           [("1700000000000", first_frame)]).
  - vm_compute. discriminate.
  - reflexivity.
  - lia.
Defined.

Definition scenario_enqueued (xs : list step) : list emitted :=
  enqueued decode_bytes trim_left parse_scenario stringify_opaque
    "chatcmpl-1" "1700000000" "claude-sonnet-4" xs.

Definition scenario_reads : list step :=
  [Pulled "1700000000000" (ReadValue first_frame);
   Pulled "1700000000000" (ReadValue second_frame);
   Pulled "1700000000000" ReadDone].

Lemma role_witness :
  Forall (fun x => carries x = false) []
  /\ Forall (fun x => has_role x = false)
       [Data (argsChunk "chatcmpl-1" "1700000000" "claude-sonnet-4" 0 arguments_text);
        Data (chunk "chatcmpl-1" "1700000000" "claude-sonnet-4"
                (JObj []) (JStr "tool_calls"));
        Done].
Proof.
  apply (role_only_in_first_carrying_chunk decode_bytes trim_left parse_scenario
           stringify_opaque "chatcmpl-1" "1700000000" "claude-sonnet-4"
           scenario_reads []
           _ (Data (startChunk "chatcmpl-1" "1700000000" "claude-sonnet-4"
                      true 0 (JStr "tooluse_1") (JStr "get_weather")))).
  - vm_compute. reflexivity.
  - reflexivity.
Defined.

Lemma tool_indexes_witness :
  start_indexes (scenario_enqueued scenario_reads) = [index_value 0]
  /\ exists i, i < 1 /\ index_value 0 = index_value i.
Proof.
  destruct (tool_indexes_count_up decode_bytes trim_left parse_scenario
              stringify_opaque "chatcmpl-1" "1700000000" "claude-sonnet-4"
              scenario_reads) as [H1 H2].
  split; [exact H1|].
  apply (H2 [Data (startChunk "chatcmpl-1" "1700000000" "claude-sonnet-4"
                     true 0 (JStr "tooluse_1") (JStr "get_weather"))]
            (Data (argsChunk "chatcmpl-1" "1700000000" "claude-sonnet-4"
                     0 arguments_text))
            [Data (chunk "chatcmpl-1" "1700000000" "claude-sonnet-4"
                     (JObj []) (JStr "tool_calls")); Done]).
  - vm_compute. reflexivity.
  - reflexivity.
Defined.

Lemma late_finish_witness :
  Forall (fun e => is_finish e = false)
         (scenario_enqueued
            [Pulled "1700000000000" (ReadValue first_frame);
             Pulled "1700000000000" (ReadValue second_frame)]).
Proof.
  apply (late_finish_is_first decode_bytes trim_left parse_scenario
           stringify_opaque "chatcmpl-1" "1700000000" "claude-sonnet-4"
           _ (Pulled "1700000000000" ReadDone)).
  - right. now exists "1700000000000".
  - vm_compute. constructor. reflexivity.
Defined.

Definition scenario_headers : list (list byte * list byte) :=
  [(str_bytes ":event-type", str_bytes "toolUseEvent")].

Lemma parseEventFrame_reads_frame_witness :
  parseEventFrame decode_bytes trim_left parse_scenario first_frame
  = Some {| headers := {[ ":event-type" := "toolUseEvent" ]};
            payload := first_payload |}.
Proof.
  apply (parseEventFrame_reads_frame decode_bytes trim_left parse_scenario
           scenario_headers (str_bytes first_payload_text)
           (u32 77) [x00; x00; x00; x00] [x00; x00; x00; x00]).
  - repeat constructor.
  - reflexivity.
  - reflexivity.
  - reflexivity.
  - reflexivity.
Defined.

Definition scenario_framed (payloadText : string) : framed :=
  {| fr_headers := scenario_headers; fr_payload := str_bytes payloadText;
     fr_prelude_crc := [x00; x00; x00; x00];
     fr_message_crc := [x00; x00; x00; x00] |}.

Lemma whole_frames_witness :
  snd (scenario_pull initial (ReadValue (first_frame ++ second_frame ++ [])))
  = [Data (startChunk "chatcmpl-1" "1700000000" "claude-sonnet-4"
             true 0 (JStr "tooluse_1") (JStr "get_weather"));
     Data (argsChunk "chatcmpl-1" "1700000000" "claude-sonnet-4" 0 arguments_text)].
Proof.
  unfold scenario_pull.
  change (first_frame ++ second_frame ++ [])
    with (concat (map bytes_of [scenario_framed first_payload_text;
                                scenario_framed second_payload_text])).
  rewrite (whole_frames_are_handled_in_order decode_bytes trim_left parse_scenario
             stringify_opaque "chatcmpl-1" "1700000000" "claude-sonnet-4"
             "1700000000000" initial
             [scenario_framed first_payload_text; scenario_framed second_payload_text]).
  - vm_compute. reflexivity.
  - repeat constructor; vm_compute; reflexivity.
  - reflexivity.
Defined.




(** A frame whose payload is no JSON document is not skipped: its payload is
    [{raw: text}], and as a [toolUseEvent] it starts a tool call with a made-up
    id and no name.  A frame with a length field below 16 is not skipped
    either: the frame behind it, enqueued when read alone, is never handled. *)
Lemma unparsable_frames_are_not_skipped :
  snd (scenario_pull initial (ReadValue (frame_of "toolUseEvent" "oops")))
  = [Data (startChunk "chatcmpl-1" "1700000000" "claude-sonnet-4"
             true 0 (JStr "call_1700000000000") (JStr ""))]
  /\ snd (scenario_pull initial (ReadValue first_frame))
     = [Data (startChunk "chatcmpl-1" "1700000000" "claude-sonnet-4"
                true 0 (JStr "tooluse_1") (JStr "get_weather"))]
  /\ snd (scenario_pull initial (ReadValue (repeat x00 16 ++ first_frame))) = [].
Proof. vm_compute. repeat split. Qed.

End Kiro.

(* ===================================================================== *)
(** * handleChatCore (one account attempt) *)
(* ===================================================================== *)
Module ChatCore.
Import Js.

(** An upstream response: its status and what [response.json()] resolves to
    ([None] when the body is not JSON and the call rejects). *)
Record upstream : Type := {
  status : Z;
  json_body : option json
}.

(** [response.ok]: a status from 200 to 299. *)
Definition ok (r : upstream) : bool := ((200 <=? status r) && (status r <=? 299))%Z.

(** What [executor.execute] does: throw (an [AbortError] or another error)
    or resolve to a response. *)
Inductive executed : Type :=
| ThrowsAbort
| ThrowsOther (message : string)
| Responds (r : upstream).

(** What [refreshWithRetry] does: throw, or resolve to something without an
    [accessToken] and a [copilotToken] ([null] included), or resolve to new
    credentials that have one of the two. *)
Inductive refreshed : Type :=
| RefreshThrows
| NoNewCredentials
| NewCredentials.

(** The answers of the collaborators during one call.  Each of them is asked
    at most once, except the executor, which is asked again after a refresh. *)
Record env : Type := {
  bypass : bool;                (* handleBypassRequest returned a response *)
  first_execute : executed;
  refresh : refreshed;
  retry_execute : executed;
  needsTranslation : bool;
  (* parseUpstreamError: statusCode, message, retryAfterMs *)
  parseUpstreamError : upstream -> Z * string * option Z;
  (* formatProviderError on a message and a status *)
  formatProviderError : string -> Z -> string
}.

(** The HTTP response handed back on success. *)
Inductive http : Type :=
| EventStream (translated : bool)    (* Content-Type: text/event-stream *)
| JsonBody (body : json).            (* Content-Type: application/json *)

Inductive result : Type :=
| Bypassed
| Succeeded (response : http)
| Failed (statusCode : Z) (error : string) (retryAfterMs : option Z)
| Rejected.                          (* an exception left handleChatCore *)

(** The calls a run makes that the claims speak of, in order. *)
Inductive effect : Type :=
| TrackPending (started : bool)
| LogStatus (line : string)
| CredentialsRefreshed
| RequestSuccess.

(** [body.stream !== false] *)
Definition wants_stream (body_stream : option json) : bool :=
  match body_stream with
  | Some (JBool false) => false
  | _ => true
  end.

(** [providerResponse.status === 401 || providerResponse.status === 403] *)
Definition is_auth_failure (providerResponse : upstream) : bool :=
  ((status providerResponse =? 401) || (status providerResponse =? 403))%Z.

(** The [await refreshWithRetry(...)] of the 401/403 block is in no [try]:
    when it throws, the exception leaves [handleChatCore]. *)
Definition refresh_throws (e : env) (providerResponse : upstream) : bool :=
  is_auth_failure providerResponse
  && match refresh e with RefreshThrows => true | _ => false end.

(** The 401/403 block when the refresh does not throw: the response and URL
    are replaced only by a retry that resolved to an OK response. *)
Definition after_refresh (e : env) (providerResponse : upstream)
  : upstream * list effect :=
  if is_auth_failure providerResponse
  then
    match refresh e with
    | NewCredentials =>
        match retry_execute e with
        | Responds r =>
            if ok r then (r, [CredentialsRefreshed])
            else (providerResponse, [CredentialsRefreshed])
        | _ => (providerResponse, [CredentialsRefreshed])
        end
    | _ => (providerResponse, [])
    end
  else (providerResponse, []).

(** [`${statusCode}`] for an integer status. *)
Definition decimal (n : Z) : string := NilZero.string_of_int (Z.to_int n).

Definition handleChatCore (body_stream : option json) (e : env)
  : result * list effect :=
  if bypass e then (Bypassed, [])
  else
    let stream := wants_stream body_stream in
    let started := [TrackPending true; LogStatus "PENDING"] in
    match first_execute e with
    | ThrowsAbort =>
        (Failed 499 "Request aborted" None,
         started ++ [TrackPending false; LogStatus "FAILED 499"])
    | ThrowsOther message =>
        (Failed 502 (formatProviderError e message 502) None,
         started ++ [TrackPending false; LogStatus "FAILED 502"])
    | Responds r0 =>
        if refresh_throws e r0 then (Rejected, started)
        else
        let '(providerResponse, refreshed) := after_refresh e r0 in
        if negb (ok providerResponse)
        then
          let '(statusCode, message, retryAfterMs) :=
            parseUpstreamError e providerResponse in
          (Failed statusCode (formatProviderError e message statusCode) retryAfterMs,
           started ++ refreshed
             ++ [TrackPending false; LogStatus ("FAILED " +:+ decimal statusCode)])
        else if negb stream
        then
          match json_body providerResponse with
          | None => (Rejected, started ++ refreshed ++ [TrackPending false])
          | Some responseBody =>
              (Succeeded (JsonBody responseBody),
               started ++ refreshed
                 ++ [TrackPending false; RequestSuccess; LogStatus "200 OK"])
          end
        else
          (Succeeded (EventStream (needsTranslation e)),
           started ++ refreshed ++ [RequestSuccess])
    end.

(** ** Streaming or not *)

Definition is_event_stream (r : result) : bool :=
  match r with Succeeded (EventStream _) => true | _ => false end.

Lemma wants_stream_false body_stream :
  wants_stream body_stream = false <-> body_stream = Some (JBool false).
Proof.
  split.
  - destruct body_stream as [[| [] | | | |]|]; simpl; congruence.
  - intros ->. reflexivity.
Qed.

(** A 401 or 403 is not OK, so a refresh that throws leaves no OK response. *)
Lemma ok_after_refresh e r0 :
  ok (fst (after_refresh e r0)) = true -> refresh_throws e r0 = false.
Proof.
  unfold refresh_throws, after_refresh, is_auth_failure, ok.
  destruct ((status r0 =? 401) || (status r0 =? 403))%Z eqn:Ea; [|reflexivity].
  destruct (refresh e); cbn [fst andb]; try reflexivity.
  intros H. apply andb_true_iff in H. destruct H as [H1 H2].
  apply Z.leb_le in H1, H2. apply orb_true_iff in Ea.
  destruct Ea as [Ea|Ea]; apply Z.eqb_eq in Ea; lia.
Qed.

(** C5, as amended.  When the bypass does not answer and the upstream
    response, after the one refresh and retry a 401 or 403 gets, is OK: the
    response is an event stream exactly when [body.stream] is not the
    literal [false], an absent flag included; and when [body.stream] is
    [false] the upstream JSON body is returned as one JSON response. *)
Theorem stream_unless_flag_is_false :
  forall (body_stream : option json) (e : env) (r0 : upstream),
    bypass e = false ->
    first_execute e = Responds r0 ->
    ok (fst (after_refresh e r0)) = true ->
    (is_event_stream (fst (handleChatCore body_stream e)) = true
     <-> body_stream <> Some (JBool false))
    /\ (body_stream <> Some (JBool false) ->
        fst (handleChatCore body_stream e)
        = Succeeded (EventStream (needsTranslation e)))
    /\ (forall responseBody,
           body_stream = Some (JBool false) ->
           json_body (fst (after_refresh e r0)) = Some responseBody ->
           fst (handleChatCore body_stream e) = Succeeded (JsonBody responseBody)).
Proof.
  intros body_stream e r0 Hb Hex Hok.
  unfold handleChatCore. rewrite Hb, Hex.
  rewrite (ok_after_refresh e r0 Hok).
  destruct (after_refresh e r0) as [providerResponse refreshed] eqn:Har.
  simpl in Hok. rewrite Hok. simpl.
  destruct (wants_stream body_stream) eqn:Hw; simpl.
  - assert (Hne : body_stream <> Some (JBool false)).
    { intros H. apply wants_stream_false in H. congruence. }
    split; [split; intros _; [exact Hne | reflexivity] |].
    split; [reflexivity |].
    intros b H. contradiction.
  - apply wants_stream_false in Hw. subst body_stream.
    split; [split |].
    + destruct (json_body providerResponse); simpl; discriminate.
    + intros H. contradiction.
    + split; [intros H; contradiction |].
      intros b _ Hj. rewrite Hj. reflexivity.
Qed.

(** An upstream that answers 200 with a JSON body, and collaborators that do
    nothing else. *)
Definition plain_ok : env :=
  {| bypass := false;
     first_execute :=
       Responds {| status := 200; json_body := Some (JObj [("id", JStr "cmpl-1")]) |};
     refresh := NoNewCredentials;
     retry_execute := ThrowsAbort;
     needsTranslation := false;
     parseUpstreamError := fun r => (status r, "", None);
     formatProviderError := fun message _ => message |}.

Lemma stream_flag_witness :
  fst (handleChatCore (Some (JBool false)) plain_ok)
  = Succeeded (JsonBody (JObj [("id", JStr "cmpl-1")])).
Proof.
  apply (proj2 (proj2 (stream_unless_flag_is_false (Some (JBool false)) plain_ok
                         {| status := 200;
                            json_body := Some (JObj [("id", JStr "cmpl-1")]) |}
                         eq_refl eq_refl eq_refl))
           (JObj [("id", JStr "cmpl-1")]) eq_refl eq_refl).
Defined.

(** C5 as stated fails: a body with no [stream] property, or with
    [stream: null], does not request streaming, and it is answered with an
    event stream all the same. *)
Lemma absent_flag_streams :
  fst (handleChatCore None plain_ok) = Succeeded (EventStream false)
  /\ fst (handleChatCore (Some JNull) plain_ok) = Succeeded (EventStream false).
Proof. split; reflexivity. Qed.

(** ** extractUsageFromResponse *)

(** An object literal whose properties may be [undefined]. *)
Definition literal : Type := list (string * option json).

(** [a || 0] *)
Definition or_zero (o : option json) : json :=
  match o with
  | Some v => if truthy v then v else JNum "0"
  | None => JNum "0"
  end.

(** [a.name] for an [a] that is there; a value that is not an object has no
    property of the names read here. *)
Definition member (o : option json) (name : string) : option json :=
  match o with
  | Some v => prop v name
  | None => None
  end.

(** [a?.name]: [undefined] where [a] is [undefined] or [null]. *)
Definition chain (o : option json) (name : string) : option json :=
  match o with
  | None | Some JNull => None
  | Some v => prop v name
  end.

(** [a !== undefined] *)
Definition defined (o : option json) : bool :=
  match o with Some _ => true | None => false end.

Definition extractUsageFromResponse (responseBody : json) : option literal :=
  if negb (truthy responseBody) then None
  else
    let usage := prop responseBody "usage" in
    (* OpenAI format *)
    if truthy_opt usage
    then
      Some [("prompt_tokens", Some (or_zero (member usage "prompt_tokens")));
            ("completion_tokens", Some (or_zero (member usage "completion_tokens")));
            ("cached_tokens",
             chain (member usage "prompt_tokens_details") "cached_tokens");
            ("reasoning_tokens",
             chain (member usage "completion_tokens_details") "reasoning_tokens")]
    (* Claude format *)
    else if defined (chain usage "input_tokens") || defined (chain usage "output_tokens")
    then
      Some [("prompt_tokens", Some (or_zero (member usage "input_tokens")));
            ("completion_tokens", Some (or_zero (member usage "output_tokens")));
            ("cache_read_input_tokens", member usage "cache_read_input_tokens");
            ("cache_creation_input_tokens",
             member usage "cache_creation_input_tokens")]
    else
      (* Gemini format *)
      let usageMetadata := prop responseBody "usageMetadata" in
      if truthy_opt usageMetadata
      then
        Some [("prompt_tokens",
               Some (or_zero (member usageMetadata "promptTokenCount")));
              ("completion_tokens",
               Some (or_zero (member usageMetadata "candidatesTokenCount")));
              ("reasoning_tokens", member usageMetadata "thoughtsTokenCount")]
      else None.

(** A [usage] that is not truthy has no property to read. *)
Lemma falsy_usage_has_nothing (usage : option json) (name : string) :
  truthy_opt usage = false -> chain usage name = None.
Proof.
  destruct usage as [[| b | r | s | l | fs]|]; cbn; try reflexivity; discriminate.
Qed.

(** X11.  The branch for the Claude format is never taken: a body with a
    true [usage] is read in the OpenAI format whatever [usage] holds, and a
    [usage] that is not true has no [input_tokens] or [output_tokens].  So no
    result has [cache_read_input_tokens] or [cache_creation_input_tokens],
    and a body whose [usage] is an object with [input_tokens] and
    [output_tokens] but without [prompt_tokens] and [completion_tokens], as
    the Claude format has it, is reported with 0 prompt tokens and 0
    completion tokens. *)
Theorem claude_usage_is_read_as_openai (responseBody : json) :
  (forall r, extractUsageFromResponse responseBody = Some r ->
             has_key "cache_read_input_tokens" r = false
             /\ has_key "cache_creation_input_tokens" r = false)
  /\ (forall bs fs,
         responseBody = JObj bs ->
         assoc "usage" bs = Some (JObj fs) ->
         assoc "prompt_tokens" fs = None ->
         assoc "completion_tokens" fs = None ->
         exists cached reasoning,
           extractUsageFromResponse responseBody
           = Some [("prompt_tokens", Some (JNum "0"));
                   ("completion_tokens", Some (JNum "0"));
                   ("cached_tokens", cached);
                   ("reasoning_tokens", reasoning)]).
Proof.
  split.
  - intros r. unfold extractUsageFromResponse.
    destruct (truthy responseBody); cbn [negb]; [|discriminate].
    destruct (truthy_opt (prop responseBody "usage")) eqn:Eu.
    + intros [= <-]. split; reflexivity.
    + rewrite !falsy_usage_has_nothing by exact Eu. cbn [defined orb].
      destruct (truthy_opt (prop responseBody "usageMetadata")); [|discriminate].
      intros [= <-]. split; reflexivity.
  - intros bs fs -> Hu Hp Hc. unfold extractUsageFromResponse.
    cbn [truthy negb prop]. rewrite Hu. cbn [truthy_opt truthy member prop].
    rewrite Hp, Hc. cbn [or_zero]. eexists _, _. reflexivity.
Qed.

Lemma claude_usage_witness :
  exists cached reasoning,
    extractUsageFromResponse
      (JObj [("id", JStr "msg_1");
             ("usage", JObj [("input_tokens", JNum "12");
                             ("output_tokens", JNum "34")])])
    = Some [("prompt_tokens", Some (JNum "0"));
            ("completion_tokens", Some (JNum "0"));
            ("cached_tokens", cached);
            ("reasoning_tokens", reasoning)].
Proof.
  apply (proj2 (claude_usage_is_read_as_openai _) _
           [("input_tokens", JNum "12"); ("output_tokens", JNum "34")] eq_refl);
    reflexivity.
Defined.

(** ** The calls that track the request *)

Definition is_start (x : effect) : bool :=
  match x with TrackPending true => true | _ => false end.

Definition is_end (x : effect) : bool :=
  match x with TrackPending false => true | _ => false end.

Definition is_success_call (x : effect) : bool :=
  match x with RequestSuccess => true | _ => false end.

Definition times (p : effect -> bool) (l : list effect) : nat :=
  length (List.filter p l).

Definition succeeded (r : result) : bool :=
  match r with Succeeded _ => true | _ => false end.

Lemma times_app p a b : times p (a ++ b) = times p a + times p b.
Proof. unfold times. now rewrite List.filter_app, length_app. Qed.

Lemma after_refresh_quiet e r0 :
  times is_start (snd (after_refresh e r0)) = 0
  /\ times is_end (snd (after_refresh e r0)) = 0
  /\ times is_success_call (snd (after_refresh e r0)) = 0.
Proof.
  unfold after_refresh.
  destruct (is_auth_failure r0); [|now repeat split].
  destruct (refresh e); try (now repeat split).
  destruct (retry_execute e) as [| |r]; try (now repeat split).
  destruct (ok r); now repeat split.
Qed.

(** The run ends in the rejection of the token refresh. *)
Definition refresh_threw (e : env) : bool :=
  negb (bypass e)
  && match first_execute e with
     | Responds r0 => refresh_throws e r0
     | _ => false
     end.

(** X12.  Whatever the executor, the token refresh and [response.json()]
    answer or throw (the other collaborators returning normally), a call of
    [handleChatCore] that the bypass does not answer reports the request as
    started exactly once, before anything else; [onRequestSuccess] is called
    once on success and never otherwise.  The request is reported as
    finished exactly once on every way out but two, where it is not reported
    as finished at all: the event stream, and a token refresh that throws
    after a 401 or 403, whose exception leaves [handleChatCore] with nothing
    but the start reported.  A call the bypass answers reports nothing. *)
Theorem pending_request_is_released (body_stream : option json) (e : env) :
  let r := fst (handleChatCore body_stream e) in
  let calls := snd (handleChatCore body_stream e) in
  (bypass e = true -> r = Bypassed /\ calls = [])
  /\ (bypass e = false ->
      (exists rest, calls = TrackPending true :: rest)
      /\ times is_start calls = 1
      /\ times is_end calls = (if is_event_stream r || refresh_threw e then 0 else 1)
      /\ times is_success_call calls = (if succeeded r then 1 else 0))
  /\ (refresh_threw e = true ->
      r = Rejected /\ calls = [TrackPending true; LogStatus "PENDING"]).
Proof.
  cbv zeta. unfold refresh_threw, handleChatCore.
  destruct (bypass e); cbn [negb andb];
    (split; [intros H; try discriminate H; now split|]);
    (split; [intros H; try discriminate H | intros H; try discriminate H]).
  - destruct (first_execute e) as [| message | r0];
      try (cbn [fst snd app is_event_stream succeeded orb];
           split; [eexists; reflexivity | now repeat split]).
    destruct (refresh_throws e r0).
    { cbn [fst snd is_event_stream succeeded orb].
      split; [eexists; reflexivity | now repeat split]. }
    rewrite orb_false_r.
    destruct (after_refresh_quiet e r0) as (Q1 & Q2 & Q3).
    destruct (after_refresh e r0) as [providerResponse refreshed].
    cbn [snd] in Q1, Q2, Q3.
    destruct (ok providerResponse); cbn [negb].
    + destruct (wants_stream body_stream); cbn [negb].
      * cbn [fst snd app is_event_stream succeeded].
        split; [eexists; reflexivity|].
        change (TrackPending true :: LogStatus "PENDING" :: refreshed ++ [RequestSuccess])
          with ([TrackPending true; LogStatus "PENDING"] ++ refreshed ++ [RequestSuccess]).
        rewrite !times_app, Q1, Q2, Q3. now repeat split.
      * destruct (json_body providerResponse) as [responseBody|];
          cbn [fst snd app is_event_stream succeeded];
          (split; [eexists; reflexivity|]).
        -- change (TrackPending true :: LogStatus "PENDING" :: ?x)
             with ([TrackPending true; LogStatus "PENDING"] ++ x).
           rewrite !times_app, Q1, Q2, Q3. now repeat split.
        -- change (TrackPending true :: LogStatus "PENDING" :: ?x)
             with ([TrackPending true; LogStatus "PENDING"] ++ x).
           rewrite !times_app, Q1, Q2, Q3. now repeat split.
    + destruct (parseUpstreamError e providerResponse) as [[statusCode message] retryAfterMs].
      cbn [fst snd app is_event_stream succeeded].
      split; [eexists; reflexivity|].
      change (TrackPending true :: LogStatus "PENDING" :: ?x)
        with ([TrackPending true; LogStatus "PENDING"] ++ x).
      rewrite !times_app, Q1, Q2, Q3. now repeat split.
  - destruct (first_execute e) as [| message | r0]; try discriminate H.
    rewrite H. now split.
Qed.

(** An upstream that answers 401 and a token refresh that throws. *)
Definition refresh_rejects : env :=
  {| bypass := false;
     first_execute := Responds {| status := 401; json_body := None |};
     refresh := RefreshThrows;
     retry_execute := ThrowsAbort;
     needsTranslation := false;
     parseUpstreamError := fun r => (status r, "", None);
     formatProviderError := fun message _ => message |}.

Lemma pending_request_witness :
  times is_end (snd (handleChatCore (Some (JBool false)) plain_ok)) = 1
  /\ times is_end (snd (handleChatCore None plain_ok)) = 0
  /\ times is_end (snd (handleChatCore None refresh_rejects)) = 0.
Proof.
  split; [|split].
  - apply (proj1 (proj2 (pending_request_is_released (Some (JBool false)) plain_ok))
             eq_refl).
  - apply (proj1 (proj2 (pending_request_is_released None plain_ok)) eq_refl).
  - apply (proj1 (proj2 (pending_request_is_released None refresh_rejects)) eq_refl).
Defined.

End ChatCore.

(* ===================================================================== *)
(** * handleSingleModelChat (src/sse/handlers/chat.js) *)
(* ===================================================================== *)
Module ChatHandler.
Import Js.

(** The response the handler returns to the client. *)
Record response : Type := {
  status : Z;
  body : string
}.

(** What [handleChatCore] returned to the handler: [result.success] with its
    response, or [result.status], [result.error] and the error response. *)
Inductive attempt : Type :=
| Success (r : response)
| Failure (status : Z) (error : string) (r : response).

Record credentials : Type := {
  connectionId : string
}.

Section Handler.

(** The account store and the services around it are not part of the
    handler; [World] is whatever state they keep. *)
Variable World : Type.
Variable getProviderCredentials :
  World -> string -> option string -> World * option credentials.
Variable checkAndRefreshToken : World -> string -> credentials -> World * credentials.
Variable handleChatCore : World -> credentials -> World * attempt.
Variable checkFallbackError : Z -> string -> bool * Z.
Variable markAccountUnavailable :
  World -> string -> Z -> string -> Z -> string -> World.

(** Modelled from the spec: [errorResponse(status, message)] of
    open-sse/utils/error.js, which is not among the sources; section 6 has it
    return the JSON body [{error: <message>}] with that status. *)
Definition errorResponse (status : Z) (message : string) : response :=
  {| status := status; body := message |}.

(** [str.slice(0, 100)] *)
Definition first100 (s : string) : string := String.substring 0 100 s.

(** The [while (true)] loop, for at most [rounds] rounds; [None] when they
    are used up with the loop still running. *)
Fixpoint attempts (rounds : nat) (provider : string) (w : World)
  (excludeConnectionId : option string) (lastError : option string)
  : option (World * response) :=
  match rounds with
  | 0 => None
  | S rounds' =>
      let '(w1, creds) := getProviderCredentials w provider excludeConnectionId in
      match creds with
      | None =>
          match excludeConnectionId with
          | Some (String _ _) =>
              Some (w1,
                    {| status := 503;
                       body := match lastError with
                               | Some ((String _ _) as e) => e
                               | _ => "All accounts unavailable"
                               end |})
          | _ =>
              Some (w1, errorResponse 400 ("No credentials for provider: " +:+ provider))
          end
      | Some c =>
          let '(w2, refreshed) := checkAndRefreshToken w1 provider c in
          let '(w3, result) := handleChatCore w2 refreshed in
          match result with
          | Success r => Some (w3, r)
          | Failure st error r =>
              let '(shouldFallback, cooldownMs) := checkFallbackError st error in
              if shouldFallback
              then
                attempts rounds' provider
                  (markAccountUnavailable w3 (connectionId c) cooldownMs
                     (first100 error) st provider)
                  (Some (connectionId c)) (Some error)
              else Some (w3, r)
          end
      end
  end.

(** [modelInfo] is what [getModelInfo(modelStr)] resolved to. *)
Definition handleSingleModelChat (rounds : nat) (w : World)
  (provider : option string) : option (World * response) :=
  match provider with
  | Some ((String _ _) as p) => attempts rounds p w None None
  | _ => Some (w, errorResponse 400 "Invalid model format")
  end.

(** ** What the client sees when accounts fail *)

(** One round of the loop with an account selected: the world after the
    attempt and what the attempt returned. *)
Definition attempt_with (w : World) (provider : string) (c : credentials)
  : World * attempt :=
  let '(w2, refreshed) := checkAndRefreshToken w provider c in
  handleChatCore w2 refreshed.

(** [!excludeConnectionId] is false: an id that is not the empty string. *)
Definition is_set (o : option string) : bool :=
  match o with Some (String _ _) => true | _ => false end.

(** [lastError || "All accounts unavailable"] *)
Definition last_error_or_default (lastError : option string) : string :=
  match lastError with
  | Some ((String _ _) as e) => e
  | _ => "All accounts unavailable"
  end.

(** The attempt failed in a way the fallback policy falls back on. *)
Definition falls_back (a : attempt) : bool :=
  match a with
  | Failure st error _ => fst (checkFallbackError st error)
  | Success _ => false
  end.

Lemma attempts_step rounds provider w ex le :
  attempts (S rounds) provider w ex le =
  match getProviderCredentials w provider ex with
  | (w1, None) =>
      match ex with
      | Some (String _ _) =>
          Some (w1, {| status := 503;
                       body := match le with
                               | Some ((String _ _) as e) => e
                               | _ => "All accounts unavailable"
                               end |})
      | _ => Some (w1, errorResponse 400 ("No credentials for provider: " +:+ provider))
      end
  | (w1, Some c) =>
      match attempt_with w1 provider c with
      | (w3, Success r) => Some (w3, r)
      | (w3, Failure st error r) =>
          if fst (checkFallbackError st error)
          then attempts rounds provider
                 (markAccountUnavailable w3 (connectionId c)
                    (snd (checkFallbackError st error)) (first100 error) st provider)
                 (Some (connectionId c)) (Some error)
          else Some (w3, r)
      end
  end.
Proof.
  simpl. unfold attempt_with.
  destruct (getProviderCredentials w provider ex) as [w1 [c|]]; [|reflexivity].
  destruct (checkAndRefreshToken w1 provider c) as [w2 refreshed].
  destruct (handleChatCore w2 refreshed) as [w3 [r|st error r]]; [reflexivity|].
  destruct (checkFallbackError st error) as [[] cooldownMs]; reflexivity.
Qed.

(** Once an account is excluded, the last error is the error of a failed
    attempt that was fallen back on. *)
Definition after_fallback (ex le : option string) : Prop :=
  is_set ex = true ->
  exists w0 c st error r,
    le = Some error
    /\ snd (handleChatCore w0 c) = Failure st error r
    /\ fst (checkFallbackError st error) = true.

(** What the loop can end in. *)
Definition ends_in (provider : string) (resp : response) : Prop :=
  resp = errorResponse 400 ("No credentials for provider: " +:+ provider)
  \/ (exists w0 c, snd (handleChatCore w0 c) = Success resp)
  \/ (exists w0 c st error,
        snd (handleChatCore w0 c) = Failure st error resp
        /\ fst (checkFallbackError st error) = false)
  \/ (exists w0 c st error r,
        snd (handleChatCore w0 c) = Failure st error r
        /\ fst (checkFallbackError st error) = true
        /\ resp = {| status := 503; body := last_error_or_default (Some error) |}).

Lemma attempts_outcome :
  forall rounds provider w ex le w' resp,
    after_fallback ex le ->
    attempts rounds provider w ex le = Some (w', resp) ->
    ends_in provider resp.
Proof.
  induction rounds as [|rounds IH]; intros provider w ex le w' resp Hinv H.
  - discriminate.
  - rewrite attempts_step in H.
    destruct (getProviderCredentials w provider ex) as [w1 [c|]].
    + unfold attempt_with in H.
      destruct (checkAndRefreshToken w1 provider c) as [w2 refreshed].
      destruct (handleChatCore w2 refreshed) as [w3 [r|st error r]] eqn:Hcore.
      * injection H as <- <-. right. left. exists w2, refreshed.
        now rewrite Hcore.
      * destruct (fst (checkFallbackError st error)) eqn:Hfb.
        -- apply IH in H; [exact H|].
           intros _. exists w2, refreshed, st, error, r.
           rewrite Hcore. now repeat split.
        -- injection H as <- <-. right. right. left.
           exists w2, refreshed, st, error. rewrite Hcore. now split.
    + destruct (is_set ex) eqn:Hex.
      * destruct (Hinv Hex) as (w0 & c & st & error & r & -> & Hc & Hfb).
        destruct ex as [[|a s]|]; try discriminate Hex.
        injection H as <- <-. right. right. right.
        exists w0, c, st, error, r. now repeat split.
      * destruct ex as [[|a s]|]; try discriminate Hex;
          injection H as <- <-; now left.
Qed.

(** The loop ends when every failure that is fallen back on leaves less to
    try: [measure] rounds, and one more, are enough. *)
Lemma attempts_end (measure : World -> nat) provider :
  (forall w ex w1 c w3 st error r,
      getProviderCredentials w provider ex = (w1, Some c) ->
      attempt_with w1 provider c = (w3, Failure st error r) ->
      fst (checkFallbackError st error) = true ->
      measure (markAccountUnavailable w3 (connectionId c)
                 (snd (checkFallbackError st error)) (first100 error) st provider)
      < measure w) ->
  forall rounds w ex le,
    measure w < rounds -> exists result, attempts rounds provider w ex le = Some result.
Proof.
  intros Hless. induction rounds as [|rounds IH]; intros w ex le Hm; [lia|].
  rewrite attempts_step.
  destruct (getProviderCredentials w provider ex) as [w1 [c|]] eqn:Hsel.
  - destruct (attempt_with w1 provider c) as [w3 [r|st error r]] eqn:Hatt; [eauto|].
    destruct (fst (checkFallbackError st error)) eqn:Hfb; [|eauto].
    apply IH. specialize (Hless w ex w1 c w3 st error r Hsel Hatt Hfb). lia.
  - destruct ex as [[|a s]|]; eauto.
Qed.

(** C6, as amended.  One round of the account loop, and the loop as a whole.
    When the selector has no credential and no account was excluded yet, the
    answer is status 400 ("No credentials for provider") and nothing is
    marked.  When it has none after an account was excluded, the answer is
    status 503 with the last error (or "All accounts unavailable"), and
    nothing more is marked.  A successful attempt is answered with its
    response.  A failed attempt the fallback policy does not fall back on is
    answered with the attempt's own error response, as it is, and the account
    is not marked.  A failed attempt the policy falls back on marks the
    account unavailable with the policy's cooldown, excludes it, keeps its
    error as the last error and goes on with the next round; its own response
    is not returned.  So a request that is answered is answered with one of
    four: the 400 for no credentials, the response of a successful attempt,
    the response of a failure not fallen back on, or 503 with the error of a
    failure that was fallen back on (whose account was marked).  And the
    request is answered, within [measure w] rounds and one, whenever every
    failure that is fallen back on leaves the store with a smaller
    [measure], as marking an eligible account unavailable does. *)
Theorem auth_failures_end_in_400_or_503 :
  forall (rounds : nat) (provider : string) (w : World)
         (ex lastError : option string),
    (forall w1,
        getProviderCredentials w provider ex = (w1, None) ->
        is_set ex = false ->
        attempts (S rounds) provider w ex lastError
        = Some (w1, errorResponse 400 ("No credentials for provider: " +:+ provider)))
    /\ (forall w1,
           getProviderCredentials w provider ex = (w1, None) ->
           is_set ex = true ->
           attempts (S rounds) provider w ex lastError
           = Some (w1, {| status := 503; body := last_error_or_default lastError |}))
    /\ (forall w1 c w3 r,
           getProviderCredentials w provider ex = (w1, Some c) ->
           attempt_with w1 provider c = (w3, Success r) ->
           attempts (S rounds) provider w ex lastError = Some (w3, r))
    /\ (forall w1 c w3 st error r,
           getProviderCredentials w provider ex = (w1, Some c) ->
           attempt_with w1 provider c = (w3, Failure st error r) ->
           fst (checkFallbackError st error) = false ->
           attempts (S rounds) provider w ex lastError = Some (w3, r))
    /\ (forall w1 c w3 st error r,
           getProviderCredentials w provider ex = (w1, Some c) ->
           attempt_with w1 provider c = (w3, Failure st error r) ->
           fst (checkFallbackError st error) = true ->
           attempts (S rounds) provider w ex lastError
           = attempts rounds provider
               (markAccountUnavailable w3 (connectionId c)
                  (snd (checkFallbackError st error)) (first100 error) st provider)
               (Some (connectionId c)) (Some error))
    /\ (forall w' resp,
           attempts rounds provider w None None = Some (w', resp) ->
           ends_in provider resp)
    /\ (forall measure : World -> nat,
           (forall w0 ex0 w1 c w3 st error r,
               getProviderCredentials w0 provider ex0 = (w1, Some c) ->
               attempt_with w1 provider c = (w3, Failure st error r) ->
               fst (checkFallbackError st error) = true ->
               measure (markAccountUnavailable w3 (connectionId c)
                          (snd (checkFallbackError st error)) (first100 error)
                          st provider)
               < measure w0) ->
           exists w' resp,
             attempts (S (measure w)) provider w None None = Some (w', resp)
             /\ ends_in provider resp).
Proof.
  intros rounds provider w ex lastError.
  split; [|split; [|split; [|split; [|split; [|split]]]]].
  7:{ intros measure Hless.
      destruct (attempts_end measure provider Hless (S (measure w)) w None None)
        as [[w' resp] H]; [lia|].
      exists w', resp. split; [exact H|].
      eapply attempts_outcome; [|exact H]. intros Hs. discriminate Hs. }
  - intros w1 H Hex. rewrite attempts_step, H.
    destruct ex as [[|a s]|]; [reflexivity | discriminate Hex | reflexivity].
  - intros w1 H Hex. rewrite attempts_step, H.
    destruct ex as [[|a s]|]; [discriminate Hex | reflexivity | discriminate Hex].
  - intros w1 c w3 r H1 H2. rewrite attempts_step, H1, H2. reflexivity.
  - intros w1 c w3 st error r H1 H2 H3.
    rewrite attempts_step, H1, H2, H3. reflexivity.
  - intros w1 c w3 st error r H1 H2 H3.
    rewrite attempts_step, H1, H2, H3. reflexivity.
  - intros w' resp H. eapply attempts_outcome; [|exact H]. intros Hs. discriminate Hs.
Qed.

End Handler.
(** ** A store of accounts to run the handler on

    Modelled from the spec: the credential selector, the fallback policy and
    the cooldown marking are not among the sources.  Per sections 4.4 and
    4.5 the selector returns the first account that is not excluded and not
    cooling down, a 401 or 403 left after the refresh is fallen back on with
    30 minutes of cooldown, and a marked account is not selected while it
    cools down.  The world is the list of accounts that are not cooling
    down. *)
Definition select_account (w : list string) (provider : string)
  (ex : option string) : list string * option credentials :=
  (w, option_map (fun a => {| connectionId := a |})
        (find (fun a => negb (match ex with
                              | Some x => String.eqb a x
                              | None => false
                              end)) w)).

Definition no_refresh (w : list string) (provider : string) (c : credentials)
  : list string * credentials := (w, c).

(** Every upstream call is answered 401 and no refresh helps. *)
Definition always_401 (w : list string) (c : credentials) : list string * attempt :=
  (w, Failure 401 "[401]: invalid token" {| status := 401; body := "[401]: invalid token" |}).

Definition fallback_policy (st : Z) (error : string) : bool * Z :=
  if ((st =? 401) || (st =? 403))%Z then (true, 1800000%Z) else (false, 0%Z).

Definition cool_down (w : list string) (account : string) (cooldownMs : Z)
  (error : string) (st : Z) (provider : string) : list string :=
  List.filter (fun a => negb (String.eqb a account)) w.

Definition run_on (accounts : list string) : option (list string * response) :=
  handleSingleModelChat (list string) select_account no_refresh always_401
    fallback_policy cool_down 5 accounts (Some "openai").

(** Marking takes the account out of the list, so the loop over this store
    ends: as many rounds as there are accounts, and one, are enough. *)
Lemma cool_down_shrinks (a : string) (w : list string) :
  In a w -> length (List.filter (fun x => negb (String.eqb x a)) w) < length w.
Proof.
  induction w as [|x w IH]; intros Hin; [destruct Hin|].
  cbn [List.filter length].
  destruct (String.eqb_spec x a) as [->|Hne]; cbn [negb].
  - pose proof (List.filter_length_le (fun x => negb (String.eqb x a)) w). lia.
  - destruct Hin as [->|Hin]; [congruence|]. cbn [length]. specialize (IH Hin). lia.
Qed.

Example accounts_run_out (accounts : list string) :
  exists result,
    attempts (list string) select_account no_refresh always_401
      fallback_policy cool_down (S (length accounts)) "openai" accounts None None
    = Some result.
Proof.
  apply (attempts_end (list string) select_account no_refresh always_401
           fallback_policy cool_down (@length string) "openai"); [|lia].
  intros w ex w1 c w3 st error r Hsel Hatt _.
  unfold select_account in Hsel. injection Hsel as <- Hc.
  unfold attempt_with, no_refresh, always_401 in Hatt. injection Hatt as <- _ _ _.
  destruct (find _ w) as [a|] eqn:Hf; [|discriminate].
  injection Hc as <-. cbn [connectionId]. unfold cool_down.
  apply cool_down_shrinks. now apply find_some in Hf.
Qed.

Lemma auth_failures_witness :
  attempts (list string) select_account no_refresh always_401
    fallback_policy cool_down 2 "openai" ["acc-1"] None None
  = attempts (list string) select_account no_refresh always_401
      fallback_policy cool_down 1 "openai" [] (Some "acc-1")
      (Some "[401]: invalid token")
  /\ attempts (list string) select_account no_refresh always_401
       fallback_policy cool_down 1 "openai" [] (Some "acc-1")
       (Some "[401]: invalid token")
     = Some ([], {| status := 503; body := "[401]: invalid token" |}).
Proof.
  split.
  - apply (proj1 (proj2 (proj2 (proj2 (proj2
             (auth_failures_end_in_400_or_503 (list string) select_account
                no_refresh always_401 fallback_policy cool_down
                1 "openai" ["acc-1"] None None)))))
             ["acc-1"] {| connectionId := "acc-1" |} ["acc-1"] 401%Z
             "[401]: invalid token"
             {| status := 401; body := "[401]: invalid token" |});
      reflexivity.
  - apply (proj1 (proj2
             (auth_failures_end_in_400_or_503 (list string) select_account
                no_refresh always_401 fallback_policy cool_down
                0 "openai" [] (Some "acc-1") (Some "[401]: invalid token")))
             []); reflexivity.
Defined.

(** C6 as stated fails both ways: with no credential for the provider the
    client gets 400, and with one account whose token cannot be refreshed
    (upstream 401) the client gets 503 after the account is marked; neither
    is 401 or 403. *)
Lemma no_credential_is_400_and_failed_refresh_is_503 :
  run_on [] = Some ([], {| status := 400;
                           body := "No credentials for provider: openai" |})
  /\ run_on ["acc-1"] = Some ([], {| status := 503; body := "[401]: invalid token" |}).
Proof. split; reflexivity. Qed.

End ChatHandler.

(* ===================================================================== *)
(** * Usage recorder (src/lib/usageDb.js) *)
(* ===================================================================== *)
Module UsageDb.

(** ** trackPendingRequest *)

(** The module-level [pendingRequests]; a count that was never written is
    absent. *)
Record pendingRequests : Type := {
  byModel : gmap string Z;
  byAccount : gmap string (gmap string Z)
}.

Definition no_requests : pendingRequests :=
  {| byModel := ∅; byAccount := ∅ |}.

(** A string argument that may be [undefined]; the empty string is falsy
    as well. *)
Definition given (o : option string) : option string :=
  match o with
  | Some ((String _ _) as s) => Some s
  | _ => None
  end.

Definition modelKeyOf (model : string) (provider : option string) : string :=
  match given provider with
  | Some p => model +:+ " (" +:+ p +:+ ")"
  | None => model
  end.

(** The names every object inherits from [Object.prototype].  A read
    [m[k]] under one of them finds the inherited member when [m] has no own
    property [k]. *)
Definition Object_prototype_names : list string :=
  [ "constructor"; "hasOwnProperty"; "isPrototypeOf"; "propertyIsEnumerable";
    "toLocaleString"; "toString"; "valueOf"; "__proto__";
    "__defineGetter__"; "__defineSetter__"; "__lookupGetter__"; "__lookupSetter__" ].

Definition inherited_name (k : string) : bool :=
  existsb (String.eqb k) Object_prototype_names.

(** The two statements on one counter:
    [if (!m[k]) m[k] = 0;  m[k] = Math.max(0, m[k] + (started ? 1 : -1))],
    for a key [k] that is not an inherited name: the object is then a finite
    map from its own keys to counts.  (Under an inherited name the first
    read finds a function or [Object.prototype], and what is stored is [NaN]
    or nothing; [plain_call] keeps such keys out.) *)
Definition count_step (started : bool) (m : gmap string Z) (k : string)
  : gmap string Z :=
  let m0 :=
    match m !! k with
    | Some c => if (c =? 0)%Z then <[k := 0%Z]> m else m
    | None => <[k := 0%Z]> m
    end in
  <[k := Z.max 0 (default 0%Z (m0 !! k) + (if started then 1 else -1))]> m0.

Definition trackPendingRequest (p : pendingRequests) (model : string)
  (provider connectionId : option string) (started : bool) : pendingRequests :=
  let modelKey := modelKeyOf model provider in
  let byModel' := count_step started (byModel p) modelKey in
  match given connectionId with
  | Some accountKey =>
      let inner := default ∅ (byAccount p !! accountKey) in
      {| byModel := byModel';
         byAccount := <[accountKey := count_step started inner modelKey]> (byAccount p) |}
  | None => {| byModel := byModel'; byAccount := byAccount p |}
  end.

(** One call with its arguments. *)
Record call : Type := {
  c_model : string;
  c_provider : option string;
  c_connectionId : option string;
  c_started : bool
}.

Definition track (p : pendingRequests) (c : call) : pendingRequests :=
  trackPendingRequest p (c_model c) (c_provider c) (c_connectionId c) (c_started c).

(** Neither the model key nor the account key of the call is a name
    inherited from [Object.prototype]. *)
Definition plain_call (c : call) : bool :=
  negb (inherited_name (modelKeyOf (c_model c) (c_provider c)))
  && match given (c_connectionId c) with
     | Some accountKey => negb (inherited_name accountKey)
     | None => true
     end.

Definition after (calls : list call) : pendingRequests :=
  fold_left track calls no_requests.

(** The stored counts; a count never written reads as 0 on the dashboard. *)
Definition activeByModel (p : pendingRequests) (modelKey : string) : Z :=
  default 0%Z (byModel p !! modelKey).

Definition activeByAccount (p : pendingRequests) (account modelKey : string) : Z :=
  default 0%Z (default ∅ (byAccount p !! account) !! modelKey).

(** ** calculateCost *)

(** The token counts of a usage entry; a field the entry lacks is [None]. *)
Record tokens : Type := {
  prompt_tokens : option Z;
  input_tokens : option Z;
  cached_tokens : option Z;
  cache_read_input_tokens : option Z;
  completion_tokens : option Z;
  output_tokens : option Z;
  reasoning_tokens : option Z;
  cache_creation_input_tokens : option Z
}.

(** A JavaScript number: an IEEE 754 binary64 value, with the arithmetic of
    the standard (round to nearest, ties to even). *)
Definition number : Type := spec_float.

Definition fadd : number -> number -> number := SFadd 53 1024.
Definition fmul : number -> number -> number := SFmul 53 1024.
Definition fdiv : number -> number -> number := SFdiv 53 1024.

Definition zero : number := S754_zero false.

(** A whole number as a binary64 value; it is held exactly up to [2^53]. *)
Definition of_Z (n : Z) : number := binary_normalize 53 1024 n 0 false.

(** [!x] on a number: 0, -0 and [NaN] are falsy. *)
Definition falsy_number (x : number) : bool :=
  match x with
  | S754_zero _ | S754_nan => true
  | _ => false
  end.

(** A pricing entry, in USD per million tokens; [input] and [output] are
    always there, the other three rates are optional. *)
Record pricing : Type := {
  input : number;
  output : number;
  cached : option number;
  reasoning : option number;
  cache_creation : option number
}.

(** What [getPricingForModel] (src/lib/localDb.js, not among the sources)
    answers: an entry, nothing, or an exception. *)
Inductive lookup : Type :=
| Entry (p : pricing)
| NoEntry
| LookupThrows.

(** [a || b] on counts and on rates: 0 and [undefined] are falsy. *)
Definition count_or (a : option Z) (b : Z) : Z :=
  match a with
  | Some n => if (n =? 0)%Z then b else n
  | None => b
  end.

Definition rate_or (a : option number) (b : number) : number :=
  match a with
  | Some r => if falsy_number r then b else r
  | None => b
  end.

(** [rate / 1000000] *)
Definition per_token (rate : number) : number := fdiv rate (of_Z 1000000).

(** The token counts are whole numbers from 0 up to [2^53], which binary64
    holds exactly, as is their difference; they enter the arithmetic of the
    cost through [of_Z].  [cost] starts as 0 and every [cost += ...] is one
    rounded addition of one rounded product. *)
Definition calculateCost (getPricingForModel : string -> string -> lookup)
  (provider model : option string) (tokens : option tokens) : number :=
  match tokens, given provider, given model with
  | Some t, Some p, Some m =>
      match getPricingForModel p m with
      | LookupThrows => zero
      | NoEntry => zero
      | Entry pricing =>
          let inputTokens := count_or (prompt_tokens t) (count_or (input_tokens t) 0) in
          let cachedTokens :=
            count_or (cached_tokens t) (count_or (cache_read_input_tokens t) 0) in
          let nonCachedInput := Z.max 0 (inputTokens - cachedTokens) in
          let cost0 := fadd zero (fmul (of_Z nonCachedInput) (per_token (input pricing))) in
          let cost1 :=
            if (cachedTokens >? 0)%Z
            then fadd cost0
                   (fmul (of_Z cachedTokens)
                      (per_token (rate_or (cached pricing) (input pricing))))
            else cost0 in
          let outputTokens :=
            count_or (completion_tokens t) (count_or (output_tokens t) 0) in
          let cost2 := fadd cost1 (fmul (of_Z outputTokens) (per_token (output pricing))) in
          let reasoningTokens := count_or (reasoning_tokens t) 0 in
          let cost3 :=
            if (reasoningTokens >? 0)%Z
            then fadd cost2
                   (fmul (of_Z reasoningTokens)
                      (per_token (rate_or (reasoning pricing) (output pricing))))
            else cost2 in
          let cacheCreationTokens := count_or (cache_creation_input_tokens t) 0 in
          if (cacheCreationTokens >? 0)%Z
          then fadd cost3
                 (fmul (of_Z cacheCreationTokens)
                    (per_token (rate_or (cache_creation pricing) (input pricing))))
          else cost3
      end
  | _, _, _ => zero
  end.

(** ** The in-flight counter as a walk clamped at zero *)

Definition bump (started : bool) (count : Z) : Z :=
  Z.max 0 (count + (if started then 1 else -1)).

(** The calls that touch the counter of a model key, and those that touch the
    counter of an account and a model key. *)
Definition on_model (modelKey : string) (c : call) : bool :=
  String.eqb (modelKeyOf (c_model c) (c_provider c)) modelKey.

Definition on_account (account modelKey : string) (c : call) : bool :=
  match given (c_connectionId c) with
  | Some a => String.eqb a account && on_model modelKey c
  | None => false
  end.

(** Begin calls, end calls and their difference among the calls [sel] picks. *)
Definition begins (sel : call -> bool) (calls : list call) : Z :=
  Z.of_nat (length (List.filter (fun c => sel c && c_started c) calls)).

Definition ends (sel : call -> bool) (calls : list call) : Z :=
  Z.of_nat (length (List.filter (fun c => sel c && negb (c_started c)) calls)).

Definition balance (sel : call -> bool) (calls : list call) : Z :=
  (begins sel calls - ends sel calls)%Z.

(** The least balance any prefix of the calls has (the empty one has 0). *)
Fixpoint lowest (sel : call -> bool) (calls : list call) : Z :=
  match calls with
  | [] => 0
  | c :: r => Z.min 0 (balance sel [c] + lowest sel r)
  end.

Lemma count_step_same started m k :
  default 0%Z (count_step started m k !! k) = bump started (default 0%Z (m !! k)).
Proof.
  unfold count_step, bump.
  rewrite lookup_insert_eq. simpl.
  destruct (m !! k) as [c|] eqn:E.
  - destruct (Z.eqb_spec c 0) as [->|Hc].
    + now rewrite lookup_insert_eq.
    + now rewrite E.
  - now rewrite lookup_insert_eq.
Qed.

Lemma count_step_other started m k k' :
  k <> k' -> count_step started m k !! k' = m !! k'.
Proof.
  intros Hne. unfold count_step.
  rewrite lookup_insert_ne by assumption.
  destruct (m !! k) as [c|]; [destruct (c =? 0)%Z|];
    try reflexivity; now rewrite lookup_insert_ne.
Qed.

Lemma activeByModel_track p c k :
  activeByModel (track p c) k =
  if on_model k c then bump (c_started c) (activeByModel p k) else activeByModel p k.
Proof.
  unfold activeByModel, track, trackPendingRequest, on_model.
  assert (Hm : forall q, byModel (match given (c_connectionId c) with
     | Some accountKey => {| byModel := count_step (c_started c) (byModel p) (modelKeyOf (c_model c) (c_provider c));
            byAccount := q accountKey |}
     | None => {| byModel := count_step (c_started c) (byModel p) (modelKeyOf (c_model c) (c_provider c)); byAccount := byAccount p |} end)
     = count_step (c_started c) (byModel p) (modelKeyOf (c_model c) (c_provider c))).
  { intros q. now destruct (given (c_connectionId c)). }
  rewrite Hm. clear Hm.
  destruct (String.eqb_spec (modelKeyOf (c_model c) (c_provider c)) k) as [->|Hne].
  - apply count_step_same.
  - now rewrite count_step_other.
Qed.

Lemma activeByAccount_track p c a k :
  activeByAccount (track p c) a k =
  if on_account a k c then bump (c_started c) (activeByAccount p a k)
  else activeByAccount p a k.
Proof.
  unfold activeByAccount, track, trackPendingRequest, on_account, on_model.
  destruct (given (c_connectionId c)) as [a'|]; simpl; [|reflexivity].
  destruct (String.eqb_spec a' a) as [->|Hne]; simpl.
  - rewrite lookup_insert_eq. simpl.
    destruct (String.eqb_spec (modelKeyOf (c_model c) (c_provider c)) k) as [->|Hk].
    + apply count_step_same.
    + now rewrite count_step_other.
  - now rewrite lookup_insert_ne.
Qed.

Lemma balance_cons sel c r :
  balance sel (c :: r) = (balance sel [c] + balance sel r)%Z.
Proof.
  unfold balance, begins, ends. simpl.
  destruct (sel c), (c_started c); simpl length; lia.
Qed.

Lemma balance_one sel c :
  balance sel [c] = if sel c then (if c_started c then 1 else -1)%Z else 0%Z.
Proof. unfold balance, begins, ends. simpl. now destruct (sel c), (c_started c). Qed.

Lemma lowest_nonpos sel calls : (lowest sel calls <= 0)%Z.
Proof. destruct calls; simpl; lia. Qed.

(** Some prefix has the least balance. *)
Lemma lowest_attained sel calls :
  exists n, lowest sel calls = balance sel (firstn n calls).
Proof.
  induction calls as [|c r [n IH]]; simpl.
  - exists 0. reflexivity.
  - destruct (Z.min_spec 0 (balance sel [c] + lowest sel r)) as [[_ ->]|[_ ->]].
    + exists 0. reflexivity.
    + exists (S n). simpl. rewrite (balance_cons sel c (firstn n r)). lia.
Qed.

Lemma lowest_le_prefix sel calls n :
  (lowest sel calls <= balance sel (firstn n calls))%Z.
Proof.
  revert n. induction calls as [|c r IH]; intros n.
  - rewrite firstn_nil. reflexivity.
  - destruct n as [|n].
    + apply lowest_nonpos.
    + simpl. rewrite (balance_cons sel c (firstn n r)). specialize (IH n). lia.
Qed.

(** A counter that reads [x] and then sees [calls]. *)
Lemma clamped_walk (sel : call -> bool) (read : pendingRequests -> Z) :
  (forall p c, read (track p c) = if sel c then bump (c_started c) (read p) else read p) ->
  forall calls p, (0 <= read p)%Z ->
    read (fold_left track calls p) =
    Z.max (read p + balance sel calls)%Z (balance sel calls - lowest sel calls)%Z.
Proof.
  intros Hstep. induction calls as [|c r IH]; intros p Hp; simpl.
  - change (balance sel []) with 0%Z. lia.
  - rewrite IH.
    + rewrite (balance_cons sel c r), Hstep, balance_one.
      pose proof (lowest_nonpos sel r).
      unfold bump. destruct (sel c), (c_started c); lia.
    + rewrite Hstep. unfold bump. destruct (sel c); lia.
Qed.

Lemma stored_closed_form (sel : call -> bool) (read : pendingRequests -> Z) calls :
  (forall p c, read (track p c) = if sel c then bump (c_started c) (read p) else read p) ->
  read no_requests = 0%Z ->
  read (after calls) = (balance sel calls - lowest sel calls)%Z.
Proof.
  intros Hstep H0. unfold after.
  rewrite (clamped_walk sel read Hstep) by lia.
  rewrite H0. pose proof (lowest_nonpos sel calls). lia.
Qed.

Lemma lowest_zero sel calls :
  (forall n, 0 <= balance sel (firstn n calls))%Z -> lowest sel calls = 0%Z.
Proof.
  intros H. destruct (lowest_attained sel calls) as [n Hn].
  pose proof (lowest_nonpos sel calls). specialize (H n). lia.
Qed.

(** C7, as amended.  For calls and keys that use no name inherited from
    [Object.prototype]: at every observation point each stored count (one
    per model key, one per account and model key) is at least 0 and equals
    the balance of begin calls minus end calls for that key, less the lowest
    balance a prefix of the call sequence reached; it equals the balance
    itself whenever no prefix has more end calls than begin calls. *)
Theorem pending_counts_are_clamped_balances :
  forall (calls : list call) (modelKey account : string),
    Forall (fun c => plain_call c = true) calls ->
    inherited_name modelKey = false ->
    inherited_name account = false ->
    (0 <= activeByModel (after calls) modelKey)%Z
    /\ (0 <= activeByAccount (after calls) account modelKey)%Z
    /\ activeByModel (after calls) modelKey
        = (balance (on_model modelKey) calls - lowest (on_model modelKey) calls)%Z
    /\ activeByAccount (after calls) account modelKey
        = (balance (on_account account modelKey) calls
           - lowest (on_account account modelKey) calls)%Z
    /\ ((forall n, 0 <= balance (on_model modelKey) (firstn n calls))%Z ->
        activeByModel (after calls) modelKey = balance (on_model modelKey) calls)
    /\ ((forall n, 0 <= balance (on_account account modelKey) (firstn n calls))%Z ->
        activeByAccount (after calls) account modelKey
        = balance (on_account account modelKey) calls).
Proof.
  intros calls modelKey account _ _ _.
  assert (HM : activeByModel (after calls) modelKey
               = (balance (on_model modelKey) calls
                  - lowest (on_model modelKey) calls)%Z).
  { apply (stored_closed_form (on_model modelKey)
             (fun p => activeByModel p modelKey)).
    - intros p c. apply activeByModel_track.
    - reflexivity. }
  assert (HA : activeByAccount (after calls) account modelKey
               = (balance (on_account account modelKey) calls
                  - lowest (on_account account modelKey) calls)%Z).
  { apply (stored_closed_form (on_account account modelKey)
             (fun p => activeByAccount p account modelKey)).
    - intros p c. apply activeByAccount_track.
    - reflexivity. }
  pose proof (lowest_le_prefix (on_model modelKey) calls (length calls)) as LM.
  pose proof (lowest_le_prefix (on_account account modelKey) calls (length calls)) as LA.
  rewrite firstn_all in LM, LA.
  repeat split; try assumption; try lia.
  - intros H. rewrite HM, (lowest_zero _ _ H). lia.
  - intros H. rewrite HA, (lowest_zero _ _ H). lia.
Qed.

Definition begin_call : call :=
  {| c_model := "gpt-4o"; c_provider := Some "openai";
     c_connectionId := Some "acc-1"; c_started := true |}.

Definition end_call : call :=
  {| c_model := "gpt-4o"; c_provider := Some "openai";
     c_connectionId := Some "acc-1"; c_started := false |}.

(** One request begun and ended: the count is the balance, 0. *)
Lemma pending_counts_witness :
  activeByModel (after [begin_call; end_call]) "gpt-4o (openai)"
  = balance (on_model "gpt-4o (openai)") [begin_call; end_call].
Proof.
  assert (Hplain : Forall (fun c => plain_call c = true) [begin_call; end_call])
    by (repeat constructor).
  apply (proj1 (proj2 (proj2 (proj2 (proj2
           (pending_counts_are_clamped_balances
              [begin_call; end_call] "gpt-4o (openai)" "acc-1"
              Hplain eq_refl eq_refl)))))).
  intros [|[|[|n]]]; vm_compute; discriminate.
Defined.

(** C7 as stated fails: a request whose end is reported twice, followed by a
    new request.  One request is in flight and the counters say 1, while
    begin calls minus end calls is 0. *)
Lemma double_end_breaks_balance :
  activeByModel (after [begin_call; end_call; end_call; begin_call])
    "gpt-4o (openai)" = 1%Z
  /\ activeByAccount (after [begin_call; end_call; end_call; begin_call])
       "acc-1" "gpt-4o (openai)" = 1%Z
  /\ balance (on_model "gpt-4o (openai)")
       [begin_call; end_call; end_call; begin_call] = 0%Z
  /\ balance (on_account "acc-1" "gpt-4o (openai)")
       [begin_call; end_call; end_call; begin_call] = 0%Z.
Proof. repeat split; vm_compute; reflexivity. Qed.

(** ** The cost of a usage entry *)

(** A usage entry with the five token categories under their OpenAI names. *)
Definition usage (prompt cached completion reasoning creation : Z) : tokens :=
  {| prompt_tokens := Some prompt; input_tokens := None;
     cached_tokens := Some cached; cache_read_input_tokens := None;
     completion_tokens := Some completion; output_tokens := None;
     reasoning_tokens := Some reasoning;
     cache_creation_input_tokens := Some creation |}.

(** The rates an entry charges per token of each category. *)
Definition input_rate (p : pricing) : number := per_token (input p).
Definition cached_rate (p : pricing) : number := per_token (rate_or (cached p) (input p)).
Definition output_rate (p : pricing) : number := per_token (output p).
Definition reasoning_rate (p : pricing) : number :=
  per_token (rate_or (reasoning p) (output p)).
Definition creation_rate (p : pricing) : number :=
  per_token (rate_or (cache_creation p) (input p)).

(** A rate per token that is finite and not negative. *)
Definition finite_rate (x : number) : bool :=
  match x with
  | S754_zero false | S754_finite false _ _ => true
  | _ => false
  end.

Definition finite_rates (p : pricing) : bool :=
  finite_rate (input_rate p) && finite_rate (cached_rate p)
  && finite_rate (output_rate p) && finite_rate (reasoning_rate p)
  && finite_rate (creation_rate p).

(** A count that binary64 holds exactly. *)
Definition countable (n : Z) : Prop := (0 <= n <= 2 ^ 53)%Z.

(** Not negative: a number with the sign bit clear, or [NaN]. *)
Definition unsigned (x : number) : Prop :=
  match x with
  | S754_zero s | S754_infinity s | S754_finite s _ _ => s = false
  | S754_nan => True
  end.

Lemma count_or_some n : count_or (Some n) (count_or None 0) = n.
Proof. simpl. destruct (Z.eqb_spec n 0); congruence. Qed.

Lemma count_or_some0 n : count_or (Some n) 0 = n.
Proof. simpl. destruct (Z.eqb_spec n 0); congruence. Qed.

Lemma round_unsigned mx ex lx : unsigned (binary_round_aux 53 1024 false mx ex lx).
Proof.
  unfold binary_round_aux.
  destruct (shr_fexp 53 1024 mx ex lx) as [mrs' e'].
  destruct (shr_fexp 53 1024 _ e' loc_Exact) as [mrs'' e''].
  destruct (shr_m mrs'') as [|m|m]; cbn; [reflexivity | | exact I].
  destruct (Z.leb e'' (1024 - 53)); reflexivity.
Qed.

Lemma of_Z_unsigned n : (0 <= n)%Z -> unsigned (of_Z n).
Proof.
  intros Hn. unfold of_Z, binary_normalize.
  destruct n as [|m|m]; [reflexivity | | lia].
  unfold binary_round. destruct (shl_align _ _ _) as [mz ez]. apply round_unsigned.
Qed.

Lemma fmul_unsigned x y : unsigned x -> unsigned y -> unsigned (fmul x y).
Proof.
  destruct x as [sx|sx| |sx mx ex], y as [sy|sy| |sy my ey];
    try (cbn; intros -> ->; reflexivity); try (cbn; intros; exact I).
  cbn [unsigned]. intros -> ->. apply round_unsigned.
Qed.

Lemma fadd_unsigned x y : unsigned x -> unsigned y -> unsigned (fadd x y).
Proof.
  destruct x as [sx|sx| |sx mx ex], y as [sy|sy| |sy my ey];
    try (cbn; intros -> ->; reflexivity); try (cbn; intros; exact I).
  cbn [unsigned]. intros -> ->. unfold fadd, SFadd, cond_Zopp.
  generalize (fst (shl_align mx ex (Z.min ex ey))) (fst (shl_align my ey (Z.min ex ey))).
  intros ma mb. change (Z.pos ma + Z.pos mb)%Z with (Z.pos (ma + mb)).
  unfold binary_normalize, binary_round.
  destruct (shl_align (ma + mb) _ _) as [mz ez]. apply round_unsigned.
Qed.

Lemma finite_rate_unsigned x : finite_rate x = true -> unsigned x.
Proof. destruct x as [[]|[]| |[] m e]; cbn; congruence. Qed.

(** Adding a zero of either sign changes nothing. *)
Lemma fadd_zero_r x s : unsigned x -> fadd x (S754_zero s) = x.
Proof. destruct x as [sx|sx| |sx mx ex]; cbn; try reflexivity. intros ->. now destruct s. Qed.

Lemma fmul_zero_l rate : finite_rate rate = true -> fmul (of_Z 0) rate = zero.
Proof. destruct rate as [[]|[]| |[] m e]; intros H; try discriminate H; reflexivity. Qed.

(** A category without tokens adds nothing, charged or not. *)
Lemma charge_if_positive (n : Z) (acc rate : number) :
  (0 <= n)%Z -> unsigned acc -> finite_rate rate = true ->
  (if (n >? 0)%Z then fadd acc (fmul (of_Z n) rate) else acc)
  = fadd acc (fmul (of_Z n) rate).
Proof.
  intros Hn Hacc Hrate. destruct (Z.gtb_spec n 0) as [_|Hle]; [reflexivity|].
  assert (n = 0%Z) as -> by lia.
  rewrite (fmul_zero_l rate Hrate). symmetry. now apply fadd_zero_r.
Qed.

(** The categories charged one after the other. *)
Definition charged (acc : number) (n : Z) (rate : number) : number :=
  fadd acc (fmul (of_Z n) rate).

Lemma charged_unsigned acc n rate :
  unsigned acc -> (0 <= n)%Z -> finite_rate rate = true -> unsigned (charged acc n rate).
Proof.
  intros Ha Hn Hr. apply fadd_unsigned; [exact Ha|].
  apply fmul_unsigned; [now apply of_Z_unsigned | now apply finite_rate_unsigned].
Qed.

(** The cost as one formula, for counts that are not negative. *)
Lemma cost_closed_form g (p m : string) pr a c o r k :
  given (Some p) = Some p -> given (Some m) = Some m ->
  g p m = Entry pr -> finite_rates pr = true ->
  (0 <= c)%Z -> (0 <= o)%Z -> (0 <= r)%Z -> (0 <= k)%Z ->
  calculateCost g (Some p) (Some m) (Some (usage a c o r k))
  = charged (charged (charged (charged (charged zero
        (Z.max 0 (a - c)) (input_rate pr))
        c (cached_rate pr))
        o (output_rate pr))
        r (reasoning_rate pr))
        k (creation_rate pr).
Proof.
  intros Hp Hm Hg Hfin Hc Ho Hr Hk.
  unfold finite_rates in Hfin. rewrite !andb_true_iff in Hfin.
  destruct Hfin as ((((F1 & F2) & F3) & F4) & F5).
  unfold calculateCost. rewrite Hp, Hm, Hg.
  cbn [prompt_tokens input_tokens cached_tokens cache_read_input_tokens
       completion_tokens output_tokens reasoning_tokens
       cache_creation_input_tokens usage].
  rewrite ?count_or_some, ?count_or_some0.
  fold (input_rate pr) (cached_rate pr) (output_rate pr) (reasoning_rate pr)
       (creation_rate pr).
  fold (charged zero (Z.max 0 (a - c)) (input_rate pr)).
  assert (U0 : unsigned (charged zero (Z.max 0 (a - c)) (input_rate pr)))
    by (apply charged_unsigned; [reflexivity | lia | exact F1]).
  rewrite (charge_if_positive c _ (cached_rate pr) Hc U0 F2).
  fold (charged (charged zero (Z.max 0 (a - c)) (input_rate pr)) c (cached_rate pr)).
  pose proof (charged_unsigned _ c _ U0 Hc F2) as U1.
  fold (charged (charged (charged zero (Z.max 0 (a - c)) (input_rate pr))
                   c (cached_rate pr)) o (output_rate pr)).
  pose proof (charged_unsigned _ o _ U1 Ho F3) as U2.
  rewrite (charge_if_positive r _ (reasoning_rate pr) Hr U2 F4).
  fold (charged (charged (charged (charged zero (Z.max 0 (a - c)) (input_rate pr))
                   c (cached_rate pr)) o (output_rate pr)) r (reasoning_rate pr)).
  pose proof (charged_unsigned _ r _ U2 Hr F4) as U3.
  rewrite (charge_if_positive k _ (creation_rate pr) Hk U3 F5).
  reflexivity.
Qed.

(** The cost of a usage with the given five counts. *)
Definition cost_of (g : string -> string -> lookup) (p m : string)
  (prompt cached completion reasoning creation : Z) : number :=
  calculateCost g (Some p) (Some m)
    (Some (usage prompt cached completion reasoning creation)).

Lemma given_nonempty (s : string) : s <> "" -> given (Some s) = Some s.
Proof. destruct s; [congruence | reflexivity]. Qed.

Lemma cost_without_pricing g p m t :
  (forall p' m', given p = Some p' -> given m = Some m' ->
                 g p' m' = NoEntry \/ g p' m' = LookupThrows) ->
  calculateCost g p m t = zero.
Proof.
  intros H. unfold calculateCost.
  destruct t as [t|]; [|reflexivity].
  destruct (given p) as [p'|]; [|reflexivity].
  destruct (given m) as [m'|]; [|reflexivity].
  destruct (H p' m' eq_refl eq_refl) as [-> | ->]; reflexivity.
Qed.

Lemma charged_nothing acc rate :
  unsigned acc -> finite_rate rate = true -> charged acc 0 rate = acc.
Proof.
  intros Ha Hr. unfold charged. rewrite (fmul_zero_l rate Hr). now apply fadd_zero_r.
Qed.

(** C8, as amended.  The numbers are binary64.  Without tokens, provider or
    model the cost is 0, and so is the cost of any usage for which the
    pricing lookup finds no entry (or fails).  With an entry whose rates per
    token are finite and not negative, and counts from 0 to [2^53]: the cost
    of zero tokens is 0; the cost is the five categories charged one after
    the other from 0 (prompt, cached, completion, reasoning, cache creation),
    each a rounded addition of the rounded product of the count and the rate
    per token, the prompt count being taken less the cached count and not
    below 0; and a usage with tokens of one category only (completion,
    reasoning or cache creation) costs the rounded product for that
    category. *)
Theorem cost_is_a_sum_of_rounded_products :
  forall (g : string -> string -> lookup) (p m : string) (pr : pricing)
         (a c o r k : Z),
    p <> "" -> m <> "" ->
    countable a -> countable c -> countable o -> countable r -> countable k ->
    (forall t, calculateCost g None (Some m) t = zero
               /\ calculateCost g (Some p) None t = zero
               /\ calculateCost g (Some p) (Some m) None = zero)
    /\ (g p m = NoEntry \/ g p m = LookupThrows -> cost_of g p m a c o r k = zero)
    /\ (g p m = Entry pr -> finite_rates pr = true ->
        cost_of g p m 0 0 0 0 0 = zero
        /\ cost_of g p m a c o r k
           = charged (charged (charged (charged (charged zero
                 (Z.max 0 (a - c)) (input_rate pr))
                 c (cached_rate pr))
                 o (output_rate pr))
                 r (reasoning_rate pr))
                 k (creation_rate pr)
        /\ cost_of g p m 0 0 o 0 0 = fadd zero (fmul (of_Z o) (output_rate pr))
        /\ cost_of g p m 0 0 0 r 0 = fadd zero (fmul (of_Z r) (reasoning_rate pr))
        /\ cost_of g p m 0 0 0 0 k = fadd zero (fmul (of_Z k) (creation_rate pr))).
Proof.
  intros g p m pr a c o r k Hp Hm [Ha _] [Hc _] [Ho _] [Hr _] [Hk _].
  apply given_nonempty in Hp. apply given_nonempty in Hm.
  split; [|split].
  - intros t. unfold calculateCost. rewrite Hp.
    destruct t as [t|]; repeat split; reflexivity.
  - intros H. apply cost_without_pricing.
    intros p' m' Ep Em. rewrite Hp in Ep. rewrite Hm in Em.
    injection Ep as <-. injection Em as <-. exact H.
  - intros Hg Hfin. unfold cost_of.
    rewrite !(cost_closed_form g p m pr) by (assumption || lia).
    unfold finite_rates in Hfin. rewrite !andb_true_iff in Hfin.
    destruct Hfin as ((((F1 & F2) & F3) & F4) & F5).
    assert (Z0 : charged zero (Z.max 0 (0 - 0)) (input_rate pr) = zero)
      by (apply charged_nothing; [reflexivity | exact F1]).
    assert (Uz : unsigned zero) by reflexivity.
    split; [|split; [reflexivity|split; [|split]]].
    + rewrite Z0, (charged_nothing zero _ Uz F2), (charged_nothing zero _ Uz F3),
        (charged_nothing zero _ Uz F4), (charged_nothing zero _ Uz F5).
      reflexivity.
    + rewrite Z0, (charged_nothing zero _ Uz F2).
      pose proof (charged_unsigned zero o _ Uz Ho F3) as U.
      rewrite (charged_nothing _ _ U F4), (charged_nothing _ _ U F5). reflexivity.
    + rewrite Z0, (charged_nothing zero _ Uz F2), (charged_nothing zero _ Uz F3).
      pose proof (charged_unsigned zero r _ Uz Hr F4) as U.
      rewrite (charged_nothing _ _ U F5). reflexivity.
    + rewrite Z0, (charged_nothing zero _ Uz F2), (charged_nothing zero _ Uz F3),
        (charged_nothing zero _ Uz F4).
      reflexivity.
Qed.

(** A Claude-Sonnet-like entry: 3 USD per million input tokens, 15 per
    million output tokens, 0.30 per million cached tokens, 3.75 per million
    cache-creation tokens. *)
Definition sonnet_pricing : pricing :=
  {| input := of_Z 3; output := of_Z 15;
     cached := Some (fdiv (of_Z 3) (of_Z 10));
     reasoning := None;
     cache_creation := Some (fdiv (of_Z 375) (of_Z 100)) |}.

Definition sonnet_only (p m : string) : lookup := Entry sonnet_pricing.

(** 1000 prompt tokens of which 200 were cached, and 75 completion tokens:
    0.0035850000000000005 dollars, which is [8266447188031094 * 2^-61]. *)
Lemma cost_witness :
  cost_of sonnet_only "claude" "claude-sonnet-4" 1000 200 75 0 0
  = charged (charged (charged (charged (charged zero
        800 (input_rate sonnet_pricing))
        200 (cached_rate sonnet_pricing))
        75 (output_rate sonnet_pricing))
        0 (reasoning_rate sonnet_pricing))
        0 (creation_rate sonnet_pricing)
  /\ cost_of sonnet_only "claude" "claude-sonnet-4" 1000 200 75 0 0
     = S754_finite false 8266447188031094 (-61).
Proof.
  assert (H0 : countable 0) by (unfold countable; lia).
  assert (H1 : countable 1000) by (unfold countable; lia).
  assert (H2 : countable 200) by (unfold countable; lia).
  assert (H3 : countable 75) by (unfold countable; lia).
  assert (Hp : ("claude" : string) <> "") by discriminate.
  assert (Hm : ("claude-sonnet-4" : string) <> "") by discriminate.
  destruct (cost_is_a_sum_of_rounded_products sonnet_only
              "claude" "claude-sonnet-4" sonnet_pricing 1000 200 75 0 0
              Hp Hm H1 H2 H3 H0 H0)
    as (_ & _ & H).
  destruct (H eq_refl) as (_ & Hsum & _); [vm_compute; reflexivity|].
  split; [exact Hsum|]. vm_compute. reflexivity.
Defined.

(** C8 as stated fails, in two ways.  The prompt count enters less the
    cached count and not below 0: with 10 cached tokens on the entry above,
    5 prompt tokens cost what 0 prompt tokens cost, while 15 cost more than
    10.  And every step is rounded: 8 completion tokens cost 0.00012 dollars,
    3 and 5 completion tokens cost 0.000045 and 0.000075, which add up to
    0.00012000000000000002. *)
Lemma cost_is_not_linear :
  cost_of sonnet_only "claude" "claude-sonnet-4" 5 10 0 0 0
  = cost_of sonnet_only "claude" "claude-sonnet-4" 0 10 0 0 0
  /\ cost_of sonnet_only "claude" "claude-sonnet-4" 15 10 0 0 0
     <> cost_of sonnet_only "claude" "claude-sonnet-4" 10 10 0 0 0
  /\ cost_of sonnet_only "claude" "claude-sonnet-4" 0 0 8 0 0
     = S754_finite false 8854437155380585 (-66)
  /\ fadd (cost_of sonnet_only "claude" "claude-sonnet-4" 0 0 3 0 0)
          (cost_of sonnet_only "claude" "claude-sonnet-4" 0 0 5 0 0)
     = S754_finite false 8854437155380586 (-66).
Proof. vm_compute. repeat split. discriminate. Qed.

(** ** The two tables of in-flight requests *)

(** The counts of a model key over the accounts [accounts]. *)
Definition over_accounts (accounts : list string) (f : string -> Z) : Z :=
  fold_right (fun a acc => (f a + acc)%Z) 0%Z accounts.

(** Every call on the model key names an account, one of [accounts]. *)
Definition accounted (accounts : list string) (modelKey : string) (calls : list call)
  : Prop :=
  forall c, In c calls -> on_model modelKey c = true ->
            exists a, given (c_connectionId c) = Some a /\ In a accounts.

Lemma over_accounts_same accounts f g :
  (forall a, In a accounts -> f a = g a) ->
  over_accounts accounts f = over_accounts accounts g.
Proof.
  induction accounts as [|a accounts IH]; intros H; [reflexivity|].
  cbn [over_accounts fold_right]. fold (over_accounts accounts f).
  fold (over_accounts accounts g).
  rewrite (H a) by now left. rewrite IH; [reflexivity|].
  intros b Hb. apply H. now right.
Qed.

(** One account's count changes. *)
Lemma over_accounts_point accounts a0 f g :
  List.NoDup accounts -> In a0 accounts ->
  (forall a, a <> a0 -> g a = f a) ->
  over_accounts accounts g = (over_accounts accounts f - f a0 + g a0)%Z.
Proof.
  induction accounts as [|a accounts IH]; intros Hnd Hin Hg; [destruct Hin|].
  inversion Hnd as [|? ? Hna Hnd']; subst.
  cbn [over_accounts fold_right]. fold (over_accounts accounts f).
  fold (over_accounts accounts g).
  destruct Hin as [->|Hin].
  - rewrite (over_accounts_same accounts g f); [lia|].
    intros b Hb. apply Hg. intros ->. contradiction.
  - rewrite (IH Hnd' Hin Hg), (Hg a); [lia|].
    intros ->. contradiction.
Qed.

Lemma over_accounts_nonneg accounts f :
  (forall a, 0 <= f a)%Z -> (0 <= over_accounts accounts f)%Z.
Proof.
  intros H. induction accounts as [|a accounts IH]; cbn; [lia|].
  fold (over_accounts accounts f). specialize (H a). lia.
Qed.

Lemma on_account_on_model a k c : on_account a k c = true -> on_model k c = true.
Proof.
  unfold on_account. destruct (given (c_connectionId c)); [|discriminate].
  intros H. now apply andb_true_iff in H.
Qed.

Lemma on_account_of a k c a0 :
  given (c_connectionId c) = Some a0 -> on_model k c = true ->
  on_account a k c = String.eqb a0 a.
Proof. unfold on_account. intros -> ->. apply andb_true_r. Qed.

Lemma after_snoc calls c : after (calls ++ [c]) = track (after calls) c.
Proof. unfold after. now rewrite fold_left_app. Qed.

Lemma counts_nonneg calls a k :
  (0 <= activeByModel (after calls) k)%Z
  /\ (0 <= activeByAccount (after calls) a k)%Z.
Proof.
  induction calls as [|c calls IH] using rev_ind; [split; reflexivity|].
  rewrite after_snoc, activeByModel_track, activeByAccount_track.
  unfold bump. destruct IH as [IH1 IH2].
  destruct (on_model k c), (on_account a k c), (c_started c); lia.
Qed.

Lemma model_within_accounts accounts k calls :
  List.NoDup accounts -> accounted accounts k calls ->
  (activeByModel (after calls) k
   <= over_accounts accounts (fun a => activeByAccount (after calls) a k))%Z.
Proof.
  intros Hnd. induction calls as [|c calls IH] using rev_ind; intros Hacc.
  - change (activeByModel (after []) k) with 0%Z.
    apply over_accounts_nonneg. intros a. apply counts_nonneg.
  - assert (Hacc' : accounted accounts k calls).
    { intros c0 Hin. apply Hacc. apply in_or_app. now left. }
    specialize (IH Hacc').
    rewrite after_snoc, activeByModel_track.
    destruct (on_model k c) eqn:Em.
    + destruct (Hacc c) as (a0 & Ha0 & Hin0); [apply in_or_app; right; now left | exact Em |].
      rewrite (over_accounts_point accounts a0
                 (fun a => activeByAccount (after calls) a k)
                 (fun a => activeByAccount (track (after calls) c) a k) Hnd Hin0).
      * rewrite activeByAccount_track, (on_account_of a0 k c a0 Ha0 Em), String.eqb_refl.
        destruct (counts_nonneg calls a0 k) as [HM HA].
        assert (Hs : (activeByAccount (after calls) a0 k
                      <= over_accounts accounts
                           (fun a => activeByAccount (after calls) a k))%Z).
        { clear -Hin0. induction accounts as [|a accounts IH]; [destruct Hin0|].
          cbn [over_accounts fold_right].
          fold (over_accounts accounts (fun a => activeByAccount (after calls) a k)).
          pose proof (over_accounts_nonneg accounts
                        (fun a => activeByAccount (after calls) a k)
                        (fun a => proj2 (counts_nonneg calls a k))).
          destruct Hin0 as [->|Hin0]; [lia|].
          specialize (IH Hin0). pose proof (proj2 (counts_nonneg calls a k)). lia. }
        unfold bump. destruct (c_started c); lia.
      * intros a Hne. rewrite activeByAccount_track, (on_account_of a k c a0 Ha0 Em).
        destruct (String.eqb_spec a0 a); [congruence | reflexivity].
    + rewrite (over_accounts_same accounts
                 (fun a => activeByAccount (track (after calls) c) a k)
                 (fun a => activeByAccount (after calls) a k)); [exact IH|].
      intros a _. rewrite activeByAccount_track.
      destruct (on_account a k c) eqn:Ea; [|reflexivity].
      apply on_account_on_model in Ea. congruence.
Qed.

Lemma balance_over_accounts accounts k calls :
  List.NoDup accounts -> accounted accounts k calls ->
  balance (on_model k) calls
  = over_accounts accounts (fun a => balance (on_account a k) calls).
Proof.
  intros Hnd. induction calls as [|c calls IH]; intros Hacc.
  - change (balance (on_model k) []) with 0%Z. clear.
    induction accounts as [|a accounts IH]; [reflexivity|].
    cbn [over_accounts fold_right].
    fold (over_accounts accounts (fun a => balance (on_account a k) [])).
    now rewrite <- IH.
  - assert (Hacc' : accounted accounts k calls).
    { intros c0 Hin. apply Hacc. now right. }
    rewrite balance_cons, (IH Hacc'), balance_one.
    destruct (on_model k c) eqn:Em.
    + destruct (Hacc c) as (a0 & Ha0 & Hin0); [now left | exact Em |].
      rewrite (over_accounts_point accounts a0
                 (fun a => balance (on_account a k) calls)
                 (fun a => balance (on_account a k) (c :: calls)) Hnd Hin0).
      * rewrite (balance_cons (on_account a0 k)), balance_one,
          (on_account_of a0 k c a0 Ha0 Em), String.eqb_refl. lia.
      * intros a Hne. rewrite balance_cons, balance_one, (on_account_of a k c a0 Ha0 Em).
        destruct (String.eqb_spec a0 a); [congruence | lia].
    + rewrite (over_accounts_same accounts
                 (fun a => balance (on_account a k) (c :: calls))
                 (fun a => balance (on_account a k) calls)); [lia|].
      intros a _. rewrite balance_cons, balance_one.
      destruct (on_account a k c) eqn:Ea; [|lia].
      apply on_account_on_model in Ea. congruence.
Qed.

(** X13.  For calls and keys that use no name inherited from
    [Object.prototype]: the count of a model key never exceeds the sum of
    the counts the accounts have for that key, when every call on the key
    names an account:
    an end that is reported for an account with nothing in flight is lost in
    the account's count and still taken off the model's.  The two agree
    whenever no account has more ends than begins reported at any point. *)
Theorem model_count_within_account_counts
        (accounts : list string) (modelKey : string) (calls : list call) :
  Forall (fun c => plain_call c = true) calls ->
  inherited_name modelKey = false ->
  Forall (fun a => inherited_name a = false) accounts ->
  List.NoDup accounts ->
  accounted accounts modelKey calls ->
  (activeByModel (after calls) modelKey
   <= over_accounts accounts (fun a => activeByAccount (after calls) a modelKey))%Z
  /\ ((forall a n, (0 <= balance (on_account a modelKey) (firstn n calls))%Z) ->
      activeByModel (after calls) modelKey
      = over_accounts accounts (fun a => activeByAccount (after calls) a modelKey)).
Proof.
  intros _ _ _ Hnd Hacc. split; [now apply model_within_accounts|].
  intros Hbal.
  rewrite (stored_closed_form (on_model modelKey)
             (fun p => activeByModel p modelKey) calls
             (fun p c => activeByModel_track p c modelKey) eq_refl).
  rewrite lowest_zero.
  - rewrite (balance_over_accounts accounts modelKey calls Hnd Hacc), Z.sub_0_r.
    apply over_accounts_same. intros a _.
    rewrite (stored_closed_form (on_account a modelKey)
               (fun p => activeByAccount p a modelKey) calls
               (fun p c => activeByAccount_track p c a modelKey) eq_refl).
    rewrite lowest_zero; [lia | apply Hbal].
  - intros n.
    rewrite (balance_over_accounts accounts modelKey (firstn n calls) Hnd).
    + apply over_accounts_nonneg. intros a. apply Hbal.
    + intros c Hin. apply Hacc. rewrite <- (firstn_skipn n calls).
      apply in_or_app. now left.
Qed.

(** Two accounts on one model; the end of the first request is reported for
    the other account. *)
Definition crossed_calls : list call :=
  [ {| c_model := "gpt-4o"; c_provider := Some "openai";
       c_connectionId := Some "acc-1"; c_started := true |};
    {| c_model := "gpt-4o"; c_provider := Some "openai";
       c_connectionId := Some "acc-2"; c_started := false |} ].

Lemma model_count_witness :
  (activeByModel (after crossed_calls) "gpt-4o (openai)"
   <= over_accounts ["acc-1"; "acc-2"]
        (fun a => activeByAccount (after crossed_calls) a "gpt-4o (openai)"))%Z.
Proof.
  apply (model_count_within_account_counts ["acc-1"; "acc-2"] "gpt-4o (openai)"
           crossed_calls).
  - repeat constructor.
  - reflexivity.
  - repeat constructor.
  - repeat constructor; cbn; intuition discriminate.
  - intros c [<- | [<- | []]] _; eexists; (split; [reflexivity|]); cbn; auto.
Defined.

(** ** log.txt (appendRequestLog, getRecentLogs) *)

(** [s.split("\n")] *)
Fixpoint split_lines (s : string) : list string :=
  match s with
  | EmptyString => [EmptyString]
  | String c r =>
      if Ascii.eqb c "010"%char then EmptyString :: split_lines r
      else match split_lines r with
           | h :: t => String c h :: t
           | [] => [String c EmptyString]
           end
  end.

(** [lines.join("\n")] *)
Definition join_lines (lines : list string) : string :=
  String.concat (String "010"%char EmptyString) lines.

(** [l.slice(start)] *)
Definition slice_from {A} (start : Z) (l : list A) : list A :=
  let n := Z.of_nat (length l) in
  skipn (Z.to_nat (if (start <? 0)%Z then Z.max (n + start) 0 else Z.min start n)) l.

(** The line ends in a text, and whether it ends with one. *)
Fixpoint line_ends (s : string) : nat :=
  match s with
  | EmptyString => 0
  | String c r => (if Ascii.eqb c "010"%char then 1 else 0) + line_ends r
  end.

Fixpoint ends_line (s : string) : bool :=
  match s with
  | EmptyString => false
  | String c EmptyString => Ascii.eqb c "010"%char
  | String _ r => ends_line r
  end.

Lemma s_app_cons (c : ascii) (s t : string) : String c s +:+ t = String c (s +:+ t).
Proof. reflexivity. Qed.

Lemma split_lines_cons s : exists h t, split_lines s = h :: t.
Proof.
  induction s as [|c s (h & t & IH)]; cbn [split_lines]; [eauto|].
  destruct (Ascii.eqb c "010"%char); [eauto|]. rewrite IH. eauto.
Qed.

Lemma split_lines_length s : length (split_lines s) = S (line_ends s).
Proof.
  induction s as [|c s IH]; [reflexivity|]. cbn [split_lines line_ends].
  destruct (Ascii.eqb c "010"%char); cbn [length Nat.add]; [now rewrite IH|].
  destruct (split_lines_cons s) as (h & t & E). rewrite E in IH |- *. exact IH.
Qed.

Lemma split_lines_plain s : Forall (fun x => line_ends x = 0) (split_lines s).
Proof.
  induction s as [|c s IH]; cbn [split_lines]; [repeat constructor|].
  destruct (Ascii.eqb c "010"%char) eqn:Ec; [constructor; [reflexivity | exact IH]|].
  destruct (split_lines_cons s) as (h & t & E). rewrite E in IH |- *.
  inversion IH; subst. constructor; [|assumption].
  cbn [line_ends]. rewrite Ec. assumption.
Qed.

Lemma line_ends_app a b : line_ends (a +:+ b) = line_ends a + line_ends b.
Proof.
  induction a as [|c a IH]; [reflexivity|].
  rewrite s_app_cons. cbn [line_ends]. rewrite IH. lia.
Qed.

Lemma line_ends_join l :
  Forall (fun x => line_ends x = 0) l -> line_ends (join_lines l) = pred (length l).
Proof.
  unfold join_lines. induction 1 as [|x l Hx Hl IH]; [reflexivity|].
  destruct l as [|y l]; [cbn; exact Hx|].
  change (String.concat _ (x :: y :: l))
    with (x +:+ String "010"%char EmptyString +:+ String.concat (String "010"%char EmptyString) (y :: l)).
  rewrite !line_ends_app, Hx, IH. reflexivity.
Qed.

Lemma ends_line_app a b :
  ends_line (a +:+ b) = match b with EmptyString => ends_line a | _ => ends_line b end.
Proof.
  induction a as [|c a IH]; [now destruct b|].
  rewrite s_app_cons. cbn [ends_line]. rewrite IH.
  destruct (a +:+ b) eqn:E.
  - destruct a; [|discriminate E]. change ("" +:+ b) with b in E. subst b. reflexivity.
  - destruct b; [|reflexivity]. destruct a; [discriminate E | reflexivity].
Qed.

Lemma ends_line_counts s : ends_line s = true -> 1 <= line_ends s.
Proof.
  induction s as [|c s IH]; [discriminate|]. cbn [ends_line line_ends].
  destruct s as [|d s]; [intros ->; cbn; lia|].
  intros H. specialize (IH H). lia.
Qed.

Lemma slice_from_last {A} (n : nat) (l : list A) :
  0 < n -> n < length l -> length (slice_from (- Z.of_nat n) l) = n.
Proof.
  intros H0 H. unfold slice_from. rewrite length_skipn.
  destruct (Z.ltb_spec (- Z.of_nat n) 0); lia.
Qed.

Lemma slice_from_length {A} (start : Z) (l : list A) :
  length (slice_from start l) <= length l.
Proof. unfold slice_from. rewrite length_skipn. lia. Qed.

Lemma slice_from_Forall {A} (P : A -> Prop) start (l : list A) :
  Forall P l -> Forall P (slice_from start l).
Proof.
  unfold slice_from. intros H.
  set (n := Z.to_nat _). rewrite <- (firstn_skipn n l) in H.
  apply Forall_app in H. apply H.
Qed.

Section Log.

(** [String.prototype.trim], taken as it comes. *)
Variable String_trim : string -> string.

(** What [appendRequestLog] leaves in log.txt when the file system does what
    it is asked: [file] is the text before ([None] if the file is not there)
    and [line] the line the function wrote, its line end included. *)
Definition appendRequestLog (file : option string) (line : string) : string :=
  let content := default "" file +:+ line in
  let lines := split_lines (String_trim content) in
  if 200 <? length lines
  then join_lines (slice_from (-200) lines) +:+ String "010"%char EmptyString
  else content.

(** [getRecentLogs(limit)] outside the cloud. *)
Definition getRecentLogs (file : option string) (limit : Z) : list string :=
  match file with
  | None => []
  | Some content =>
      let lines := split_lines (String_trim content) in
      rev (slice_from (- limit) lines)
  end.

(** What the code relies on [trim] for: it returns a part of the text, and
    one that does not end with a line end. *)
Hypothesis trim_inside : forall s, exists a b, s = a +:+ String_trim s +:+ b.
Hypothesis trim_end : forall s, ends_line (String_trim s) = false.

Lemma trimmed_lines s : line_ends (String_trim s) <= line_ends s.
Proof.
  destruct (trim_inside s) as (a & b & E). rewrite E at 2.
  rewrite !line_ends_app. lia.
Qed.

Lemma appended_lines file line :
  length (split_lines (String_trim (appendRequestLog file line))) <= 200.
Proof.
  unfold appendRequestLog.
  set (content := default "" file +:+ line).
  set (lines := split_lines (String_trim content)).
  destruct (Nat.ltb_spec 200 (length lines)) as [Hlong|Hshort]; [|exact Hshort].
  set (kept := slice_from (-200) lines).
  set (newline := String "010"%char EmptyString).
  assert (Hk : length kept = 200) by (apply (slice_from_last 200); [lia | exact Hlong]).
  assert (Hp : Forall (fun x => line_ends x = 0) kept)
    by (apply slice_from_Forall, split_lines_plain).
  assert (Hj : line_ends (join_lines kept +:+ newline) = 200).
  { rewrite line_ends_app, (line_ends_join kept Hp), Hk. reflexivity. }
  rewrite split_lines_length.
  destruct (trim_inside (join_lines kept +:+ newline)) as (a & b & E).
  pose proof (trim_end (join_lines kept +:+ newline)) as He.
  set (t := String_trim (join_lines kept +:+ newline)) in *.
  assert (Hsum : line_ends a + line_ends t + line_ends b = 200).
  { rewrite <- Hj. clearbody t. rewrite E. rewrite !line_ends_app. lia. }
  assert (Hend : ends_line (a +:+ t +:+ b) = true).
  { clearbody t. rewrite <- E, ends_line_app. reflexivity. }
  rewrite ends_line_app in Hend.
  destruct (t +:+ b) as [|c r] eqn:Etb.
  - destruct t; [cbn; lia | discriminate Etb].
  - rewrite <- Etb, ends_line_app in Hend.
    destruct b as [|cb rb].
    + congruence.
    + apply ends_line_counts in Hend. lia.
Qed.

(** X14.  After [appendRequestLog] has run, log.txt holds at most 200 lines,
    however long it was before and whatever line was written; so
    [getRecentLogs] returns at most 200 lines, and at most [limit] lines for
    a positive [limit].  A [limit] of 0 does not return nothing but every
    line of the file, the last one first. *)
Theorem log_keeps_200_lines (file : option string) (line : string) (limit : Z) :
  length (split_lines (String_trim (appendRequestLog file line))) <= 200
  /\ length (getRecentLogs (Some (appendRequestLog file line)) limit) <= 200
  /\ ((0 < limit)%Z ->
      (Z.of_nat (length (getRecentLogs (Some (appendRequestLog file line)) limit))
       <= limit)%Z)
  /\ getRecentLogs (Some (appendRequestLog file line)) 0
     = rev (split_lines (String_trim (appendRequestLog file line))).
Proof.
  pose proof (appended_lines file line) as H.
  split; [exact H|]. cbn [getRecentLogs]. split; [|split].
  - rewrite length_rev.
    pose proof (slice_from_length (- limit)
                  (split_lines (String_trim (appendRequestLog file line)))). lia.
  - intros Hl. rewrite length_rev. unfold slice_from. rewrite length_skipn.
    destruct (Z.ltb_spec (- limit) 0); lia.
  - unfold slice_from. cbn [Z.opp Z.ltb Z.compare]. rewrite Z.min_l by lia.
    reflexivity.
Qed.

End Log.

(** [trim] for texts whose blanks are spaces, tabs and line ends. *)
Definition is_blank (c : ascii) : bool :=
  match c with
  | " "%char | "009"%char | "010"%char | "013"%char => true
  | _ => false
  end.

Fixpoint trim_start (s : string) : string :=
  match s with
  | String c r => if is_blank c then trim_start r else s
  | EmptyString => EmptyString
  end.

Fixpoint trim_end_of (s : string) : string :=
  match s with
  | EmptyString => EmptyString
  | String c r =>
      match trim_end_of r with
      | EmptyString => if is_blank c then EmptyString else String c EmptyString
      | r' => String c r'
      end
  end.

Definition trim_blanks (s : string) : string := trim_end_of (trim_start s).

Lemma trim_start_inside s : exists a, s = a +:+ trim_start s.
Proof.
  induction s as [|c s (a & IH)]; [now exists ""|]. cbn [trim_start].
  destruct (is_blank c).
  - exists (String c a). rewrite s_app_cons. now f_equal.
  - now exists "".
Qed.

Lemma trim_end_inside s : exists b, s = trim_end_of s +:+ b.
Proof.
  induction s as [|c s (b & IH)]; [now exists ""|]. cbn [trim_end_of].
  destruct (trim_end_of s) as [|d r] eqn:E.
  - destruct (is_blank c).
    + exists (String c s). reflexivity.
    + exists s. reflexivity.
  - exists b. rewrite s_app_cons. now f_equal.
Qed.

Lemma trim_end_no_line_end s : ends_line (trim_end_of s) = false.
Proof.
  induction s as [|c s IH]; [reflexivity|]. cbn [trim_end_of].
  destruct (trim_end_of s) as [|d r] eqn:E.
  - destruct (is_blank c) eqn:Eb; [reflexivity|]. cbn [ends_line].
    destruct (Ascii.eqb_spec c "010"%char) as [->|]; [discriminate Eb | reflexivity].
  - exact IH.
Qed.

Definition line_end : string := String "010"%char EmptyString.

Lemma log_witness :
  length (split_lines
            (trim_blanks
               (appendRequestLog trim_blanks
                  (Some ("a | 200 OK" +:+ line_end +:+ "b | 200 OK" +:+ line_end))
                  ("c | 200 OK" +:+ line_end)))) <= 200.
Proof.
  apply (log_keeps_200_lines trim_blanks).
  - intros s. unfold trim_blanks.
    destruct (trim_start_inside s) as (a & Ha).
    destruct (trim_end_inside (trim_start s)) as (b & Hb).
    exists a, b. rewrite <- Hb. exact Ha.
  - intros s. apply trim_end_no_line_end.
  - exact 1%Z.
Defined.

(** ** getUsageStats: the aggregation of the history *)

(** One entry of the history, as [saveRequestUsage] is given it by
    [handleChatCore]: provider and model are strings, the token counts whole
    numbers, [connectionId] a string or [undefined]. *)
Record entry : Type := {
  e_provider : string;
  e_model : string;
  e_tokens : option tokens;
  e_timestamp : string;
  e_connectionId : option string
}.

(** The four counters every row has. *)
Record tally : Type := {
  requests : Z;
  promptTokens : Z;
  completionTokens : Z;
  cost : number
}.

Definition no_tally : tally :=
  {| requests := 0; promptTokens := 0; completionTokens := 0; cost := zero |}.

(** [row.requests++; row.promptTokens += p; row.completionTokens += c;
    row.cost += k] *)
Definition count_in (t : tally) (p c : Z) (k : number) : tally :=
  {| requests := requests t + 1;
     promptTokens := promptTokens t + p;
     completionTokens := completionTokens t + c;
     cost := fadd (cost t) k |}.

Record model_row : Type := {
  mr_tally : tally;
  mr_rawModel : string;
  mr_provider : string;
  mr_lastUsed : string
}.

Record account_row : Type := {
  ar_tally : tally;
  ar_rawModel : string;
  ar_provider : string;
  ar_connectionId : string;
  ar_accountName : string;
  ar_lastUsed : string
}.

(** The part of [stats] the history fills; [bucketMap] keeps the ten buckets
    under the time of their minute, and [last10Minutes] holds the same ten
    objects in that order. *)
Record stats : Type := {
  totalRequests : Z;
  totalPromptTokens : Z;
  totalCompletionTokens : Z;
  totalCost : number;
  byProviderStats : list (string * tally);
  byModelStats : list (string * model_row);
  byAccountStats : list (string * account_row);
  bucketMap : list (Z * tally)
}.

Definition last10Minutes (s : stats) : list tally := map snd (bucketMap s).

(** [if (!table[k]) table[k] = init;  <change table[k]>]: a row that is
    there is changed in its place, a new one goes last. *)
Fixpoint upsert {A} (k : string) (init : A) (change : A -> A) (table : list (string * A))
  : list (string * A) :=
  match table with
  | [] => [(k, change init)]
  | (k', row) :: r =>
      if String.eqb k' k then (k', change row) :: r
      else (k', row) :: upsert k init change r
  end.

(** [if (bucketMap[key]) <change bucketMap[key]>] *)
Fixpoint in_bucket (key : Z) (change : tally -> tally) (buckets : list (Z * tally))
  : list (Z * tally) :=
  match buckets with
  | [] => []
  | (k', b) :: r =>
      if (k' =? key)%Z then (k', change b) :: r
      else (k', b) :: in_bucket key change r
  end.

(** Under a name inherited from [Object.prototype], [table[k]] is never
    empty, so no row is created there.  A name written as a whole number is
    listed before the other names, whenever it was written.  Every other
    name is a key like any other, listed in the order in which it was first
    written. *)
Definition is_digit (c : ascii) : bool :=
  (48 <=? nat_of_ascii c) && (nat_of_ascii c <=? 57).

Fixpoint all_digits (k : string) : bool :=
  match k with
  | EmptyString => true
  | String c r => is_digit c && all_digits r
  end.

Definition own_name (k : string) : bool :=
  negb (inherited_name k)
  && (String.eqb k "" || negb (all_digits k)).

(** The sum of one counter over the rows of a table. *)
Definition total {K A} (f : A -> Z) (table : list (K * A)) : Z :=
  fold_right (fun row acc => (f (snd row) + acc)%Z) 0%Z table.

Section Stats.

(** [getPricingForModel] and the names of the connections (both of
    src/lib/localDb.js), the clock, and [new Date(text).getTime()], which is
    [NaN] ([None]) for a text that is no date. *)
Variable getPricingForModel : string -> string -> lookup.
Variable connectionMap : string -> option string.
Variable now : Z.
Variable Date_getTime : string -> option Z.

(** [Math.floor(t / 60000) * 60000] *)
Definition minute_start (t : Z) : Z := (t / 60000 * 60000)%Z.

Definition currentMinuteStart : Z := minute_start now.
Definition tenMinutesAgo : Z := (currentMinuteStart - 9 * 60 * 1000)%Z.

(** The ten buckets, oldest first. *)
Definition initial_buckets : list (Z * tally) :=
  map (fun i => ((currentMinuteStart - (9 - Z.of_nat i) * 60 * 1000)%Z, no_tally))
      (seq 0 10).

Definition initial_stats (history : list entry) : stats :=
  {| totalRequests := Z.of_nat (length history);
     totalPromptTokens := 0; totalCompletionTokens := 0; totalCost := zero;
     byProviderStats := []; byModelStats := []; byAccountStats := [];
     bucketMap := initial_buckets |}.

(** [new Date(a) > new Date(b)]; a comparison with [NaN] is false. *)
Definition later (a b : string) : bool :=
  match Date_getTime a, Date_getTime b with
  | Some x, Some y => (x >? y)%Z
  | _, _ => false
  end.

(** [entryTime >= tenMinutesAgo && entryTime <= now] *)
Definition in_window (timestamp : string) : bool :=
  match Date_getTime timestamp with
  | Some t => ((t >=? tenMinutesAgo) && (t <=? now))%Z
  | None => false
  end.

(** [connectionMap[id] || `Account ${id.slice(0, 8)}...`] *)
Definition accountNameOf (connectionId : string) : string :=
  match given (connectionMap connectionId) with
  | Some name => name
  | None => "Account " +:+ String.substring 0 8 connectionId +:+ "..."
  end.

(** One round of [for (const entry of history)]. *)
Definition record_entry (s : stats) (e : entry) : stats :=
  let promptTokens :=
    match e_tokens e with Some t => count_or (prompt_tokens t) 0 | None => 0%Z end in
  let completionTokens :=
    match e_tokens e with Some t => count_or (completion_tokens t) 0 | None => 0%Z end in
  let entryCost :=
    calculateCost getPricingForModel (Some (e_provider e)) (Some (e_model e))
      (e_tokens e) in
  let count t := count_in t promptTokens completionTokens entryCost in
  let buckets :=
    if in_window (e_timestamp e)
    then
      match Date_getTime (e_timestamp e) with
      | Some t => in_bucket (minute_start t) count (bucketMap s)
      | None => bucketMap s
      end
    else bucketMap s in
  let modelKey := modelKeyOf (e_model e) (Some (e_provider e)) in
  let seen last := if later (e_timestamp e) last then e_timestamp e else last in
  {| totalRequests := totalRequests s;
     totalPromptTokens := totalPromptTokens s + promptTokens;
     totalCompletionTokens := totalCompletionTokens s + completionTokens;
     totalCost := fadd (totalCost s) entryCost;
     byProviderStats := upsert (e_provider e) no_tally count (byProviderStats s);
     byModelStats :=
       upsert modelKey
         {| mr_tally := no_tally; mr_rawModel := e_model e;
            mr_provider := e_provider e; mr_lastUsed := e_timestamp e |}
         (fun row => {| mr_tally := count (mr_tally row);
                        mr_rawModel := mr_rawModel row;
                        mr_provider := mr_provider row;
                        mr_lastUsed := seen (mr_lastUsed row) |})
         (byModelStats s);
     byAccountStats :=
       match given (e_connectionId e) with
       | Some connectionId =>
           let accountName := accountNameOf connectionId in
           let accountKey :=
             e_model e +:+ " (" +:+ e_provider e +:+ " - " +:+ accountName +:+ ")" in
           upsert accountKey
             {| ar_tally := no_tally; ar_rawModel := e_model e;
                ar_provider := e_provider e; ar_connectionId := connectionId;
                ar_accountName := accountName; ar_lastUsed := e_timestamp e |}
             (fun row => {| ar_tally := count (ar_tally row);
                            ar_rawModel := ar_rawModel row;
                            ar_provider := ar_provider row;
                            ar_connectionId := ar_connectionId row;
                            ar_accountName := ar_accountName row;
                            ar_lastUsed := seen (ar_lastUsed row) |})
             (byAccountStats s)
       | None => byAccountStats s
       end;
     bucketMap := buckets |}.

Definition aggregate (history : list entry) : stats :=
  fold_left record_entry history (initial_stats history).

(** What one entry adds to the counters. *)
Definition prompt_of (e : entry) : Z :=
  match e_tokens e with Some t => count_or (prompt_tokens t) 0 | None => 0%Z end.

Definition completion_of (e : entry) : Z :=
  match e_tokens e with Some t => count_or (completion_tokens t) 0 | None => 0%Z end.

Definition sum_over (f : entry -> Z) (es : list entry) : Z :=
  fold_right (fun e acc => (f e + acc)%Z) 0%Z es.

Definition has_account (e : entry) : bool :=
  match given (e_connectionId e) with Some _ => true | None => false end.

(** The keys an entry is filed under are names of rows; the key of its
    account, with a blank and a bracket in it, always is. *)
Definition plain (e : entry) : Prop :=
  own_name (e_provider e) = true /\
  own_name (modelKeyOf (e_model e) (Some (e_provider e))) = true.

(** The entries bucket [i] is for: those of minute [i] of the ten, not later
    than the clock. *)
Definition in_minute (i : nat) (e : entry) : bool :=
  match Date_getTime (e_timestamp e) with
  | Some t => ((t <=? now) && (t / 60000 =? now / 60000 - (9 - Z.of_nat i)))%Z
  | None => false
  end.

Definition counters (t : tally) : Z * Z * Z :=
  (requests t, promptTokens t, completionTokens t).

Definition counters_of (es : list entry) : Z * Z * Z :=
  (Z.of_nat (length es), sum_over prompt_of es, sum_over completion_of es).

Lemma total_upsert {A} (f : A -> Z) k init change (table : list (string * A)) d :
  f init = 0%Z -> (forall row, f (change row) = (f row + d)%Z) ->
  total f (upsert k init change table) = (total f table + d)%Z.
Proof.
  intros H0 Hc. induction table as [|[k' row] r IH]; cbn [upsert total fold_right snd].
  - rewrite Hc, H0. lia.
  - destruct (String.eqb k' k); cbn [total fold_right snd].
    + rewrite Hc. fold (total f r). lia.
    + fold (total f (upsert k init change r)). fold (total f r). rewrite IH. lia.
Qed.

Lemma sum_over_app f a b : sum_over f (a ++ b) = (sum_over f a + sum_over f b)%Z.
Proof.
  unfold sum_over. induction a as [|x a IH]; cbn [app fold_right]; [lia|].
  rewrite IH. lia.
Qed.

(** The invariant of the loop over the history. *)
Record adds_up (done : list entry) (s : stats) : Prop := {
  au_prompt : totalPromptTokens s = sum_over prompt_of done;
  au_completion : totalCompletionTokens s = sum_over completion_of done;
  au_provider_n : total requests (byProviderStats s) = Z.of_nat (length done);
  au_provider_p : total promptTokens (byProviderStats s) = sum_over prompt_of done;
  au_provider_c : total completionTokens (byProviderStats s) = sum_over completion_of done;
  au_model_n : total (fun r => requests (mr_tally r)) (byModelStats s) = Z.of_nat (length done);
  au_model_p : total (fun r => promptTokens (mr_tally r)) (byModelStats s) = sum_over prompt_of done;
  au_model_c : total (fun r => completionTokens (mr_tally r)) (byModelStats s)
               = sum_over completion_of done;
  au_account_n : total (fun r => requests (ar_tally r)) (byAccountStats s)
                 = Z.of_nat (length (List.filter has_account done));
  au_account_p : total (fun r => promptTokens (ar_tally r)) (byAccountStats s)
                 = sum_over prompt_of (List.filter has_account done);
  au_account_c : total (fun r => completionTokens (ar_tally r)) (byAccountStats s)
                 = sum_over completion_of (List.filter has_account done)
}.

Lemma sum_over_snoc f done e : sum_over f (done ++ [e]) = (sum_over f done + f e)%Z.
Proof. rewrite sum_over_app. cbn [sum_over fold_right]. lia. Qed.

Lemma length_snoc {A} (l : list A) x : Z.of_nat (length (l ++ [x])) = (Z.of_nat (length l) + 1)%Z.
Proof. rewrite length_app. cbn [length]. lia. Qed.

Lemma filter_snoc {A} (f : A -> bool) l x :
  List.filter f (l ++ [x]) = if f x then List.filter f l ++ [x] else List.filter f l.
Proof. rewrite List.filter_app. cbn [List.filter]. destruct (f x); [reflexivity | apply app_nil_r]. Qed.

Lemma adds_up_record done s e : adds_up done s -> adds_up (done ++ [e]) (record_entry s e).
Proof.
  intros [Hp Hc Pn Pp Pc Mn Mp Mc An Ap Ac].
  assert (G : has_account e = match given (e_connectionId e) with Some _ => true | None => false end)
    by reflexivity.
  split; unfold record_entry; fold (prompt_of e); fold (completion_of e);
    cbn [totalPromptTokens totalCompletionTokens byProviderStats byModelStats byAccountStats];
    rewrite ?filter_snoc, ?G; try (destruct (given (e_connectionId e)));
    rewrite ?sum_over_snoc, ?length_snoc;
    try (erewrite total_upsert; [|reflexivity|reflexivity]); lia.
Qed.

Lemma adds_up_all rest : forall done s,
  adds_up done s -> adds_up (done ++ rest) (fold_left record_entry rest s).
Proof.
  induction rest as [|e rest IH]; intros done s H; cbn [fold_left].
  - now rewrite app_nil_r.
  - replace (done ++ e :: rest) with ((done ++ [e]) ++ rest) by (now rewrite <- app_assoc).
    apply IH. now apply adds_up_record.
Qed.

Lemma totalRequests_kept rest : forall s,
  totalRequests (fold_left record_entry rest s) = totalRequests s.
Proof. induction rest as [|e rest IH]; intros s; cbn [fold_left]; [reflexivity|]. now rewrite IH. Qed.

Lemma adds_up_aggregate history : adds_up history (aggregate history).
Proof.
  unfold aggregate. apply (adds_up_all history []). now split.
Qed.

(** X15.  For a history whose providers and model keys are names of rows:
    the request counts of the provider rows add up to [totalRequests], the
    number of entries, and so do those of the model rows; the prompt and
    completion tokens of either table add up to [totalPromptTokens] and
    [totalCompletionTokens]; the account rows add up to the entries that
    carry a connection id. *)
Theorem usage_tables_add_up (history : list entry) :
  Forall plain history ->
  let s := aggregate history in
  let with_account := List.filter has_account history in
  totalRequests s = Z.of_nat (length history) /\
  (total requests (byProviderStats s) = totalRequests s /\
   total promptTokens (byProviderStats s) = totalPromptTokens s /\
   total completionTokens (byProviderStats s) = totalCompletionTokens s) /\
  (total (fun r => requests (mr_tally r)) (byModelStats s) = totalRequests s /\
   total (fun r => promptTokens (mr_tally r)) (byModelStats s) = totalPromptTokens s /\
   total (fun r => completionTokens (mr_tally r)) (byModelStats s)
   = totalCompletionTokens s) /\
  (total (fun r => requests (ar_tally r)) (byAccountStats s)
   = Z.of_nat (length with_account) /\
   total (fun r => promptTokens (ar_tally r)) (byAccountStats s)
   = sum_over prompt_of with_account /\
   total (fun r => completionTokens (ar_tally r)) (byAccountStats s)
   = sum_over completion_of with_account).
Proof.
  intros _ s with_account.
  destruct (adds_up_aggregate history) as [Hp Hc Pn Pp Pc Mn Mp Mc An Ap Ac].
  assert (N : totalRequests s = Z.of_nat (length history))
    by (unfold s, aggregate; now rewrite totalRequests_kept).
  fold s in Hp, Hc, Pn, Pp, Pc, Mn, Mp, Mc, An, Ap, Ac.
  repeat split; try assumption; congruence.
Qed.

(** *** The ten buckets *)

Definition bucket_key (i : nat) : Z :=
  (currentMinuteStart - (9 - Z.of_nat i) * 60 * 1000)%Z.

(** What one round does to [bucketMap]. *)
Definition filed (e : entry) (buckets : list (Z * tally)) : list (Z * tally) :=
  if in_window (e_timestamp e)
  then
    match Date_getTime (e_timestamp e) with
    | Some t =>
        in_bucket (minute_start t)
          (fun b => count_in b (prompt_of e) (completion_of e)
                      (calculateCost getPricingForModel (Some (e_provider e))
                         (Some (e_model e)) (e_tokens e)))
          buckets
    | None => buckets
    end
  else buckets.

Lemma bucketMap_record s e : bucketMap (record_entry s e) = filed e (bucketMap s).
Proof. reflexivity. Qed.

Lemma bucketMap_fold rest : forall s,
  bucketMap (fold_left record_entry rest s) = fold_left (fun b e => filed e b) rest (bucketMap s).
Proof.
  induction rest as [|e rest IH]; intros s; cbn [fold_left]; [reflexivity|].
  now rewrite IH, bucketMap_record.
Qed.

Lemma in_bucket_only key change (buckets : list (Z * tally)) :
  List.NoDup (map fst buckets) ->
  in_bucket key change buckets
  = map (fun kb => if (fst kb =? key)%Z then (fst kb, change (snd kb)) else kb) buckets.
Proof.
  induction buckets as [|[k b] r IH]; intros ND; cbn [in_bucket map fst snd]; [reflexivity|].
  cbn [map fst] in ND. inversion ND as [|? ? Hk Hr]; subst.
  destruct (k =? key)%Z eqn:E.
  - f_equal. apply Z.eqb_eq in E. subst k.
    rewrite <- (map_id r) at 1. apply map_ext_in. intros [k' b'] Hin. cbn [fst snd].
    destruct (k' =? key)%Z eqn:E'; [|reflexivity].
    apply Z.eqb_eq in E'. subst k'. exfalso. apply Hk.
    change key with (fst (key, b')). now apply in_map.
  - f_equal. now apply IH.
Qed.

Lemma bucket_key_NoDup (l : list nat) : List.NoDup l -> List.NoDup (map bucket_key l).
Proof.
  apply Finite.Injective_map_NoDup. intros i j H. unfold bucket_key in H. lia.
Qed.

(** Bucket [i] after the entries [done]. *)
Definition holds (done : list entry) (i : nat) (kb : Z * tally) : Prop :=
  fst kb = bucket_key i /\
  counters (snd kb) = counters_of (List.filter (in_minute i) done).

Lemma holds_keys done l buckets :
  Forall2 (holds done) l buckets -> map fst buckets = map bucket_key l.
Proof.
  induction 1 as [|i kb l r [Hk _] _ IH]; cbn [map]; [reflexivity|]. now rewrite Hk, IH.
Qed.

Lemma Forall2_map_r {A B} (R R' : A -> B -> Prop) (g : B -> B) l r :
  (forall a b, R a b -> R' a (g b)) -> Forall2 R l r -> Forall2 R' l (map g r).
Proof. intros H. induction 1; cbn [map]; constructor; auto. Qed.

Lemma out_of_window e i : in_window (e_timestamp e) = false -> in_minute i e = false.
Proof.
  unfold in_window, in_minute, tenMinutesAgo, currentMinuteStart, minute_start.
  destruct (Date_getTime (e_timestamp e)) as [t|]; [|reflexivity].
  intros H. apply andb_false_iff in H. apply andb_false_iff.
  destruct H as [H|H]; [right | now left].
  apply Z.eqb_neq. rewrite Z.geb_leb in H. apply Z.leb_gt in H.
  Z.div_mod_to_equations. lia.
Qed.

Lemma in_window_minute e t i :
  in_window (e_timestamp e) = true -> Date_getTime (e_timestamp e) = Some t ->
  in_minute i e = (bucket_key i =? minute_start t)%Z.
Proof.
  unfold in_window, in_minute, bucket_key, tenMinutesAgo, currentMinuteStart, minute_start.
  intros H Ht. rewrite Ht in *. apply andb_true_iff in H. destruct H as [_ H].
  rewrite H. cbn [andb].
  destruct (Z.eqb_spec (t / 60000) (now / 60000 - (9 - Z.of_nat i)));
    destruct (Z.eqb_spec ((now / 60000 * 60000 - (9 - Z.of_nat i) * 60 * 1000))
                (t / 60000 * 60000)); try reflexivity; exfalso; lia.
Qed.

Lemma holds_filed done e l buckets :
  List.NoDup l ->
  Forall2 (holds done) l buckets -> Forall2 (holds (done ++ [e])) l (filed e buckets).
Proof.
  intros ND H. unfold filed.
  destruct (in_window (e_timestamp e)) eqn:W.
  - destruct (Date_getTime (e_timestamp e)) as [t|] eqn:Ht;
      [|unfold in_window in W; rewrite Ht in W; discriminate W].
    rewrite in_bucket_only
      by (rewrite (holds_keys _ _ _ H); now apply bucket_key_NoDup).
    eapply Forall2_map_r; [|exact H].
    intros i [k b] [Hk Hc]. cbn [fst snd] in *. subst k.
    unfold holds. rewrite filter_snoc, (in_window_minute e t i W Ht).
    destruct (bucket_key i =? minute_start t)%Z; cbn [fst snd]; split; try reflexivity;
      [|exact Hc].
    unfold counters, counters_of in *. cbn [requests promptTokens completionTokens count_in].
    injection Hc as -> -> ->. rewrite !sum_over_snoc, length_snoc. reflexivity.
  - eapply Forall2_impl; [exact H|]. intros i kb [Hk Hc]. split; [exact Hk|].
    now rewrite filter_snoc, (out_of_window e i W).
Qed.

Lemma holds_all l rest : List.NoDup l -> forall done buckets,
  Forall2 (holds done) l buckets ->
  Forall2 (holds (done ++ rest)) l (fold_left (fun b e => filed e b) rest buckets).
Proof.
  intros ND. induction rest as [|e rest IH]; intros done buckets H; cbn [fold_left].
  - now rewrite app_nil_r.
  - replace (done ++ e :: rest) with ((done ++ [e]) ++ rest) by (now rewrite <- app_assoc).
    apply IH. now apply holds_filed.
Qed.

Lemma holds_initial l :
  Forall2 (holds []) l (map (fun i => (bucket_key i, no_tally)) l).
Proof. induction l; cbn [map]; constructor; [now split | assumption]. Qed.

Lemma holds_counters done l buckets :
  Forall2 (holds done) l buckets ->
  map counters (map snd buckets)
  = map (fun i => counters_of (List.filter (in_minute i) done)) l.
Proof.
  induction 1 as [|i kb l r [_ Hc] _ IH]; cbn [map]; [reflexivity|]. now rewrite Hc, IH.
Qed.

(** X16.  [last10Minutes] has ten buckets, oldest first, and bucket [i]
    counts exactly the entries whose timestamp is a date not later than the
    clock and lies in minute [i] of the ten minutes that end with the current
    one: that many requests, and the sums of their prompt and completion
    tokens.  An entry with no valid date, a later one or an older one is in
    no bucket. *)
Theorem buckets_count_their_minute (history : list entry) :
  map counters (last10Minutes (aggregate history))
  = map (fun i => counters_of (List.filter (in_minute i) history)) (seq 0 10).
Proof.
  unfold last10Minutes, aggregate. rewrite bucketMap_fold.
  apply holds_counters.
  apply (holds_all (seq 0 10) history (seq_NoDup 10 0) [] _ (holds_initial (seq 0 10))).
Qed.

(** *** One row for each key *)

(** The keys in the order in which they first occur. *)
Definition add_key (seen : list string) (k : string) : list string :=
  if existsb (String.eqb k) seen then seen else seen ++ [k].

Definition first_seen (keys : list string) : list string := fold_left add_key keys [].

(** The key an entry is filed under in each table; an entry without a
    connection id is in no row of [byAccount]. *)
Definition provider_key (e : entry) : option string := Some (e_provider e).

Definition model_key (e : entry) : option string :=
  Some (modelKeyOf (e_model e) (Some (e_provider e))).

Definition account_key (e : entry) : option string :=
  match given (e_connectionId e) with
  | Some connectionId =>
      Some (e_model e +:+ " (" +:+ e_provider e +:+ " - "
            +:+ accountNameOf connectionId +:+ ")")
  | None => None
  end.

Definition keys_of (key : entry -> option string) (es : list entry) : list string :=
  flat_map (fun e => match key e with Some k => [k] | None => [] end) es.

Definition keyed (key : entry -> option string) (k : string) (e : entry) : bool :=
  match key e with Some k' => String.eqb k' k | None => false end.

(** The rows a table should have: one for each key, in the order of first
    occurrence, counting the entries of that key. *)
Definition rows_of (key : entry -> option string) (es : list entry)
  : list (string * (Z * Z * Z)) :=
  map (fun k => (k, counters_of (List.filter (keyed key k) es)))
      (first_seen (keys_of key es)).

Definition counted (e : entry) (c : Z * Z * Z) : Z * Z * Z :=
  let '(n, p, q) := c in ((n + 1)%Z, (p + prompt_of e)%Z, (q + completion_of e)%Z).

Lemma counters_of_snoc es e : counters_of (es ++ [e]) = counted e (counters_of es).
Proof. unfold counters_of, counted. now rewrite length_snoc, !sum_over_snoc. Qed.

Lemma existsb_eqb_In k (l : list string) : existsb (String.eqb k) l = true <-> In k l.
Proof.
  rewrite existsb_exists. split.
  - intros (x & Hin & E). apply String.eqb_eq in E. now subst.
  - intros Hin. exists k. split; [exact Hin | apply String.eqb_refl].
Qed.

Lemma add_key_In seen k x : In x (add_key seen k) <-> In x seen \/ x = k.
Proof.
  unfold add_key. destruct (existsb (String.eqb k) seen) eqn:E.
  - apply existsb_eqb_In in E. split; [now left | intros [H| ->]; assumption].
  - rewrite in_app_iff. cbn [In]. intuition.
Qed.

Lemma add_key_NoDup seen k : List.NoDup seen -> List.NoDup (add_key seen k).
Proof.
  intros ND. unfold add_key. destruct (existsb (String.eqb k) seen) eqn:E; [exact ND|].
  assert (Hk : ~ In k seen) by (intros Hin; apply existsb_eqb_In in Hin; congruence).
  clear E. induction ND as [|x l Hx ND IH]; cbn [app].
  - constructor; [intros [] | constructor].
  - constructor.
    + rewrite in_app_iff. cbn [In] in *. intuition.
    + apply IH. cbn [In] in Hk. tauto.
Qed.

Lemma first_seen_snoc l k : first_seen (l ++ [k]) = add_key (first_seen l) k.
Proof. unfold first_seen. now rewrite fold_left_app. Qed.

Lemma first_seen_In l x : In x (first_seen l) <-> In x l.
Proof.
  induction l as [|k l IH] using rev_ind; [reflexivity|].
  rewrite first_seen_snoc, add_key_In, IH, in_app_iff. cbn [In]. intuition.
Qed.

Lemma first_seen_NoDup l : List.NoDup (first_seen l).
Proof.
  induction l as [|k l IH] using rev_ind; [constructor|].
  rewrite first_seen_snoc. now apply add_key_NoDup.
Qed.

Lemma keys_of_snoc key es e :
  keys_of key (es ++ [e]) = keys_of key es ++ match key e with Some k => [k] | None => [] end.
Proof. unfold keys_of. rewrite flat_map_app. cbn [flat_map]. now rewrite app_nil_r. Qed.

Lemma no_key_no_entry key k es : ~ In k (keys_of key es) -> List.filter (keyed key k) es = [].
Proof.
  induction es as [|e es IH]; intros H; [reflexivity|]. cbn [List.filter].
  unfold keys_of in H. cbn [flat_map] in H. fold (keys_of key es) in H.
  rewrite in_app_iff in H. unfold keyed at 1.
  destruct (key e) as [k'|].
  - destruct (String.eqb_spec k' k) as [->|_]; [exfalso; apply H; left; now left|].
    apply IH. tauto.
  - apply IH. tauto.
Qed.

(** [upsert] on the rows seen through their counters. *)
Lemma upsert_rows k e (done : list entry) key : key e = Some k -> forall ks,
  List.NoDup ks -> (In k ks \/ List.filter (keyed key k) done = []) ->
  upsert k (0%Z, 0%Z, 0%Z) (counted e)
    (map (fun k' => (k', counters_of (List.filter (keyed key k') done))) ks)
  = map (fun k' => (k', counters_of (List.filter (keyed key k') (done ++ [e]))))
      (add_key ks k).
Proof.
  intros Hk. 
  assert (Other : forall k', k' <> k ->
            List.filter (keyed key k') (done ++ [e]) = List.filter (keyed key k') done).
  { intros k' Hne. rewrite filter_snoc. unfold keyed at 1. rewrite Hk.
    destruct (String.eqb_spec k k'); [congruence | reflexivity]. }
  assert (Same : List.filter (keyed key k) (done ++ [e]) = List.filter (keyed key k) done ++ [e]).
  { rewrite filter_snoc. unfold keyed at 1. now rewrite Hk, String.eqb_refl. }
  induction ks as [|k' ks IH]; intros ND Hin.
  - destruct Hin as [[]|Hnone]. cbn [map upsert add_key existsb app].
    now rewrite Same, counters_of_snoc, Hnone.
  - inversion ND as [|? ? Hk' ND']; subst. cbn [map upsert].
    unfold add_key. cbn [existsb]. rewrite (String.eqb_sym k k').
    destruct (String.eqb_spec k' k) as [->|Hne]; cbn [orb map].
    + rewrite Same, counters_of_snoc. apply f_equal.
      apply map_ext_in. intros x Hx. rewrite Other; [reflexivity|]. congruence.
    + specialize (IH ND'). unfold add_key in IH.
      destruct (existsb (String.eqb k) ks) eqn:E; cbn [app map];
        rewrite Other by exact Hne; apply f_equal; apply IH.
      * left. now apply existsb_eqb_In.
      * destruct Hin as [[?|Hin]|Hnone]; [congruence | now left | now right].
Qed.

Section Rows.

(** A table, the counters of its rows, and what a round does to it. *)
Context {A : Type}.
Variable tally_of : A -> tally.
Variable key : entry -> option string.
Variable init : entry -> A.
Variable change : entry -> A -> A.

Hypothesis init_empty : forall e, counters (tally_of (init e)) = (0%Z, 0%Z, 0%Z).
Hypothesis change_counts : forall e row,
  counters (tally_of (change e row)) = counted e (counters (tally_of row)).

Definition round (table : list (string * A)) (e : entry) : list (string * A) :=
  match key e with
  | Some k => upsert k (init e) (change e) table
  | None => table
  end.

Definition view (table : list (string * A)) : list (string * (Z * Z * Z)) :=
  map (fun r => (fst r, counters (tally_of (snd r)))) table.

Lemma view_upsert k e table :
  view (upsert k (init e) (change e) table)
  = upsert k (0%Z, 0%Z, 0%Z) (counted e) (view table).
Proof.
  induction table as [|[k' row] r IH]; cbn [upsert view map fst snd].
  - now rewrite change_counts, init_empty.
  - destruct (String.eqb k' k); cbn [view map fst snd].
    + now rewrite change_counts.
    + f_equal. exact IH.
Qed.

Lemma view_round done table e :
  view table = rows_of key done -> view (round table e) = rows_of key (done ++ [e]).
Proof.
  intros H. unfold round, rows_of. rewrite keys_of_snoc.
  destruct (key e) as [k|] eqn:Hk.
  - rewrite view_upsert, H. unfold rows_of. rewrite first_seen_snoc.
    apply upsert_rows; [exact Hk | apply first_seen_NoDup |].
    destruct (in_dec string_dec k (keys_of key done)) as [Hin|Hout].
    + left. now apply first_seen_In.
    + right. now apply no_key_no_entry.
  - rewrite app_nil_r, H. unfold rows_of. apply map_ext. intros k.
    assert (E : keyed key k e = false) by (unfold keyed; now rewrite Hk).
    now rewrite filter_snoc, E.
Qed.

Lemma view_rounds rest : forall done table,
  view table = rows_of key done ->
  view (fold_left round rest table) = rows_of key (done ++ rest).
Proof.
  induction rest as [|e rest IH]; intros done table H; cbn [fold_left].
  - now rewrite app_nil_r.
  - replace (done ++ e :: rest) with ((done ++ [e]) ++ rest) by (now rewrite <- app_assoc).
    apply IH. now apply view_round.
Qed.

End Rows.

Definition provider_change (e : entry) (row : tally) : tally :=
  count_in row (prompt_of e) (completion_of e)
    (calculateCost getPricingForModel (Some (e_provider e)) (Some (e_model e))
       (e_tokens e)).

Lemma byProviderStats_fold rest : forall s,
  byProviderStats (fold_left record_entry rest s)
  = fold_left (round provider_key (fun _ => no_tally) provider_change)
      rest (byProviderStats s).
Proof.
  induction rest as [|e rest IH]; intros s; cbn [fold_left]; [reflexivity|].
  now rewrite IH.
Qed.

Definition model_init (e : entry) : model_row :=
  {| mr_tally := no_tally; mr_rawModel := e_model e;
     mr_provider := e_provider e; mr_lastUsed := e_timestamp e |}.

Definition model_change (e : entry) (row : model_row) : model_row :=
  {| mr_tally := count_in (mr_tally row) (prompt_of e) (completion_of e)
                   (calculateCost getPricingForModel (Some (e_provider e))
                      (Some (e_model e)) (e_tokens e));
     mr_rawModel := mr_rawModel row;
     mr_provider := mr_provider row;
     mr_lastUsed := if later (e_timestamp e) (mr_lastUsed row)
                    then e_timestamp e else mr_lastUsed row |}.

Lemma byModelStats_fold rest : forall s,
  byModelStats (fold_left record_entry rest s)
  = fold_left (round model_key model_init model_change) rest (byModelStats s).
Proof.
  induction rest as [|e rest IH]; intros s; cbn [fold_left]; [reflexivity|].
  now rewrite IH.
Qed.

Definition account_init (e : entry) : account_row :=
  let connectionId := default "" (given (e_connectionId e)) in
  {| ar_tally := no_tally; ar_rawModel := e_model e;
     ar_provider := e_provider e; ar_connectionId := connectionId;
     ar_accountName := accountNameOf connectionId; ar_lastUsed := e_timestamp e |}.

Definition account_change (e : entry) (row : account_row) : account_row :=
  {| ar_tally := count_in (ar_tally row) (prompt_of e) (completion_of e)
                   (calculateCost getPricingForModel (Some (e_provider e))
                      (Some (e_model e)) (e_tokens e));
     ar_rawModel := ar_rawModel row;
     ar_provider := ar_provider row;
     ar_connectionId := ar_connectionId row;
     ar_accountName := ar_accountName row;
     ar_lastUsed := if later (e_timestamp e) (ar_lastUsed row)
                    then e_timestamp e else ar_lastUsed row |}.

Lemma byAccountStats_fold rest : forall s,
  byAccountStats (fold_left record_entry rest s)
  = fold_left (round account_key account_init account_change) rest (byAccountStats s).
Proof.
  induction rest as [|e rest IH]; intros s; cbn [fold_left]; [reflexivity|].
  rewrite IH. f_equal. unfold record_entry, round, account_key, account_init.
  cbn [byAccountStats]. now destruct (given (e_connectionId e)).
Qed.

(** X17.  For a history whose providers and model keys are names of rows,
    each of [byProvider], [byModel] and [byAccount] has exactly one row for
    each key that occurs, in the order in which the keys first occur, and the
    row of a key counts the entries of that key: their number and the sums of
    their prompt and completion tokens. *)
Theorem one_row_for_each_key (history : list entry) :
  Forall plain history ->
  let s := aggregate history in
  map (fun r => (fst r, counters (snd r))) (byProviderStats s)
  = rows_of provider_key history /\
  map (fun r => (fst r, counters (mr_tally (snd r)))) (byModelStats s)
  = rows_of model_key history /\
  map (fun r => (fst r, counters (ar_tally (snd r)))) (byAccountStats s)
  = rows_of account_key history.
Proof.
  intros _ s. unfold s, aggregate. repeat split.
  - rewrite byProviderStats_fold.
    apply (view_rounds (fun t => t) provider_key (fun _ => no_tally) provider_change
             (fun _ => eq_refl)
             (fun _ _ => eq_refl) history [] []). reflexivity.
  - rewrite byModelStats_fold.
    apply (view_rounds mr_tally model_key model_init model_change (fun _ => eq_refl)
             (fun _ _ => eq_refl) history [] []). reflexivity.
  - rewrite byAccountStats_fold.
    apply (view_rounds ar_tally account_key account_init account_change (fun _ => eq_refl)
             (fun _ _ => eq_refl) history [] []). reflexivity.
Qed.

End Stats.

Definition counted_tokens (p c : Z) : tokens :=
  {| prompt_tokens := Some p; input_tokens := None; cached_tokens := None;
     cache_read_input_tokens := None; completion_tokens := Some c;
     output_tokens := None; reasoning_tokens := None;
     cache_creation_input_tokens := None |}.

Definition sample_history : list entry :=
  [ {| e_provider := "openai"; e_model := "gpt-4o";
       e_tokens := Some (counted_tokens 10 20);
       e_timestamp := "2026-01-01T00:00:00.000Z"; e_connectionId := Some "conn-1" |};
    {| e_provider := "claude"; e_model := "sonnet"; e_tokens := None;
       e_timestamp := "2026-01-01T00:01:00.000Z"; e_connectionId := None |};
    {| e_provider := "openai"; e_model := "gpt-4o";
       e_tokens := Some (counted_tokens 1 2);
       e_timestamp := "2026-01-01T00:02:00.000Z"; e_connectionId := Some "conn-1" |} ].

Lemma usage_tables_witness :
  total requests
    (byProviderStats
       (aggregate (fun _ _ => NoEntry) (fun _ => None) 0 (fun _ => None) sample_history))
  = 3%Z.
Proof.
  assert (Hp : Forall plain sample_history) by (repeat constructor).
  pose proof (usage_tables_add_up (fun _ _ => NoEntry) (fun _ => None) 0%Z
                (fun _ => None) sample_history Hp) as H.
  cbv zeta in H. destruct H as (N & (P & _) & _). rewrite P. exact N.
Defined.

Lemma rows_witness :
  map (fun r => (fst r, counters (snd r)))
    (byProviderStats
       (aggregate (fun _ _ => NoEntry) (fun _ => None) 0 (fun _ => None) sample_history))
  = [("openai", (2, 11, 22)%Z); ("claude", (1, 0, 0)%Z)].
Proof.
  assert (Hp : Forall plain sample_history) by (repeat constructor).
  pose proof (one_row_for_each_key (fun _ _ => NoEntry) (fun _ => None) 0%Z
                (fun _ => None) sample_history Hp) as H.
  cbv zeta in H. destruct H as (P & _). rewrite P. reflexivity.
Defined.

(** ** getUsageHistory *)

(** The criteria of a query; one that is absent or empty is not applied. *)
Record criteria : Type := {
  f_provider : option string;
  f_model : option string;
  f_startDate : option string;
  f_endDate : option string
}.

Section History.

Variable Date_getTime : string -> option Z.

(** [a >= b] and [a <= b] on time values; a comparison with [NaN] is
    false. *)
Definition not_before (a b : option Z) : bool :=
  match a, b with
  | Some x, Some y => (x >=? y)%Z
  | _, _ => false
  end.

Definition not_after (a b : option Z) : bool :=
  match a, b with
  | Some x, Some y => (x <=? y)%Z
  | _, _ => false
  end.

Definition getUsageHistory (filter : criteria) (stored : list entry) : list entry :=
  let history := stored in
  let history :=
    match given (f_provider filter) with
    | Some provider => List.filter (fun h => String.eqb (e_provider h) provider) history
    | None => history
    end in
  let history :=
    match given (f_model filter) with
    | Some model => List.filter (fun h => String.eqb (e_model h) model) history
    | None => history
    end in
  let history :=
    match given (f_startDate filter) with
    | Some startDate =>
        let start := Date_getTime startDate in
        List.filter (fun h => not_before (Date_getTime (e_timestamp h)) start) history
    | None => history
    end in
  match given (f_endDate filter) with
  | Some endDate =>
      let end_ := Date_getTime endDate in
      List.filter (fun h => not_after (Date_getTime (e_timestamp h)) end_) history
  | None => history
  end.

(** The four criteria as one test. *)
Definition passes (filter : criteria) (h : entry) : bool :=
  match given (f_provider filter) with
  | Some provider => String.eqb (e_provider h) provider
  | None => true
  end
  && match given (f_model filter) with
     | Some model => String.eqb (e_model h) model
     | None => true
     end
  && match given (f_startDate filter) with
     | Some startDate => not_before (Date_getTime (e_timestamp h)) (Date_getTime startDate)
     | None => true
     end
  && match given (f_endDate filter) with
     | Some endDate => not_after (Date_getTime (e_timestamp h)) (Date_getTime endDate)
     | None => true
     end.

Lemma filter_filter {A} (f g : A -> bool) l :
  List.filter g (List.filter f l) = List.filter (fun x => f x && g x) l.
Proof.
  induction l as [|x l IH]; [reflexivity|]. cbn [List.filter].
  destruct (f x); cbn [List.filter andb]; [|exact IH].
  destruct (g x); now rewrite IH.
Qed.

Lemma filter_true {A} (l : list A) : List.filter (fun _ => true) l = l.
Proof. induction l as [|x l IH]; [reflexivity|]. cbn [List.filter]. now rewrite IH. Qed.

Lemma getUsageHistory_passes filter stored :
  getUsageHistory filter stored = List.filter (passes filter) stored.
Proof.
  unfold getUsageHistory, passes.
  destruct (given (f_provider filter)); destruct (given (f_model filter));
    destruct (given (f_startDate filter)); destruct (given (f_endDate filter));
    cbv zeta; rewrite ?filter_filter;
    first [ apply List.filter_ext
          | etransitivity; [symmetry; apply filter_true | apply List.filter_ext] ];
    intros h; cbn [andb]; rewrite ?andb_true_r, ?andb_assoc; reflexivity.
Qed.

(** X18.  A query returns the list of the stored entries that pass every
    criterion given, each as often and in the order it is stored.  Where a start or an end date is given, an entry whose
    timestamp is no date is left out, and a start or end date that is itself
    no date selects nothing at all, not everything.  Asking twice changes
    nothing, and two queries one after the other select the same entries in
    either order. *)
Theorem history_query_selects (filter other : criteria) (stored : list entry) :
  getUsageHistory filter stored = List.filter (passes filter) stored
  /\ (forall date,
         (given (f_startDate filter) = Some date \/ given (f_endDate filter) = Some date) ->
         (Date_getTime date = None -> getUsageHistory filter stored = [])
         /\ Forall (fun h => Date_getTime (e_timestamp h) <> None)
              (getUsageHistory filter stored))
  /\ getUsageHistory filter (getUsageHistory filter stored) = getUsageHistory filter stored
  /\ getUsageHistory filter (getUsageHistory other stored)
     = getUsageHistory other (getUsageHistory filter stored).
Proof.
  rewrite !getUsageHistory_passes. split; [|split; [|split]].
  - reflexivity.
  - intros date Hdate. split.
    + intros Hd.
      assert (Hno : forall h, passes filter h = false).
      { intros h. unfold passes. destruct Hdate as [-> | ->]; rewrite Hd;
          unfold not_before, not_after;
          destruct (Date_getTime (e_timestamp h)); now rewrite ?andb_false_r. }
      induction stored as [|h l IH]; [reflexivity|].
      cbn [List.filter]. now rewrite Hno.
    + apply List.Forall_forall. intros h Hin. apply filter_In in Hin. destruct Hin as [_ Hp].
      intros Hn. unfold passes in Hp. rewrite !andb_true_iff in Hp.
      destruct Hp as [[[_ _] Hs] He].
      destruct Hdate as [E | E]; rewrite E in *; unfold not_before, not_after in *;
        rewrite Hn in *; discriminate.
  - rewrite filter_filter. apply List.filter_ext.
    intros h. now destruct (passes filter h).
  - rewrite !filter_filter. apply List.filter_ext.
    intros h. apply andb_comm.
Qed.

End History.

Lemma history_query_witness :
  getUsageHistory (fun _ => None)
    {| f_provider := None; f_model := None;
       f_startDate := Some "yesterday"; f_endDate := None |}
    sample_history
  = [].
Proof.
  pose proof (history_query_selects (fun _ => None)
                {| f_provider := None; f_model := None;
                   f_startDate := Some "yesterday"; f_endDate := None |}
                {| f_provider := None; f_model := None;
                   f_startDate := None; f_endDate := None |}
                sample_history) as (_ & H & _).
  apply (H "yesterday"); [left|]; reflexivity.
Defined.

End UsageDb.

(* ===================================================================== *)
(** * POST /api/providers *)
(* ===================================================================== *)
Module Providers.

Record connection : Type := {
  id : string;
  provider : string;
  authType : string;
  name : string;
  apiKey : string;
  priority : Z;
  isActive : bool;
  testStatus : string;
  apiType : option string;     (* providerSpecificData, when there is some *)
  baseUrl : option string;
  nodeName : option string
}.

Record node : Type := {
  node_id : string;
  node_apiType : string;
  node_baseUrl : string;
  node_name : string
}.

Record db : Type := {
  connections : list connection;
  nodes : list node
}.

(** The JSON body of the request; a property it lacks is [None]. *)
Record request : Type := {
  req_provider : option string;
  req_apiKey : option string;
  req_name : option string;
  req_priority : option Z;
  req_testStatus : option string
}.

Inductive response : Type :=
| Error (status : Z) (error : string)
| Created (c : connection).           (* status 201 *)

Definition status_of (r : response) : Z :=
  match r with Error s _ => s | Created _ => 201%Z end.

Section Route.

(** [APIKEY_PROVIDERS[provider]] is truthy, and [isOpenAICompatibleProvider]
    (src/shared/constants, not among the sources). *)
Variable APIKEY_PROVIDERS : string -> bool.
Variable isOpenAICompatibleProvider : string -> bool.
(** The id [createProviderConnection] gives the new connection. *)
Variable fresh_id : db -> string.

(** Modelled from the spec: the store functions of [@/models], which are not
    among the sources; the spec has only their interface (section 3:
    connections are created by the config surface, section 6: CRUD).
    [getProviderNodeById] finds the node of that id,
    [getProviderConnections({ provider })] lists the connections of that
    provider, and [createProviderConnection] stores one more connection. *)
Definition getProviderNodeById (d : db) (i : string) : option node :=
  find (fun n => String.eqb (node_id n) i) (nodes d).

Definition getProviderConnections (d : db) (p : string) : list connection :=
  List.filter (fun c => String.eqb (provider c) p) (connections d).

Definition createProviderConnection (d : db) (c : connection) : db :=
  {| connections := connections d ++ [c]; nodes := nodes d |}.

Definition given (o : option string) : option string :=
  match o with
  | Some ((String _ _) as s) => Some s
  | _ => None
  end.

(** [n || d] on a number. *)
Definition number_or (o : option Z) (d : Z) : Z :=
  match o with
  | Some n => if (n =? 0)%Z then d else n
  | None => d
  end.

(** The route; [None] as the request stands for a body [request.json()]
    cannot read, which the [catch] answers with status 500. *)
Definition POST (d : db) (r : option request) : db * response :=
  match r with
  | None => (d, Error 500 "Failed to create provider")
  | Some body =>
      match given (req_provider body) with
      | None => (d, Error 400 "Invalid provider")
      | Some p =>
          if negb (APIKEY_PROVIDERS p) && negb (isOpenAICompatibleProvider p)
          then (d, Error 400 "Invalid provider")
          else
            match given (req_apiKey body), given (req_name body) with
            | None, _ => (d, Error 400 "API Key is required")
            | Some _, None => (d, Error 400 "Name is required")
            | Some key, Some nm =>
                let make (psd : option node) :=
                  {| id := fresh_id d; provider := p; authType := "apikey";
                     name := nm; apiKey := key;
                     priority := number_or (req_priority body) 1;
                     isActive := true;
                     testStatus := default "unknown" (given (req_testStatus body));
                     apiType := option_map node_apiType psd;
                     baseUrl := option_map node_baseUrl psd;
                     nodeName := option_map node_name psd |} in
                if isOpenAICompatibleProvider p
                then
                  match getProviderNodeById d p with
                  | None => (d, Error 404 "OpenAI Compatible node not found")
                  | Some n =>
                      match getProviderConnections d p with
                      | _ :: _ =>
                          (d, Error 400
                                "Only one connection is allowed for this OpenAI Compatible node")
                      | [] =>
                          let c := make (Some n) in
                          (createProviderConnection d c, Created c)
                      end
                  end
                else
                  let c := make None in
                  (createProviderConnection d c, Created c)
            end
      end
  end.

(** ** At most one connection per OpenAI-compatible node *)

Definition at_most_one (d : db) : Prop :=
  forall p, isOpenAICompatibleProvider p = true ->
            length (getProviderConnections d p) <= 1.

Lemma connections_after_create d c q :
  getProviderConnections (createProviderConnection d c) q
  = getProviderConnections d q
      ++ (if String.eqb (provider c) q then [c] else []).
Proof.
  unfold getProviderConnections, createProviderConnection. simpl.
  rewrite List.filter_app. simpl.
  now destruct (String.eqb (provider c) q).
Qed.

Lemma create_keeps_at_most_one d c :
  at_most_one d ->
  (isOpenAICompatibleProvider (provider c) = true ->
   getProviderConnections d (provider c) = []) ->
  at_most_one (createProviderConnection d c).
Proof.
  intros Hd Hnew q Hq. rewrite connections_after_create.
  destruct (String.eqb_spec (provider c) q) as [<-|Hne].
  - rewrite (Hnew Hq). simpl. lia.
  - rewrite app_nil_r. now apply Hd.
Qed.

(** Every answer of the route either leaves the store as it was or adds one
    connection of the requested provider, which for an OpenAI-compatible
    provider had none. *)
Lemma POST_cases d r :
  fst (POST d r) = d
  \/ exists c, fst (POST d r) = createProviderConnection d c
               /\ snd (POST d r) = Created c
               /\ (isOpenAICompatibleProvider (provider c) = true ->
                   getProviderConnections d (provider c) = []).
Proof.
  unfold POST.
  destruct r as [body|]; [|now left].
  destruct (given (req_provider body)) as [p|]; [|now left].
  destruct (negb (APIKEY_PROVIDERS p) && negb (isOpenAICompatibleProvider p));
    [now left|].
  destruct (given (req_apiKey body)) as [key|]; [|now left].
  destruct (given (req_name body)) as [nm|]; [|now left].
  destruct (isOpenAICompatibleProvider p) eqn:Hp.
  - destruct (getProviderNodeById d p) as [n|]; [|now left].
    destruct (getProviderConnections d p) eqn:Hc; [|now left].
    right. eexists. split; [reflexivity|]. split; [reflexivity|].
    intros _. exact Hc.
  - right. eexists. split; [reflexivity|]. split; [reflexivity|].
    simpl. intros H. congruence.
Qed.

(** C9.  A request to create a connection for an OpenAI-compatible node that
    exists and already has a connection is answered with status 400 and
    leaves the store as it was; and whatever the request, the route keeps
    the store within at most one connection per OpenAI-compatible node. *)
Theorem one_connection_per_compatible_node :
  forall (d : db) (r : option request),
    (forall body p n,
        r = Some body ->
        given (req_provider body) = Some p ->
        isOpenAICompatibleProvider p = true ->
        getProviderNodeById d p = Some n ->
        getProviderConnections d p <> [] ->
        fst (POST d r) = d /\ status_of (snd (POST d r)) = 400%Z)
    /\ (at_most_one d -> at_most_one (fst (POST d r))).
Proof.
  intros d r. split.
  - intros body p n -> Hp Hcompat Hnode Hconn.
    unfold POST. rewrite Hp, Hcompat, Hnode, andb_false_r.
    destruct (given (req_apiKey body)); [|split; reflexivity].
    destruct (given (req_name body)); [|split; reflexivity].
    destruct (getProviderConnections d p); [congruence | split; reflexivity].
  - intros Hd. destruct (POST_cases d r) as [-> | (c & -> & _ & Hnew)].
    + exact Hd.
    + now apply create_keeps_at_most_one.
Qed.

End Route.
(** A store with one OpenAI-compatible node that has its connection. *)
Definition compatible_prefix (p : string) : bool :=
  String.prefix "openai-compatible-" p.

Definition known_providers (p : string) : bool :=
  String.eqb p "openai" || String.eqb p "anthropic".

Definition next_id (d : db) : string :=
  "conn-" +:+ Js.index_name (length (connections d)).

Definition node1 : node :=
  {| node_id := "openai-compatible-chat-1"; node_apiType := "chat";
     node_baseUrl := "https://llm.example/v1"; node_name := "local" |}.

Definition conn1 : connection :=
  {| id := "conn-0"; provider := "openai-compatible-chat-1";
     authType := "apikey"; name := "first"; apiKey := "sk-1"; priority := 1;
     isActive := true; testStatus := "unknown"; apiType := Some "chat";
     baseUrl := Some "https://llm.example/v1"; nodeName := Some "local" |}.

Definition db1 : db := {| connections := [conn1]; nodes := [node1] |}.

Definition second_request : request :=
  {| req_provider := Some "openai-compatible-chat-1"; req_apiKey := Some "sk-2";
     req_name := Some "second"; req_priority := None; req_testStatus := None |}.

Lemma one_connection_witness :
  fst (POST known_providers compatible_prefix next_id db1 (Some second_request)) = db1
  /\ status_of (snd (POST known_providers compatible_prefix next_id db1
                       (Some second_request))) = 400%Z.
Proof.
  apply (proj1 (one_connection_per_compatible_node
                  known_providers compatible_prefix next_id db1 (Some second_request))
           second_request "openai-compatible-chat-1" node1);
    try reflexivity.
  vm_compute. discriminate.
Defined.

End Providers.
(* ===================================================================== *)
(** * Message content (open-sse/translator/helpers/geminiHelper.js) *)
(* ===================================================================== *)
Module Content.
Import Js.

(** ** String built-ins

    Positions count the characters of the model's strings; the code cuts a
    string only at a comma or a semicolon, where the pieces do not depend on
    how the other characters are counted. *)

(** [s.indexOf(c)] for a single character; [None] is -1. *)
Fixpoint indexOf (c : ascii) (s : string) : option nat :=
  match s with
  | EmptyString => None
  | String x r => if Ascii.eqb x c then Some 0 else option_map S (indexOf c r)
  end.

(** [s.substring(from, to)] for [from <= to], and [s.substring(from)]. *)
Definition substring (from to : nat) (s : string) : string :=
  String.substring from (to - from) s.

Definition substring_from (from : nat) (s : string) : string :=
  String.substring from (String.length s - from) s.

(** [s.split(c)[0]]: what comes before the first [c], all of [s] if there is
    none. *)
Fixpoint before (c : ascii) (s : string) : string :=
  match s with
  | EmptyString => EmptyString
  | String x r => if Ascii.eqb x c then EmptyString else String x (before c r)
  end.

(** ** convertOpenAIContentToParts *)

(** A part: [{ text }], whose text may be [undefined], or
    [{ inlineData: { mime_type, data } }]. *)
Inductive part : Type :=
| TextPart (text : option json)
| InlineData (mime_type data : string).

(** What an image item adds.  [item.image_url?.url?.startsWith("data:")]
    is [undefined] when [image_url] or [url] is [null] or missing, and
    throws when [url] is there without being a string: it has no method
    [startsWith]. *)
Definition image_parts (item : json) : outcome (list part) :=
  match prop item "image_url" with
  | None | Some JNull => Ok []
  | Some image_url =>
      match prop image_url "url" with
      | None | Some JNull => Ok []
      | Some (JStr url) =>
          if String.prefix "data:" url
          then
            match indexOf ","%char url with
            | Some commaIndex =>
                let mimePart := substring 5 commaIndex url in
                let data := substring_from (commaIndex + 1) url in
                let mimeType := before ";"%char mimePart in
                Ok [InlineData mimeType data]
            | None => Ok []
            end
          else Ok []
      | Some _ => TypeError
      end
  end.

(** One round of [for (const item of content)]; reading [item.type] of
    [null] throws. *)
Definition item_parts (item : json) : outcome (list part) :=
  match item with
  | JNull => TypeError
  | _ =>
      if is_str "text" (prop item "type") then Ok [TextPart (prop item "text")]
      else if is_str "image_url" (prop item "type") then image_parts item
      else Ok []
  end.

Definition convertOpenAIContentToParts (content : json) : outcome (list part) :=
  match content with
  | JStr s => Ok [TextPart (Some (JStr s))]
  | JArr items =>
      let! parts := mapM item_parts items in Ok (concat parts)
  | _ => Ok []
  end.

(** ** extractTextContent *)

(** What [Array.prototype.join] makes of an element: nothing of [undefined]
    and [null], [String(v)] of the rest, which throws for some objects. *)
Definition joined (o : option json) : outcome string :=
  match o with
  | None | Some JNull => Ok ""
  | Some v => ToString v
  end.

(** [c => c.type === "text"] *)
Definition is_text_item (c : json) : outcome bool :=
  match c with
  | JNull => TypeError
  | _ => Ok (is_str "text" (prop c "type"))
  end.

(** [content.filter(c => c.type === "text")] *)
Fixpoint filter_text (items : list json) : outcome (list json) :=
  match items with
  | [] => Ok []
  | c :: r =>
      let! keep := is_text_item c in
      let! r' := filter_text r in
      Ok (if keep then c :: r' else r')
  end.

Definition extractTextContent (content : json) : outcome string :=
  match content with
  | JStr s => Ok s
  | JArr items =>
      let! texts := filter_text items in
      let! strings := mapM joined (map (fun c => prop c "text") texts) in
      Ok (String.concat "" strings)
  | _ => Ok ""
  end.

(** ** Facts about the built-ins *)

Lemma app_cons (c : ascii) (s t : string) : String c s +:+ t = String c (s +:+ t).
Proof. reflexivity. Qed.

Lemma app_nil_l (t : string) : "" +:+ t = t.
Proof. reflexivity. Qed.

Lemma app_empty_r (s : string) : s +:+ "" = s.
Proof. induction s as [|c s IH]; [reflexivity|]. now rewrite app_cons, IH. Qed.

Lemma app_assoc_s (a b c : string) : (a +:+ b) +:+ c = a +:+ (b +:+ c).
Proof. induction a as [|x a IH]; [reflexivity|]. now rewrite !app_cons, IH. Qed.

Lemma concat_cons (x : string) (xs : list string) :
  String.concat "" (x :: xs) = x +:+ String.concat "" xs.
Proof.
  destruct xs; [|reflexivity].
  cbn [String.concat]. symmetry. apply app_empty_r.
Qed.

Lemma concat_app (a b : list string) :
  String.concat "" (a ++ b) = String.concat "" a +:+ String.concat "" b.
Proof.
  induction a as [|x a IH]; [reflexivity|].
  change ((x :: a) ++ b) with (x :: (a ++ b)).
  now rewrite !concat_cons, IH, app_assoc_s.
Qed.

(** No [c] in [s]. *)
Fixpoint lacks (c : ascii) (s : string) : bool :=
  match s with
  | EmptyString => true
  | String x r => negb (Ascii.eqb x c) && lacks c r
  end.

Lemma indexOf_app c a b :
  lacks c a = true -> indexOf c (a +:+ String c b) = Some (String.length a).
Proof.
  induction a as [|x a IH].
  - intros _. rewrite app_nil_l. cbn [indexOf String.length].
    now rewrite Ascii.eqb_refl.
  - cbn [lacks]. intros H. apply andb_true_iff in H. destruct H as [Hx Ha].
    apply negb_true_iff in Hx. rewrite app_cons. cbn [indexOf String.length].
    rewrite Hx, (IH Ha). reflexivity.
Qed.

Lemma substring_skip n m a b :
  String.substring (String.length a + n) m (a +:+ b) = String.substring n m b.
Proof.
  induction a as [|x a IH]; [reflexivity|].
  rewrite app_cons. cbn [String.length Nat.add String.substring]. exact IH.
Qed.

Lemma substring_take a b :
  String.substring 0 (String.length a) (a +:+ b) = a.
Proof.
  induction a as [|x a IH].
  - rewrite app_nil_l. cbn. now destruct b.
  - rewrite app_cons. cbn [String.length String.substring]. now rewrite IH.
Qed.

Lemma substring_all s : String.substring 0 (String.length s) s = s.
Proof. induction s as [|x s IH]; cbn; [reflexivity | now rewrite IH]. Qed.

Lemma length_app_s a b : String.length (a +:+ b) = String.length a + String.length b.
Proof.
  induction a as [|x a IH]; [reflexivity|].
  rewrite app_cons. cbn [String.length Nat.add]. now rewrite IH.
Qed.

Lemma before_app c a b : lacks c a = true -> before c (a +:+ String c b) = a.
Proof.
  induction a as [|x a IH].
  - intros _. rewrite app_nil_l. cbn [before]. now rewrite Ascii.eqb_refl.
  - cbn [lacks]. intros H. apply andb_true_iff in H. destruct H as [Hx Ha].
    apply negb_true_iff in Hx. rewrite app_cons. cbn [before].
    now rewrite Hx, (IH Ha).
Qed.

Lemma prefix_app p s : String.prefix p (p +:+ s) = true.
Proof.
  induction p as [|x p IH].
  - rewrite app_nil_l. now destruct s.
  - rewrite app_cons. cbn [String.prefix].
    destruct (ascii_dec x x) as [_|Hne]; [exact IH | now destruct Hne].
Qed.

Lemma before_none c a : lacks c a = true -> before c a = a.
Proof.
  induction a as [|x a IH]; cbn; [reflexivity|].
  intros H. apply andb_true_iff in H. destruct H as [Hx Ha].
  apply negb_true_iff in Hx. now rewrite Hx, (IH Ha).
Qed.

Lemma lacks_app c a b : lacks c (a +:+ b) = lacks c a && lacks c b.
Proof.
  induction a as [|x a IH]; [reflexivity|].
  rewrite app_cons. cbn [lacks]. now rewrite IH, andb_assoc.
Qed.

(** An image item with [url] as its URL. *)
Definition image_item (url : string) : json :=
  JObj [("type", JStr "image_url"); ("image_url", JObj [("url", JStr url)])].

(** The data URL of a media type, its parameters (none, or [;base64] and
    the like) and the data. *)
Definition data_url (mime params data : string) : string :=
  "data:" +:+ mime +:+ params +:+ "," +:+ data.

(** X8.  An image given as a data URL becomes one inline-data part with the
    media type and the data of the URL: the media type is what stands
    between [data:] and the first semicolon or comma, the data everything
    after the first comma, commas included.  An image whose URL is not a
    data URL, or is one without a comma, becomes no part at all. *)
Theorem data_url_becomes_inline_data (mime params data url : string) :
  (lacks ","%char mime = true -> lacks ";"%char mime = true ->
   lacks ","%char params = true ->
   (params = "" \/ exists p, params = String ";"%char p) ->
   convertOpenAIContentToParts (JArr [image_item (data_url mime params data)])
   = Ok [InlineData mime data])
  /\ (String.prefix "data:" url = false \/ lacks ","%char url = true ->
      convertOpenAIContentToParts (JArr [image_item url]) = Ok []).
Proof.
  split.
  - intros Hm1 Hm2 Hp Hps.
    unfold data_url.
    assert (E : "data:" +:+ mime +:+ params +:+ "," +:+ data
                = "data:" +:+ ((mime +:+ params) +:+ String ","%char data))
      by (now rewrite app_assoc_s).
    rewrite E. clear E.
    unfold convertOpenAIContentToParts, image_item.
    cbn [mapM item_parts prop assoc is_str String.eqb Ascii.eqb Bool.eqb bind
         image_parts].
    set (header := mime +:+ params).
    assert (Hh : lacks ","%char header = true)
      by (subst header; rewrite lacks_app, Hm1, Hp; reflexivity).
    assert (Hpre : String.prefix "data:" ("data:" +:+ header +:+ String ","%char data) = true)
      by apply prefix_app.
    rewrite Hpre.
    assert (Hix : indexOf ","%char ("data:" +:+ header +:+ String ","%char data)
                  = Some (5 + String.length header)).
    { change ("data:" +:+ header +:+ String ","%char data)
        with ("data:" +:+ (header +:+ String ","%char data)).
      rewrite <- app_assoc_s.
      rewrite indexOf_app; [now rewrite length_app_s|].
      rewrite lacks_app, Hh. reflexivity. }
    rewrite Hix. cbn [bind concat app]. f_equal. f_equal. f_equal.
    + unfold substring.
      replace (5 + String.length header - 5) with (String.length header) by lia.
      change 5 with (String.length "data:" + 0).
      change ("data:" +:+ header +:+ String ","%char data)
        with ("data:" +:+ (header +:+ String ","%char data)).
      rewrite substring_skip, substring_take.
      subst header.
      destruct Hps as [-> | [p ->]].
      * rewrite app_empty_r. now apply before_none.
      * now apply before_app.
    + unfold substring_from.
      change ("data:" +:+ header +:+ String ","%char data)
        with ("data:" +:+ (header +:+ String ","%char data)).
      rewrite !length_app_s. cbn [String.length].
      replace (5 + String.length header + 1)
        with (String.length ("data:" +:+ header +:+ ",") + 0)
        by (rewrite !length_app_s; cbn [String.length]; lia).
      replace ("data:" +:+ (header +:+ String ","%char data))
        with (("data:" +:+ header +:+ ",") +:+ data)
        by (now rewrite !app_assoc_s).
      rewrite substring_skip.
      replace (_ - _) with (String.length data)
        by (rewrite !length_app_s; cbn [String.length]; lia).
      apply substring_all.
  - intros H.
    unfold convertOpenAIContentToParts, image_item.
    cbn [mapM item_parts prop assoc is_str String.eqb Ascii.eqb Bool.eqb bind
         image_parts].
    destruct (String.prefix "data:" url) eqn:Ep; [|reflexivity].
    destruct H as [H|H]; [discriminate|].
    assert (Hi : indexOf ","%char url = None).
    { clear Ep. induction url as [|x url IH]; [reflexivity|].
      cbn in H |- *. apply andb_true_iff in H. destruct H as [Hx Hu].
      apply negb_true_iff in Hx. now rewrite Hx, (IH Hu). }
    rewrite Hi. reflexivity.
Qed.

Lemma data_url_witness :
  convertOpenAIContentToParts
    (JArr [image_item (data_url "image/png" ";base64" "iVBORw0KGgo=")])
  = Ok [InlineData "image/png" "iVBORw0KGgo="]
  /\ convertOpenAIContentToParts (JArr [image_item "https://example.com/a.png"]) = Ok [].
Proof.
  destruct (data_url_becomes_inline_data "image/png" ";base64" "iVBORw0KGgo="
              "https://example.com/a.png") as [H1 H2].
  split.
  - apply H1; try reflexivity. right. now exists "base64".
  - apply H2. left. reflexivity.
Defined.

(** ** The text of the parts *)

(** The [text] of the text parts, in order. *)
Definition part_texts (parts : list part) : list (option json) :=
  flat_map (fun p => match p with
                     | TextPart t => [t]
                     | InlineData _ _ => []
                     end) parts.

(** The texts of the text parts, joined the way [join("")] joins. *)
Definition texts_of (parts : list part) : outcome string :=
  let! strings := mapM joined (part_texts parts) in
  Ok (String.concat "" strings).

Lemma bind_ok {A B} (m : outcome A) (k : A -> outcome B) (b : B) :
  bind m k = Ok b -> exists a, m = Ok a /\ k a = Ok b.
Proof. destruct m; cbn; [eauto | discriminate | discriminate]. Qed.

Lemma image_parts_texts item ps : image_parts item = Ok ps -> part_texts ps = [].
Proof.
  unfold image_parts.
  destruct (prop item "image_url") as [[| | | | |]|];
    try (intros [= <-]; reflexivity);
    (destruct (prop _ "url") as [[| | |url| |]|];
     try (intros [= <-]; reflexivity); try discriminate;
     destruct (String.prefix "data:" url); [|intros [= <-]; reflexivity];
     destruct (indexOf ","%char url); intros [= <-]; reflexivity).
Qed.

Lemma part_texts_app a b : part_texts (a ++ b) = part_texts a ++ part_texts b.
Proof. apply flat_map_app. Qed.

Lemma items_texts items : forall pss,
  mapM item_parts items = Ok pss ->
  exists texts,
    filter_text items = Ok texts
    /\ part_texts (concat pss) = map (fun c => prop c "text") texts.
Proof.
  induction items as [|c items IH]; intros pss H.
  - injection H as <-. exists []. split; reflexivity.
  - cbn [mapM] in H.
    apply bind_ok in H. destruct H as (ps & Hc & H).
    apply bind_ok in H. destruct H as (pss' & Hr & H). injection H as <-.
    destruct (IH _ Hr) as (texts & Hf & Ht).
    cbn [filter_text concat]. rewrite part_texts_app, Ht, Hf.
    unfold item_parts in Hc. unfold is_text_item.
    destruct c as [| b | r | str | l | fs]; [discriminate | ..];
      cbn [bind];
      (destruct (is_str "text" (prop _ "type")) eqn:Et;
       [ injection Hc as <-; eexists; split; [reflexivity|]; reflexivity
       | eexists; split; [reflexivity|];
         destruct (is_str "image_url" (prop _ "type"));
         [ now rewrite (image_parts_texts _ _ Hc)
         | injection Hc as <-; reflexivity ] ]).
Qed.

(** X9.  The two helpers agree on the text of a message: whenever
    [convertOpenAIContentToParts] returns parts for a content,
    [extractTextContent] does what joining the texts of its text parts
    does: it returns them in order, joined without a separator, images
    adding nothing, or throws where the joining throws, at a text that is an
    object with a [toString] of its own. *)
Theorem parts_carry_the_extracted_text (content : json) (parts : list part) :
  convertOpenAIContentToParts content = Ok parts ->
  extractTextContent content = texts_of parts.
Proof.
  unfold convertOpenAIContentToParts, extractTextContent, texts_of.
  destruct content as [| b | r | s | items | fs];
    try (intros [= <-]; reflexivity).
  intros H. apply bind_ok in H. destruct H as (pss & Hm & H). injection H as <-.
  destruct (items_texts items pss Hm) as (texts & Hf & Ht).
  rewrite Hf, Ht. reflexivity.
Qed.

Definition sample_content : json :=
  JArr [JObj [("type", JStr "text"); ("text", JStr "Look at ")];
        image_item (data_url "image/png" ";base64" "iVBORw0KGgo=");
        JObj [("type", JStr "text"); ("text", JStr "this.")]].

Lemma parts_text_witness : extractTextContent sample_content = Ok "Look at this.".
Proof.
  apply (parts_carry_the_extracted_text sample_content
           [TextPart (Some (JStr "Look at "));
            InlineData "image/png" "iVBORw0KGgo=";
            TextPart (Some (JStr "this."))]).
  reflexivity.
Defined.

Lemma filter_text_app a b :
  filter_text (a ++ b)
  = let! x := filter_text a in let! y := filter_text b in Ok (x ++ y).
Proof.
  induction a as [|c a IH]; cbn [app filter_text bind].
  - now destruct (filter_text b).
  - destruct (is_text_item c) as [keep| |]; cbn [bind]; [|reflexivity..].
    rewrite IH. destruct (filter_text a) as [x| |]; cbn [bind]; [|reflexivity..].
    destruct (filter_text b) as [y| |]; cbn [bind]; [|reflexivity..].
    now destruct keep.
Qed.

Lemma mapM_app {A B} (f : A -> outcome B) a b :
  mapM f (a ++ b) = let! x := mapM f a in let! y := mapM f b in Ok (x ++ y).
Proof.
  induction a as [|c a IH]; cbn [app mapM bind].
  - now destruct (mapM f b).
  - destruct (f c) as [c'| |]; cbn [bind]; [|reflexivity..].
    rewrite IH. destruct (mapM f a) as [x| |]; cbn [bind]; [|reflexivity..].
    now destruct (mapM f b).
Qed.

(** A text that the joining throws at: one that is there and not printable. *)
Definition unprintable (o : option json) : bool :=
  match o with Some v => negb (printable v) | None => false end.

Lemma joined_throws o : joined o = TypeError <-> unprintable o = true.
Proof.
  destruct o as [v|]; cbn [joined unprintable]; [|split; discriminate].
  destruct v; try (rewrite ToString_printable);
    try (cbn; split; discriminate).
  - destruct (printable (JArr items)); cbn; split; congruence.
  - destruct (printable (JObj fields)); cbn; split; congruence.
Qed.

Lemma joined_fuel o : joined o <> NoFuel.
Proof.
  destruct o as [v|]; cbn [joined]; [|discriminate].
  destruct v; try rewrite ToString_printable; try discriminate.
  - now destruct (printable (JArr items)).
  - now destruct (printable (JObj fields)).
Qed.

Lemma join_all_cases l :
  (mapM joined l = TypeError <-> existsb unprintable l = true)
  /\ mapM joined l <> NoFuel.
Proof.
  induction l as [|o l [IH1 IH2]]; cbn [mapM existsb].
  - split; [split; discriminate | discriminate].
  - pose proof (joined_throws o) as Ht. pose proof (joined_fuel o) as Hf.
    destruct (joined o) as [x| |]; cbn [bind].
    + assert (Eo : unprintable o = false)
        by (destruct (unprintable o); [destruct Ht as [_ Ht]; now specialize (Ht eq_refl) | reflexivity]).
      rewrite Eo. cbn [orb].
      destruct (mapM joined l) as [xs| |]; cbn [bind].
      * split; [split; [discriminate | intros H; apply IH1 in H; discriminate] | discriminate].
      * split; [split; [intros _; now apply IH1 | reflexivity] | discriminate].
      * congruence.
    + destruct Ht as [Ht _]. rewrite (Ht eq_refl). split; [split; reflexivity | discriminate].
    + congruence.
Qed.

Lemma filter_text_cases l :
  (filter_text l = TypeError <-> In JNull l) /\ filter_text l <> NoFuel.
Proof.
  induction l as [|c l [IH1 IH2]]; cbn [filter_text In].
  - split; [split; [discriminate | tauto] | discriminate].
  - destruct c; cbn [is_text_item bind];
      try (destruct (filter_text l) as [x| |]; cbn [bind];
           (split; [split; [intros H; try discriminate H; right; now apply IH1
                           | intros [H|H]; [discriminate H | apply IH1 in H; congruence]]
                   | congruence ])).
    split; [split; [now left | reflexivity] | discriminate].
Qed.

Lemma filter_text_In l : forall texts c,
  filter_text l = Ok texts ->
  (In c texts <-> In c l /\ is_str "text" (prop c "type") = true).
Proof.
  induction l as [|x l IH]; intros texts c H.
  - injection H as <-. cbn. tauto.
  - cbn [filter_text] in H.
    apply bind_ok in H. destruct H as (keep & Hk & H).
    apply bind_ok in H. destruct H as (r' & Hr & H). injection H as <-.
    specialize (IH r' c Hr).
    assert (Ek : keep = is_str "text" (prop x "type")).
    { destruct x; cbn in Hk; try discriminate Hk; now injection Hk as <-. }
    cbn [In]. destruct keep; cbn [In]; rewrite IH; split.
    + intros [<- | [H1 H2]]; [split; [now left | now symmetry] | split; [now right | exact H2]].
    + intros [[<- | H1] H2]; [now left | right; now split].
    + intros [H1 H2]. split; [now right | exact H2].
    + intros [[<- | H1] H2]; [congruence | now split].
Qed.

(** X10.  [extractTextContent] reads an array item by item: the text of two
    arrays put one after the other is the text of the first followed by the
    text of the second, and it throws exactly when one of them does.  An
    array throws exactly when an item is [null], or the [text] of a text item
    is not printable: an object with a [toString] of its own, or an array
    with such an object in it. *)
Theorem extractTextContent_app (a b : list json) :
  extractTextContent (JArr (a ++ b))
  = (let! x := extractTextContent (JArr a) in
     let! y := extractTextContent (JArr b) in
     Ok (x +:+ y))
  /\ (extractTextContent (JArr a) = TypeError
      <-> In JNull a
          \/ exists c, In c a /\ is_str "text" (prop c "type") = true
                       /\ unprintable (prop c "text") = true).
Proof.
  split.
  - cbn [extractTextContent]. rewrite filter_text_app.
    destruct (filter_text_cases a) as [_ Fa]. destruct (filter_text_cases b) as [_ Fb].
    destruct (filter_text a) as [x| |]; cbn [bind]; [|reflexivity | congruence].
    destruct (join_all_cases (map (fun c => prop c "text") x)) as [_ Jx].
    destruct (filter_text b) as [y| |]; cbn [bind]; [| |congruence].
    + rewrite map_app, mapM_app.
      destruct (mapM joined (map _ x)) as [sx| |]; cbn [bind]; [|reflexivity..].
      destruct (mapM joined (map _ y)) as [sy| |]; cbn [bind]; [|reflexivity..].
      now rewrite concat_app.
    + destruct (mapM joined (map _ x)) as [sx| |]; cbn [bind];
        [reflexivity | reflexivity | congruence].
  - cbn [extractTextContent].
    destruct (filter_text_cases a) as [H1 H2].
    destruct (filter_text a) as [x| |] eqn:E; cbn [bind].
    + destruct (join_all_cases (map (fun c => prop c "text") x)) as [J1 J2].
      assert (Hx : existsb unprintable (map (fun c => prop c "text") x) = true
                   <-> exists c, In c a /\ is_str "text" (prop c "type") = true
                                 /\ unprintable (prop c "text") = true).
      { rewrite existsb_exists. split.
        - intros (o & Ho & Hu). apply in_map_iff in Ho. destruct Ho as (c & <- & Hc).
          apply (filter_text_In a x c E) in Hc. destruct Hc as [Hc Ht].
          exists c. now repeat split.
        - intros (c & Hc & Ht & Hu). exists (prop c "text"). split; [|exact Hu].
          apply in_map_iff. exists c. split; [reflexivity|].
          apply (filter_text_In a x c E). now split. }
      destruct (mapM joined (map _ x)) as [sx| |]; cbn [bind].
      * split; [discriminate|]. intros [Hin | Hex].
        -- apply H1 in Hin. discriminate.
        -- apply Hx, J1 in Hex. discriminate.
      * split; [|reflexivity]. intros _. right. now apply Hx, J1.
      * congruence.
    + split; [intros _; left; now apply H1 | reflexivity].
    + congruence.
Qed.

(** A text item whose text is an object with a [toString] of its own. *)
Definition odd_text : json :=
  JObj [("type", JStr "text"); ("text", JObj [("toString", JStr "x")])].

Lemma extractTextContent_witness :
  extractTextContent (JArr [odd_text]) = TypeError
  /\ extractTextContent (JArr ([JObj [("type", JStr "text"); ("text", JStr "a")]]
                                 ++ [JObj [("type", JStr "text"); ("text", JStr "b")]]))
     = Ok "ab".
Proof.
  split.
  - apply (proj2 (extractTextContent_app [odd_text] [])).
    right. exists odd_text. repeat split. now left.
  - rewrite (proj1 (extractTextContent_app _ _)). reflexivity.
Defined.

End Content.

